(** * Hypergraph diagrams: a shallow embedding of [discopy/hypergraph.py]

    The development follows the Python class [Hypergraph]: its constructor
    with the canonical relabelling of spiders, the derived port indexing
    ([ports], [box_wires], [spider_wires]), the composition algebra
    ([id], [then], [tensor], [dagger], [spiders]), the diagnostics
    ([is_bijective], [is_monogamous], [bijection]) and the normalisation
    pass [make_bijective]. *)


From stdpp Require Import ssreflect base option list gmap sorting strings.

Set Warnings "-rewrite-rw,-clear-no-such-hyp".

(** ** Python exceptions and fallible results *)

Inductive exn :=
  | ValueError | AxiomError | KeyError | IndexError | TypeError
  | AssertionError | NotImplementedError.

Inductive result (A : Type) : Type :=
  | Ok (a : A)
  | Raise (e : exn).
Arguments Ok {A} a.
Arguments Raise {A} e.

#[global] Instance exn_eq_dec : EqDecision exn.
Proof. solve_decision. Defined.

#[global] Instance result_ret : MRet result := λ A a, Ok a.
#[global] Instance result_bind : MBind result := λ A B f r,
  match r with Ok a => f a | Raise e => Raise e end.

(** [expect e o]: an [option] computed by a partial list operation, turned
    into the exception Python raises when the operation fails. *)
Definition expect {A} (e : exn) (o : option A) : result A :=
  match o with Some a => Ok a | None => Raise e end.

(** ** The surrounding category layer

    Modelled from the spec: the type and operation layer ([discopy.cat],
    [discopy.frobenius], ...) is not part of the sources; the hypergraph code
    uses of it atomic types with equality, their adjoint [typ.r]
    ([adjoint], the identity when the attribute is absent), the orientation
    flag [typ.z] ([z_flag], false when absent), boxes with [dom], [cod],
    [dagger()] and the factory [spider_factory].  [set_iter] is the order in
    which the Python runtime iterates over a set of port indices (given here
    as the list of its elements in increasing order). *)
Class Category := {
  Ob : Type;
  Ob_eq_dec :: EqDecision Ob;
  adjoint : Ob → Ob;
  z_flag : Ob → bool;
  Box : Type;
  Box_eq_dec :: EqDecision Box;
  box_dom : Box → list Ob;
  box_cod : Box → list Ob;
  box_dagger : Box → Box;
  spider_factory : nat → nat → Ob → Box;
  set_iter : list nat → list nat;
}.

(** The contract of §6 of the specification on that layer. *)
Class CategoryLaws (C : Category) : Prop := {
  adjoint_involutive : ∀ t : Ob, adjoint (adjoint t) = t;
  z_flag_adjoint : ∀ t : Ob, z_flag t = true → z_flag (adjoint t) = false;
  adjoint_self_dual : ∀ t : Ob,
    z_flag t = false → z_flag (adjoint t) = false → adjoint t = t;
  box_dagger_dom : ∀ b : Box, box_dom (box_dagger b) = box_cod b;
  box_dagger_cod : ∀ b : Box, box_cod (box_dagger b) = box_dom b;
  box_dagger_involutive : ∀ b : Box, box_dagger (box_dagger b) = b;
  spider_factory_dom : ∀ n m t, box_dom (spider_factory n m t) = replicate n t;
  spider_factory_cod : ∀ n m t, box_cod (spider_factory n m t) = replicate m t;
  set_iter_perm : ∀ l, set_iter l ≡ₚ l;
}.

(** ** Generic list operations of the Python code *)

(** [l.index(x)]. *)
Fixpoint index (x : nat) (l : list nat) : option nat :=
  match l with
  | [] => None
  | y :: l' => if decide (x = y) then Some 0 else S <$> index x l'
  end.

(** [sorted(set(l), key=l.index)]: the distinct elements of [l] in order of
    first occurrence. *)
Fixpoint first_occ (l : list nat) : list nat :=
  match l with
  | [] => []
  | x :: l' => x :: filter (λ y, y ≠ x) (first_occ l')
  end.

(** [l.count(x)]. *)
Definition count (x : nat) (l : list nat) : nat :=
  length (filter (λ y, y = x) l).

(** [s.add(x)] on a set kept as the list of its elements in insertion
    order. *)
Definition set_add (x : nat) (s : list nat) : list nat :=
  if decide (x ∈ s) then s else s ++ [x].

(** [max(s)] and [min(s)] of a non-empty collection. *)
Definition max_of (s : list nat) : nat := foldr Nat.max 0 s.
Definition min_of (s : list nat) : nat :=
  match s with [] => 0 | x :: s' => foldr Nat.min x s' end.

Section hypergraph.
Context `{C : Category}.

(** ** The data model *)

Record Hypergraph := mkHypergraph {
  dom : list Ob;
  cod : list Ob;
  boxes : list Box;
  wires : list nat;
  spider_types : list Ob;
  offsets : list (option nat);
}.

(** The three forms of the constructor's [spider_types] argument:
    [None], a mapping, or any other iterable. *)
Inductive spider_types_arg :=
  | NoTypes
  | TypeMap (m : gmap nat Ob)
  | TypeSeq (l : list Ob).

(** [drawing.Node] restricted to the attributes the ports carry. *)
Inductive Kind := input | dom_port | cod_port | output.

Record Node := mkNode {
  kind : Kind;
  depth : option nat;
  node_i : nat;
  obj : Ob;
}.

#[global] Instance Kind_eq_dec : EqDecision Kind.
Proof. solve_decision. Defined.

(** ** Port and wire addressing *)

Definition box_ports (depth : nat) (box : Box) : list Node :=
  imap (λ i o, mkNode dom_port (Some depth) i o) (box_dom box)
  ++ imap (λ i o, mkNode cod_port (Some depth) i o) (box_cod box).

Definition ports_of (dom cod : list Ob) (boxes : list Box) : list Node :=
  imap (λ i o, mkNode input None i o) dom
  ++ mjoin (imap box_ports boxes)
  ++ imap (λ i o, mkNode output None i o) cod.

Definition ports (h : Hypergraph) : list Node :=
  ports_of (dom h) (cod h) (boxes h).

(** The loop of [box_wires], started at wire index [i]. *)
Fixpoint box_wires_from (i : nat) (boxes : list Box) (wires : list nat)
  : list (list nat * list nat) :=
  match boxes with
  | [] => []
  | box :: boxes' =>
      let dom_wires := take (length (box_dom box)) (drop i wires) in
      let cod_wires :=
        take (length (box_cod box)) (drop (i + length (box_dom box)) wires) in
      (dom_wires, cod_wires)
      :: box_wires_from (i + length (box_dom box ++ box_cod box)) boxes' wires
  end.

Definition box_wires_of (dom : list Ob) (boxes : list Box) (wires : list nat) :=
  box_wires_from (length dom) boxes wires.

Definition box_wires (h : Hypergraph) : list (list nat * list nat) :=
  box_wires_of (dom h) (boxes h) (wires h).

Definition n_spiders (h : Hypergraph) : nat := length (spider_types h).

Definition scalar_spiders (h : Hypergraph) : list nat :=
  filter (λ i, count i (wires h) = 0) (seq 0 (n_spiders h)).

(** [result[spider][side].add(port)]; side [true] is index 0 (the ports
    that feed the spider), side [false] is index 1.  Python raises
    [IndexError] when [spider] is out of range. *)
Definition add_port (side : bool) (port spider : nat)
    (res : list (list nat * list nat)) : option (list (list nat * list nat)) :=
  match res !! spider with
  | None => None
  | Some (ins, outs) =>
      Some (<[spider := if side then (set_add port ins, outs)
                        else (ins, set_add port outs)]> res)
  end.

(** [for port, spider in enumerate(ws): result[spider][side].add(port + base)]. *)
Fixpoint add_ports (side : bool) (base : nat) (ws : list nat)
    (res : list (list nat * list nat)) : option (list (list nat * list nat)) :=
  match ws with
  | [] => Some res
  | spider :: ws' =>
      res' ← add_port side base spider res; add_ports side (S base) ws' res'
  end.

Fixpoint add_box_ports (n_ports : nat) (bw : list (list nat * list nat))
    (res : list (list nat * list nat))
  : option (nat * list (list nat * list nat)) :=
  match bw with
  | [] => Some (n_ports, res)
  | (dom_wires, cod_wires) :: bw' =>
      res1 ← add_ports false n_ports dom_wires res;
      res2 ← add_ports true (n_ports + length dom_wires) cod_wires res1;
      add_box_ports (n_ports + length (dom_wires ++ cod_wires)) bw' res2
  end.

Definition spider_wires_of (dom cod : list Ob) (boxes : list Box)
    (wires : list nat) (n : nat) : result (list (list nat * list nat)) :=
  expect IndexError (
    res0 ← add_ports true 0 (take (length dom) wires) (replicate n ([], []));
    '(n_ports, res1) ← add_box_ports (length dom)
                         (box_wires_of dom boxes wires) res0;
    let output_wires := drop (length wires - length cod) wires in
    add_ports false n_ports output_wires res1).

Definition spider_wires (h : Hypergraph) : result (list (list nat * list nat)) :=
  spider_wires_of (dom h) (cod h) (boxes h) (wires h) (n_spiders h).

(** ** The constructor *)

(** [{k: v for k, v in kvs}] and [d.update(...)]: later bindings win. *)
Definition dict_update (d : gmap nat Ob) (kvs : list (nat * Ob)) : gmap nat Ob :=
  foldl (λ d kv, <[kv.1 := kv.2]> d) d kvs.

Definition dict_of (kvs : list (nat * Ob)) : gmap nat Ob := dict_update ∅ kvs.

(** [dict(enumerate(l))]. *)
Definition dict_enumerate (l : list Ob) : gmap nat Ob := map_seq 0 l.

(** [sorted(set(d) - set(r))]. *)
Definition sorted_rest (d : gmap nat Ob) (r : list nat) : list nat :=
  merge_sort (≤) (filter (λ k, k ∉ r) (elements (base.dom d : gset nat))).

(** The dictionary of spider types the constructor works with. *)
Definition types_dict (ps : list Node) (wires : list nat)
    (spider_types : spider_types_arg) : gmap nat Ob :=
  match spider_types with
  | NoTypes => dict_of (zip wires (obj <$> ps))
  | TypeMap m => m
  | TypeSeq l => dict_enumerate l
  end.

(** [relabeling]: the spiders in order of first occurrence along [wires],
    then the remaining declared spiders in increasing order. *)
Definition relabeling_of (wires : list nat) (d : gmap nat Ob) : list nat :=
  first_occ wires ++ sorted_rest d (first_occ wires).

(** [offsets or tuple(len(boxes) * [None])]. *)
Definition offsets_or (offsets : option (list (option nat))) (boxes : list Box)
  : list (option nat) :=
  match offsets with
  | None | Some [] => replicate (length boxes) None
  | Some o => o
  end.

(** [typ.r if getattr(typ, "z", 0) else typ]. *)
Definition normal_type (typ : Ob) : Ob :=
  if z_flag typ then adjoint typ else typ.

(** The type check of one spider: every incident port carries the spider's
    type or its adjoint. *)
Fixpoint check_ports (ps : list Node) (o : Ob) (idx : list nat) : result () :=
  match idx with
  | [] => Ok ()
  | i :: idx' =>
      p ← expect IndexError (ps !! i);
      if decide (obj p ∈ [o; adjoint o]) then check_ports ps o idx'
      else Raise AxiomError
  end.

Fixpoint check_spiders (ps : list Node)
    (sw : list (Ob * (list nat * list nat))) : result () :=
  match sw with
  | [] => Ok ()
  | (o, (ins, outs)) :: sw' =>
      _ ← check_ports ps o (set_iter (ins ++ outs)); check_spiders ps sw'
  end.

Definition init (dom cod : list Ob) (boxes : list Box) (wires : list nat)
    (spider_types : spider_types_arg) (offsets : option (list (option nat)))
  : result Hypergraph :=
  let ps := ports_of dom cod boxes in
  if decide (length wires ≠ length ps) then Raise ValueError else
  let d := types_dict ps wires spider_types in
  let relabeling := relabeling_of wires d in
  wires' ← expect ValueError (mapM (λ s, index s relabeling) wires);
  types ← expect KeyError (mapM (λ s, d !! s) relabeling);
  let types := normal_type <$> types in
  sw ← spider_wires_of dom cod boxes wires' (length types);
  _ ← check_spiders ps (zip types sw);
  Ok (mkHypergraph dom cod boxes wires' types (offsets_or offsets boxes)).

(** ** The pushout engine *)

(** Modelled from the spec: [discopy.utils.pushout] is not part of the
    sources.  §4.2: a union-find over the [m + n] points of the disjoint
    union (the right universe shifted by [m]), one union per pair of
    identified boundary points, then class ids assigned in increasing order
    of first appearance in a single ordered pass over [0 .. m + n).  The
    union-find is kept as the list [uf] giving the representative of each
    point. *)
Definition uf_find (uf : list nat) (a : nat) : nat := default a (uf !! a).

Definition uf_union (uf : list nat) (a b : nat) : list nat :=
  let ra := uf_find uf a in
  let rb := uf_find uf b in
  (λ r, if decide (r = rb) then ra else r) <$> uf.

Definition pushout_classes (m n : nat) (left_boundary right_boundary : list nat)
  : list nat :=
  foldl (λ uf ab, uf_union uf ab.1 (m + ab.2)) (seq 0 (m + n))
        (zip left_boundary right_boundary).

Definition canonical_ids (uf : list nat) : list nat :=
  omap (λ r, index r (first_occ uf)) uf.

Definition pushout (m n : nat) (left_boundary right_boundary : list nat)
  : list nat * list nat :=
  let ids := canonical_ids (pushout_classes m n left_boundary right_boundary) in
  (take m ids, drop m ids).

(** ** The composition algebra *)

(** [l[a:b]] for non-negative [a] and [b]. *)
Definition slice {A} (a b : nat) (l : list A) : list A := take (b - a) (drop a l).

Definition id (dom : list Ob) : result Hypergraph :=
  init dom dom [] (seq 0 (length dom) ++ seq 0 (length dom)) NoTypes None.

(** [{m[i]: t for i, t in enumerate(types)}] as a list of bindings. *)
Definition relabel_types (m : list nat) (types : list Ob) : option (list (nat * Ob)) :=
  mapM (λ it, k ← m !! it.1; Some (k, it.2)) (imap (λ i t, (i, t)) types).

Definition then_ (self other : Hypergraph) : result Hypergraph :=
  if decide (cod self ≠ dom other) then Raise AxiomError else
  let boxes := boxes self ++ boxes other in
  let offsets := offsets self ++ offsets other in
  let self_boundary :=
    drop (length (wires self) - length (cod self)) (wires self) in
  let other_boundary := take (length (dom other)) (wires other) in
  let '(left_, right_) :=
    pushout (n_spiders self) (n_spiders other) self_boundary other_boundary in
  wl ← expect KeyError (mapM (λ i, left_ !! i)
         (take (length (wires self) - length (cod self)) (wires self)));
  wr ← expect KeyError (mapM (λ i, right_ !! i)
         (drop (length (dom other)) (wires other)));
  tl ← expect KeyError (relabel_types left_ (spider_types self));
  tr ← expect KeyError (relabel_types right_ (spider_types other));
  init (dom self) (cod other) boxes (wl ++ wr)
       (TypeMap (dict_update (dict_of tl) tr)) (Some offsets).

Definition tensor (self other : Hypergraph) : result Hypergraph :=
  let n := n_spiders self in
  let dom_wires := take (length (dom self)) (wires self)
    ++ ((λ i, n + i) <$> take (length (dom other)) (wires other)) in
  let box_wires :=
    slice (length (dom self)) (length (wires self) - length (cod self))
          (wires self)
    ++ ((λ i, n + i) <$>
          slice (length (dom other)) (length (wires other) - length (cod other))
                (wires other)) in
  let cod_wires := drop (length (wires self) - length (cod self)) (wires self)
    ++ ((λ i, n + i) <$>
          drop (length (wires other) - length (cod other)) (wires other)) in
  init (dom self ++ dom other) (cod self ++ cod other)
       (boxes self ++ boxes other) (dom_wires ++ box_wires ++ cod_wires)
       (TypeSeq (spider_types self ++ spider_types other))
       (Some (offsets self ++ offsets other)).

Definition dagger (self : Hypergraph) : result Hypergraph :=
  let boxes := box_dagger <$> reverse (boxes self) in
  let dom_wires := drop (length (wires self) - length (cod self)) (wires self) in
  let box_wires :=
    mjoin ((λ dc, dc.2 ++ dc.1) <$> reverse (box_wires self)) in
  let cod_wires := take (length (dom self)) (wires self) in
  init (cod self) (dom self) boxes (dom_wires ++ box_wires ++ cod_wires)
       (TypeSeq (spider_types self)) (Some (reverse (offsets self))).

(** The keys of [__getitem__]: an integer index or a slice. *)
Inductive Key :=
  | IndexKey (i : Z)
  | SliceKey (start stop step : option Z).

#[global] Instance Key_eq_dec : EqDecision Key.
Proof. solve_decision. Defined.

Definition getitem (self : Hypergraph) (key : Key) : result Hypergraph :=
  if decide (key = SliceKey None None (Some (-1)%Z)) then dagger self
  else Raise NotImplementedError.

(** [typ ** n]. *)
Definition power (typ : list Ob) (n : nat) : list Ob := mjoin (replicate n typ).

Definition spiders (n_legs_in n_legs_out : nat) (typ : list Ob) : result Hypergraph :=
  init (power typ n_legs_in) (power typ n_legs_out) []
       (mjoin (replicate (n_legs_in + n_legs_out) (seq 0 (length typ))))
       (TypeSeq typ) None.

Definition from_box (box : Box) : result Hypergraph :=
  let d := length (box_dom box) in
  let dc := length (box_dom box ++ box_cod box) in
  init (box_dom box) (box_cod box) [box]
       (seq 0 d ++ seq 0 d ++ seq d (dc - d) ++ seq d (dc - d))
       (TypeSeq (box_dom box ++ box_cod box)) None.

(** ** Classification predicates *)

Definition is_bijective (h : Hypergraph) : bool :=
  forallb (λ i, bool_decide (count i (wires h) ∈ [0; 2])) (seq 0 (n_spiders h)).

Fixpoint monogamous_loop (sw : list (list nat * list nat)) : bool :=
  match sw with
  | [] => true
  | (input_wires, output_wires) :: sw' =>
      if decide (length input_wires ≠ length output_wires) then false
      else if decide (length input_wires + length output_wires ∉ [0; 2])
      then false
      else monogamous_loop sw'
  end.

Definition is_monogamous (h : Hypergraph) : result bool :=
  sw ← spider_wires h; Ok (monogamous_loop sw).

(** ** The bijection between ports *)

Fixpoint bijection_loop (source : nat) (ws : list nat) (result : gmap nat nat)
  : gmap nat nat :=
  match ws with
  | [] => result
  | spider :: rest =>
      let result :=
        match index spider rest with
        | Some k =>
            let target := k + source + 1 in
            <[target := source]> (<[source := target]> result)
        | None => result
        end in
      bijection_loop (S source) rest result
  end.

Definition bijection (h : Hypergraph) : result (list nat) :=
  if negb (is_bijective h) then Raise ValueError else
  let result := bijection_loop 0 (wires h) ∅ in
  expect KeyError (mapM (λ source, result !! source)
    (merge_sort (≤) (elements (base.dom result : gset nat)))).

(** ** Normalisation: [make_bijective] *)

(** [l[i] = x], which raises [IndexError] out of range. *)
Definition set_item {A} (i : nat) (x : A) (l : list A) : result (list A) :=
  if decide (i < length l) then Ok (<[i := x]> l) else Raise IndexError.

(** [for j, port in enumerate(ps, j): wires[port] = n + j]. *)
Fixpoint assign_legs (n j : nat) (ps : list nat) (wires : list nat)
  : result (list nat) :=
  match ps with
  | [] => Ok wires
  | port :: ps' =>
      wires' ← set_item port (n + j) wires; assign_legs n (S j) ps' wires'
  end.

Definition n_legs (sw : list nat * list nat) : nat := length sw.1 + length sw.2.

(** One round of the loop of [make_bijective]: [Ok None] when the loop
    ends without finding a spider to split (the method returns [self]),
    [Ok (Some h')] with the rebuilt hypergraph on which the method calls
    itself otherwise. *)
Definition make_bijective_step (self : Hypergraph) : result (option Hypergraph) :=
  sw ← spider_wires self;
  let candidates :=
    reverse (imap (λ spider x, (spider, x)) (zip (spider_types self) sw)) in
  match list_find (λ c, n_legs c.2.2 ∉ [0; 2]) candidates with
  | None => Ok None
  | Some (_, (spider, (typ, (input_wires, output_wires)))) =>
      let n_legs := length input_wires + length output_wires in
      depth ←
        (if decide (input_wires ≠ []) then
           node ← expect IndexError (ports self !! max_of input_wires);
           if decide (kind node = input) then Ok 0
           else d ← expect AssertionError (depth node); Ok (d + 1)
         else
           node ← expect IndexError (ports self !! min_of output_wires);
           if decide (kind node = output) then Ok (length (boxes self))
           else expect AssertionError (depth node));
      let boxes := take depth (boxes self)
        ++ [spider_factory (length input_wires) (length output_wires) typ]
        ++ drop depth (boxes self) in
      let offsets := take depth (offsets self) ++ [None]
        ++ drop depth (offsets self) in
      let n := length (spider_types self) in
      wires ← assign_legs n 0 (set_iter (input_wires ++ output_wires))
                (wires self);
      let i := length (dom self)
        + length (mjoin ((λ dc, dc.1 ++ dc.2) <$> take depth (box_wires self))) in
      let wires := take i wires ++ seq n n_legs ++ drop i wires in
      let spider_types := spider_types self ++ replicate n_legs typ in
      let spider_types := delete spider spider_types in
      let wires := (λ w, if decide (spider < w) then w - 1 else w) <$> wires in
      h ← init (dom self) (cod self) boxes wires (TypeSeq spider_types)
             (Some offsets);
      Ok (Some h)
  end.

(** The recursion of [make_bijective], bounded by [fuel] calls; [None] when
    the bound is reached before the method returns. *)
Fixpoint make_bijective (fuel : nat) (self : Hypergraph)
  : option (result Hypergraph) :=
  match fuel with
  | 0 => None
  | S fuel' =>
      match make_bijective_step self with
      | Raise e => Some (Raise e)
      | Ok None => Some (Ok self)
      | Ok (Some h) => make_bijective fuel' h
      end
  end.

End hypergraph.

(** ** Further constructors, predicates and rewrites *)

Section more.
Context `{C : Category}.

(** [swap(left, right)]. *)
Definition swap (left right : list Ob) : result Hypergraph :=
  let dom := left ++ right in
  let cod := right ++ left in
  init dom cod []
       (seq 0 (length dom) ++ seq (length left) (length dom - length left)
        ++ seq 0 (length left))
       NoTypes None.

(** [x.union(y)] on sets kept as lists in insertion order. *)
Definition set_union (x y : list nat) : list nat :=
  foldl (λ s p, set_add p s) x y.

Definition is_polygynous (h : Hypergraph) : result bool :=
  sw ← spider_wires h;
  Ok (forallb (λ xy : list nat * list nat, bool_decide (length xy.1 = 1))
        (filter (λ xy, set_union xy.1 xy.2 ≠ []) sw)).

(** [l[i]] for an integer [i]: a negative index counts from the end, and
    Python raises [IndexError] out of range. *)
Definition py_index (n : nat) (i : Z) : result nat :=
  if decide (0 ≤ i < Z.of_nat n)%Z then Ok (Z.to_nat i)
  else if decide (- Z.of_nat n ≤ i < 0)%Z then Ok (Z.to_nat (i + Z.of_nat n))
  else Raise IndexError.

(** [l[i], l[j] = l[j], l[i]]. *)
Definition swap_items {A} (i j : Z) (l : list A) : result (list A) :=
  j' ← py_index (length l) j;
  y ← expect IndexError (l !! j');
  i' ← py_index (length l) i;
  x ← expect IndexError (l !! i');
  Ok (<[j' := x]> (<[i' := y]> l)).

Definition interchange (self : Hypergraph) (i j : Z) : result Hypergraph :=
  boxes ← swap_items i j (boxes self);
  offsets ← swap_items i j (offsets self);
  box_wires ← swap_items i j (box_wires self);
  let box_wires := mjoin ((λ cd, cd.1 ++ cd.2) <$> box_wires) in
  let dom_wires := take (length (dom self)) (wires self) in
  let cod_wires :=
    drop (length (wires self) - length (cod self)) (wires self) in
  init (dom self) (cod self) boxes (dom_wires ++ box_wires ++ cod_wires)
       (TypeSeq (spider_types self)) (Some offsets).

(** ** Normalisation: [make_polygynous] *)

(** [sum(wires, [])] for an entry [wires = (dom_wires, cod_wires)] of
    [box_wires]: both components are tuples, slices of the tuple
    [self.wires], and Python does not add a tuple to the list [[]]. *)
Definition sum_into_list (wires : list nat * list nat) : result (list nat) :=
  Raise TypeError.

(** [[f(x) for x in l]] for an [f] that may raise. *)
Fixpoint comprehension {A B} (f : A → result B) (l : list A)
  : result (list B) :=
  match l with
  | [] => Ok []
  | x :: l' => y ← f x; ys ← comprehension f l'; Ok (y :: ys)
  end.

(** One round of the loop of [make_polygynous]: [Ok None] when every
    spider has exactly one input wire (the method returns [self]),
    [Ok (Some h')] with the rebuilt hypergraph on which the method calls
    itself otherwise.  [getattr(port, "depth", -1) + 1] is [0] for a port
    of the diagram and [depth + 1] for a port of a box. *)
Definition make_polygynous_step (self : Hypergraph)
  : result (option Hypergraph) :=
  sw ← spider_wires self;
  let candidates :=
    imap (λ spider x, (spider, x)) (zip (spider_types self) sw) in
  match list_find
          (λ c : nat * (Ob * (list nat * list nat)), length c.2.2.1 ≠ 1)
          candidates with
  | None => Ok None
  | Some (_, (spider, (typ, (input_wires, output_wires)))) =>
      depth ←
        (if decide (input_wires ≠ []) then
           node ← expect IndexError (ports self !! max_of input_wires);
           Ok (match depth node with Some d => d + 1 | None => 0 end)
         else Ok 0);
      let boxes := take depth (boxes self)
        ++ [spider_factory (length input_wires) 1 typ]
        ++ drop depth (boxes self) in
      let offsets := take depth (offsets self) ++ [None]
        ++ drop depth (offsets self) in
      wires ← assign_legs (n_spiders self) 0 (set_iter input_wires)
                (wires self);
      flat ← comprehension sum_into_list (take depth (box_wires self));
      let i := length (dom self) + length (mjoin flat) in
      let wires := take i wires
        ++ seq (n_spiders self) (length input_wires) ++ [spider]
        ++ drop i wires in
      let spider_types :=
        spider_types self ++ replicate (length input_wires) typ in
      h ← init (dom self) (cod self) boxes wires (TypeSeq spider_types)
             (Some offsets);
      Ok (Some h)
  end.

(** The recursion of [make_polygynous], bounded by [fuel] calls; [None]
    when the bound is reached before the method returns. *)
Fixpoint make_polygynous (fuel : nat) (self : Hypergraph)
  : option (result Hypergraph) :=
  match fuel with
  | 0 => None
  | S fuel' =>
      match make_polygynous_step self with
      | Raise e => Some (Raise e)
      | Ok None => Some (Ok self)
      | Ok (Some h) => make_polygynous fuel' h
      end
  end.

End more.

(** ** Structural equality

    [__eq__] compares the labelled graphs [to_graph] builds with the
    isomorphism test of the graph library ([networkx.is_isomorphic] with
    [node_match = lambda x, y: x == y]).  The library is modelled by what
    its directed graphs are: nodes carrying an attribute dictionary, in
    insertion order, and a set of edges. *)

Section graph.
Context `{C : Category}.

(** The nodes [to_graph] makes: [Node(kind, **data)]. *)
Inductive GNode :=
  | SpiderNode (i : nat) (o : Ob)
  | InputNode (i : nat) (o : Ob)
  | OutputNode (i : nat) (o : Ob)
  | BoxNode (box : Box) (i : nat)
  | PortNode (case : Kind) (i j : nat).

#[global] Instance GNode_eq_dec : EqDecision GNode.
Proof. solve_decision. Defined.

(** The attribute dictionary of a node, with the keys [to_graph] uses:
    ["i"], ["box"] (whose value may be [None]) and ["j"]. *)
Record Attrs := mkAttrs {
  attr_i : option nat;
  attr_box : option (option Box);
  attr_j : option nat;
}.

Definition no_attrs : Attrs := mkAttrs None None None.

(** [old.update(new)]. *)
Definition update_attrs (old new : Attrs) : Attrs :=
  mkAttrs (from_option Some (attr_i old) (attr_i new))
          (from_option Some (attr_box old) (attr_box new))
          (from_option Some (attr_j old) (attr_j new)).

Record Graph := mkGraph {
  nodes : list (GNode * Attrs);
  edges : list (GNode * GNode);
}.

(** [graph.add_node(n, **attrs)]: a new node, or an update of the
    attributes of an existing one. *)
Fixpoint add_node_to (n : GNode) (a : Attrs) (ns : list (GNode * Attrs))
  : list (GNode * Attrs) :=
  match ns with
  | [] => [(n, a)]
  | (m, b) :: ns' =>
      if decide (m = n) then (m, update_attrs b a) :: ns'
      else (m, b) :: add_node_to n a ns'
  end.

Definition add_node (n : GNode) (a : Attrs) (g : Graph) : Graph :=
  mkGraph (add_node_to n a (nodes g)) (edges g).

(** [graph.add_edge(u, v)]: both ends become nodes if they are not yet. *)
Definition add_edge (u v : GNode) (g : Graph) : Graph :=
  mkGraph (add_node_to v no_attrs (add_node_to u no_attrs (nodes g)))
          (if decide ((u, v) ∈ edges g) then edges g else edges g ++ [(u, v)]).

Definition add_nodes_from (ns : list (GNode * Attrs)) (g : Graph) : Graph :=
  foldl (λ g na, add_node na.1 na.2 g) g ns.

Definition add_edges_from (es : list (GNode * GNode)) (g : Graph) : Graph :=
  foldl (λ g uv, add_edge uv.1 uv.2 g) g es.

(** The body of the two inner loops of [to_graph] for the port [j] of box
    [i] on [spider]; [self.spider_types[spider]] raises [IndexError] out
    of range. *)
Definition add_box_port (types : list Ob) (box : Box) (i : nat) (case : Kind)
    (j spider : nat) (g : Graph) : option Graph :=
  o ← types !! spider;
  let spider_node := SpiderNode spider o in
  let port_node := PortNode case i j in
  let box_node := BoxNode box i in
  let g := add_node port_node (mkAttrs None (Some None) (Some j)) g in
  Some (if decide (case = dom_port)
        then add_edge port_node box_node (add_edge spider_node port_node g)
        else add_edge port_node spider_node (add_edge box_node port_node g)).

Fixpoint add_box_ports_from (types : list Ob) (box : Box) (i : nat)
    (case : Kind) (j : nat) (ws : list nat) (g : Graph) : option Graph :=
  match ws with
  | [] => Some g
  | spider :: ws' =>
      g' ← add_box_port types box i case j spider g;
      add_box_ports_from types box i case (S j) ws' g'
  end.

Fixpoint add_boxes (types : list Ob) (i : nat)
    (bs : list (Box * (list nat * list nat))) (g : Graph) : option Graph :=
  match bs with
  | [] => Some g
  | (box, (dom_wires, cod_wires)) :: bs' =>
      let g := add_node (BoxNode box i) (mkAttrs None (Some (Some box)) None) g in
      g ← add_box_ports_from types box i dom_port 0 dom_wires g;
      g ← add_box_ports_from types box i cod_port 0 cod_wires g;
      add_boxes types (S i) bs' g
  end.

Definition to_graph (self : Hypergraph) : result Graph :=
  let g := mkGraph [] [] in
  let g := add_nodes_from
    (imap (λ i o, (SpiderNode i o, no_attrs)) (spider_types self)) g in
  let g := add_nodes_from
    (imap (λ i o, (InputNode i o, mkAttrs (Some i) None None)) (dom self)) g in
  let g := add_edges_from
    (imap (λ i jo, (InputNode i jo.2, SpiderNode jo.1 jo.2))
          (zip (take (length (dom self)) (wires self)) (dom self))) g in
  g ← expect IndexError
        (add_boxes (spider_types self) 0 (zip (boxes self) (box_wires self)) g);
  let g := add_nodes_from
    (imap (λ i o, (OutputNode i o, mkAttrs (Some i) None None)) (cod self)) g in
  Ok (add_edges_from
    (imap (λ i jo, (SpiderNode jo.1 jo.2, OutputNode i jo.2))
          (zip (drop (length (wires self) - length (cod self)) (wires self))
               (cod self))) g).

(** [is_isomorphic(g1, g2, node_match)]: a bijection between the nodes
    that keeps the attribute dictionaries and the edges. *)
Definition is_isomorphic (g1 g2 : Graph) : Prop :=
  ∃ φ : GNode → GNode,
    (∀ n a, (n, a) ∈ nodes g1 → (φ n, a) ∈ nodes g2) ∧
    (∀ m b, (m, b) ∈ nodes g2 → ∃ n, (n, b) ∈ nodes g1 ∧ φ n = m) ∧
    (∀ n n', n ∈ (nodes g1).*1 → n' ∈ (nodes g1).*1 → φ n = φ n' → n = n') ∧
    (∀ u v, u ∈ (nodes g1).*1 → v ∈ (nodes g1).*1 →
       (u, v) ∈ edges g1 ↔ (φ u, φ v) ∈ edges g2).

(** [self.is_parallel(other)], of the class [Composable]. *)
Definition is_parallel (self other : Hypergraph) : Prop :=
  dom self = dom other ∧ cod self = cod other.

(** [self == other]. *)
Definition eq_ (self other : Hypergraph) : Prop :=
  is_parallel self other ∧
  ∃ g1 g2, to_graph self = Ok g1 ∧ to_graph other = Ok g2 ∧
           is_isomorphic g1 g2.

End graph.

(** ** The diagram layer

    Modelled from the spec: the planar diagrams that [to_diagram] builds
    ([discopy.monoidal.Diagram] and its subclasses) are not part of the
    sources.  The code uses of them the identity [category.ar.id(t)], the
    boxes themselves, [diagram.swap(left, right)], the tensor [@] (where a
    type [t] stands for [id(t)]) and the composition [>>], which raises
    [AxiomError] unless the codomain of its left operand is the domain of
    its right operand. *)
Class Diagrams (C : Category) := {
  Diagram : Type;
  diag_dom : Diagram → list Ob;
  diag_cod : Diagram → list Ob;
  diag_id : list Ob → Diagram;
  diag_box : Box → Diagram;
  diag_swap : list Ob → list Ob → Diagram;
  diag_tensor : Diagram → Diagram → Diagram;
  diag_then : Diagram → Diagram → result Diagram;
}.

Class DiagramLaws (C : Category) (D : Diagrams C) : Prop := {
  diag_id_dom : ∀ t, diag_dom (diag_id t) = t;
  diag_id_cod : ∀ t, diag_cod (diag_id t) = t;
  diag_box_dom : ∀ b, diag_dom (diag_box b) = box_dom b;
  diag_box_cod : ∀ b, diag_cod (diag_box b) = box_cod b;
  diag_swap_dom : ∀ l r, diag_dom (diag_swap l r) = l ++ r;
  diag_swap_cod : ∀ l r, diag_cod (diag_swap l r) = r ++ l;
  diag_tensor_dom : ∀ d d',
    diag_dom (diag_tensor d d') = diag_dom d ++ diag_dom d';
  diag_tensor_cod : ∀ d d',
    diag_cod (diag_tensor d d') = diag_cod d ++ diag_cod d';
  diag_then_Ok : ∀ d d',
    diag_cod d = diag_dom d' →
    ∃ e, diag_then d d' = Ok e
       ∧ diag_dom e = diag_dom d ∧ diag_cod e = diag_cod d';
  diag_then_Raise : ∀ d d',
    diag_cod d ≠ diag_dom d' → diag_then d d' = Raise AxiomError;
}.

(** ** The planarisation compiler: [to_diagram] *)

Section planar.
Context `{C : Category} `{D : !Diagrams C}.

Definition is_causal (h : Hypergraph) : result bool :=
  sw ← spider_wires h;
  Ok (forallb (λ io : list nat * list nat,
         bool_decide (length io.1 = 1)
         && forallb (λ u, forallb (λ v, bool_decide (u < v)) io.2) io.1) sw).

(** Python's clipping of a slice index to a sequence of length [n]: a
    negative index counts from the end. *)
Definition clip (n : nat) (i : Z) : nat :=
  Z.to_nat (if decide (i < 0)%Z then Z.max (i + Z.of_nat n) 0
            else Z.min i (Z.of_nat n)).

(** [l[a:b]], [l[:b]] and [l[a:]] for Python integers [a] and [b]. *)
Definition zslice {A} (a b : Z) (l : list A) : list A :=
  slice (clip (length l) a) (clip (length l) b) l.
Definition zslice_to {A} (b : Z) (l : list A) : list A := zslice 0 b l.
Definition zslice_from {A} (a : Z) (l : list A) : list A :=
  zslice a (Z.of_nat (length l)) l.

(** [left @ d @ right] for types [left] and [right]. *)
Definition whisker (left_ : list Ob) (d : Diagram) (right_ : list Ob) : Diagram :=
  diag_tensor (diag_tensor (diag_id left_) d) (diag_id right_).

(** One round of the loop over [box.dom]: the wire of input [i] of the
    box is located in [scan] and moved next to the inputs already
    placed. *)
Definition place_dom (self : Hypergraph) (n_ports i : nat)
    (st : Diagram * list nat * option Z)
  : result (Diagram * list nat * option Z) :=
  let '(diagram, scan, offset) := st in
  w ← expect IndexError (wires self !! (n_ports + i));
  j ← expect ValueError (index w scan);
  st' ←
    (if decide (i = 0 ∧ offset = None) then Ok (diagram, scan, Some (Z.of_nat j))
     else
       o ← expect TypeError offset;
       let cod := diag_cod diagram in
       let oi := (o + Z.of_nat i)%Z in
       let j' := Z.of_nat j in
       if decide (oi < j')%Z then
         cj ← expect IndexError (cod !! j);
         diagram' ← diag_then diagram
           (whisker (zslice_to oi cod)
                    (diag_swap (zslice oi j' cod) [cj])
                    (zslice_from (j' + 1) cod));
         Ok (diagram',
             (zslice_to oi scan ++ zslice j' (j' + 1) scan)
             ++ (zslice oi j' scan ++ zslice_from (j' + 1) scan),
             Some o)
       else if decide (j' < oi)%Z then
         cj ← expect IndexError (cod !! j);
         diagram' ← diag_then diagram
           (whisker (zslice_to j' cod)
                    (diag_swap [cj] (zslice (j' + 1) oi cod))
                    (zslice_from oi cod));
         Ok (diagram',
             (zslice_to j' scan ++ zslice (j' + 1) oi scan)
             ++ (zslice j' (j' + 1) scan ++ zslice_from oi scan),
             Some (o - 1)%Z)
       else Ok (diagram, scan, Some o));
  if decide (length st'.1.2 = length (diag_cod st'.1.1)) then Ok st'
  else Raise AssertionError.

Fixpoint place_doms (self : Hypergraph) (n_ports : nat) (idx : list nat)
    (st : Diagram * list nat * option Z)
  : result (Diagram * list nat * option Z) :=
  match idx with
  | [] => Ok st
  | i :: idx' => st' ← place_dom self n_ports i st; place_doms self n_ports idx' st'
  end.

(** One round of the loop over the boxes. *)
Definition place_box (self : Hypergraph) (n_ports : nat) (box : Box)
    (offset : option nat) (st : Diagram * list nat)
  : result (Diagram * list nat) :=
  st' ← place_doms self n_ports (seq 0 (length (box_dom box)))
          (st.1, st.2, Z.of_nat <$> offset);
  let '(diagram, scan, offset) := st' in
  let offset := default 0%Z offset in
  let scan :=
    zslice_to offset scan
    ++ slice (n_ports + length (box_dom box))
             (n_ports + length (box_dom box ++ box_cod box)) (wires self)
    ++ zslice_from (offset + Z.of_nat (length (box_dom box))) scan in
  diagram' ← diag_then diagram
    (whisker (zslice_to offset (diag_cod diagram)) (diag_box box)
             (zslice_from (offset + Z.of_nat (length (box_dom box)))
                          (diag_cod diagram)));
  Ok (diagram', scan).

Fixpoint place_boxes (self : Hypergraph) (n_ports : nat)
    (bos : list (Box * option nat)) (st : Diagram * list nat)
  : result (Diagram * list nat * nat) :=
  match bos with
  | [] => Ok (st, n_ports)
  | (box, offset) :: bos' =>
      st' ← place_box self n_ports box offset st;
      place_boxes self (n_ports + length (box_dom box ++ box_cod box)) bos' st'
  end.

(** One round of the final loop over [self.cod]. *)
Definition place_cod (self : Hypergraph) (n_ports i : nat)
    (st : Diagram * list nat) : result (Diagram * list nat) :=
  let '(diagram, scan) := st in
  w ← expect IndexError (wires self !! (n_ports + i));
  j ← expect ValueError (index w scan);
  if decide (i < j) then
    let cod := diag_cod diagram in
    diagram' ← diag_then diagram
      (whisker (take i cod) (diag_swap (slice i j cod) (slice j (j + 1) cod))
               (drop (j + 1) cod));
    Ok (diagram',
        take i scan ++ slice j (j + 1) scan ++ slice i j scan
        ++ drop (j + 1) scan)
  else Ok (diagram, scan).

Fixpoint place_cods (self : Hypergraph) (n_ports : nat) (idx : list nat)
    (st : Diagram * list nat) : result (Diagram * list nat) :=
  match idx with
  | [] => Ok st
  | i :: idx' => st' ← place_cod self n_ports i st; place_cods self n_ports idx' st'
  end.

(** The body of [to_diagram] on a causal and monogamous hypergraph. *)
Definition planar_diagram (self : Hypergraph) : result Diagram :=
  let diagram := diag_id (dom self) in
  let scan := take (length (dom self)) (wires self) in
  '(st, n_ports) ← place_boxes self (length (dom self))
                     (zip (boxes self) (offsets self)) (diagram, scan);
  st' ← place_cods self n_ports (seq 0 (length (cod self))) st;
  Ok st'.1.

(** The normalisation passes [make_monogamous] and [make_causal] end in
    the external trace factory ([explicit_trace]); they are parameters of
    the model.  [to_diagram] runs them on a hypergraph that is not yet
    causal and monogamous, and calls itself on the result: the recursion
    is bounded by [fuel] calls, [None] when the bound is reached. *)
Variable make_monogamous : Hypergraph → result Hypergraph.
Variable make_causal : Hypergraph → result Hypergraph.

Fixpoint to_diagram (fuel : nat) (self : Hypergraph) (make_causal_first : bool)
  : option (result Diagram) :=
  match fuel with
  | 0 => None
  | S fuel' =>
      match (c ← is_causal self;
             if negb c then Ok false else is_monogamous self) with
      | Raise e => Some (Raise e)
      | Ok true => Some (planar_diagram self)
      | Ok false =>
          if make_causal_first then
            match make_causal self with
            | Raise e => Some (Raise e)
            | Ok h1 =>
                match make_bijective fuel' h1 with
                | None => None
                | Some (Raise e) => Some (Raise e)
                | Some (Ok h2) => to_diagram fuel' h2 false
                end
            end
          else
            match make_monogamous self with
            | Raise e => Some (Raise e)
            | Ok h1 =>
                match make_causal h1 with
                | Raise e => Some (Raise e)
                | Ok h2 => to_diagram fuel' h2 false
                end
            end
      end
  end.

End planar.

(** ** A concrete category layer

    Generators with an orientation flag: an atomic type is a name with a
    flag [z], its adjoint flips the flag (a pivotal category; the types
    with [z = false] behave as the self-dual types of a Frobenius
    category).  Boxes are named generators and the spiders the factory
    makes.  Sets of ports are iterated in increasing order. *)
Module Pivotal.

Inductive box :=
  | Gen (name : string) (d c : list (string * bool)) (is_dagger : bool)
  | Spider (n m : nat) (t : string * bool).

#[global] Instance box_eq_dec : EqDecision box.
Proof. solve_decision. Defined.

#[global] Instance cat : Category := {|
  Ob := string * bool;
  adjoint := λ t, (t.1, negb t.2);
  z_flag := λ t, t.2;
  Box := box;
  box_dom := λ b,
    match b with Gen _ d _ _ => d | Spider n _ t => replicate n t end;
  box_cod := λ b,
    match b with Gen _ _ c _ => c | Spider _ m t => replicate m t end;
  box_dagger := λ b,
    match b with
    | Gen s d c g => Gen s c d (negb g)
    | Spider n m t => Spider m n t
    end;
  spider_factory := Spider;
  set_iter := merge_sort Nat.le;
|}.

Definition x : Ob := ("x"%string, false).
Definition y : Ob := ("y"%string, false).
Definition z : Ob := ("z"%string, false).

(** The free diagrams over the generators. *)
Inductive diagram :=
  | Id (t : list Ob)
  | Arrow (b : box)
  | Swap (l r : list Ob)
  | Tensor (d d' : diagram)
  | Then (d d' : diagram).

Fixpoint diagram_dom (d : diagram) : list Ob :=
  match d with
  | Id t => t
  | Arrow b => box_dom b
  | Swap l r => l ++ r
  | Tensor d d' => diagram_dom d ++ diagram_dom d'
  | Then d _ => diagram_dom d
  end.

Fixpoint diagram_cod (d : diagram) : list Ob :=
  match d with
  | Id t => t
  | Arrow b => box_cod b
  | Swap l r => r ++ l
  | Tensor d d' => diagram_cod d ++ diagram_cod d'
  | Then _ d' => diagram_cod d'
  end.

#[global] Instance diagrams : Diagrams cat := {|
  Diagram := diagram;
  diag_dom := diagram_dom;
  diag_cod := diagram_cod;
  diag_id := Id;
  diag_box := Arrow;
  diag_swap := Swap;
  diag_tensor := Tensor;
  diag_then := λ d d',
    if decide (diagram_cod d = diagram_dom d') then Ok (Then d d')
    else Raise AxiomError;
|}.

End Pivotal.

(** * Properties

    ** Lists: [index], [first_occ] and filters *)

Lemma filter_ext_in {A} (P Q : A → Prop) `{!∀ x, Decision (P x), !∀ x, Decision (Q x)}
    (l : list A) :
  (∀ x, x ∈ l → (P x ↔ Q x)) → filter P l = filter Q l.
Proof.
  induction l as [|a l IH]; intros Hiff; [done|].
  rewrite !filter_cons IH; [|by intros; apply Hiff; right].
  destruct (decide (P a)) as [HP|HP], (decide (Q a)) as [HQ|HQ]; try done;
    exfalso; apply (Hiff a) in HP || apply (Hiff a) in HQ; by try left.
Qed.

Lemma filter_all {A} (P : A → Prop) `{!∀ x, Decision (P x)} (l : list A) :
  (∀ x, x ∈ l → P x) → filter P l = l.
Proof.
  induction l as [|a l IH]; intros HP; [done|].
  rewrite filter_cons_True; [|apply HP; left]. rewrite IH; [done|].
  intros; apply HP; by right.
Qed.

Lemma filter_none {A} (P : A → Prop) `{!∀ x, Decision (P x)} (l : list A) :
  (∀ x, x ∈ l → ¬ P x) → filter P l = [].
Proof.
  induction l as [|a l IH]; intros HP; [done|].
  rewrite filter_cons_False; [|apply HP; left]. apply IH.
  intros; apply HP; by right.
Qed.

Section list_lemmas.
Implicit Types (l r : list nat) (x y i j : nat).

Lemma index_Some x l i :
  index x l = Some i ↔ l !! i = Some x ∧ ∀ j, j < i → l !! j ≠ Some x.
Proof.
  revert i. induction l as [|y l IH]; intros i; simpl.
  { split; [done|]. by intros [? _]. }
  case_decide as Hxy.
  - subst y. split.
    + intros [= <-]. split; [done|]. lia.
    + intros [Hi Hj]. destruct i as [|i]; [done|].
      exfalso. apply (Hj 0); [lia|done].
  - destruct (index x l) as [k|]; simpl.
    + split.
      * intros [= <-]. destruct (proj1 (IH k) eq_refl) as [Hk1 Hk2]. split; [done|].
        intros [|j] Hj; simpl; [congruence|]. apply Hk2. lia.
      * intros [Hi Hj]. destruct i as [|i]; simpl in *; [congruence|].
        assert (Some k = Some i) as [= ->]; [|done].
        apply IH. split; [done|].
        intros j Hlt. apply (Hj (S j)). lia.
    + split; [done|]. intros [Hi Hj]. destruct i as [|i]; simpl in *; [congruence|].
      assert (@None nat = Some i) as Hc; [|congruence].
      apply IH. split; [done|]. intros j Hlt. apply (Hj (S j)). lia.
Qed.

Lemma index_lookup x l i : index x l = Some i → l !! i = Some x.
Proof. by intros [? _]%index_Some. Qed.

Lemma index_lt x l i : index x l = Some i → i < length l.
Proof. intros ?%index_lookup. by eapply lookup_lt_Some. Qed.

Lemma index_is_Some x l : is_Some (index x l) ↔ x ∈ l.
Proof.
  induction l as [|y l IH]; simpl.
  { split; [by intros [? ?]|by intros ?%elem_of_nil]. }
  case_decide; subst.
  - split; [intros _; left|by eauto].
  - rewrite fmap_is_Some IH. set_solver.
Qed.

Lemma index_None x l : index x l = None ↔ x ∉ l.
Proof. rewrite -index_is_Some eq_None_not_Some. done. Qed.

Lemma index_NoDup x l i : NoDup l → l !! i = Some x → index x l = Some i.
Proof.
  intros Hnd Hi. apply index_Some. split; [done|].
  intros j Hj Hx. assert (j = i); [|lia]. by eapply NoDup_lookup.
Qed.

Lemma index_inj x y l i : index x l = Some i → index y l = Some i → x = y.
Proof. intros ?%index_lookup ?%index_lookup. congruence. Qed.

Lemma index_app_l x l1 l2 : x ∈ l1 → index x (l1 ++ l2) = index x l1.
Proof.
  intros [i Hi]%index_is_Some. rewrite Hi. apply index_Some in Hi as [H1 H2].
  apply index_Some. split; [by apply lookup_app_l_Some|].
  intros j Hj. pose proof (lookup_lt_Some _ _ _ H1).
  rewrite lookup_app_l; [|lia]. by auto.
Qed.

Lemma index_app_r x l1 l2 :
  x ∉ l1 → index x (l1 ++ l2) = (λ i, length l1 + i) <$> index x l2.
Proof.
  intros Hx. induction l1 as [|y l1 IH]; simpl.
  { by destruct (index x l2). }
  case_decide; [set_solver|]. rewrite IH; [|set_solver].
  by destruct (index x l2).
Qed.

Lemma index_seq x n : x < n → index x (seq 0 n) = Some x.
Proof.
  intros Hx. apply index_NoDup; [apply NoDup_seq|]. by apply lookup_seq.
Qed.

(** [first_occ] *)

Lemma elem_of_first_occ x l : x ∈ first_occ l ↔ x ∈ l.
Proof.
  induction l as [|y l IH]; simpl; [done|].
  rewrite !elem_of_cons list_elem_of_filter IH.
  destruct (decide (x = y)); naive_solver.
Qed.

Lemma NoDup_first_occ l : NoDup (first_occ l).
Proof.
  induction l as [|y l IH]; simpl; [constructor|].
  constructor; [|by apply NoDup_filter].
  rewrite list_elem_of_filter. naive_solver.
Qed.

Lemma first_occ_NoDup l : NoDup l → first_occ l = l.
Proof.
  induction 1 as [|x l Hx Hnd IH]; simpl; [done|].
  rewrite IH. f_equal. apply filter_all. set_solver.
Qed.

Lemma first_occ_idemp l : first_occ (first_occ l) = first_occ l.
Proof. apply first_occ_NoDup, NoDup_first_occ. Qed.

Lemma first_occ_app l1 l2 :
  first_occ (l1 ++ l2) = first_occ l1 ++ filter (λ y, y ∉ l1) (first_occ l2).
Proof.
  induction l1 as [|x l1 IH]; simpl.
  { symmetry. apply filter_all. set_solver. }
  rewrite IH filter_app list_filter_filter. f_equal. f_equal.
  apply list_filter_iff. intros y. rewrite not_elem_of_cons. naive_solver.
Qed.

Lemma filter_fmap_ne (f : nat → nat) x r :
  (∀ y, y ∈ r → f y = f x → y = x) →
  filter (λ y, y ≠ f x) (f <$> r) = f <$> filter (λ y, y ≠ x) r.
Proof.
  induction r as [|y r IH]; intros Hinj; [done|].
  rewrite fmap_cons !filter_cons IH; [|intros; apply Hinj; by try right].
  destruct (decide (f y ≠ f x)) as [Hf|Hf], (decide (y ≠ x)) as [Hy|Hy];
    try done.
  - apply dec_stable in Hy. by subst.
  - apply dec_stable in Hf. exfalso; apply Hy, Hinj; by try left.
Qed.

Lemma first_occ_fmap (f : nat → nat) l :
  (∀ x y, x ∈ l → y ∈ l → f x = f y → x = y) →
  first_occ (f <$> l) = f <$> first_occ l.
Proof.
  induction l as [|x l IH]; intros Hinj; simpl; [done|].
  rewrite IH; [|intros a b Ha Hb; apply Hinj; by right]. f_equal.
  apply filter_fmap_ne. intros y Hy Heq.
  apply (proj1 (elem_of_first_occ _ _)) in Hy.
  apply Hinj; [by right|by left|done].
Qed.

End list_lemmas.

(** ** Canonical relabelling *)

Definition ren (r : list nat) (s : nat) : nat := default 0 (index s r).

Section relabel.
Implicit Types (l r p q : list nat) (x y i j k w : nat).

Lemma mapM_index_total r l :
  (∀ x, x ∈ l → x ∈ r) → mapM (λ s, index s r) l = Some (ren r <$> l).
Proof.
  intros Hin. apply mapM_Some, Forall2_fmap_r, Forall_Forall2_diag, Forall_forall.
  intros x Hx. destruct (proj2 (index_is_Some x r) (Hin x Hx)) as [i Hi].
  by rewrite /= /ren Hi.
Qed.

Lemma mapM_index_Some r l l' :
  mapM (λ s, index s r) l = Some l' → l' = ren r <$> l ∧ ∀ x, x ∈ l → x ∈ r.
Proof.
  intros Hm. assert (∀ x, x ∈ l → x ∈ r) as Hin.
  { intros x Hx. apply index_is_Some.
    assert (is_Some (mapM (λ s, index s r) l)) as Hs by eauto.
    rewrite mapM_is_Some Forall_forall in Hs. by apply Hs. }
  split; [|done]. rewrite mapM_index_total in Hm; [congruence|done].
Qed.

Lemma ren_index r x i : index x r = Some i → ren r x = i.
Proof. rewrite /ren. by intros ->. Qed.

Lemma ren_lookup r i x : NoDup r → r !! i = Some x → ren r x = i.
Proof. intros ??. by apply ren_index, index_NoDup. Qed.

Lemma lookup_ren r x : x ∈ r → r !! ren r x = Some x.
Proof.
  intros Hx. destruct (proj2 (index_is_Some x r) Hx) as [i Hi].
  rewrite (ren_index _ _ _ Hi). by apply index_lookup.
Qed.

Lemma ren_inj r x y : x ∈ r → y ∈ r → ren r x = ren r y → x = y.
Proof.
  intros Hx%lookup_ren Hy%lookup_ren Heq. rewrite Heq in Hx. congruence.
Qed.

Lemma ren_lt r x : x ∈ r → ren r x < length r.
Proof. intros Hx%lookup_ren. by eapply lookup_lt_Some. Qed.

Lemma ren_seq n x : x < n → ren (seq 0 n) x = x.
Proof. intros. by apply ren_index, index_seq. Qed.

Lemma ren_prefix p q : NoDup (p ++ q) → ren (p ++ q) <$> p = seq 0 (length p).
Proof.
  intros Hnd. apply list_eq. intros i. rewrite list_lookup_fmap.
  destruct (p !! i) as [x|] eqn:Hi; simpl.
  - rewrite (ren_lookup _ i) //; [|by apply lookup_app_l_Some].
    symmetry. apply lookup_seq. split; [done|]. by eapply lookup_lt_Some.
  - symmetry. apply lookup_ge_None. rewrite length_seq. by apply lookup_ge_None.
Qed.

Lemma first_occ_ren l q :
  NoDup (first_occ l ++ q) →
  first_occ (ren (first_occ l ++ q) <$> l) = seq 0 (length (first_occ l)).
Proof.
  intros Hnd. rewrite first_occ_fmap.
  - by apply ren_prefix.
  - intros x y Hx Hy. apply ren_inj; apply elem_of_app; left; by apply elem_of_first_occ.
Qed.

(** Lists whose first occurrences are [0, 1, 2, ...]. *)

Lemma app_eq_seq p q n : p ++ q = seq 0 n → p = seq 0 (length p).
Proof.
  intros Heq. apply list_eq. intros i.
  destruct (decide (i < length p)) as [Hlt|Hge].
  - rewrite -(lookup_app_l p q) // Heq. rewrite !lookup_seq_lt //.
    apply (f_equal length) in Heq. rewrite length_app length_seq in Heq. lia.
  - rewrite !lookup_ge_None_2 // ?length_seq; lia.
Qed.

Lemma canonical_take l n i :
  first_occ l = seq 0 n →
  first_occ (take i l) = seq 0 (length (first_occ (take i l))).
Proof.
  intros Heq. rewrite -(take_drop i l) first_occ_app in Heq.
  by eapply app_eq_seq.
Qed.

Lemma canonical_elem l n w : first_occ l = seq 0 n → w ∈ l → w < n.
Proof.
  intros Heq Hw. apply (proj2 (elem_of_first_occ _ _)) in Hw.
  rewrite Heq in Hw. apply elem_of_seq in Hw. lia.
Qed.

Lemma canonical_step l n i w :
  first_occ l = seq 0 n → l !! i = Some w →
  w ≤ length (first_occ (take i l)).
Proof.
  intros Heq Hi. pose proof (canonical_take _ _ i Heq) as Ht.
  destruct (decide (w ∈ take i l)) as [Hin|Hin].
  { apply Nat.lt_le_incl. by eapply canonical_elem. }
  rewrite -(take_drop_middle l i w) // first_occ_app /= in Heq.
  rewrite filter_cons_True // in Heq.
  set (a := length (first_occ (take i l))) in *.
  apply (f_equal (λ z, z !! a)) in Heq.
  rewrite lookup_app_r in Heq; [|done]. rewrite Nat.sub_diag /= in Heq.
  symmetry in Heq. apply lookup_seq in Heq. lia.
Qed.

Lemma canonical_earlier l n i w v :
  first_occ l = seq 0 n → l !! i = Some w → v < w → v ∈ take i l.
Proof.
  intros Heq Hi Hv. pose proof (canonical_step _ _ _ _ Heq Hi).
  apply elem_of_first_occ. rewrite (canonical_take _ _ i Heq).
  apply elem_of_seq. lia.
Qed.

Lemma max_of_ge l x : x ∈ l → x ≤ max_of l.
Proof.
  induction 1 as [x l|x y l _ IH]; simpl; lia.
Qed.

Lemma canonical_max l n i w :
  first_occ l = seq 0 n → l !! i = Some w → 0 < i →
  w ≤ S (max_of (take i l)).
Proof.
  intros Heq Hi Hpos. destruct w as [|w]; [lia|].
  apply le_n_S, max_of_ge. eapply canonical_earlier; eauto.
Qed.

Lemma canonical_head l n w : first_occ l = seq 0 n → l !! 0 = Some w → w = 0.
Proof.
  intros Heq Hi. pose proof (canonical_step _ _ _ _ Heq Hi) as Hle.
  rewrite take_0 /= in Hle. lia.
Qed.

End relabel.

(** ** The constructor: relabelling and inversion *)

Lemma Sorted_seq j n : Sorted (≤) (seq j n).
Proof.
  revert j. induction n as [|n IH]; intros j; simpl; [constructor|].
  constructor; [apply IH|]. destruct n; simpl; constructor. lia.
Qed.

Lemma mapM_lookup_seq {A} (l : list A) :
  mapM (λ s, l !! s) (seq 0 (length l)) = Some l.
Proof.
  apply mapM_Some, Forall2_same_length_lookup_2; [by rewrite length_seq|].
  intros i x y [-> ?]%lookup_seq. done.
Qed.

Section constructor.
Context `{C : Category}.
Implicit Types (d : gmap nat Ob) (l r wires : list nat) (h : Hypergraph).

Lemma elem_of_sorted_rest d r x :
  x ∈ sorted_rest d r ↔ (x ∉ r) ∧ is_Some (d !! x).
Proof.
  rewrite /sorted_rest merge_sort_Permutation list_elem_of_filter.
  by rewrite elem_of_elements elem_of_dom.
Qed.

Lemma NoDup_sorted_rest d r : NoDup (sorted_rest d r).
Proof.
  rewrite /sorted_rest merge_sort_Permutation.
  apply NoDup_filter, NoDup_elements.
Qed.

Lemma NoDup_relabeling wires d : NoDup (relabeling_of wires d).
Proof.
  apply NoDup_app. split; [apply NoDup_first_occ|].
  split; [|apply NoDup_sorted_rest].
  intros x Hx [Hy _]%elem_of_sorted_rest. done.
Qed.

Lemma elem_of_relabeling wires d x :
  x ∈ relabeling_of wires d ↔ x ∈ wires ∨ is_Some (d !! x).
Proof.
  rewrite /relabeling_of elem_of_app elem_of_sorted_rest elem_of_first_occ.
  destruct (decide (x ∈ wires)) as [?|Hx]; [naive_solver|].
  split; [naive_solver|]. intros [?|?]; [done|]. right. split; [|done].
  intros Hc. apply Hx. by apply (proj1 (elem_of_first_occ _ _)).
Qed.

Lemma sorted_rest_seq (types : list Ob) k :
  k ≤ length types →
  sorted_rest (dict_enumerate types) (seq 0 k) = seq k (length types - k).
Proof.
  intros Hk. apply (Sorted_unique (≤)).
  - apply Sorted_merge_sort. apply _.
  - apply Sorted_seq.
  - apply NoDup_Permutation; [apply NoDup_sorted_rest|apply NoDup_seq|].
    intros x. rewrite elem_of_sorted_rest !elem_of_seq /dict_enumerate.
    rewrite lookup_map_seq_0 lookup_lt_is_Some. lia.
Qed.

Lemma relabeling_canonical wires (types : list Ob) k :
  first_occ wires = seq 0 k → k ≤ length types →
  relabeling_of wires (dict_enumerate types) = seq 0 (length types).
Proof.
  intros Hw Hk. rewrite /relabeling_of Hw sorted_rest_seq //.
  rewrite -seq_app. f_equal. lia.
Qed.

(** What a successful call of the constructor has computed. *)
Lemma init_Ok dom cod boxes wires st off h :
  init dom cod boxes wires st off = Ok h →
  let ps := ports_of dom cod boxes in
  let d := types_dict ps wires st in
  let r := relabeling_of wires d in
  ∃ types sw,
    length wires = length ps ∧
    mapM (λ s, d !! s) r = Some types ∧
    spider_wires_of dom cod boxes (ren r <$> wires)
                    (length (normal_type <$> types)) = Ok sw ∧
    check_spiders ps (zip (normal_type <$> types) sw) = Ok () ∧
    h = mkHypergraph dom cod boxes (ren r <$> wires) (normal_type <$> types)
                     (offsets_or off boxes).
Proof.
  intros Hinit ps d r. rewrite /init in Hinit. fold ps d r in Hinit.
  case_decide as Hlen; [done|].
  destruct (mapM (λ s, index s r) wires) as [wires'|] eqn:Hw; [|done].
  apply mapM_index_Some in Hw as [-> _].
  destruct (mapM (λ s, d !! s) r) as [types|] eqn:Ht; [|done].
  simpl in Hinit.
  destruct (spider_wires_of _ _ _ _ _) as [sw|] eqn:Hsw; [|done].
  simpl in Hinit.
  destruct (check_spiders _ _) as [[]|] eqn:Hck; [|done].
  simpl in Hinit. exists types, sw. by simplify_eq.
Qed.

Definition canonical_wires (wires : list nat) (n : nat) : Prop :=
  ∃ k, first_occ wires = seq 0 k ∧ k ≤ n.

Lemma init_canonical_wires dom cod boxes ws st off h :
  init dom cod boxes ws st off = Ok h →
  canonical_wires (wires h) (n_spiders h).
Proof.
  intros (types & sw & _ & Ht & _ & _ & ->)%init_Ok.
  exists (length (first_occ ws)). rewrite /n_spiders /=. split.
  - apply first_occ_ren, NoDup_relabeling.
  - rewrite length_fmap -(length_mapM _ _ _ Ht) /relabeling_of length_app. lia.
Qed.

End constructor.

(** ** Port addressing: the events of [spider_wires] *)

(** The ports that feed a spider are the diagram inputs and the box
    outputs. *)
Definition is_source (k : Kind) : bool :=
  bool_decide (k ∈ [input; cod_port]).

(** One event [(side, port, spider)] per call of [add] in [spider_wires]. *)
Fixpoint events (base : nat) (sides : list bool) (ws : list nat)
  : list (bool * nat * nat) :=
  match sides, ws with
  | side :: sides', w :: ws' => (side, base, w) :: events (S base) sides' ws'
  | _, _ => []
  end.

Fixpoint add_all (ev : list (bool * nat * nat))
    (res : list (list nat * list nat)) : option (list (list nat * list nat)) :=
  match ev with
  | [] => Some res
  | (side, port, spider) :: ev' =>
      res' ← add_port side port spider res; add_all ev' res'
  end.

(** The ports that the events add to one side of spider [s]. *)
Definition sel (side : bool) (s : nat) (ev : list (bool * nat * nat)) : list nat :=
  omap (λ e, if decide (e.1.1 = side ∧ e.2 = s) then Some e.1.2 else None) ev.

Section events.
Implicit Types (ev : list (bool * nat * nat)) (res : list (list nat * list nat)).
Implicit Types (sides : list bool) (ws : list nat).

Lemma add_all_app ev1 ev2 res :
  add_all (ev1 ++ ev2) res = add_all ev1 res ≫= add_all ev2.
Proof.
  revert res. induction ev1 as [|[[side p] s] ev1 IH]; intros res; simpl; [done|].
  destruct (add_port side p s res) as [res'|]; simpl; [apply IH|done].
Qed.

Lemma add_ports_events side base ws res :
  add_ports side base ws res
  = add_all (events base (replicate (length ws) side) ws) res.
Proof.
  revert base res. induction ws as [|w ws IH]; intros base res; simpl; [done|].
  destruct (add_port side base w res) as [res'|]; simpl; [apply IH|done].
Qed.

Lemma events_app base sides1 sides2 ws1 ws2 :
  length sides1 = length ws1 →
  events base (sides1 ++ sides2) (ws1 ++ ws2)
  = events base sides1 ws1 ++ events (base + length sides1) sides2 ws2.
Proof.
  revert base ws1. induction sides1 as [|s sides1 IH]; intros base [|w ws1] Hlen;
    simplify_eq/=.
  - by rewrite Nat.add_0_r.
  - rewrite IH //. do 3 f_equal. lia.
Qed.

Lemma events_lookup base sides ws i side p s :
  events base sides ws !! i = Some (side, p, s) ↔
  sides !! i = Some side ∧ ws !! i = Some s ∧ p = base + i.
Proof.
  revert base ws i. induction sides as [|s0 sides IH]; intros base [|w ws] i; simpl.
  1-3: naive_solver.
  destruct i as [|i]; simpl.
  - rewrite Nat.add_0_r. naive_solver.
  - rewrite IH. naive_solver lia.
Qed.

Lemma elem_of_events base sides ws side p s :
  (side, p, s) ∈ events base sides ws ↔
  ∃ i, sides !! i = Some side ∧ ws !! i = Some s ∧ p = base + i.
Proof.
  rewrite list_elem_of_lookup. by setoid_rewrite events_lookup.
Qed.

Lemma events_ports base sides ws :
  length sides = length ws →
  (λ e, e.1.2) <$> events base sides ws = seq base (length ws).
Proof.
  revert base ws. induction sides as [|s sides IH]; intros base [|w ws] Hlen;
    simplify_eq/=; [done|]. by rewrite IH.
Qed.

Lemma elem_of_sel side s ev p :
  p ∈ sel side s ev ↔ (side, p, s) ∈ ev.
Proof.
  rewrite /sel list_elem_of_omap. split.
  - intros ([[side' p'] s'] & Hin & Hd). case_decide as Heq; simplify_eq/=.
    by destruct Heq as [-> ->].
  - intros Hin. exists (side, p, s). split; [done|]. by rewrite decide_True.
Qed.

Lemma sel_cons side s e ev :
  sel side s (e :: ev)
  = (if decide (e.1.1 = side ∧ e.2 = s) then [e.1.2] else []) ++ sel side s ev.
Proof. rewrite /sel /=. by case_decide. Qed.

Lemma NoDup_sel side s ev : NoDup ((λ e, e.1.2) <$> ev) → NoDup (sel side s ev).
Proof.
  induction ev as [|e ev IH]; [constructor|].
  rewrite fmap_cons NoDup_cons sel_cons. intros [Hni Hnd].
  case_decide; simpl; [|by apply IH]. constructor; [|by apply IH].
  intros Hin. apply (proj1 (elem_of_sel _ _ _ _)) in Hin.
  apply Hni, list_elem_of_fmap. by exists (side, e.1.2, s).
Qed.

(** The effect of a run of events whose ports are fresh and distinct. *)
Lemma add_all_spec ev res :
  (∀ e, e ∈ ev → e.2 < length res) →
  (∀ e s io, e ∈ ev → res !! s = Some io → (e.1.2 ∉ io.1) ∧ (e.1.2 ∉ io.2)) →
  NoDup ((λ e, e.1.2) <$> ev) →
  ∃ res', add_all ev res = Some res' ∧ length res' = length res ∧
    ∀ s, res' !! s
         = (λ io, (io.1 ++ sel true s ev, io.2 ++ sel false s ev)) <$> res !! s.
Proof.
  revert res. induction ev as [|[[side p] sp] ev IH]; intros res Hlt Hfresh Hnd.
  { exists res. split_and!; [done..|]. intros s. rewrite /sel /=.
    destruct (res !! s) as [[??]|]; by rewrite /= ?app_nil_r. }
  rewrite fmap_cons in Hnd. apply NoDup_cons in Hnd as [Hp Hnd]. simpl in Hp.
  assert (sp < length res) as Hsp by (apply (Hlt (side, p, sp)); left).
  destruct (lookup_lt_is_Some_2 _ _ Hsp) as [[ins outs] Hio].
  destruct (Hfresh (side, p, sp) sp (ins, outs)) as [Hpi Hpo]; [left|done|].
  simpl in Hpi, Hpo.
  set (io' := if side then (ins ++ [p], outs) else (ins, outs ++ [p])).
  assert (add_port side p sp res = Some (<[sp := io']> res)) as Hadd.
  { rewrite /add_port Hio /io' /set_add. destruct side; by rewrite decide_False. }
  destruct (IH (<[sp := io']> res)) as (res' & Hres' & Hlen' & Hlook).
  - intros e He. rewrite length_insert. apply Hlt. by right.
  - intros e s io He Hs. destruct (decide (s = sp)) as [->|Hne].
    + rewrite list_lookup_insert_eq // in Hs.
      destruct (Hfresh e sp (ins, outs)) as [Hei Heo]; [by right|done|].
      assert (e.1.2 ≠ p) as Hep.
      { intros <-. apply Hp, list_elem_of_fmap. by eexists. }
      injection Hs as <-. rewrite /io'. simpl in Hei, Heo.
      destruct side; simpl; split; try done;
        rewrite not_elem_of_app list_elem_of_singleton; done.
    + rewrite list_lookup_insert_ne // in Hs. apply (Hfresh e s io); [by right|done].
  - done.
  - exists res'. split_and!.
    + by rewrite /= Hadd.
    + by rewrite Hlen' length_insert.
    + intros s. rewrite Hlook !sel_cons /=. destruct (decide (s = sp)) as [->|Hne].
      * rewrite list_lookup_insert_eq // Hio /= /io'.
        destruct side; simpl; repeat case_decide; simpl;
          try (exfalso; intuition congruence); by rewrite -?app_assoc.
      * rewrite list_lookup_insert_ne //.
        repeat case_decide; simpl; try (exfalso; intuition congruence).
        destruct (res !! s) as [[??]|]; by rewrite /= ?app_nil_r.
Qed.

End events.

(** ** The ports of a hypergraph and their sides *)

Section ports.
Context `{C : Category}.
Implicit Types (dom cod : list Ob) (boxes : list Box) (ws : list nat).

Definition box_sides (b : Box) : list bool :=
  replicate (length (box_dom b)) false ++ replicate (length (box_cod b)) true.

Definition sides_of dom cod boxes : list bool :=
  replicate (length dom) true ++ mjoin (box_sides <$> boxes)
  ++ replicate (length cod) false.

Definition n_box_ports boxes : nat := length (mjoin (box_sides <$> boxes)).

Lemma length_box_sides b :
  length (box_sides b) = length (box_dom b) + length (box_cod b).
Proof. by rewrite /box_sides length_app !length_replicate. Qed.

Lemma n_box_ports_cons b boxes :
  n_box_ports (b :: boxes)
  = length (box_dom b) + length (box_cod b) + n_box_ports boxes.
Proof. by rewrite /n_box_ports /= length_app length_box_sides. Qed.

Lemma n_box_ports_app boxes1 boxes2 :
  n_box_ports (boxes1 ++ boxes2) = n_box_ports boxes1 + n_box_ports boxes2.
Proof. by rewrite /n_box_ports fmap_app join_app length_app. Qed.

Lemma imap_kind {A} (f : nat → A → Node) (k : Kind) (l : list A) :
  (∀ i a, kind (f i a) = k) →
  (is_source ∘ kind) <$> imap f l = replicate (length l) (is_source k).
Proof.
  intros Hk. revert f Hk. induction l as [|a l IH]; intros f Hk; [done|].
  rewrite imap_cons fmap_cons /= Hk IH; [done|]. intros i a'. apply Hk.
Qed.

Lemma box_ports_sides depth b :
  (is_source ∘ kind) <$> box_ports depth b = box_sides b.
Proof.
  rewrite /box_ports /box_sides fmap_app.
  by rewrite (imap_kind _ dom_port) // (imap_kind _ cod_port).
Qed.

Lemma boxes_ports_sides (f : nat → nat) boxes :
  (is_source ∘ kind) <$> mjoin (imap (λ d, box_ports (f d)) boxes)
  = mjoin (box_sides <$> boxes).
Proof.
  revert f. induction boxes as [|b boxes IH]; intros f; [done|].
  rewrite imap_cons /= fmap_app box_ports_sides. f_equal. apply (IH (f ∘ S)).
Qed.

Lemma ports_sides dom cod boxes :
  (is_source ∘ kind) <$> ports_of dom cod boxes = sides_of dom cod boxes.
Proof.
  rewrite /ports_of /sides_of !fmap_app.
  rewrite (imap_kind _ input) // (imap_kind _ output) //.
  by rewrite (boxes_ports_sides Datatypes.id).
Qed.

Lemma length_sides_of dom cod boxes :
  length (sides_of dom cod boxes)
  = length dom + n_box_ports boxes + length cod.
Proof. rewrite /sides_of !length_app !length_replicate /n_box_ports. lia. Qed.

Lemma length_ports_of dom cod boxes :
  length (ports_of dom cod boxes)
  = length dom + n_box_ports boxes + length cod.
Proof. by rewrite -length_sides_of -ports_sides length_fmap. Qed.

Lemma sides_lookup dom cod boxes p side :
  sides_of dom cod boxes !! p = Some side ↔
  ∃ nd, ports_of dom cod boxes !! p = Some nd ∧ is_source (kind nd) = side.
Proof.
  rewrite -ports_sides list_lookup_fmap fmap_Some. naive_solver.
Qed.

(** The loop over the boxes performs the events of the box ports. *)
Lemma add_box_ports_events boxes i ws res :
  i + n_box_ports boxes ≤ length ws →
  add_box_ports i (box_wires_from i boxes ws) res
  = (λ r, (i + n_box_ports boxes, r)) <$>
    add_all (events i (mjoin (box_sides <$> boxes))
                    (take (n_box_ports boxes) (drop i ws))) res.
Proof.
  revert i res. induction boxes as [|b boxes IH]; intros i res Hlen.
  { rewrite /n_box_ports /= Nat.add_0_r. done. }
  rewrite n_box_ports_cons in Hlen |- *.
  set (a := length (box_dom b)) in *. set (c := length (box_cod b)) in *.
  rewrite fmap_cons /= -/a -/c.
  assert (length (take a (drop i ws)) = a) as Ha.
  { rewrite length_take length_drop. lia. }
  assert (length (take c (drop (i + a) ws)) = c) as Hc.
  { rewrite length_take length_drop. lia. }
  rewrite -(take_take_drop _ (a + c)) -(take_take_drop _ a c) !drop_drop.
  rewrite /box_sides -/a -/c -!app_assoc.
  rewrite events_app; [|by rewrite length_replicate].
  rewrite events_app; [|by rewrite length_replicate].
  rewrite !add_all_app !length_replicate add_ports_events Ha.
  destruct (add_all (events i (replicate a false) _) res) as [res1|]; [|done].
  simpl. rewrite add_all_app add_ports_events Hc.
  destruct (add_all (events (i + a) (replicate c true) _) res1) as [res2|];
    [|done].
  simpl. rewrite !length_app Ha Hc -/a -/c IH; [|lia].
  replace (i + a + c) with (i + (a + c)) by lia.
  destruct (add_all _ res2); simpl; [|done]. do 2 f_equal. lia.
Qed.

Lemma events_sides_of dom cod boxes ws :
  length ws = length dom + n_box_ports boxes + length cod →
  events 0 (sides_of dom cod boxes) ws
  = events 0 (replicate (length dom) true) (take (length dom) ws)
    ++ events (length dom) (mjoin (box_sides <$> boxes))
              (take (n_box_ports boxes) (drop (length dom) ws))
    ++ events (length dom + n_box_ports boxes) (replicate (length cod) false)
              (drop (length dom + n_box_ports boxes) ws).
Proof.
  intros Hlen. set (nb := n_box_ports boxes) in *.
  rewrite -{1}(take_drop (length dom) ws).
  rewrite -{1}(take_drop nb (drop (length dom) ws)) drop_drop.
  rewrite /sides_of events_app; [|by rewrite length_replicate length_take; lia].
  rewrite events_app.
  2: { subst nb. rewrite /n_box_ports length_take length_drop.
       rewrite /n_box_ports in Hlen. lia. }
  by rewrite length_replicate.
Qed.

Lemma spider_wires_events dom cod boxes ws n :
  length ws = length (ports_of dom cod boxes) →
  spider_wires_of dom cod boxes ws n
  = expect IndexError
      (add_all (events 0 (sides_of dom cod boxes) ws) (replicate n ([], []))).
Proof.
  rewrite length_ports_of. intros Hlen.
  rewrite events_sides_of // /spider_wires_of /box_wires_of. f_equal.
  set (nb := n_box_ports boxes) in *.
  rewrite add_all_app add_ports_events length_take Nat.min_l; [|lia].
  destruct (add_all _ (replicate n _)) as [res0|]; [|done]. simpl.
  rewrite add_all_app add_box_ports_events; [|lia].
  destruct (add_all _ res0) as [res1|]; [|done]. simpl.
  rewrite add_ports_events -/nb Hlen.
  replace (length dom + nb + length cod - length cod) with (length dom + nb)
    by lia.
  rewrite length_drop Hlen.
  replace (length dom + nb + length cod - (length dom + nb)) with (length cod)
    by lia.
  done.
Qed.

End ports.

(** ** Well-formed hypergraphs *)

Section wf.
Context `{C : Category}.
Implicit Types (dom cod : list Ob) (boxes : list Box) (ws : list nat).
Implicit Types (h : Hypergraph).

(** The values of the class: what the constructor returns. *)
Definition constructed h : Prop :=
  ∃ dom cod boxes ws st off, init dom cod boxes ws st off = Ok h.

Record wf h : Prop := {
  wf_length : length (wires h) = length (ports h);
  wf_canonical : canonical_wires (wires h) (n_spiders h);
  wf_types : ∀ p w nd t,
    wires h !! p = Some w → ports h !! p = Some nd →
    spider_types h !! w = Some t → obj nd ∈ [t; adjoint t];
  wf_normal : ∀ t, t ∈ spider_types h → ∃ t0, t = normal_type t0;
  wf_offsets : offsets h = [] → boxes h = [];
}.

Lemma sel_events_lookup side s sides ws p :
  p ∈ sel side s (events 0 sides ws) ↔
  sides !! p = Some side ∧ ws !! p = Some s.
Proof. rewrite elem_of_sel elem_of_events. naive_solver. Qed.

Lemma spider_wires_spec dom cod boxes ws n :
  length ws = length (ports_of dom cod boxes) →
  (∀ w, w ∈ ws → w < n) →
  ∃ sw, spider_wires_of dom cod boxes ws n = Ok sw ∧ length sw = n ∧
    ∀ s, s < n →
      sw !! s = Some (sel true s (events 0 (sides_of dom cod boxes) ws),
                      sel false s (events 0 (sides_of dom cod boxes) ws)).
Proof.
  intros Hlen Hlt. rewrite spider_wires_events //.
  assert (length (sides_of dom cod boxes) = length ws) as Hsides.
  { by rewrite Hlen -ports_sides length_fmap. }
  destruct (add_all_spec (events 0 (sides_of dom cod boxes) ws)
              (replicate n ([], []))) as (sw & -> & Hn & Hsw).
  - intros [[side p] s] (i & _ & Hi & _)%elem_of_events. simpl.
    rewrite length_replicate. apply Hlt. by eapply list_elem_of_lookup_2.
  - intros e s io _ [-> _]%lookup_replicate. simpl. split; apply not_elem_of_nil.
  - rewrite events_ports //. apply NoDup_seq.
  - exists sw. rewrite length_replicate in Hn. split_and!; [done..|].
    intros s Hs. by rewrite Hsw lookup_replicate_2.
Qed.

Lemma check_ports_Ok (ps : list Node) o idx :
  check_ports ps o idx = Ok () ↔
  ∀ i, i ∈ idx → ∃ nd, ps !! i = Some nd ∧ obj nd ∈ [o; adjoint o].
Proof.
  induction idx as [|i idx IH]; simpl.
  { split; [|done]. by intros _ i ?%elem_of_nil. }
  destruct (ps !! i) as [nd|] eqn:Hi; simpl.
  - case_decide as Ho.
    + rewrite IH. split.
      * intros Hall j [->|Hj]%elem_of_cons; [by exists nd|by apply Hall].
      * intros Hall j Hj. apply Hall. by right.
    + split; [done|]. intros Hall. destruct (Hall i) as (nd' & ? & ?); [left|].
      by simplify_eq.
  - split; [done|]. intros Hall. destruct (Hall i) as (nd' & ? & ?); [left|].
    by simplify_eq.
Qed.


Context `{!CategoryLaws C}.

Lemma check_spiders_Ok (ps : list Node) (sw : list (Ob * (list nat * list nat))) :
  check_spiders ps sw = Ok () ↔
  ∀ o ins outs i, (o, (ins, outs)) ∈ sw → i ∈ ins ++ outs →
    ∃ nd, ps !! i = Some nd ∧ obj nd ∈ [o; adjoint o].
Proof.
  induction sw as [|[o [ins outs]] sw IH]; simpl.
  { split; [|done]. by intros _ ???? ?%elem_of_nil. }
  destruct (check_ports ps o (set_iter (ins ++ outs))) as [[]|e] eqn:Hck; simpl.
  - rewrite IH. rewrite check_ports_Ok in Hck. split.
    + intros Hall o' ins' outs' i [?|Hin]%elem_of_cons Hi.
      * simplify_eq. apply Hck. by rewrite set_iter_perm.
      * by eapply Hall.
    + intros Hall o' ins' outs' i Hin Hi. eapply Hall; [by right|done].
  - split; [done|]. intros Hall.
    assert (check_ports ps o (set_iter (ins ++ outs)) = Ok ()) as Hok;
      [|congruence].
    apply check_ports_Ok. intros i Hi. rewrite set_iter_perm in Hi.
    eapply Hall; [by left|done].
Qed.


End wf.

(** ** When the constructor succeeds *)

Section init.
Context `{C : Category} `{!CategoryLaws C}.
Implicit Types (dom cod : list Ob) (boxes : list Box) (ws : list nat).
Implicit Types (h : Hypergraph).

Lemma sel_union_lookup dom cod boxes ws s p :
  length ws = length (ports_of dom cod boxes) →
  p ∈ sel true s (events 0 (sides_of dom cod boxes) ws)
      ++ sel false s (events 0 (sides_of dom cod boxes) ws)
  ↔ ws !! p = Some s.
Proof.
  intros Hlen. rewrite elem_of_app !sel_events_lookup. split; [naive_solver|].
  intros Hp. assert (is_Some (sides_of dom cod boxes !! p)) as [[] Hs].
  { apply lookup_lt_is_Some. rewrite -ports_sides length_fmap -Hlen.
    by eapply lookup_lt_Some. }
  all: naive_solver.
Qed.

Lemma init_success dom cod boxes ws st off :
  let ps := ports_of dom cod boxes in
  let d := types_dict ps ws st in
  let r := relabeling_of ws d in
  length ws = length ps →
  (∀ w, w ∈ ws → is_Some (d !! w)) →
  (∀ p w nd t, ws !! p = Some w → ps !! p = Some nd → d !! w = Some t →
     obj nd ∈ [normal_type t; adjoint (normal_type t)]) →
  ∃ types, mapM (λ s, d !! s) r = Some types ∧
    init dom cod boxes ws st off
    = Ok (mkHypergraph dom cod boxes (ren r <$> ws) (normal_type <$> types)
                       (offsets_or off boxes)).
Proof.
  intros ps d r Hlen Hkeys Hcompat.
  assert (∀ x, x ∈ ws → x ∈ r) as Hin.
  { intros x Hx. apply elem_of_relabeling. by left. }
  destruct (mapM (λ s, d !! s) r) as [types|] eqn:Ht.
  2: { apply mapM_None, Exists_exists in Ht as (k & Hk & Hnone).
       apply elem_of_relabeling in Hk as [Hk|Hk].
       - apply Hkeys in Hk. rewrite Hnone in Hk. by destruct Hk.
       - rewrite Hnone in Hk. by destruct Hk. }
  exists types. split; [done|].
  pose proof (length_mapM _ _ _ Ht) as Hlr.
  destruct (spider_wires_spec dom cod boxes (ren r <$> ws)
              (length (normal_type <$> types))) as (sw & Hsw & Hn & Hspec).
  { by rewrite length_fmap. }
  { intros w' (w & -> & Hw)%list_elem_of_fmap. rewrite length_fmap -Hlr.
    by apply ren_lt, Hin. }
  rewrite /init -/ps -/d -/r decide_False; [|by intros Hne; apply Hne].
  rewrite mapM_index_total // Ht /= Hsw /=.
  assert (check_spiders ps (zip (normal_type <$> types) sw) = Ok ()) as ->; [|done].
  apply check_spiders_Ok. intros o ins outs p Hz Hp.
  apply list_elem_of_lookup in Hz as [s Hz].
  apply lookup_zip_with_Some in Hz as (o' & io & [= <- <-] & Ho & Hio).
  assert (s < length (normal_type <$> types)) as Hs by by eapply lookup_lt_Some.
  rewrite Hspec // in Hio. injection Hio as <- <-.
  assert (length (ren r <$> ws) = length ps) as Hlen' by by rewrite length_fmap.
  apply (proj1 (sel_union_lookup _ _ _ _ _ _ Hlen')) in Hp.
  apply list_lookup_fmap_Some in Hp as (w & -> & Hw).
  apply list_lookup_fmap_Some in Ho as (t & -> & Ht').
  assert (is_Some (ps !! p)) as [nd Hnd].
  { apply lookup_lt_is_Some. rewrite -Hlen. by eapply lookup_lt_Some. }
  exists nd. split; [done|]. eapply Hcompat; [done..|].
  apply mapM_Some in Ht.
  assert (r !! ren r w = Some w) as Hrw.
  { apply lookup_ren, Hin. by eapply list_elem_of_lookup_2. }
  destruct (Forall2_lookup_l _ _ _ _ _ Ht Hrw) as (t' & Ht'' & ?). congruence.
Qed.

Lemma init_wf dom cod boxes ws st off h :
  init dom cod boxes ws st off = Ok h → wf h.
Proof.
  intros Hinit. pose proof (init_canonical_wires _ _ _ _ _ _ _ Hinit) as Hcan.
  apply init_Ok in Hinit as (types & sw & Hlen & Ht & Hsw & Hck & ->).
  set (r := relabeling_of _ _) in *.
  split; simpl.
  - by rewrite length_fmap.
  - done.
  - rewrite /ports /=. intros p w nd t Hw Hnd Hty.
    destruct Hcan as (k & Hk & Hkn). rewrite /n_spiders /= in Hkn.
    destruct (spider_wires_spec dom cod boxes (ren r <$> ws)
                (length (normal_type <$> types))) as (sw' & Hsw' & Hn & Hspec).
    { by rewrite length_fmap. }
    { intros w' Hw'. eapply Nat.lt_le_trans; [|done].
      by eapply canonical_elem. }
    rewrite Hsw in Hsw'. injection Hsw' as <-.
    rewrite check_spiders_Ok in Hck.
    assert (w < length (normal_type <$> types)) as Hlt by by eapply lookup_lt_Some.
    destruct (Hck t _ _ p (list_elem_of_lookup_2 _ w _
      (proj2 (lookup_zip_with_Some pair _ _ _ _)
         (ex_intro _ t (ex_intro _ _ (conj eq_refl (conj Hty (Hspec w Hlt))))))))
      as (nd' & Hnd' & Hobj).
    + apply sel_union_lookup; [by rewrite length_fmap|done].
    + rewrite /ports /= in Hnd. congruence.
  - intros t (t0 & -> & _)%list_elem_of_fmap. by exists t0.
  - destruct off as [[|o off]|]; simpl; try done.
    all: intros Hr; apply (f_equal length) in Hr;
      rewrite length_replicate /= in Hr; by apply nil_length_inv.
Qed.

Lemma constructed_wf h : constructed h → wf h.
Proof. intros (?&?&?&?&?&?&?). by eapply init_wf. Qed.

End init.

(** ** Canonical labels (C9) *)

#[global] Instance Pivotal_laws : CategoryLaws Pivotal.cat.
Proof.
  split.
  - intros [n b]. by rewrite /= negb_involutive.
  - by intros [n []].
  - by intros [n []].
  - by intros [].
  - by intros [].
  - intros [s d c g|n m t]; by rewrite /= ?negb_involutive.
  - done.
  - done.
  - intros l. apply merge_sort_Permutation.
Qed.

Lemma count_0 x l : count x l = 0 ↔ x ∉ l.
Proof.
  rewrite /count. split.
  - intros Hl%nil_length_inv Hx. eapply filter_nil_not_elem_of; [done| |done]. done.
  - intros Hx. rewrite filter_none //. set_solver.
Qed.

Section canonical.
Context `{C : Category}.
Implicit Types (h : Hypergraph).

(** The canonical-label invariant. *)
Definition canonical_labels h : Prop :=
  (∀ i w, wires h !! i = Some w → w < n_spiders h) ∧
  (∀ i w, wires h !! i = Some w →
     if decide (i = 0) then w = 0 else w ≤ S (max_of (take i (wires h)))) ∧
  (∀ s w, s < n_spiders h → s ∉ wires h → w ∈ wires h → w < s).

Lemma canonical_wires_labels h :
  canonical_wires (wires h) (n_spiders h) → canonical_labels h.
Proof.
  intros (k & Hk & Hkn). split_and!.
  - intros i w Hw. eapply Nat.lt_le_trans; [|done].
    eapply canonical_elem; [done|]. by eapply list_elem_of_lookup_2.
  - intros i w Hw. case_decide as Hi.
    + subst i. by eapply canonical_head.
    + eapply canonical_max; [done..|lia].
  - intros s w Hs Hns Hw.
    pose proof (canonical_elem _ _ _ Hk Hw) as Hwk.
    destruct (decide (s < k)) as [Hsk|]; [|lia].
    exfalso. apply Hns, elem_of_first_occ. rewrite Hk. apply elem_of_seq. lia.
Qed.

Lemma scalar_spiders_canonical h :
  canonical_wires (wires h) (n_spiders h) →
  first_occ (wires h) ++ scalar_spiders h = seq 0 (n_spiders h).
Proof.
  intros (k & Hk & Hkn). rewrite Hk /scalar_spiders.
  replace (n_spiders h) with (k + (n_spiders h - k)) by lia.
  rewrite seq_app filter_app /= filter_none ?filter_all //.
  - intros x Hx%elem_of_seq. apply count_0. intros Hin.
    pose proof (canonical_elem _ _ _ Hk Hin). lia.
  - intros x Hx%elem_of_seq. rewrite count_0. intros Hc. apply Hc.
    apply elem_of_first_occ. rewrite Hk. apply elem_of_seq. lia.
Qed.

(** Every operator builds its result with the constructor. *)
Lemma id_constructed t h : id t = Ok h → constructed h.
Proof. rewrite /id /constructed. eauto 10. Qed.

Lemma then_constructed f g h : then_ f g = Ok h → constructed h.
Proof.
  rewrite /then_ /constructed. case_decide; [done|].
  destruct (pushout _ _ _ _) as [l r].
  repeat (match goal with
          | |- context [expect _ ?o] => destruct o; simpl; [|done]
          end).
  eauto 10.
Qed.

Lemma tensor_constructed f g h : tensor f g = Ok h → constructed h.
Proof. rewrite /tensor /constructed. eauto 10. Qed.

Lemma dagger_constructed f h : dagger f = Ok h → constructed h.
Proof. rewrite /dagger /constructed. eauto 10. Qed.

Lemma getitem_constructed f k h : getitem f k = Ok h → constructed h.
Proof. rewrite /getitem. case_decide; [apply dagger_constructed|done]. Qed.

Lemma spiders_constructed n m t h : spiders n m t = Ok h → constructed h.
Proof. rewrite /spiders /constructed. eauto 10. Qed.

Lemma from_box_constructed b h : from_box b = Ok h → constructed h.
Proof. rewrite /from_box /constructed. eauto 10. Qed.

Lemma make_bijective_step_constructed f h :
  make_bijective_step f = Ok (Some h) → constructed h.
Proof.
  rewrite /make_bijective_step /constructed.
  destruct (spider_wires f) as [sw|]; simpl; [|done].
  destruct (list_find _ _) as [[? [spider [typ [ins outs]]]]|]; [|done].
  match goal with
  | |- context [mbind _ ?d] => destruct d as [depth|]; simpl; [|done]
  end.
  destruct (assign_legs _ _ _ _) as [ws|]; simpl; [|done].
  destruct (init _ _ _ _ _ _) as [h'|] eqn:Hinit; simpl; [|done].
  intros [= <-]. eauto 10.
Qed.

Lemma make_bijective_constructed fuel f h :
  make_bijective fuel f = Some (Ok h) → h = f ∨ constructed h.
Proof.
  revert f. induction fuel as [|fuel IH]; intros f; simpl; [done|].
  destruct (make_bijective_step f) as [[f'|]|] eqn:Hstep; [|naive_solver..].
  intros Hrec. right. destruct (IH _ Hrec) as [->|?]; [|done].
  by eapply make_bijective_step_constructed.
Qed.

Lemma constructed_canonical h : constructed h → canonical_labels h.
Proof.
  intros (?&?&?&?&?&?&Hinit).
  by eapply canonical_wires_labels, init_canonical_wires.
Qed.

(** C9: every hypergraph the constructor or an operator returns carries
    canonical labels: its wires are spider ids below [n_spiders], the first
    wire is [0] and every later one is at most one greater than the maximum
    of the earlier ones, and a spider id that does not occur in the wires is
    larger than every id that does. *)
Theorem canonical_labels_reachable :
  (∀ dom cod boxes ws st off h,
     init dom cod boxes ws st off = Ok h → canonical_labels h) ∧
  (∀ t h, id t = Ok h → canonical_labels h) ∧
  (∀ f g h, then_ f g = Ok h → canonical_labels h) ∧
  (∀ f g h, tensor f g = Ok h → canonical_labels h) ∧
  (∀ f h, dagger f = Ok h → canonical_labels h) ∧
  (∀ f k h, getitem f k = Ok h → canonical_labels h) ∧
  (∀ n m t h, spiders n m t = Ok h → canonical_labels h) ∧
  (∀ b h, from_box b = Ok h → canonical_labels h) ∧
  (∀ fuel f h, canonical_labels f → make_bijective fuel f = Some (Ok h) →
     canonical_labels h).
Proof.
  split_and!.
  - intros. apply constructed_canonical. rewrite /constructed. eauto 10.
  - eauto using constructed_canonical, id_constructed.
  - eauto using constructed_canonical, then_constructed.
  - eauto using constructed_canonical, tensor_constructed.
  - eauto using constructed_canonical, dagger_constructed.
  - eauto using constructed_canonical, getitem_constructed.
  - eauto using constructed_canonical, spiders_constructed.
  - eauto using constructed_canonical, from_box_constructed.
  - intros fuel f h Hf [->|?]%make_bijective_constructed; [done|].
    by apply constructed_canonical.
Qed.

End canonical.

Lemma canonical_labels_reachable_witness :
  canonical_labels
    (mkHypergraph [Pivotal.x] [Pivotal.y]
       [Pivotal.Gen "f" [Pivotal.x] [Pivotal.y] false]
       [0; 0; 1; 1] [Pivotal.x; Pivotal.y] [None]).
Proof.
  apply (proj1 canonical_labels_reachable [Pivotal.x] [Pivotal.y]
           [Pivotal.Gen "f" [Pivotal.x] [Pivotal.y] false]
           [7; 7; 3; 3] NoTypes None).
  vm_compute. reflexivity.
Defined.

(** ** Idempotence of the canonical relabelling (C5) *)

Section idempotence.
Context `{C : Category}.
Implicit Types (h : Hypergraph).

Lemma ren_seq_id n (ws : list nat) :
  (∀ w, w ∈ ws → w < n) → ren (seq 0 n) <$> ws = ws.
Proof.
  intros Hlt. induction ws as [|w ws IH]; [done|].
  rewrite fmap_cons ren_seq; [|apply Hlt; left].
  rewrite IH; [done|]. intros; apply Hlt; by right.
Qed.

Lemma normal_type_id (types : list Ob) :
  (∀ t, t ∈ types → z_flag t = false) → normal_type <$> types = types.
Proof.
  intros Hz. induction types as [|t types IH]; [done|].
  rewrite fmap_cons /normal_type Hz; [|left].
  rewrite -/normal_type IH; [done|]. intros; apply Hz; by right.
Qed.

Lemma init_canonical_input dom cod boxes ws types off h :
  canonical_wires ws (length types) →
  init dom cod boxes ws (TypeSeq types) off = Ok h →
  wires h = ws ∧ spider_types h = normal_type <$> types.
Proof.
  intros (k & Hk & Hkn) (types' & sw & _ & Ht & _ & _ & ->)%init_Ok.
  simpl in *. rewrite (relabeling_canonical _ _ k) // in Ht |- *.
  rewrite /dict_enumerate in Ht.
  erewrite mapM_ext in Ht; [|intros s; apply lookup_map_seq_0].
  rewrite mapM_lookup_seq in Ht. injection Ht as <-. split; [|done].
  apply ren_seq_id. intros w Hw. eapply Nat.lt_le_trans; [|done].
  by eapply canonical_elem.
Qed.

(** C5, as amended: a pair [(wires, spider_types)] whose wires are already
    canonical is reproduced by the constructor, up to the orientation of
    the spider types: the wires are the same and every spider type whose
    [z] flag is set is replaced by its adjoint, so the pair itself is
    reproduced when no spider type has its flag set; and for every input
    the constructed wires name the spiders in order of first occurrence,
    followed by the scalar spiders. *)
Theorem canonical_idempotence :
  (∀ dom cod boxes ws types off h,
     canonical_wires ws (length types) →
     init dom cod boxes ws (TypeSeq types) off = Ok h →
     wires h = ws ∧ spider_types h = normal_type <$> types ∧
     ((∀ t, t ∈ types → z_flag t = false) → spider_types h = types)) ∧
  (∀ dom cod boxes ws st off h,
     init dom cod boxes ws st off = Ok h →
     first_occ (wires h) ++ scalar_spiders h = seq 0 (n_spiders h)).
Proof.
  split.
  - intros dom cod boxes ws types off h Hcan Hinit.
    destruct (init_canonical_input _ _ _ _ _ _ _ Hcan Hinit) as [Hw Ht].
    split_and!; [done..|]. intros Hz. by rewrite Ht normal_type_id.
  - intros dom cod boxes ws st off h Hinit.
    by eapply scalar_spiders_canonical, init_canonical_wires.
Qed.

End idempotence.

Lemma canonical_idempotence_witness :
  wires (mkHypergraph [Pivotal.x] [Pivotal.x] [] [0; 0] [Pivotal.x] [])
  = [0; 0] ∧
  spider_types (mkHypergraph [Pivotal.x] [Pivotal.x] [] [0; 0] [Pivotal.x] [])
  = normal_type <$> [Pivotal.x] ∧
  ((∀ t, t ∈ [Pivotal.x] → z_flag t = false) →
   spider_types (mkHypergraph [Pivotal.x] [Pivotal.x] [] [0; 0] [Pivotal.x] [])
   = [Pivotal.x]).
Proof.
  apply (proj1 canonical_idempotence [Pivotal.x] [Pivotal.x] [] [0; 0]
           [Pivotal.x] None).
  - exists 1. split; [reflexivity|simpl; lia].
  - vm_compute. reflexivity.
Defined.

(** The claim as stated fails on a spider type whose [z] flag is set: the
    canonical pair [([0; 0], [x.r])] is not reproduced. *)
Lemma canonical_idempotence_counterexample :
  canonical_wires [0; 0] (length [adjoint Pivotal.x]) ∧
  ∃ h, init [adjoint Pivotal.x] [adjoint Pivotal.x] [] [0; 0]
            (TypeSeq [adjoint Pivotal.x]) None = Ok h ∧
       (wires h, spider_types h) ≠ ([0; 0], [adjoint Pivotal.x]).
Proof.
  split.
  - exists 1. split; [reflexivity|simpl; lia].
  - eexists. split; [vm_compute; reflexivity|]. by intros [= ?].
Qed.

(** ** Monogamy (C6) *)

Section monogamous.
Context `{C : Category}.
Implicit Types (h : Hypergraph).

(** The number of ports of spider [s] that feed it (diagram inputs and box
    outputs) and the number of ports it feeds (box inputs and diagram
    outputs), counted on the ports with their declared kinds. *)
Definition source_count h (s : nat) : nat :=
  length (filter (λ wn, wn.1 = s ∧ kind wn.2 ∈ [input; cod_port])
                 (zip (wires h) (ports h))).

Definition sink_count h (s : nat) : nat :=
  length (filter (λ wn, wn.1 = s ∧ kind wn.2 ∈ [dom_port; output])
                 (zip (wires h) (ports h))).

Lemma length_sel_ports side s (ps : list Node) ws base :
  length (sel side s (events base ((is_source ∘ kind) <$> ps) ws))
  = length (filter (λ wn, wn.1 = s ∧ is_source (kind wn.2) = side)
                   (zip ws ps)).
Proof.
  revert ws base. induction ps as [|nd ps IH]; intros [|w ws] base; try done.
  rewrite fmap_cons. cbn [events zip zip_with].
  rewrite sel_cons length_app IH filter_cons /=.
  repeat case_decide; simpl; try done; exfalso; naive_solver.
Qed.

Lemma is_source_true k : is_source k = true ↔ k ∈ [input; cod_port].
Proof. rewrite /is_source. apply bool_decide_eq_true. Qed.

Lemma is_source_false k : is_source k = false ↔ k ∈ [dom_port; output].
Proof.
  rewrite /is_source bool_decide_eq_false. destruct k; set_solver.
Qed.

Lemma monogamous_loop_true (sw : list (list nat * list nat)) :
  monogamous_loop sw = true ↔
  ∀ io, io ∈ sw → length io.1 = length io.2 ∧
                  length io.1 + length io.2 ∈ [0; 2].
Proof.
  induction sw as [|[ins outs] sw IH]; simpl.
  { split; [|done]. by intros _ io ?%elem_of_nil. }
  repeat case_decide.
  - split; [done|]. intros Hall. destruct (Hall (ins, outs)); [left|done].
  - split; [done|]. intros Hall. destruct (Hall (ins, outs)); [left|done].
  - rewrite IH. split.
    + intros Hall io [->|?]%elem_of_cons; [|by apply Hall].
      done.
    + intros Hall io Hio. apply Hall. by right.
Qed.

Lemma constructed_shape h :
  constructed h →
  length (wires h) = length (ports h) ∧
  canonical_wires (wires h) (n_spiders h).
Proof.
  intros (d & c & b & ws & st & off & Hinit).
  split; [|by eapply init_canonical_wires].
  apply init_Ok in Hinit as (types & sw & Hlen & _ & _ & _ & ->).
  by rewrite /ports /= length_fmap.
Qed.

Lemma spider_wires_counts h :
  constructed h →
  ∃ sw, spider_wires h = Ok sw ∧ length sw = n_spiders h ∧
    ∀ s io, sw !! s = Some io →
      length io.1 = source_count h s ∧ length io.2 = sink_count h s.
Proof.
  intros [Hlen (k & Hk & Hkn)]%constructed_shape.
  destruct (spider_wires_spec (dom h) (cod h) (boxes h) (wires h)
              (n_spiders h)) as (sw & Hsw & Hn & Hspec); [done| |].
  { intros w Hw. eapply Nat.lt_le_trans; [|done]. by eapply canonical_elem. }
  exists sw. split_and!; [done..|]. intros s io Hio.
  assert (s < n_spiders h) as Hs.
  { rewrite -Hn. by eapply lookup_lt_Some. }
  rewrite Hspec // in Hio. injection Hio as <-. simpl.
  rewrite -ports_sides !length_sel_ports /source_count /sink_count /ports.
  split; f_equal; apply list_filter_iff; intros [w nd]; simpl.
  - by rewrite is_source_true.
  - by rewrite is_source_false.
Qed.

(** C6: [is_monogamous] holds exactly when every spider has as many ports
    that feed it (diagram inputs and box outputs) as ports that it feeds
    (box inputs and diagram outputs), and these are 0 or 2 in total. *)
Theorem is_monogamous_spec h :
  constructed h →
  ∃ b, is_monogamous h = Ok b ∧
    (b = true ↔
     ∀ s, s < n_spiders h →
       source_count h s = sink_count h s ∧
       source_count h s + sink_count h s ∈ [0; 2]).
Proof.
  intros (sw & Hsw & Hn & Hcount)%spider_wires_counts.
  exists (monogamous_loop sw). rewrite /is_monogamous Hsw /=. split; [done|].
  rewrite monogamous_loop_true. split.
  - intros Hall s Hs. rewrite -Hn in Hs.
    destruct (lookup_lt_is_Some_2 _ _ Hs) as [io Hio].
    destruct (Hcount s io Hio) as [<- <-]. apply Hall.
    by eapply list_elem_of_lookup_2.
  - intros Hall io [s Hio]%list_elem_of_lookup.
    destruct (Hcount s io Hio) as [-> ->]. apply Hall.
    rewrite -Hn. by eapply lookup_lt_Some.
Qed.

End monogamous.

Lemma is_monogamous_spec_witness :
  ∃ b, is_monogamous
         (mkHypergraph [Pivotal.x] [Pivotal.x; Pivotal.x] [] [0; 0; 0]
            [Pivotal.x] []) = Ok b ∧
    (b = true ↔
     ∀ s, s < n_spiders (mkHypergraph [Pivotal.x] [Pivotal.x; Pivotal.x] []
                           [0; 0; 0] [Pivotal.x] []) →
       source_count (mkHypergraph [Pivotal.x] [Pivotal.x; Pivotal.x] []
                       [0; 0; 0] [Pivotal.x] []) s
       = sink_count (mkHypergraph [Pivotal.x] [Pivotal.x; Pivotal.x] []
                       [0; 0; 0] [Pivotal.x] []) s ∧
       source_count (mkHypergraph [Pivotal.x] [Pivotal.x; Pivotal.x] []
                       [0; 0; 0] [Pivotal.x] []) s
       + sink_count (mkHypergraph [Pivotal.x] [Pivotal.x; Pivotal.x] []
                       [0; 0; 0] [Pivotal.x] []) s ∈ [0; 2]).
Proof.
  apply is_monogamous_spec.
  exists [Pivotal.x], [Pivotal.x; Pivotal.x], [], [0; 0; 0], NoTypes, None.
  vm_compute. reflexivity.
Defined.

(** ** Counting occurrences *)

Section count.
Implicit Types (l ws : list nat) (x y s i j k : nat).

Lemma count_nil x : count x [] = 0.
Proof. done. Qed.

Lemma count_cons x y l :
  count x (y :: l) = (if decide (y = x) then 1 else 0) + count x l.
Proof. rewrite /count filter_cons. by case_decide. Qed.

Lemma count_app x l1 l2 : count x (l1 ++ l2) = count x l1 + count x l2.
Proof. by rewrite /count filter_app length_app. Qed.

Lemma count_pos x l : 0 < count x l ↔ x ∈ l.
Proof.
  destruct (decide (x ∈ l)) as [Hx|Hx].
  - split; [done|]. intros _. destruct (count x l) eqn:Hc; [|lia].
    by apply count_0 in Hc.
  - apply count_0 in Hx as Hc. rewrite Hc. split; [lia|done].
Qed.

Lemma count_fmap (f : nat → nat) x l :
  (∀ y, y ∈ l → f y = f x → y = x) → count (f x) (f <$> l) = count x l.
Proof.
  induction l as [|y l IH]; intros Hinj; [done|].
  rewrite fmap_cons !count_cons IH; [|intros; apply Hinj; by try right].
  repeat case_decide; try done; subst.
  - exfalso. match goal with H : _ ≠ _ |- _ => apply H end. apply Hinj; by try left.
  - congruence.
Qed.

(** The positions at which [x] occurs. *)
Definition occurrences x l : list nat :=
  filter (λ p, l !! p = Some x) (seq 0 (length l)).

Lemma filter_seq_S (P : nat → Prop) `{!∀ p, Decision (P p)} j n :
  filter P (seq (S j) n) = S <$> filter (λ p, P (S p)) (seq j n).
Proof.
  revert j. induction n as [|n IH]; intros j; [done|].
  rewrite /= !filter_cons IH. by case_decide.
Qed.

Lemma length_occurrences x l : length (occurrences x l) = count x l.
Proof.
  rewrite /occurrences. induction l as [|y l IH]; [done|].
  rewrite count_cons. cbn [length seq]. rewrite filter_cons filter_seq_S.
  cbn [lookup list_lookup]. rewrite -IH.
  repeat case_decide; simplify_eq/=; by rewrite length_fmap.
Qed.

Lemma count_positions x l (ps : list nat) :
  NoDup ps → (∀ p, p ∈ ps → l !! p = Some x) → length ps ≤ count x l.
Proof.
  intros Hnd Hps. rewrite -length_occurrences.
  apply submseteq_length, NoDup_submseteq; [done|].
  intros p Hp. apply list_elem_of_filter. split; [by apply Hps|].
  apply elem_of_seq. split; [lia|]. simpl. eapply lookup_lt_Some, Hps, Hp.
Qed.

Lemma count_two_positions x l i j k :
  count x l ≤ 2 → i ≠ j →
  l !! i = Some x → l !! j = Some x → l !! k = Some x → k = i ∨ k = j.
Proof.
  intros Hc Hij Hi Hj Hk.
  destruct (decide (k = i)) as [|Hki]; [by left|].
  destruct (decide (k = j)) as [|Hkj]; [by right|]. exfalso.
  assert (length [i; j; k] ≤ count x l) as Hlen; [|simpl in Hlen; lia].
  apply count_positions.
  - repeat constructor; set_solver.
  - intros p. rewrite !elem_of_cons elem_of_nil. naive_solver.
Qed.

Lemma index_take_lookup s ws i j :
  index s (take i ws) = Some j → j < i ∧ ws !! j = Some s.
Proof.
  intros Hj. pose proof (index_lt _ _ _ Hj) as Hlt.
  apply index_lookup in Hj. rewrite length_take in Hlt.
  rewrite lookup_take_lt in Hj; [|lia]. split; [lia|done].
Qed.

Lemma index_drop_lookup s ws i k :
  index s (drop i ws) = Some k → ws !! (i + k) = Some s.
Proof. intros Hk%index_lookup. by rewrite lookup_drop in Hk. Qed.

End count.

(** ** The bijection between ports (C8) *)

(** The other port of the spider of port [i]: the first earlier port on
    the same spider, or else the first later one. *)
Definition partner (ws : list nat) (i : nat) : option nat :=
  s ← ws !! i;
  match index s (take i ws) with
  | Some j => Some j
  | None => (λ k, S i + k) <$> index s (drop (S i) ws)
  end.

Section partner.
Implicit Types (l ws rest : list nat) (x y s t i j k src key : nat).
Implicit Types (m : gmap nat nat).

Lemma partner_None_ge ws i : length ws ≤ i → partner ws i = None.
Proof. intros Hi. rewrite /partner lookup_ge_None_2; [|done]. by simpl. Qed.

Lemma partner_cons_0 s rest : partner (s :: rest) 0 = S <$> index s rest.
Proof. rewrite /partner /= drop_0. by destruct (index s rest). Qed.

Lemma partner_cons_S_ne s rest i t :
  rest !! i = Some t → t ≠ s → partner (s :: rest) (S i) = S <$> partner rest i.
Proof.
  intros Hi Hts. rewrite /partner /= Hi /= decide_False //.
  destruct (index t (take i rest)); simpl; [done|].
  by destruct (index t (drop (S i) rest)).
Qed.

Lemma partner_cons_S_eq s rest i :
  rest !! i = Some s → partner (s :: rest) (S i) = Some 0.
Proof. intros Hi. by rewrite /partner /= Hi /= decide_True. Qed.

Lemma partner_unique_None s rest k :
  count s rest ≤ 1 → index s rest = Some k → partner rest k = None.
Proof.
  intros Hc Hk. pose proof (index_lookup _ _ _ Hk) as Hs.
  rewrite /partner Hs /=.
  rewrite -(take_drop_middle rest k s) // !count_app count_cons decide_True // in Hc.
  assert (index s (take k rest) = None) as ->.
  { apply index_None, count_0. lia. }
  assert (index s (drop (S k) rest) = None) as ->; [|done].
  apply index_None, count_0. lia.
Qed.

Lemma bijection_loop_lookup ws src m key :
  (∀ x, count x ws ≤ 2) →
  bijection_loop src ws m !! key
  = match (if decide (src ≤ key) then partner ws (key - src) else None) with
    | Some j => Some (src + j)
    | None => m !! key
    end.
Proof.
  revert src m. induction ws as [|s rest IH]; intros src m Hc.
  { simpl. rewrite /partner /=. by case_decide. }
  assert (∀ x, count x rest ≤ 2) as Hc'.
  { intros x. specialize (Hc x). rewrite count_cons in Hc. lia. }
  assert (count s rest ≤ 1) as Hs1.
  { specialize (Hc s). rewrite count_cons decide_True // in Hc. lia. }
  simpl. rewrite IH //.
  set (m' := match index s rest with
             | Some k => <[k + src + 1 := src]> (<[src := k + src + 1]> m)
             | None => m
             end).
  destruct (decide (src ≤ key)) as [Hle|Hgt]; last first.
  { rewrite decide_False; [|lia]. rewrite /m'.
    destruct (index s rest); [|done]. rewrite !lookup_insert_ne; [done|lia..]. }
  destruct (decide (key = src)) as [->|Hne].
  { rewrite decide_False; [|lia]. rewrite Nat.sub_diag partner_cons_0 /m'.
    destruct (index s rest) as [k|]; simpl; [|done].
    rewrite lookup_insert_ne; [|lia]. rewrite lookup_insert_eq. f_equal. lia. }
  rewrite decide_True; [|lia].
  assert (∃ i, key = S src + i) as [i ->] by (exists (key - S src); lia).
  replace (S src + i - src) with (S i) by lia.
  replace (S src + i - S src) with i by lia.
  destruct (rest !! i) as [t|] eqn:Hi; last first.
  { apply lookup_ge_None in Hi.
    rewrite !partner_None_ge /=; [|lia..]. rewrite /m'.
    destruct (index s rest) as [k|] eqn:Hk; [|done].
    apply index_lt in Hk. rewrite !lookup_insert_ne; [done|lia..]. }
  destruct (decide (t = s)) as [->|Hts].
  - destruct (proj2 (index_is_Some s rest)) as [k Hk].
    { by eapply list_elem_of_lookup_2. }
    assert (i = k) as ->.
    { pose proof (index_lookup _ _ _ Hk) as Hk'.
      destruct (decide (i = k)) as [|Hik]; [done|]. exfalso.
      assert (length [i; k] ≤ count s rest) as Hlen; [|simpl in Hlen; lia].
      apply count_positions.
      - repeat constructor; set_solver.
      - intros p. rewrite !elem_of_cons elem_of_nil. naive_solver. }
    rewrite (partner_unique_None s) // (partner_cons_S_eq s) // /m' Hk.
    replace (S src + k) with (k + src + 1) by lia.
    rewrite lookup_insert_eq. f_equal. lia.
  - rewrite (partner_cons_S_ne _ _ _ t) //.
    destruct (partner rest i) as [j|]; simpl; [f_equal; lia|].
    rewrite /m'. destruct (index s rest) as [k|] eqn:Hk; [|done].
    apply index_lookup in Hk.
    rewrite !lookup_insert_ne; [done|lia|].
    intros ?. assert (k = i) as -> by lia. congruence.
Qed.

(** In a list where [s] occurs exactly twice, the two occurrences are
    partners of each other. *)
Lemma partner_two ws p s :
  count s ws = 2 → ws !! p = Some s →
  ∃ q, partner ws p = Some q ∧ q ≠ p ∧ ws !! q = Some s ∧
       partner ws q = Some p.
Proof.
  intros Hc Hp.
  assert (∀ q, q ≠ p → ws !! q = Some s →
            partner ws p = Some q ∧ partner ws q = Some p) as Hpair.
  { assert (∀ a b, a < b → ws !! a = Some s → ws !! b = Some s →
              partner ws a = Some b ∧ partner ws b = Some a) as Hlt.
    { intros a b Hab Ha Hb.
      assert (∀ k, ws !! k = Some s → k = a ∨ k = b) as Htwo.
      { intros k Hk. eapply (count_two_positions s ws a b k); [lia|lia|done..]. }
      split.
      - rewrite /partner Ha /=.
        destruct (index s (take a ws)) as [j|] eqn:Hj.
        { apply index_take_lookup in Hj as [? Hj].
          destruct (Htwo _ Hj); lia. }
        destruct (index s (drop (S a) ws)) as [k|] eqn:Hk.
        + apply index_drop_lookup in Hk. simpl. f_equal.
          destruct (Htwo _ Hk); lia.
        + apply index_None in Hk. exfalso. apply Hk.
          apply list_elem_of_lookup. exists (b - S a).
          rewrite lookup_drop -Hb. f_equal. lia.
      - rewrite /partner Hb /=.
        destruct (index s (take b ws)) as [j|] eqn:Hj.
        + apply index_take_lookup in Hj as [? Hj]. f_equal.
          destruct (Htwo _ Hj); lia.
        + apply index_None in Hj. exfalso. apply Hj.
          apply list_elem_of_lookup. exists a. by rewrite lookup_take_lt. }
    intros q Hqp Hq. destruct (decide (q < p)).
    - destruct (Hlt q p) as [? ?]; [lia|done..].
    - destruct (Hlt p q) as [? ?]; [lia|done..]. }
  assert (∃ q, q ≠ p ∧ ws !! q = Some s) as (q & Hqp & Hq).
  { rewrite -(take_drop_middle ws p s) // !count_app count_cons decide_True //
      in Hc.
    destruct (decide (s ∈ take p ws)) as [Hin|Hin].
    - apply list_elem_of_lookup in Hin as [j Hj].
      pose proof (lookup_lt_Some _ _ _ Hj) as Hjp. rewrite length_take in Hjp.
      exists j. split; [lia|]. rewrite lookup_take_lt in Hj; [done|lia].
    - apply count_0 in Hin.
      assert (s ∈ drop (S p) ws) as [k Hk]%list_elem_of_lookup.
      { apply count_pos. lia. }
      exists (S p + k). split; [lia|]. by rewrite lookup_drop in Hk. }
  exists q. destruct (Hpair q) as [? ?]; done.
Qed.

End partner.

Lemma mapM_seq_total {A} (f : nat → option A) n :
  (∀ p, p < n → is_Some (f p)) →
  ∃ b, mapM f (seq 0 n) = Some b ∧ length b = n ∧ ∀ p, p < n → b !! p = f p.
Proof.
  intros Hf.
  destruct (mapM f (seq 0 n)) as [b|] eqn:Hb.
  - exists b. pose proof (length_mapM _ _ _ Hb) as Hlen.
    rewrite length_seq in Hlen. split_and!; [done..|].
    intros p Hp. apply mapM_Some in Hb.
    destruct (Forall2_lookup_l _ _ _ p p Hb) as (y & -> & Hy); [|done].
    by apply lookup_seq.
  - apply mapM_None, Exists_exists in Hb as (p & Hp%elem_of_seq & Hnone).
    destruct (Hf p) as [? ?]; [lia|congruence].
Qed.

Section bijection.
Context `{C : Category}.
Implicit Types (h : Hypergraph).

Lemma is_bijective_true h :
  is_bijective h = true ↔
  ∀ i, i < n_spiders h → count i (wires h) ∈ [0; 2].
Proof.
  rewrite /is_bijective forallb_forall. split.
  - intros Hall i Hi. eapply bool_decide_eq_true, Hall, list_elem_of_In.
    apply elem_of_seq. lia.
  - intros Hall i Hi%list_elem_of_In%elem_of_seq.
    apply bool_decide_eq_true, Hall. lia.
Qed.

(** C8: on a hypergraph that is not bijective, [bijection] raises the
    error the specification calls BijectionError, which is the [ValueError]
    of the code; on a bijective one it returns, for each port, the
    other port of its spider: a pairing without fixed points that is its
    own inverse. *)
Theorem bijection_spec h :
  constructed h →
  (is_bijective h = false → bijection h = Raise ValueError) ∧
  (is_bijective h = true →
   ∃ b, bijection h = Ok b ∧ length b = length (wires h) ∧
     ∀ p s, wires h !! p = Some s →
       ∃ q, b !! p = Some q ∧ q ≠ p ∧ wires h !! q = Some s ∧
            b !! q = Some p).
Proof.
  intros [_ (k & Hk & Hkn)]%constructed_shape. split.
  { intros Hb. by rewrite /bijection Hb. }
  intros Hb. rewrite /bijection Hb /=.
  rewrite is_bijective_true in Hb.
  assert (∀ x, count x (wires h) ≤ 2) as Hc2.
  { intros x. destruct (decide (x ∈ wires h)) as [Hx|Hx].
    - pose proof (canonical_elem _ _ _ Hk Hx).
      specialize (Hb x ltac:(lia)). set_solver by lia.
    - apply count_0 in Hx. lia. }
  assert (∀ p s, wires h !! p = Some s → count s (wires h) = 2) as Htwo.
  { intros p s Hp. apply list_elem_of_lookup_2 in Hp as Hin.
    pose proof (canonical_elem _ _ _ Hk Hin).
    specialize (Hb s ltac:(lia)). apply count_pos in Hin. set_solver by lia. }
  set (m := bijection_loop 0 (wires h) ∅).
  assert (∀ key, m !! key = partner (wires h) key) as Hm.
  { intros key. rewrite /m bijection_loop_lookup //.
    destruct (decide (0 ≤ key)); [|lia].
    rewrite Nat.sub_0_r lookup_empty. by destruct (partner _ _). }
  assert (∀ key, key < length (wires h) → is_Some (m !! key)) as Hsome.
  { intros key [s Hs]%lookup_lt_is_Some. rewrite Hm.
    destruct (partner_two _ _ _ (Htwo _ _ Hs) Hs) as (q & -> & _). by eexists. }
  assert (merge_sort (≤) (elements (base.dom m : gset nat))
          = seq 0 (length (wires h))) as ->.
  { apply (Sorted_unique (≤)).
    - apply Sorted_merge_sort. apply _.
    - apply Sorted_seq.
    - rewrite merge_sort_Permutation.
      apply NoDup_Permutation; [apply NoDup_elements|apply NoDup_seq|].
      intros key. rewrite elem_of_elements elem_of_dom elem_of_seq. split.
      + intros Hkey. rewrite Hm in Hkey.
        destruct (decide (key < length (wires h))); [lia|].
        rewrite partner_None_ge in Hkey; [|lia]. by destruct Hkey.
      + intros [_ ?]. by apply Hsome. }
  destruct (mapM_seq_total (λ source, m !! source) (length (wires h)) Hsome)
    as (b & -> & Hlen & Hlook).
  exists b. split_and!; [done..|]. intros p s Hp.
  destruct (partner_two _ _ _ (Htwo _ _ Hp) Hp) as (q & Hpq & Hne & Hq & Hqp).
  exists q. split_and!; [|done..|].
  - rewrite Hlook ?Hm //. by eapply lookup_lt_Some.
  - rewrite Hlook ?Hm //. by eapply lookup_lt_Some.
Qed.

End bijection.

Lemma bijection_spec_witness :
  (is_bijective
     (mkHypergraph [Pivotal.x] [Pivotal.y]
        [Pivotal.Gen "f" [Pivotal.x] [Pivotal.y] false]
        [0; 0; 1; 1] [Pivotal.x; Pivotal.y] [None]) = false →
   bijection
     (mkHypergraph [Pivotal.x] [Pivotal.y]
        [Pivotal.Gen "f" [Pivotal.x] [Pivotal.y] false]
        [0; 0; 1; 1] [Pivotal.x; Pivotal.y] [None]) = Raise ValueError) ∧
  (is_bijective
     (mkHypergraph [Pivotal.x] [Pivotal.y]
        [Pivotal.Gen "f" [Pivotal.x] [Pivotal.y] false]
        [0; 0; 1; 1] [Pivotal.x; Pivotal.y] [None]) = true →
   ∃ b, bijection
          (mkHypergraph [Pivotal.x] [Pivotal.y]
             [Pivotal.Gen "f" [Pivotal.x] [Pivotal.y] false]
             [0; 0; 1; 1] [Pivotal.x; Pivotal.y] [None]) = Ok b ∧
     length b = length [0; 0; 1; 1] ∧
     ∀ p s, [0; 0; 1; 1] !! p = Some s →
       ∃ q, b !! p = Some q ∧ q ≠ p ∧ [0; 0; 1; 1] !! q = Some s ∧
            b !! q = Some p).
Proof.
  apply (bijection_spec
           (mkHypergraph [Pivotal.x] [Pivotal.y]
              [Pivotal.Gen "f" [Pivotal.x] [Pivotal.y] false]
              [0; 0; 1; 1] [Pivotal.x; Pivotal.y] [None])).
  exists [Pivotal.x], [Pivotal.y],
    [Pivotal.Gen "f" [Pivotal.x] [Pivotal.y] false], [0; 0; 1; 1], NoTypes, None.
  vm_compute. reflexivity.
Defined.

(** ** Typed wirings *)

Section typed.
Context `{C : Category}.
Implicit Types (dom cod objs : list Ob) (boxes : list Box) (ws : list nat).
Implicit Types (h : Hypergraph) (t o : Ob).

Definition box_objs (b : Box) : list Ob := box_dom b ++ box_cod b.

(** The declared types of the ports, in port order. *)
Definition port_objs dom cod boxes : list Ob :=
  dom ++ mjoin (box_objs <$> boxes) ++ cod.

(** A port of type [o] may sit on a spider of type [t]. *)
Definition fits t o : Prop := o ∈ [t; adjoint t].

(** Every wire leads to a spider with a type that fits the port. *)
Definition typed (types : nat → option Ob) ws objs : Prop :=
  Forall2 (λ w o, ∃ t, types w = Some t ∧ fits t o) ws objs.

Lemma imap_obj {A} (f : nat → A → Node) (g : A → Ob) (l : list A) :
  (∀ i a, obj (f i a) = g a) → obj <$> imap f l = g <$> l.
Proof.
  intros Hg. revert f Hg. induction l as [|a l IH]; intros f Hg; [done|].
  rewrite imap_cons !fmap_cons Hg IH; [done|]. intros i a'. apply Hg.
Qed.

Lemma box_ports_objs depth b : obj <$> box_ports depth b = box_objs b.
Proof.
  rewrite /box_ports /box_objs fmap_app.
  by rewrite !(imap_obj _ Datatypes.id) // !list_fmap_id.
Qed.

Lemma boxes_ports_objs (f : nat → nat) boxes :
  obj <$> mjoin (imap (λ d, box_ports (f d)) boxes) = mjoin (box_objs <$> boxes).
Proof.
  revert f. induction boxes as [|b boxes IH]; intros f; [done|].
  rewrite imap_cons /= fmap_app box_ports_objs. f_equal. apply (IH (f ∘ S)).
Qed.

Lemma ports_objs dom cod boxes :
  obj <$> ports_of dom cod boxes = port_objs dom cod boxes.
Proof.
  rewrite /ports_of /port_objs !fmap_app.
  rewrite !(imap_obj _ Datatypes.id) // !list_fmap_id.
  by rewrite (boxes_ports_objs Datatypes.id).
Qed.

Lemma length_box_objs b : length (box_objs b) = length (box_sides b).
Proof. by rewrite /box_objs length_app length_box_sides. Qed.

Lemma length_boxes_objs boxes :
  length (mjoin (box_objs <$> boxes)) = n_box_ports boxes.
Proof.
  rewrite /n_box_ports. induction boxes as [|b boxes IH]; [done|].
  rewrite !fmap_cons. cbn [mjoin list_join].
  by rewrite !length_app IH !length_replicate.
Qed.

Lemma length_port_objs dom cod boxes :
  length (port_objs dom cod boxes)
  = length dom + n_box_ports boxes + length cod.
Proof. rewrite /port_objs !length_app length_boxes_objs. lia. Qed.

Lemma typed_lookup types ws objs :
  typed types ws objs ↔
  length ws = length objs ∧
  ∀ p w o, ws !! p = Some w → objs !! p = Some o →
           ∃ t, types w = Some t ∧ fits t o.
Proof.
  rewrite /typed. split.
  - intros Hall. split; [by eapply Forall2_length|].
    intros p w o Hw Ho. by eapply (Forall2_lookup_lr _ _ _ _ _ _ Hall).
  - intros [Hlen Hall]. by apply Forall2_same_length_lookup_2.
Qed.

Lemma typed_impl (types1 types2 : nat → option Ob) ws objs :
  typed types1 ws objs →
  (∀ w t o, w ∈ ws → types1 w = Some t → fits t o →
            ∃ t', types2 w = Some t' ∧ fits t' o) →
  typed types2 ws objs.
Proof.
  rewrite !typed_lookup. intros [Hlen Hall] Himpl. split; [done|].
  intros p w o Hw Ho. destruct (Hall p w o Hw Ho) as (t & Ht & Hfit).
  eapply Himpl; [|done..]. by eapply list_elem_of_lookup_2.
Qed.

Lemma typed_fmap (types : nat → option Ob) (f : nat → nat) ws objs :
  typed (types ∘ f) ws objs → typed types (f <$> ws) objs.
Proof. rewrite /typed. intros. by apply Forall2_fmap_l. Qed.

Lemma typed_app types ws1 ws2 objs1 objs2 :
  typed types ws1 objs1 → typed types ws2 objs2 →
  typed types (ws1 ++ ws2) (objs1 ++ objs2).
Proof. apply Forall2_app. Qed.

Lemma typed_app_inv types ws objs1 objs2 :
  typed types ws (objs1 ++ objs2) →
  typed types (take (length objs1) ws) objs1 ∧
  typed types (drop (length objs1) ws) objs2.
Proof.
  rewrite /typed. intros Hall.
  pose proof (Forall2_take _ _ _ (length objs1) Hall) as Ht.
  pose proof (Forall2_drop _ _ _ (length objs1) Hall) as Hd.
  by rewrite take_app_length in Ht; rewrite drop_app_length in Hd.
Qed.

Lemma wf_typed h :
  wf h →
  typed (λ w, spider_types h !! w) (wires h)
        (port_objs (dom h) (cod h) (boxes h)).
Proof.
  intros [Hlen (k & Hk & Hkn) Hty _ _]. apply typed_lookup.
  rewrite -ports_objs length_fmap. split; [done|].
  intros p w o Hw (nd & -> & Hnd)%list_lookup_fmap_Some.
  assert (is_Some (spider_types h !! w)) as [t Ht].
  { apply lookup_lt_is_Some. eapply Nat.lt_le_trans; [|done].
    eapply canonical_elem; [done|]. by eapply list_elem_of_lookup_2. }
  exists t. split; [done|]. by eapply Hty.
Qed.

Context `{!CategoryLaws C}.

Lemma normal_type_idemp t : normal_type (normal_type t) = normal_type t.
Proof.
  rewrite /normal_type. destruct (z_flag t) eqn:Hz; [|by rewrite Hz].
  by rewrite z_flag_adjoint.
Qed.

Lemma fits_normal t o : fits (normal_type t) o ↔ fits t o.
Proof.
  rewrite /fits /normal_type. destruct (z_flag t); [|done].
  rewrite adjoint_involutive. set_solver.
Qed.

Lemma wf_normal_fix h t :
  wf h → t ∈ spider_types h → normal_type t = t.
Proof. intros Hwf (t0 & ->)%(wf_normal _ Hwf). apply normal_type_idemp. Qed.

(** The constructor succeeds on a typed wiring. *)
Lemma init_typed dom cod boxes ws st off :
  let d := types_dict (ports_of dom cod boxes) ws st in
  typed (λ w, d !! w) ws (port_objs dom cod boxes) →
  ∃ types,
    mapM (λ s, d !! s) (relabeling_of ws d) = Some types ∧
    init dom cod boxes ws st off
    = Ok (mkHypergraph dom cod boxes (ren (relabeling_of ws d) <$> ws)
            (normal_type <$> types) (offsets_or off boxes)).
Proof.
  intros d [Hlen Hall]%typed_lookup. rewrite -ports_objs length_fmap in Hlen.
  apply init_success; [done|..].
  - intros w [p Hp]%list_elem_of_lookup.
    assert (is_Some (port_objs dom cod boxes !! p)) as [o Ho].
    { apply lookup_lt_is_Some. rewrite -ports_objs length_fmap -Hlen.
      by eapply lookup_lt_Some. }
    destruct (Hall p w o Hp Ho) as (t & Ht & _). by eexists.
  - intros p w nd t Hw Hnd Ht.
    destruct (Hall p w (obj nd) Hw) as (t' & Ht' & Hfit).
    { by rewrite -ports_objs list_lookup_fmap Hnd. }
    apply fits_normal. rewrite -/d in Ht. congruence.
Qed.

End typed.

(** ** Tensor (C7) *)

Section tensor.
Context `{C : Category} `{!CategoryLaws C}.
Implicit Types (f g h : Hypergraph) (ws : list nat).

Lemma relabeling_TypeSeq_perm ws (types : list Ob) :
  (∀ w, w ∈ ws → w < length types) →
  relabeling_of ws (dict_enumerate types) ≡ₚ seq 0 (length types).
Proof.
  intros Hlt. apply NoDup_Permutation; [apply NoDup_relabeling|apply NoDup_seq|].
  intros x. rewrite elem_of_relabeling elem_of_seq /dict_enumerate.
  rewrite lookup_map_seq_0 lookup_lt_is_Some. split; [|lia].
  intros [?%Hlt|?]; lia.
Qed.

Lemma typed_lt (types : list Ob) ws objs w :
  typed (λ w, types !! w) ws objs → w ∈ ws → w < length types.
Proof.
  intros [Hlen Hall]%typed_lookup [p Hp]%list_elem_of_lookup.
  assert (is_Some (objs !! p)) as [o Ho].
  { apply lookup_lt_is_Some. rewrite -Hlen. by eapply lookup_lt_Some. }
  destruct (Hall p w o Hp Ho) as (t & Ht & _). by eapply lookup_lt_Some.
Qed.

(** The three segments of the wires of a hypergraph. *)
Lemma wf_typed_parts h :
  wf h →
  typed (λ w, spider_types h !! w) (take (length (dom h)) (wires h)) (dom h) ∧
  typed (λ w, spider_types h !! w)
        (slice (length (dom h)) (length (wires h) - length (cod h)) (wires h))
        (mjoin (box_objs <$> boxes h)) ∧
  typed (λ w, spider_types h !! w)
        (drop (length (wires h) - length (cod h)) (wires h)) (cod h).
Proof.
  intros Hwf. pose proof (wf_typed h Hwf) as Hty.
  pose proof (wf_length h Hwf) as Hlen.
  rewrite /ports length_ports_of -length_boxes_objs in Hlen.
  apply typed_app_inv in Hty as [Hd Hty].
  apply typed_app_inv in Hty as [Hb Hc]. rewrite drop_drop in Hc.
  split_and!; [done|..].
  - rewrite /slice Hlen.
    by replace (length (dom h) + length (mjoin (box_objs <$> boxes h))
                + length (cod h) - length (cod h) - length (dom h))
      with (length (mjoin (box_objs <$> boxes h))) by lia.
  - rewrite Hlen.
    by replace (length (dom h) + length (mjoin (box_objs <$> boxes h))
                + length (cod h) - length (cod h))
      with (length (dom h) + length (mjoin (box_objs <$> boxes h))) by lia.
Qed.

Lemma typed_weaken_l (types1 types2 : list Ob) ws objs :
  typed (λ w, types1 !! w) ws objs →
  typed (λ w, (types1 ++ types2) !! w) ws objs.
Proof.
  intros Hty. eapply typed_impl; [done|]. intros w t o _ Ht Hfit.
  exists t. split; [by apply lookup_app_l_Some|done].
Qed.

Lemma typed_shift (types1 types2 : list Ob) ws objs :
  typed (λ w, types2 !! w) ws objs →
  typed (λ w, (types1 ++ types2) !! w) ((λ i, length types1 + i) <$> ws) objs.
Proof.
  intros Hty. apply typed_fmap. eapply typed_impl; [done|].
  intros w t o _ Ht Hfit. exists t. split; [|done].
  rewrite /= lookup_app_r; [|lia]. by replace (length types1 + w - length types1)
    with w by lia.
Qed.

Lemma tensor_success f g :
  wf f → wf g →
  ∃ h, tensor f g = Ok h ∧
    dom h = dom f ++ dom g ∧ cod h = cod f ++ cod g ∧
    boxes h = boxes f ++ boxes g ∧
    n_spiders h = n_spiders f + n_spiders g.
Proof.
  intros Hf Hg.
  destruct (wf_typed_parts f Hf) as (Hfd & Hfb & Hfc).
  destruct (wf_typed_parts g Hg) as (Hgd & Hgb & Hgc).
  set (ws := (take (length (dom f)) (wires f)
    ++ ((λ i, n_spiders f + i) <$> take (length (dom g)) (wires g)))
    ++ (slice (length (dom f)) (length (wires f) - length (cod f)) (wires f)
    ++ ((λ i, n_spiders f + i) <$>
          slice (length (dom g)) (length (wires g) - length (cod g)) (wires g)))
    ++ drop (length (wires f) - length (cod f)) (wires f)
    ++ ((λ i, n_spiders f + i) <$>
          drop (length (wires g) - length (cod g)) (wires g))).
  assert (typed (λ w, (spider_types f ++ spider_types g) !! w) ws
            (port_objs (dom f ++ dom g) (cod f ++ cod g) (boxes f ++ boxes g)))
    as Hty.
  { rewrite /port_objs fmap_app join_app /ws.
    rewrite /n_spiders.
    repeat apply typed_app.
    all: try by apply typed_weaken_l.
    all: by apply typed_shift. }
  destruct (init_typed (dom f ++ dom g) (cod f ++ cod g) (boxes f ++ boxes g)
              ws (TypeSeq (spider_types f ++ spider_types g))
              (Some (offsets f ++ offsets g))) as (types & Ht & Hinit).
  { eapply typed_impl; [done|]. intros w t o _ Hw Hfit. exists t.
    by rewrite /= /dict_enumerate lookup_map_seq_0. }
  eexists. split; [exact Hinit|]. split_and!; [done..|].
  rewrite /n_spiders /= length_fmap -(length_mapM _ _ _ Ht).
  rewrite relabeling_TypeSeq_perm ?length_seq ?length_app //.
  intros w Hw. rewrite -length_app. by eapply typed_lt.
Qed.

End tensor.

(** C7, as amended: the tensor of two hypergraphs succeeds and is their
    disjoint union: domains, codomains and boxes are concatenated and the
    numbers of spiders add up.  For the single-box hypergraphs [f : x → y]
    and [g : y → z] it has 4 spiders and wires [(0,1,0,2,1,3,2,3)]; for
    [f : x → y @ y] and [g : y @ y → z] it has 6 spiders and wires
    [(0,1,2,0,3,4,1,2,5,3,4,5)]. *)
Theorem tensor_disjoint_union :
  (∀ (C : Category) (L : CategoryLaws C) (f g : Hypergraph),
     constructed f → constructed g →
     ∃ h, tensor f g = Ok h ∧
       dom h = dom f ++ dom g ∧ cod h = cod f ++ cod g ∧
       boxes h = boxes f ++ boxes g ∧
       n_spiders h = n_spiders f + n_spiders g) ∧
  (∃ f g h,
     from_box (Pivotal.Gen "f" [Pivotal.x] [Pivotal.y] false) = Ok f ∧
     from_box (Pivotal.Gen "g" [Pivotal.y] [Pivotal.z] false) = Ok g ∧
     tensor f g = Ok h ∧
     n_spiders h = 4 ∧ wires h = [0; 1; 0; 2; 1; 3; 2; 3]) ∧
  (∃ f g h,
     from_box (Pivotal.Gen "f" [Pivotal.x] [Pivotal.y; Pivotal.y] false) = Ok f ∧
     from_box (Pivotal.Gen "g" [Pivotal.y; Pivotal.y] [Pivotal.z] false) = Ok g ∧
     tensor f g = Ok h ∧
     n_spiders h = 6 ∧ wires h = [0; 1; 2; 0; 3; 4; 1; 2; 5; 3; 4; 5]).
Proof.
  split_and!.
  - intros C L f g Hf%constructed_wf Hg%constructed_wf. by apply tensor_success.
  - eexists _, _, _. split_and!; [vm_compute; reflexivity..|done|done].
  - eexists _, _, _. split_and!; [vm_compute; reflexivity..|done|done].
Qed.

Lemma tensor_disjoint_union_witness :
  ∃ h, tensor
         (mkHypergraph [Pivotal.x] [Pivotal.y]
            [Pivotal.Gen "f" [Pivotal.x] [Pivotal.y] false]
            [0; 0; 1; 1] [Pivotal.x; Pivotal.y] [None])
         (mkHypergraph [Pivotal.y] [Pivotal.z]
            [Pivotal.Gen "g" [Pivotal.y] [Pivotal.z] false]
            [0; 0; 1; 1] [Pivotal.y; Pivotal.z] [None]) = Ok h ∧
    dom h = [Pivotal.x] ++ [Pivotal.y] ∧ cod h = [Pivotal.y] ++ [Pivotal.z] ∧
    boxes h = [Pivotal.Gen "f" [Pivotal.x] [Pivotal.y] false]
              ++ [Pivotal.Gen "g" [Pivotal.y] [Pivotal.z] false] ∧
    n_spiders h = 2 + 2.
Proof.
  apply (proj1 tensor_disjoint_union Pivotal.cat Pivotal_laws
           (mkHypergraph [Pivotal.x] [Pivotal.y]
              [Pivotal.Gen "f" [Pivotal.x] [Pivotal.y] false]
              [0; 0; 1; 1] [Pivotal.x; Pivotal.y] [None])
           (mkHypergraph [Pivotal.y] [Pivotal.z]
              [Pivotal.Gen "g" [Pivotal.y] [Pivotal.z] false]
              [0; 0; 1; 1] [Pivotal.y; Pivotal.z] [None])).
  - exists [Pivotal.x], [Pivotal.y],
      [Pivotal.Gen "f" [Pivotal.x] [Pivotal.y] false], [0; 0; 1; 1], NoTypes, None.
    vm_compute. reflexivity.
  - exists [Pivotal.y], [Pivotal.z],
      [Pivotal.Gen "g" [Pivotal.y] [Pivotal.z] false], [0; 0; 1; 1], NoTypes, None.
    vm_compute. reflexivity.
Defined.

(** The numbers of the claim do not hold for the boxes it names: the
    tensor of [f : x → y @ y] and [g : y @ y → z] has 6 spiders and 12
    wires. *)
Lemma tensor_disjoint_union_counterexample :
  ∃ f g h,
    from_box (Pivotal.Gen "f" [Pivotal.x] [Pivotal.y; Pivotal.y] false) = Ok f ∧
    from_box (Pivotal.Gen "g" [Pivotal.y; Pivotal.y] [Pivotal.z] false) = Ok g ∧
    tensor f g = Ok h ∧
    ¬ (n_spiders h = 4 ∧ wires h = [0; 1; 0; 2; 1; 3; 2; 3]).
Proof.
  eexists _, _, _. split_and!; [vm_compute; reflexivity..|]. by intros [? _].
Qed.

(** ** Relabelling a hypergraph through the constructor *)

Lemma mapM_fmap_comp {A B D} (f : B → option D) (g : A → B) (l : list A) :
  mapM f (g <$> l) = mapM (f ∘ g) l.
Proof.
  induction l as [|a l IH]; [done|]. rewrite fmap_cons /= IH. done.
Qed.

Lemma Sorted_fmap_seq (σ : nat → nat) j n :
  (∀ a b, j ≤ a → a < b → b < j + n → σ a < σ b) →
  Sorted (≤) (σ <$> seq j n).
Proof.
  revert j. induction n as [|n IH]; intros j Hmono; [constructor|].
  rewrite /= . constructor.
  - apply IH. intros a b ???. apply Hmono; lia.
  - destruct n; simpl; constructor. apply Nat.lt_le_incl, Hmono; lia.
Qed.

Section relabel_init.
Context `{C : Category} `{!CategoryLaws C}.
Implicit Types (f h : Hypergraph) (ws : list nat) (σ : nat → nat).

Lemma sorted_rest_ext (d : gmap nat Ob) (r1 r2 : list nat) :
  (∀ x, x ∈ r1 ↔ x ∈ r2) → sorted_rest d r1 = sorted_rest d r2.
Proof.
  intros Heq. rewrite /sorted_rest. f_equal. apply list_filter_iff.
  intros x. by rewrite Heq.
Qed.

Lemma offsets_or_fix f : wf f → offsets_or (Some (offsets f)) (boxes f) = offsets f.
Proof.
  intros Hwf. destruct (offsets f) as [|o l] eqn:Ho; [|done].
  by rewrite /= (wf_offsets _ Hwf Ho).
Qed.

(** Renaming the spiders of a hypergraph by an injection that keeps the
    scalar spiders in order, and handing the result to the constructor,
    gives the hypergraph back. *)
Lemma init_relabel f σ st off :
  wf f →
  let ws := σ <$> wires f in
  let d := types_dict (ports_of (dom f) (cod f) (boxes f)) ws st in
  (∀ i j, i < n_spiders f → j < n_spiders f → σ i = σ j → i = j) →
  (∀ i, i < n_spiders f → d !! σ i = spider_types f !! i) →
  (∀ key, is_Some (d !! key) → ∃ i, i < n_spiders f ∧ key = σ i) →
  (∀ i j, i ∉ wires f → i < j → j < n_spiders f → σ i < σ j) →
  init (dom f) (cod f) (boxes f) ws st off
  = Ok (mkHypergraph (dom f) (cod f) (boxes f) (wires f) (spider_types f)
          (offsets_or off (boxes f))).
Proof.
  intros Hwf ws d Hinj Hd Hkeys Hmono.
  destruct (wf_canonical _ Hwf) as (k & Hk & Hkn).
  assert (∀ w, w ∈ wires f → w < n_spiders f) as Hlt.
  { intros w Hw. eapply Nat.lt_le_trans; [|done]. by eapply canonical_elem. }
  destruct (init_typed (dom f) (cod f) (boxes f) ws st off)
    as (types & Ht & ->).
  { apply typed_fmap. eapply typed_impl; [by apply wf_typed|].
    intros w t o Hw Hwt Hfit. exists t. split; [|done].
    rewrite /= -/ws -/d Hd //. by apply Hlt. }
  rewrite -/ws -/d in Ht |- *.
  assert (relabeling_of ws d = σ <$> seq 0 (n_spiders f)) as Hr.
  { rewrite /relabeling_of /ws first_occ_fmap;
      [|by intros x y Hx Hy; apply Hinj; apply Hlt].
    rewrite Hk. replace (n_spiders f) with (k + (n_spiders f - k)) by lia.
    rewrite seq_app fmap_app. f_equal. simpl.
    apply (Sorted_unique (≤)).
    - apply Sorted_merge_sort. apply _.
    - apply Sorted_fmap_seq. intros a b Ha Hab Hb. apply Hmono; [|lia..].
      intros Hin%elem_of_first_occ. rewrite Hk in Hin.
      apply elem_of_seq in Hin. lia.
    - apply NoDup_Permutation; [apply NoDup_sorted_rest| |].
      + apply NoDup_fmap_2_strong; [|apply NoDup_seq].
        intros x y Hx%elem_of_seq Hy%elem_of_seq. apply Hinj; lia.
      + intros x. rewrite elem_of_sorted_rest !list_elem_of_fmap. split.
        * intros [Hx (i & Hi & ->)%Hkeys]. exists i. split; [done|].
          apply elem_of_seq. split; [|lia].
          destruct (decide (k ≤ i)) as [|Hik]; [done|]. exfalso. apply Hx.
          exists i. split; [done|]. apply elem_of_seq. lia.
        * intros (i & -> & Hi%elem_of_seq). split.
          -- intros (j & Hij & Hj%elem_of_seq). apply Hinj in Hij; lia.
          -- rewrite Hd; [|lia]. apply lookup_lt_is_Some.
             rewrite /n_spiders in Hkn Hi |- *. lia. }
  rewrite Hr in Ht |- *.
  assert (ren (σ <$> seq 0 (n_spiders f)) <$> ws = wires f) as ->.
  { rewrite /ws -list_fmap_compose -{2}(list_fmap_id (wires f)).
    apply list_fmap_ext. intros p w Hw. simpl.
    apply (ren_lookup _ w); [by rewrite -Hr; apply NoDup_relabeling|].
    rewrite list_lookup_fmap lookup_seq_lt //. apply Hlt.
    by eapply list_elem_of_lookup_2. }
  assert (types = spider_types f) as ->.
  { rewrite mapM_fmap_comp in Ht.
    erewrite (Forall_mapM_ext _ (λ i, spider_types f !! i)) in Ht.
    - rewrite mapM_lookup_seq in Ht. by injection Ht.
    - apply Forall_forall. intros i Hi%elem_of_seq. simpl. apply Hd. lia. }
  do 2 f_equal. clear Ht.
  apply list_eq. intros i. rewrite list_lookup_fmap.
  destruct (spider_types f !! i) as [t|] eqn:Hi; [|done].
  simpl. f_equal. eapply wf_normal_fix; [done|]. by eapply list_elem_of_lookup_2.
Qed.

End relabel_init.

(** ** The wires of the boxes *)

Section box_wires.
Context `{C : Category}.
Implicit Types (boxes : list Box) (ws pre post : list nat).
Implicit Types (bw : list (list nat * list nat)).

Definition cat_wires (dc : list nat * list nat) : list nat := dc.1 ++ dc.2.
Definition swap_wires (dc : list nat * list nat) : list nat := dc.2 ++ dc.1.

(** Each box gets as many wires as it has ports. *)
Definition box_shaped boxes bw : Prop :=
  Forall2 (λ b dc, length dc.1 = length (box_dom b) ∧
                   length dc.2 = length (box_cod b)) boxes bw.

Lemma box_wires_from_shaped boxes i ws :
  i + n_box_ports boxes ≤ length ws →
  box_shaped boxes (box_wires_from i boxes ws).
Proof.
  revert i. induction boxes as [|b boxes IH]; intros i Hlen; [constructor|].
  rewrite n_box_ports_cons in Hlen. simpl. constructor.
  - rewrite /= !length_take !length_drop. lia.
  - apply IH. rewrite length_app. lia.
Qed.

Lemma box_wires_from_join boxes i ws :
  i + n_box_ports boxes ≤ length ws →
  mjoin (cat_wires <$> box_wires_from i boxes ws)
  = take (n_box_ports boxes) (drop i ws).
Proof.
  revert i. induction boxes as [|b boxes IH]; intros i Hlen.
  { by rewrite /n_box_ports /= take_0. }
  rewrite n_box_ports_cons in Hlen |- *.
  rewrite /= IH; [|rewrite length_app; lia].
  rewrite /cat_wires /= length_app -!app_assoc.
  rewrite -(take_take_drop _ (length (box_dom b) + length (box_cod b))).
  rewrite -(take_take_drop _ (length (box_dom b))) !drop_drop -!app_assoc.
  done.
Qed.

Lemma box_wires_from_rebuild boxes bw pre post i :
  box_shaped boxes bw → length pre = i →
  box_wires_from i boxes (pre ++ mjoin (cat_wires <$> bw) ++ post) = bw.
Proof.
  intros Hsh. revert pre i.
  induction Hsh as [|b [dw cw] boxes bw [Hd Hc] _ IH]; intros pre i Hi; [done|].
  simpl in Hd, Hc. rewrite fmap_cons /= /cat_wires /= -!app_assoc. f_equal.
  - f_equal.
    + rewrite drop_app_length' // take_app_length' //.
    + rewrite (app_assoc pre) drop_app_length'; [|rewrite length_app; lia].
      rewrite take_app_length' //.
  - rewrite !app_assoc -(app_assoc pre) -!app_assoc.
    rewrite (app_assoc pre) (app_assoc (pre ++ dw)).
    rewrite -/cat_wires. apply IH. rewrite !length_app. lia.
Qed.

Lemma join_swap_reverse bw :
  mjoin (swap_wires <$> reverse bw) ≡ₚ mjoin (cat_wires <$> bw).
Proof.
  induction bw as [|[dw cw] bw IH]; [done|].
  rewrite reverse_cons fmap_app join_app IH !fmap_cons /= app_nil_r.
  rewrite /swap_wires /cat_wires /=.
  etrans; [apply Permutation_app_comm|]. apply Permutation_app; [|done].
  apply Permutation_app_comm.
Qed.

Lemma join_fmap_cat (ρ : nat → nat) bw :
  ρ <$> mjoin (cat_wires <$> bw)
  = mjoin (cat_wires <$> ((λ dc, (ρ <$> dc.1, ρ <$> dc.2)) <$> bw)).
Proof.
  induction bw as [|[dw cw] bw IH]; [done|].
  by rewrite !fmap_cons /= !fmap_app IH.
Qed.

Lemma join_fmap_swap (ρ : nat → nat) bw :
  ρ <$> mjoin (swap_wires <$> bw)
  = mjoin (cat_wires <$> ((λ dc, (ρ <$> dc.2, ρ <$> dc.1)) <$> bw)).
Proof.
  induction bw as [|[dw cw] bw IH]; [done|].
  by rewrite !fmap_cons /= !fmap_app IH.
Qed.

Lemma join_swap_swap bw :
  mjoin (swap_wires <$> ((λ dc, (dc.2, dc.1)) <$> bw)) = mjoin (cat_wires <$> bw).
Proof.
  induction bw as [|[dw cw] bw IH]; [done|]. by rewrite !fmap_cons /= IH.
Qed.

End box_wires.

(** ** Dagger (C4) *)

Section dagger.
Context `{C : Category} `{!CategoryLaws C}.
Implicit Types (f h : Hypergraph) (boxes : list Box).
Implicit Types (bw : list (list nat * list nat)).

(** The wires [dagger] hands to the constructor. *)
Definition dagger_wires f : list nat :=
  drop (length (wires f) - length (cod f)) (wires f)
  ++ mjoin (swap_wires <$> reverse (box_wires f))
  ++ take (length (dom f)) (wires f).

Lemma wf_box_ports_le f :
  wf f → length (dom f) + n_box_ports (boxes f) ≤ length (wires f).
Proof.
  intros Hwf. rewrite (wf_length _ Hwf) /ports length_ports_of. lia.
Qed.

Lemma wf_box_shaped f : wf f → box_shaped (boxes f) (box_wires f).
Proof. intros Hwf. by apply box_wires_from_shaped, wf_box_ports_le. Qed.

Lemma wf_wires_decompose f :
  wf f →
  wires f = take (length (dom f)) (wires f)
            ++ mjoin (cat_wires <$> box_wires f)
            ++ drop (length (wires f) - length (cod f)) (wires f).
Proof.
  intros Hwf. rewrite /box_wires /box_wires_of box_wires_from_join;
    [|by apply wf_box_ports_le].
  pose proof (wf_length _ Hwf) as Hlen.
  rewrite /ports length_ports_of in Hlen.
  replace (length (wires f) - length (cod f))
    with (length (dom f) + n_box_ports (boxes f)) by lia.
  by rewrite -drop_drop !take_drop.
Qed.

Lemma typed_boxes_split (T : nat → option Ob) boxes bw :
  box_shaped boxes bw →
  typed T (mjoin (cat_wires <$> bw)) (mjoin (box_objs <$> boxes)) →
  Forall2 (λ b dc, typed T dc.1 (box_dom b) ∧ typed T dc.2 (box_cod b))
          boxes bw.
Proof.
  induction 1 as [|b [dw cw] boxes bw [Hd Hc] _ IH]; intros Hty; [constructor|].
  simpl in Hd, Hc. rewrite !fmap_cons /= /cat_wires /box_objs /= in Hty.
  rewrite -!app_assoc in Hty.
  apply Forall2_app_inv in Hty as [Hdw Hty]; [|done].
  apply Forall2_app_inv in Hty as [Hcw Hty]; [|done].
  constructor; [done|]. by apply IH.
Qed.

Lemma typed_boxes_dagger (T : nat → option Ob) boxes bw :
  Forall2 (λ b dc, typed T dc.1 (box_dom b) ∧ typed T dc.2 (box_cod b))
          boxes bw →
  typed T (mjoin (swap_wires <$> bw)) (mjoin (box_objs <$> (box_dagger <$> boxes))).
Proof.
  induction 1 as [|b [dw cw] boxes bw [Hd Hc] _ IH]; [constructor|].
  rewrite !fmap_cons /= /swap_wires /box_objs /= box_dagger_dom box_dagger_cod.
  rewrite -!app_assoc. by repeat apply typed_app.
Qed.

Lemma dagger_wires_typed f :
  wf f →
  typed (λ w, spider_types f !! w) (dagger_wires f)
        (port_objs (cod f) (dom f) (box_dagger <$> reverse (boxes f))).
Proof.
  intros Hwf. destruct (wf_typed_parts f Hwf) as (Hd & Hb & Hc).
  rewrite /dagger_wires /port_objs. repeat apply typed_app; [done| |done].
  apply typed_boxes_dagger, Forall2_reverse, typed_boxes_split.
  { by apply wf_box_shaped. }
  rewrite /box_wires /box_wires_of box_wires_from_join;
    [|by apply wf_box_ports_le].
  move: Hb. rewrite /slice. pose proof (wf_length _ Hwf) as Hlen.
  rewrite /ports length_ports_of in Hlen.
  by replace (length (wires f) - length (cod f) - length (dom f))
    with (n_box_ports (boxes f)) by lia.
Qed.

Lemma dagger_wires_perm f : wf f → dagger_wires f ≡ₚ wires f.
Proof.
  intros Hwf.
  trans (take (length (dom f)) (wires f)
         ++ mjoin (cat_wires <$> box_wires f)
         ++ drop (length (wires f) - length (cod f)) (wires f));
    [|by rewrite -wf_wires_decompose].
  rewrite /dagger_wires join_swap_reverse.
  etrans; [apply Permutation_app_comm|]. rewrite -app_assoc.
  apply Permutation_app_swap_app.
Qed.


(** The relabelling [dagger] applies. *)
Definition dagger_r f : list nat :=
  relabeling_of (dagger_wires f) (dict_enumerate (spider_types f)).

Lemma dagger_wires_lt f w : wf f → w ∈ dagger_wires f → w < n_spiders f.
Proof.
  intros Hwf Hw. rewrite dagger_wires_perm // in Hw.
  destruct (wf_canonical _ Hwf) as (k & Hk & Hkn).
  eapply Nat.lt_le_trans; [|done]. by eapply canonical_elem.
Qed.

Lemma dagger_r_perm f : wf f → dagger_r f ≡ₚ seq 0 (n_spiders f).
Proof.
  intros Hwf. apply relabeling_TypeSeq_perm. intros w. by apply dagger_wires_lt.
Qed.

Lemma dagger_r_scalar f i :
  wf f → i ∉ wires f → i < n_spiders f → dagger_r f !! i = Some i.
Proof.
  intros Hwf Hi Hin. destruct (wf_canonical _ Hwf) as (k & Hk & Hkn).
  assert (∀ x, x ∈ first_occ (dagger_wires f) ↔ x ∈ seq 0 k) as Helem.
  { intros x. by rewrite elem_of_first_occ dagger_wires_perm // -Hk
      elem_of_first_occ. }
  assert (length (first_occ (dagger_wires f)) = k) as Hlen.
  { rewrite -(length_seq k 0). apply Permutation_length, NoDup_Permutation;
      [apply NoDup_first_occ|apply NoDup_seq|done]. }
  assert (k ≤ i) as Hki.
  { destruct (decide (k ≤ i)) as [|Hn]; [done|]. exfalso. apply Hi.
    apply elem_of_first_occ. rewrite Hk. apply elem_of_seq. lia. }
  rewrite /dagger_r /relabeling_of (sorted_rest_ext _ _ (seq 0 k)) //.
  rewrite sorted_rest_seq // lookup_app_r Hlen //.
  rewrite lookup_seq_lt; [|rewrite /n_spiders in Hin; lia]. f_equal. lia.
Qed.

Lemma dagger_Ok f :
  wf f →
  ∃ types,
    mapM (λ s, spider_types f !! s) (dagger_r f) = Some types ∧
    dagger f
    = Ok (mkHypergraph (cod f) (dom f) (box_dagger <$> reverse (boxes f))
            (ren (dagger_r f) <$> dagger_wires f) (normal_type <$> types)
            (offsets_or (Some (reverse (offsets f)))
                        (box_dagger <$> reverse (boxes f)))).
Proof.
  intros Hwf.
  destruct (init_typed (cod f) (dom f) (box_dagger <$> reverse (boxes f))
              (dagger_wires f) (TypeSeq (spider_types f))
              (Some (reverse (offsets f)))) as (types & Ht & Hinit).
  { eapply typed_impl; [by apply dagger_wires_typed|].
    intros w t o _ Hw Hfit. exists t.
    by rewrite /= /dict_enumerate lookup_map_seq_0. }
  exists types. split; [|exact Hinit].
  rewrite -Ht. apply mapM_ext. intros s.
  by rewrite /= /dict_enumerate lookup_map_seq_0.
Qed.

Lemma offsets_or_reverse f boxes' :
  wf f → length boxes' = length (boxes f) →
  offsets_or (Some (reverse
    (offsets_or (Some (reverse (offsets f))) boxes'))) (boxes f)
  = offsets f.
Proof.
  intros Hwf Hlen. destruct (offsets f) as [|o l] eqn:Ho.
  - rewrite (wf_offsets _ Hwf Ho) in Hlen |- *.
    by destruct boxes'.
  - rewrite reverse_cons.
    destruct (reverse l ++ [o]) as [|o' l'] eqn:Hr.
    { by apply app_nil in Hr as [_ ?]. }
    rewrite /= -Hr -reverse_cons reverse_involutive. done.
Qed.

Lemma dagger_dagger f : wf f → ∃ h, dagger f = Ok h ∧ dagger h = Ok f.
Proof.
  intros Hwf. destruct (dagger_Ok f Hwf) as (types & Ht & Hd).
  eexists. split; [exact Hd|].
  set (ρ := ren (dagger_r f)).
  set (boxes' := box_dagger <$> reverse (boxes f)).
  set (bw' := (λ dc : list nat * list nat, (ρ <$> dc.2, ρ <$> dc.1))
                <$> reverse (box_wires f)).
  pose proof (wf_length _ Hwf) as Hlen.
  rewrite /ports length_ports_of in Hlen.
  assert (length (take (length (dom f)) (wires f)) = length (dom f)) as Hwd.
  { rewrite length_take. lia. }
  assert (length (drop (length (wires f) - length (cod f)) (wires f))
          = length (cod f)) as Hwc.
  { rewrite length_drop. lia. }
  assert (ρ <$> dagger_wires f
          = (ρ <$> drop (length (wires f) - length (cod f)) (wires f))
            ++ mjoin (cat_wires <$> bw')
            ++ (ρ <$> take (length (dom f)) (wires f))) as Hw1.
  { by rewrite /dagger_wires !fmap_app join_fmap_swap. }
  assert (box_shaped boxes' bw') as Hsh.
  { rewrite /boxes' /bw'. apply Forall2_fmap, Forall2_reverse.
    eapply Forall2_impl; [by apply wf_box_shaped|].
    intros b [dw cw] [? ?]. simpl in *.
    by rewrite !length_fmap box_dagger_dom box_dagger_cod. }
  assert (length (mjoin (cat_wires <$> bw')) = n_box_ports (boxes f)) as Hmid.
  { rewrite /bw' -join_fmap_swap length_fmap join_swap_reverse.
    rewrite /box_wires /box_wires_of box_wires_from_join;
      [|by apply wf_box_ports_le].
    rewrite length_take length_drop. lia. }
  rewrite /dagger /= -/ρ -/boxes' Hw1.
  (* the three segments of the second wiring *)
  rewrite length_app length_app !length_fmap Hwc Hwd Hmid.
  replace (length (cod f) + (n_box_ports (boxes f) + length (dom f))
           - length (dom f))
    with (length (cod f) + n_box_ports (boxes f)) by lia.
  rewrite (app_assoc (ρ <$> drop _ _)).
  rewrite drop_app_length'; [|by rewrite length_app length_fmap Hwc Hmid].
  rewrite -app_assoc take_app_length'; [|by rewrite length_fmap].
  rewrite /box_wires /box_wires_of /=.
  rewrite box_wires_from_rebuild; [|done|by rewrite length_fmap].
  rewrite /bw' -fmap_reverse reverse_involutive -list_fmap_compose.
  assert (mjoin ((λ dc : list nat * list nat, dc.2 ++ dc.1)
            <$> ((λ dc : list nat * list nat, (ρ <$> dc.2, ρ <$> dc.1))
                   <$> box_wires f))
          = ρ <$> mjoin (cat_wires <$> box_wires f)) as Hmid2.
  { rewrite join_fmap_cat. generalize (box_wires f).
    intros bw. induction bw as [|[dw cw] bw IH]; [done|].
    by rewrite !fmap_cons /= IH. }
  rewrite -list_fmap_compose in Hmid2.
  rewrite list_fmap_compose in Hmid2 |- *. rewrite Hmid2.
  rewrite -!fmap_app -(wf_wires_decompose f Hwf).
  assert (box_dagger <$> reverse boxes' = boxes f) as ->.
  { rewrite /boxes' -fmap_reverse reverse_involutive -list_fmap_compose.
    rewrite -{2}(list_fmap_id (boxes f)). apply list_fmap_ext.
    intros ? b _. apply box_dagger_involutive. }
  pose proof (dagger_r_perm f Hwf) as Hperm.
  assert (∀ i, i < n_spiders f → i ∈ dagger_r f) as Hin.
  { intros i Hi. rewrite Hperm. apply elem_of_seq. lia. }
  assert (NoDup (dagger_r f)) as Hnd by apply NoDup_relabeling.
  pose proof (length_mapM _ _ _ Ht) as Hlt.
  rewrite Hperm length_seq in Hlt.
  assert (Hoff := offsets_or_reverse f (reverse (boxes f)) Hwf
             (length_reverse _)).
  rewrite (init_relabel f ρ) //.
  - clear -Hoff. destruct f as [d c b w t o]. do 2 f_equal. exact Hoff.
  - intros i j Hi Hj. apply ren_inj; by apply Hin.
  - intros i Hi. rewrite /= /dict_enumerate lookup_map_seq_0.
    apply mapM_Some in Ht.
    destruct (Forall2_lookup_l _ _ _ (ρ i) i Ht) as (t & Hti & Hfi).
    { by apply lookup_ren, Hin. }
    rewrite list_lookup_fmap Hti /= Hfi. f_equal.
    eapply wf_normal_fix; [done|]. by eapply list_elem_of_lookup_2.
  - intros key. rewrite /= /dict_enumerate lookup_map_seq_0.
    rewrite lookup_lt_is_Some length_fmap -Hlt. intros Hkey.
    assert (key < length (dagger_r f)) as Hkey'.
    { by rewrite Hperm length_seq. }
    destruct (lookup_lt_is_Some_2 _ _ Hkey') as [i Hi].
    exists i. split.
    + apply list_elem_of_lookup_2 in Hi. rewrite Hperm in Hi.
      apply elem_of_seq in Hi. lia.
    + symmetry. by apply ren_lookup.
  - intros i j Hi Hij Hj.
    assert (j ∉ wires f) as Hj'.
    { destruct (wf_canonical _ Hwf) as (k & Hk & Hkn). intros Hjw.
      apply Hi, elem_of_first_occ. rewrite Hk. apply elem_of_seq.
      pose proof (canonical_elem _ _ _ Hk Hjw). lia. }
    rewrite /ρ (ren_lookup _ i i) // ?(ren_lookup _ j j) //;
      apply dagger_r_scalar; try done; lia.
Qed.

End dagger.

(** ** Structural equality is reflexive *)

Section eq_refl.
Context `{C : Category}.
Implicit Types (f h : Hypergraph) (g : Graph).

Lemma add_box_ports_from_is_Some (types : list Ob) box i case j ws g :
  (∀ s, s ∈ ws → s < length types) →
  is_Some (add_box_ports_from types box i case j ws g).
Proof.
  revert j g. induction ws as [|s ws IH]; intros j g Hlt; simpl; [by eexists|].
  destruct (lookup_lt_is_Some_2 types s) as [o Ho]; [apply Hlt; left|].
  rewrite /add_box_port Ho /=. apply IH. intros; apply Hlt; by right.
Qed.

Lemma add_boxes_is_Some (types : list Ob) i
    (bs : list (Box * (list nat * list nat))) g :
  (∀ b dc s, (b, dc) ∈ bs → s ∈ dc.1 ++ dc.2 → s < length types) →
  is_Some (add_boxes types i bs g).
Proof.
  revert i g. induction bs as [|[b [dw cw]] bs IH]; intros i g Hlt; simpl;
    [by eexists|].
  destruct (add_box_ports_from_is_Some types b i dom_port 0 dw
              (add_node (BoxNode b i) (mkAttrs None (Some (Some b)) None) g))
    as [g1 ->].
  { intros s Hs. apply (Hlt b (dw, cw)); [left|]. apply elem_of_app. by left. }
  simpl.
  destruct (add_box_ports_from_is_Some types b i cod_port 0 cw g1) as [g2 ->].
  { intros s Hs. apply (Hlt b (dw, cw)); [left|]. apply elem_of_app. by right. }
  simpl. apply IH. intros b' dc s Hin. apply (Hlt b'). by right.
Qed.

Lemma box_wires_from_subseteq i (boxes : list Box) (ws : list nat) dc s :
  dc ∈ box_wires_from i boxes ws → s ∈ dc.1 ++ dc.2 → s ∈ ws.
Proof.
  revert i. induction boxes as [|b boxes IH]; intros i; simpl.
  { by intros ?%elem_of_nil. }
  intros [->|Hin]%elem_of_cons; [|by eapply IH].
  simpl. intros [Hs|Hs]%elem_of_app.
  - by eapply subseteq_drop, subseteq_take.
  - by eapply subseteq_drop, subseteq_take.
Qed.

Lemma to_graph_Ok h :
  canonical_wires (wires h) (n_spiders h) → ∃ g, to_graph h = Ok g.
Proof.
  intros (k & Hk & Hkn). rewrite /to_graph.
  match goal with
  | |- context [add_boxes ?t ?i ?bs ?g] =>
      destruct (add_boxes_is_Some t i bs g) as [g' ->]
  end.
  - intros b dc s Hdc%elem_of_zip_r Hs. simpl.
    eapply Nat.lt_le_trans; [|exact Hkn]. eapply canonical_elem; [done|].
    by eapply box_wires_from_subseteq.
  - simpl. by eexists.
Qed.

Lemma is_isomorphic_refl g : is_isomorphic g g.
Proof. exists Datatypes.id. split_and!; naive_solver. Qed.

Lemma eq_refl_ h : canonical_wires (wires h) (n_spiders h) → eq_ h h.
Proof.
  intros [g Hg]%to_graph_Ok. split; [done|].
  exists g, g. split_and!; [done..|]. apply is_isomorphic_refl.
Qed.

Context `{!CategoryLaws C}.

(** C4: the dagger is an involution: [f[::-1][::-1]] is defined and equal
    to [f] under the structural equality [==]. *)
Theorem dagger_involution f :
  constructed f →
  ∃ f1 f2,
    getitem f (SliceKey None None (Some (-1)%Z)) = Ok f1 ∧
    getitem f1 (SliceKey None None (Some (-1)%Z)) = Ok f2 ∧
    eq_ f2 f.
Proof.
  intros Hf%constructed_wf.
  destruct (dagger_dagger f Hf) as (f1 & H1 & H2).
  assert (∀ h, getitem h (SliceKey None None (Some (-1)%Z)) = dagger h) as Hg
    by done.
  exists f1, f. rewrite !Hg. split_and!; [done..|].
  apply eq_refl_. by apply wf_canonical.
Qed.

End eq_refl.

Lemma dagger_involution_witness :
  ∃ f1 f2,
    getitem (mkHypergraph [Pivotal.x] [Pivotal.y; Pivotal.y]
               [Pivotal.Gen "f" [Pivotal.x] [Pivotal.y; Pivotal.y] false]
               [0; 0; 1; 2; 1; 2] [Pivotal.x; Pivotal.y; Pivotal.y] [None])
            (SliceKey None None (Some (-1)%Z)) = Ok f1 ∧
    getitem f1 (SliceKey None None (Some (-1)%Z)) = Ok f2 ∧
    eq_ f2 (mkHypergraph [Pivotal.x] [Pivotal.y; Pivotal.y]
              [Pivotal.Gen "f" [Pivotal.x] [Pivotal.y; Pivotal.y] false]
              [0; 0; 1; 2; 1; 2] [Pivotal.x; Pivotal.y; Pivotal.y] [None]).
Proof.
  apply dagger_involution.
  exists [Pivotal.x], [Pivotal.y; Pivotal.y],
    [Pivotal.Gen "f" [Pivotal.x] [Pivotal.y; Pivotal.y] false],
    [0; 0; 1; 2; 1; 2], NoTypes, None.
  vm_compute. reflexivity.
Defined.

(** ** Properties of the pushout engine *)

Section pushout.
Implicit Types (uf lb rb : list nat) (a b x y r m n : nat).
Implicit Types (pairs : list (nat * nat)).

Lemma length_uf_union uf a b : length (uf_union uf a b) = length uf.
Proof. by rewrite /uf_union length_fmap. Qed.

Lemma lookup_uf_union uf a b x :
  uf_union uf a b !! x
  = (λ r, if decide (r = uf_find uf b) then uf_find uf a else r) <$> uf !! x.
Proof. by rewrite /uf_union list_lookup_fmap. Qed.

(** The classes after the unions of a list of pairs. *)
Definition unions (uf : list nat) (pairs : list (nat * nat)) : list nat :=
  foldl (λ uf ab, uf_union uf ab.1 ab.2) uf pairs.

Lemma pushout_classes_unions m n lb rb :
  pushout_classes m n lb rb
  = unions (seq 0 (m + n)) ((λ ab, (ab.1, m + ab.2)) <$> zip lb rb).
Proof.
  rewrite /pushout_classes /unions. generalize (seq 0 (m + n)) as uf.
  induction (zip lb rb) as [|[a b] l IH]; intros uf; [done|]. apply IH.
Qed.

Lemma unions_cons uf a b pairs :
  unions uf ((a, b) :: pairs) = unions (uf_union uf a b) pairs.
Proof. done. Qed.

Lemma length_unions uf pairs : length (unions uf pairs) = length uf.
Proof.
  revert uf. induction pairs as [|[a b] pairs IH]; intros uf; [done|].
  by rewrite unions_cons IH length_uf_union.
Qed.

(** Soundness: a function that agrees on every identified pair is
    constant on the classes. *)
Lemma unions_invariant {A} (c : nat → A) uf pairs :
  (∀ x r, uf !! x = Some r → c r = c x) →
  (∀ a b, (a, b) ∈ pairs → c a = c b) →
  ∀ x r, unions uf pairs !! x = Some r → c r = c x.
Proof.
  revert uf. induction pairs as [|[a b] pairs IH]; intros uf Huf Hpairs; [done|].
  rewrite unions_cons. apply IH; [|intros; apply Hpairs; by right].
  assert (∀ z, c (uf_find uf z) = c z) as Hfind.
  { intros z. rewrite /uf_find. destruct (uf !! z) eqn:Hz; [by eapply Huf|done]. }
  intros x r. rewrite lookup_uf_union.
  destruct (uf !! x) as [r0|] eqn:Hx; [|done]. simpl. intros [= <-].
  case_decide as Hr; [|by eapply Huf]. simpl in *.
  rewrite Hfind (Hpairs a b); [|left]. rewrite -(Hfind b) -Hr. by eapply Huf.
Qed.

(** Completeness: identified points end in the same class. *)
Lemma unions_preserve uf pairs x y :
  uf !! x = uf !! y → unions uf pairs !! x = unions uf pairs !! y.
Proof.
  revert uf. induction pairs as [|[a b] pairs IH]; intros uf Hxy; [done|].
  rewrite unions_cons. apply IH. by rewrite !lookup_uf_union Hxy.
Qed.

Lemma unions_pair uf pairs a b :
  (a, b) ∈ pairs → a < length uf → b < length uf →
  unions uf pairs !! a = unions uf pairs !! b.
Proof.
  revert uf. induction pairs as [|[a' b'] pairs IH]; intros uf Hin Ha Hb.
  { by apply elem_of_nil in Hin. }
  apply elem_of_cons in Hin as [[= <- <-]|Hin].
  - rewrite unions_cons. apply unions_preserve. rewrite !lookup_uf_union.
    destruct (lookup_lt_is_Some_2 _ _ Ha) as [ra Hra].
    destruct (lookup_lt_is_Some_2 _ _ Hb) as [rb' Hrb].
    rewrite Hra Hrb /= /uf_find Hra Hrb /=.
    repeat case_decide; congruence.
  - rewrite unions_cons. apply IH; by rewrite ?length_uf_union.
Qed.

(** A point that no pair mentions stays alone in its class. *)
Lemma unions_untouched uf pairs x :
  uf !! x = Some x → (∀ y, uf !! y = Some x → y = x) →
  (∀ a b, (a, b) ∈ pairs → a ≠ x ∧ b ≠ x) →
  unions uf pairs !! x = Some x ∧ ∀ y, unions uf pairs !! y = Some x → y = x.
Proof.
  revert uf. induction pairs as [|[a b] pairs IH]; intros uf Hx Huniq Hpairs;
    [done|].
  destruct (Hpairs a b) as [Ha Hb]; [left|].
  assert (∀ z, z ≠ x → uf_find uf z ≠ x) as Hfind.
  { intros z Hz. rewrite /uf_find. destruct (uf !! z) eqn:Hzr; [|done].
    simpl. intros ->. by apply Hz, Huniq. }
  rewrite unions_cons. apply IH; [| |intros; apply Hpairs; by right].
  - rewrite lookup_uf_union Hx /= decide_False //.
    intros Heq. by apply (Hfind b).
  - intros y. rewrite lookup_uf_union.
    destruct (uf !! y) as [r|] eqn:Hy; [|done]. simpl. intros [= Hr].
    case_decide; [by apply Hfind in Hr|]. subst. by apply Huniq.
Qed.

(** The ids of the classes. *)
Lemma canonical_ids_ren uf : canonical_ids uf = ren (first_occ uf) <$> uf.
Proof.
  rewrite /canonical_ids.
  assert (∀ l : list nat, (∀ r, r ∈ l → r ∈ uf) →
            omap (λ r, index r (first_occ uf)) l = ren (first_occ uf) <$> l)
    as Hgen; [|by apply Hgen].
  induction l as [|r l IH]; intros Hin; [done|].
  destruct (proj2 (index_is_Some r (first_occ uf))) as [i Hi].
  { apply elem_of_first_occ, Hin. left. }
  rewrite /= Hi /= (ren_index _ _ _ Hi). f_equal.
  apply IH. intros; apply Hin; by right.
Qed.

Lemma canonical_ids_lookup uf x :
  canonical_ids uf !! x = ren (first_occ uf) <$> uf !! x.
Proof. by rewrite canonical_ids_ren list_lookup_fmap. Qed.

Lemma canonical_ids_eq uf x y rx ry :
  uf !! x = Some rx → uf !! y = Some ry →
  canonical_ids uf !! x = canonical_ids uf !! y → rx = ry.
Proof.
  intros Hx Hy. rewrite !canonical_ids_lookup Hx Hy /=. intros [= Heq].
  eapply ren_inj; [| |done]; apply elem_of_first_occ;
    by eapply list_elem_of_lookup_2.
Qed.

(** The ids follow the order of first appearance. *)
Lemma ren_first_occ_mono l x y i j :
  index x l = Some i → index y l = Some j → i < j →
  ren (first_occ l) x < ren (first_occ l) y.
Proof.
  intros Hx Hy Hij.
  apply index_Some in Hx as [Hx _]. apply index_Some in Hy as [Hy Hyj].
  pose proof (lookup_lt_Some _ _ _ Hy) as Hj.
  rewrite -(take_drop j l) first_occ_app.
  assert (x ∈ first_occ (take j l)) as Hxin.
  { apply elem_of_first_occ, list_elem_of_lookup. exists i.
    by rewrite lookup_take_lt. }
  assert (y ∉ first_occ (take j l)) as Hyin.
  { intros Hyin. apply (proj1 (elem_of_first_occ _ _)) in Hyin.
    apply list_elem_of_lookup in Hyin as [k Hk].
    pose proof (lookup_lt_Some _ _ _ Hk) as Hkj. rewrite length_take in Hkj.
    rewrite lookup_take_lt in Hk; [|lia]. apply (Hyj k); [lia|done]. }
  destruct (proj2 (index_is_Some _ _) Hxin) as [ix Hix].
  assert (y ∈ filter (λ z, z ∉ take j l) (first_occ (drop j l))) as Hyr.
  { apply list_elem_of_filter. split.
    - intros Hc. apply Hyin. by apply elem_of_first_occ.
    - apply elem_of_first_occ, list_elem_of_lookup. exists 0.
      by rewrite lookup_drop Nat.add_0_r. }
  destruct (proj2 (index_is_Some _ _) Hyr) as [iy Hiy].
  rewrite /ren index_app_l // Hix /= index_app_r // Hiy /=.
  apply index_lt in Hix. lia.
Qed.

End pushout.

(** ** Sequential composition (C1) *)

Section dicts.
Context `{C : Category}.
Implicit Types (d : gmap nat Ob) (kvs : list (nat * Ob)) (k : nat) (t : Ob).

Lemma dict_update_cons d kv kvs :
  dict_update d (kv :: kvs) = dict_update (<[kv.1 := kv.2]> d) kvs.
Proof. done. Qed.

Lemma dict_update_app d kvs1 kvs2 :
  dict_update d (kvs1 ++ kvs2) = dict_update (dict_update d kvs1) kvs2.
Proof. by rewrite /dict_update foldl_app. Qed.

Lemma dict_update_Some d kvs k t :
  dict_update d kvs !! k = Some t → (k, t) ∈ kvs ∨ d !! k = Some t.
Proof.
  revert d. induction kvs as [|[k0 t0] kvs IH]; intros d; [by right|].
  rewrite dict_update_cons. intros [Hin|Hd]%IH; [left; by right|].
  simpl in Hd. destruct (decide (k0 = k)) as [->|Hne].
  - rewrite lookup_insert_eq in Hd. simplify_eq. left. by left.
  - rewrite lookup_insert_ne // in Hd. by right.
Qed.

Lemma dict_update_keep d kvs k t :
  d !! k = Some t → (∀ t', (k, t') ∈ kvs → t' = t) →
  dict_update d kvs !! k = Some t.
Proof.
  revert d. induction kvs as [|[k0 t0] kvs IH]; intros d Hd Hfun; [done|].
  rewrite dict_update_cons. apply IH.
  - simpl. destruct (decide (k0 = k)) as [->|Hne].
    + rewrite lookup_insert_eq. f_equal. apply Hfun. by left.
    + by rewrite lookup_insert_ne.
  - intros t' Hin. apply Hfun. by right.
Qed.

Lemma dict_update_elem d kvs k t :
  (k, t) ∈ kvs → (∀ t', (k, t') ∈ kvs → t' = t) →
  dict_update d kvs !! k = Some t.
Proof.
  revert d. induction kvs as [|[k0 t0] kvs IH]; intros d Hin Hfun.
  { by apply elem_of_nil in Hin. }
  rewrite dict_update_cons.
  destruct (decide ((k, t) ∈ kvs)) as [Hin'|Hnin].
  - apply IH; [done|]. intros t' ?. apply Hfun. by right.
  - apply elem_of_cons in Hin as [[= <- <-]|?]; [|done].
    apply dict_update_keep; [by rewrite /= lookup_insert_eq|].
    intros t' ?. apply Hfun. by right.
Qed.

Lemma mapM_lookup_total {A} (l : list A) (ws : list nat) (a : A) :
  (∀ w, w ∈ ws → w < length l) →
  mapM (λ i, l !! i) ws = Some ((λ i, default a (l !! i)) <$> ws).
Proof.
  intros Hlt. apply mapM_Some. apply Forall2_fmap_r, Forall_Forall2_diag, Forall_forall.
  intros w Hw. destruct (lookup_lt_is_Some_2 l w (Hlt w Hw)) as [x Hx].
  by rewrite /= Hx.
Qed.

Lemma relabel_types_total (m : list nat) (types : list Ob) :
  length types ≤ length m →
  relabel_types m types
  = Some (imap (λ i t, (default 0 (m !! i), t)) types).
Proof.
  intros Hlen. rewrite /relabel_types. apply mapM_Some.
  apply Forall2_same_length_lookup_2; [by rewrite !length_imap|].
  intros i [j t] [k t'].
  rewrite !list_lookup_imap. intros Hi Hk.
  destruct (types !! i) as [t0|] eqn:Ht; [|done].
  destruct (lookup_lt_is_Some_2 m i) as [x Hx].
  { apply lookup_lt_Some in Ht. lia. }
  simpl in *. simplify_eq. by rewrite /= Hx.
Qed.

Lemma elem_of_imap_pair (r : nat → nat) (types : list Ob) k t :
  (k, t) ∈ imap (λ i t, (r i, t)) types ↔ ∃ i, k = r i ∧ types !! i = Some t.
Proof.
  rewrite list_elem_of_lookup. split.
  - intros [i Hi]. rewrite list_lookup_imap in Hi.
    destruct (types !! i) eqn:Ht; simplify_eq/=. eauto.
  - intros (i & -> & Ht). exists i. by rewrite list_lookup_imap Ht.
Qed.

Context `{!CategoryLaws C}.

Lemma normal_type_z t : normal_type t = t → z_flag t = false.
Proof.
  rewrite /normal_type. destruct (z_flag t) eqn:Hz; [|done].
  intros Ha. pose proof (z_flag_adjoint _ Hz) as Hz'. rewrite Ha in Hz'.
  congruence.
Qed.

(** A port fits at most one normal spider type. *)
Lemma fits_normal_unique t1 t2 o :
  normal_type t1 = t1 → normal_type t2 = t2 → fits t1 o → fits t2 o → t1 = t2.
Proof.
  intros Hz1%normal_type_z Hz2%normal_type_z. rewrite /fits !elem_of_cons.
  intros [->|[->|[]%elem_of_nil]] [H|[H|[]%elem_of_nil]].
  - done.
  - subst t1. apply adjoint_self_dual; [done|]. done.
  - subst t2. symmetry. by apply adjoint_self_dual.
  - by rewrite -(adjoint_involutive t1) H adjoint_involutive.
Qed.

End dicts.

Section then_.
Context `{C : Category} `{!CategoryLaws C}.
Implicit Types (f g h : Hypergraph) (x y k : nat) (t o : Ob).

(** The pairs of points that [f >> g] identifies, in the disjoint union of
    the spiders of [f] and of [g]. *)
Definition then_pairs f g : list (nat * nat) :=
  (λ ab, (ab.1, n_spiders f + ab.2)) <$>
    zip (drop (length (wires f) - length (cod f)) (wires f))
        (take (length (dom g)) (wires g)).

Definition then_classes f g : list nat :=
  unions (seq 0 (n_spiders f + n_spiders g)) (then_pairs f g).

Definition then_ids f g : list nat := canonical_ids (then_classes f g).

(** The spider type of a point of the disjoint union. *)
Definition then_type f g x : option Ob :=
  if decide (x < n_spiders f) then spider_types f !! x
  else spider_types g !! (x - n_spiders f).

Definition then_left f g x : nat := default 0 (then_ids f g !! x).
Definition then_right f g x : nat :=
  default 0 (then_ids f g !! (n_spiders f + x)).

Definition then_wires f g : list nat :=
  (then_left f g <$> take (length (wires f) - length (cod f)) (wires f))
  ++ (then_right f g <$> drop (length (dom g)) (wires g)).

Definition then_types f g : list (nat * Ob) :=
  imap (λ i t, (then_left f g i, t)) (spider_types f)
  ++ imap (λ i t, (then_right f g i, t)) (spider_types g).

Lemma length_then_classes f g :
  length (then_classes f g) = n_spiders f + n_spiders g.
Proof. by rewrite /then_classes length_unions length_seq. Qed.

Lemma length_then_ids f g : length (then_ids f g) = n_spiders f + n_spiders g.
Proof.
  by rewrite /then_ids canonical_ids_ren length_fmap length_then_classes.
Qed.

Lemma then_pairs_lookup f g a b :
  (a, b) ∈ then_pairs f g ↔
  ∃ i b', b = n_spiders f + b' ∧
    wires f !! (length (wires f) - length (cod f) + i) = Some a ∧
    i < length (dom g) ∧ wires g !! i = Some b'.
Proof.
  rewrite /then_pairs list_elem_of_fmap. split.
  - intros ([a' b'] & [= -> ->] & [i Hi]%list_elem_of_lookup).
    apply lookup_zip_with_Some in Hi as (? & ? & [= <- <-] & Ha & Hb).
    rewrite lookup_drop in Ha. apply lookup_take_Some in Hb as [Hb Hi].
    exists i, b'. done.
  - intros (i & b' & -> & Ha & Hi & Hb). exists (a, b'). split; [done|].
    apply list_elem_of_lookup. exists i. apply lookup_zip_with_Some.
    exists a, b'. rewrite lookup_drop lookup_take_lt //.
Qed.

Lemma wf_wire_type f p w :
  wf f → wires f !! p = Some w →
  ∃ t o, spider_types f !! w = Some t
       ∧ port_objs (dom f) (cod f) (boxes f) !! p = Some o
       ∧ fits t o ∧ normal_type t = t.
Proof.
  intros Hwf Hw. pose proof (wf_typed f Hwf) as [Hlen Hall]%typed_lookup.
  destruct (lookup_lt_is_Some_2 (port_objs (dom f) (cod f) (boxes f)) p)
    as [o Ho].
  { rewrite -Hlen. by eapply lookup_lt_Some. }
  destruct (Hall p w o Hw Ho) as (t & Ht & Hfit).
  exists t, o. split_and!; [done..|].
  eapply wf_normal_fix; [done|]. by eapply list_elem_of_lookup_2.
Qed.

Lemma wf_length_objs f :
  wf f →
  length (wires f)
  = length (dom f) + length (mjoin (box_objs <$> boxes f)) + length (cod f).
Proof.
  intros Hwf. pose proof (wf_length f Hwf) as Hlen.
  by rewrite /ports length_ports_of -length_boxes_objs in Hlen.
Qed.

Lemma then_pairs_type f g a b :
  wf f → wf g → cod f = dom g → (a, b) ∈ then_pairs f g →
  then_type f g a = then_type f g b ∧ a < n_spiders f ∧ n_spiders f ≤ b.
Proof.
  intros Hf Hg Hcd (i & b' & -> & Ha & Hi & Hb)%then_pairs_lookup.
  destruct (wf_wire_type f _ _ Hf Ha) as (t1 & o1 & Ht1 & Ho1 & Hfit1 & Hn1).
  destruct (wf_wire_type g _ _ Hg Hb) as (t2 & o2 & Ht2 & Ho2 & Hfit2 & Hn2).
  pose proof (wf_length_objs f Hf) as Hlen.
  assert (o1 = o2) as <-.
  { rewrite /port_objs in Ho1, Ho2. rewrite lookup_app_l // in Ho2.
    rewrite app_assoc lookup_app_r in Ho1; [|rewrite length_app; lia].
    replace (length (wires f) - length (cod f) + i
             - length (dom f ++ mjoin (box_objs <$> boxes f))) with i in Ho1
      by (rewrite length_app; lia).
    congruence. }
  pose proof (lookup_lt_Some _ _ _ Ht1) as Hlt.
  split_and!; [|done|lia].
  rewrite /then_type decide_True // decide_False; [|lia].
  replace (n_spiders f + b' - n_spiders f) with b' by lia.
  rewrite Ht1 Ht2. f_equal. by eapply fits_normal_unique.
Qed.

(** Merged spiders have the same type. *)
Lemma then_classes_type f g x r :
  wf f → wf g → cod f = dom g →
  then_classes f g !! x = Some r → then_type f g r = then_type f g x.
Proof.
  intros Hf Hg Hcd. apply (unions_invariant (then_type f g)).
  - by intros y s [-> _]%lookup_seq.
  - intros a b Hab. by apply then_pairs_type.
Qed.

Lemma then_ids_type f g x y k :
  wf f → wf g → cod f = dom g →
  then_ids f g !! x = Some k → then_ids f g !! y = Some k →
  then_type f g x = then_type f g y.
Proof.
  intros Hf Hg Hcd Hx Hy.
  destruct (then_classes f g !! x) as [rx|] eqn:Hrx; last first.
  { by rewrite /then_ids canonical_ids_lookup Hrx in Hx. }
  destruct (then_classes f g !! y) as [ry|] eqn:Hry; last first.
  { by rewrite /then_ids canonical_ids_lookup Hry in Hy. }
  rewrite -(then_classes_type f g x rx) // -(then_classes_type f g y ry) //.
  f_equal. eapply canonical_ids_eq; [done..|]. by rewrite -/(then_ids f g) Hx Hy.
Qed.

Lemma then_ids_total f g x :
  x < n_spiders f + n_spiders g →
  then_ids f g !! x = Some (default 0 (then_ids f g !! x)).
Proof.
  intros Hx. destruct (lookup_lt_is_Some_2 (then_ids f g) x) as [k Hk].
  { by rewrite length_then_ids. }
  by rewrite Hk.
Qed.

Lemma elem_of_then_types f g k t :
  (k, t) ∈ then_types f g ↔
  ∃ x, then_ids f g !! x = Some k ∧ then_type f g x = Some t.
Proof.
  rewrite /then_types elem_of_app !elem_of_imap_pair. split.
  - intros [(i & -> & Ht)|(i & -> & Ht)].
    + pose proof (lookup_lt_Some _ _ _ Ht) as Hi. exists i.
      rewrite /then_left -then_ids_total; [|rewrite /n_spiders; lia].
      by rewrite /then_type decide_True.
    + pose proof (lookup_lt_Some _ _ _ Ht) as Hi. exists (n_spiders f + i).
      rewrite /then_right -then_ids_total; [|rewrite /n_spiders; lia].
      rewrite /then_type decide_False; [|lia].
      by replace (n_spiders f + i - n_spiders f) with i by lia.
  - intros (x & Hk & Ht). rewrite /then_type in Ht.
    destruct (decide (x < n_spiders f)) as [Hx|Hx].
    + left. exists x. by rewrite /then_left Hk.
    + right. exists (x - n_spiders f). rewrite /then_right.
      replace (n_spiders f + (x - n_spiders f)) with x by lia.
      by rewrite Hk.
Qed.

Lemma then_dict f g x t :
  wf f → wf g → cod f = dom g →
  x < n_spiders f + n_spiders g → then_type f g x = Some t →
  dict_update ∅ (then_types f g) !! default 0 (then_ids f g !! x) = Some t.
Proof.
  intros Hf Hg Hcd Hx Ht. pose proof (then_ids_total f g x Hx) as Hk.
  apply dict_update_elem.
  - apply elem_of_then_types. by exists x.
  - intros t' (y & Hy & Ht')%elem_of_then_types.
    assert (Some t' = Some t) as [=]; [|done].
    rewrite -Ht -Ht'. by eapply then_ids_type.
Qed.


Lemma wf_wires_lt f w : wf f → w ∈ wires f → w < n_spiders f.
Proof.
  intros Hwf [p Hp]%list_elem_of_lookup.
  destruct (wf_wire_type f p w Hwf Hp) as (t & _ & Ht & _).
  by eapply lookup_lt_Some.
Qed.

Lemma expect_Some_bind {A B} (e : exn) (a : A) (k : A → result B) :
  expect e (Some a) ≫= k = k a.
Proof. done. Qed.

(** What [then] hands to the constructor. *)
Lemma then_unfold f g :
  wf f → wf g → cod f = dom g →
  then_ f g
  = init (dom f) (cod g) (boxes f ++ boxes g) (then_wires f g)
      (TypeMap (dict_update ∅ (then_types f g)))
      (Some (offsets f ++ offsets g)).
Proof.
  intros Hf Hg Hcd. rewrite /then_. case_decide; [done|].
  rewrite /pushout pushout_classes_unions -/(then_pairs f g)
    -/(then_classes f g) -/(then_ids f g).
  rewrite (mapM_lookup_total (take _ _) (take _ _) 0); last first.
  { intros w Hw%subseteq_take. rewrite length_take length_then_ids.
    apply wf_wires_lt in Hw; [lia|done]. }
  rewrite (mapM_lookup_total (drop _ _) (drop _ _) 0); last first.
  { intros w Hw%subseteq_drop. rewrite length_drop length_then_ids.
    apply wf_wires_lt in Hw; [lia|done]. }
  rewrite !relabel_types_total.
  2:{ rewrite length_take length_then_ids /n_spiders. lia. }
  2:{ rewrite length_drop length_then_ids /n_spiders. lia. }
  rewrite !expect_Some_bind /dict_of -dict_update_app. f_equal.
  - rewrite /then_wires. f_equal.
    + apply list_fmap_ext. intros i w Hw%list_elem_of_lookup_2%subseteq_take.
      rewrite /then_left lookup_take_lt //. by apply wf_wires_lt.
    + apply list_fmap_ext. intros i w Hw.
      by rewrite /then_right lookup_drop.
  - rewrite /then_types. do 3 f_equal.
    + apply imap_ext. intros i t Ht%lookup_lt_Some.
      by rewrite /then_left lookup_take_lt.
    + apply imap_ext. intros i t Ht.
      by rewrite /then_right lookup_drop.
Qed.

(** The wiring that [then] builds is typed by its dictionary. *)
Lemma then_typed f g :
  wf f → wf g → cod f = dom g →
  typed (λ w, dict_update ∅ (then_types f g) !! w) (then_wires f g)
        (port_objs (dom f) (cod g) (boxes f ++ boxes g)).
Proof.
  intros Hf Hg Hcd.
  pose proof (wf_typed f Hf) as Htf. pose proof (wf_typed g Hg) as Htg.
  pose proof (wf_length_objs f Hf) as Hlf.
  rewrite /port_objs app_assoc in Htf.
  apply (Forall2_take _ _ _ (length (wires f) - length (cod f))) in Htf.
  rewrite take_app_length' in Htf; [|rewrite length_app; lia].
  apply (Forall2_drop _ _ _ (length (dom g))) in Htg.
  rewrite /port_objs drop_app_length in Htg.
  rewrite /port_objs fmap_app join_app /then_wires.
  rewrite -(assoc_L (++) _ _ (cod g)) (assoc_L (++) (dom f)).
  apply typed_app.
  - apply typed_fmap. eapply typed_impl; [exact Htf|].
    intros w t o Hw%subseteq_take Ht Hfit. exists t. split; [|done].
    apply then_dict; [done..| |].
    + apply wf_wires_lt in Hw; [lia|done].
    + rewrite /then_type decide_True //. by apply wf_wires_lt.
  - apply typed_fmap. eapply typed_impl; [exact Htg|].
    intros w t o Hw%subseteq_drop Ht Hfit. exists t. split; [|done].
    apply then_dict; [done..| |].
    + apply wf_wires_lt in Hw; [lia|done].
    + rewrite /then_type decide_False; [|lia].
      by replace (n_spiders f + w - n_spiders f) with w by lia.
Qed.

(** Composition succeeds on matching boundaries. *)
Lemma then_success f g :
  wf f → wf g → cod f = dom g →
  ∃ h, then_ f g = Ok h ∧
    dom h = dom f ∧ cod h = cod g ∧ boxes h = boxes f ++ boxes g.
Proof.
  intros Hf Hg Hcd. rewrite then_unfold //.
  destruct (init_typed (dom f) (cod g) (boxes f ++ boxes g) (then_wires f g)
              (TypeMap (dict_update ∅ (then_types f g)))
              (Some (offsets f ++ offsets g))) as (types & _ & ->).
  { by apply then_typed. }
  by eexists.
Qed.

End then_.

(** C1: for all hypergraphs [f] and [g], [f.then(g)] raises [AxiomError] if
    and only if [f.cod != g.dom]; otherwise it succeeds, and whenever it
    succeeds the result is a hypergraph with the dom of [f], the cod of [g]
    and the boxes of [f] followed by those of [g]. *)
Theorem then_spec (C : Category) (L : CategoryLaws C) (f g : Hypergraph) :
  constructed f → constructed g →
  (then_ f g = Raise AxiomError ↔ cod f ≠ dom g) ∧
  (cod f = dom g → ∃ h, then_ f g = Ok h) ∧
  (∀ h, then_ f g = Ok h →
     constructed h ∧
     dom h = dom f ∧ cod h = cod g ∧ boxes h = boxes f ++ boxes g).
Proof.
  intros Hf%constructed_wf Hg%constructed_wf.
  destruct (decide (cod f = dom g)) as [Hcd|Hcd].
  - destruct (then_success f g Hf Hg Hcd) as (h & Hh & Hd & Hc & Hb).
    split_and!.
    + rewrite Hh. done.
    + by exists h.
    + intros h' Hh'. split; [by eapply then_constructed|].
      rewrite Hh in Hh'. by simplify_eq.
  - assert (then_ f g = Raise AxiomError) as Hr.
    { rewrite /then_. by case_decide. }
    split_and!; [done|done|]. intros h. by rewrite Hr.
Qed.

Lemma then_spec_witness :
  ∃ h, then_ (mkHypergraph [Pivotal.x] [Pivotal.y; Pivotal.y]
                [Pivotal.Gen "f" [Pivotal.x] [Pivotal.y; Pivotal.y] false]
                [0; 0; 1; 2; 1; 2] [Pivotal.x; Pivotal.y; Pivotal.y] [None])
             (mkHypergraph [Pivotal.y; Pivotal.y] [Pivotal.z]
                [Pivotal.Gen "g" [Pivotal.y; Pivotal.y] [Pivotal.z] false]
                [0; 1; 0; 1; 2; 2] [Pivotal.y; Pivotal.y; Pivotal.z] [None])
       = Ok h ∧
    constructed h ∧
    dom h = [Pivotal.x] ∧ cod h = [Pivotal.z] ∧
    boxes h = [Pivotal.Gen "f" [Pivotal.x] [Pivotal.y; Pivotal.y] false]
              ++ [Pivotal.Gen "g" [Pivotal.y; Pivotal.y] [Pivotal.z] false].
Proof.
  assert (constructed
            (mkHypergraph [Pivotal.x] [Pivotal.y; Pivotal.y]
               [Pivotal.Gen "f" [Pivotal.x] [Pivotal.y; Pivotal.y] false]
               [0; 0; 1; 2; 1; 2] [Pivotal.x; Pivotal.y; Pivotal.y] [None]))
    as Hf.
  { exists [Pivotal.x], [Pivotal.y; Pivotal.y],
      [Pivotal.Gen "f" [Pivotal.x] [Pivotal.y; Pivotal.y] false],
      [0; 0; 1; 2; 1; 2], NoTypes, None.
    vm_compute. reflexivity. }
  assert (constructed
            (mkHypergraph [Pivotal.y; Pivotal.y] [Pivotal.z]
               [Pivotal.Gen "g" [Pivotal.y; Pivotal.y] [Pivotal.z] false]
               [0; 1; 0; 1; 2; 2] [Pivotal.y; Pivotal.y; Pivotal.z] [None]))
    as Hg.
  { exists [Pivotal.y; Pivotal.y], [Pivotal.z],
      [Pivotal.Gen "g" [Pivotal.y; Pivotal.y] [Pivotal.z] false],
      [0; 1; 0; 1; 2; 2], NoTypes, None.
    vm_compute. reflexivity. }
  destruct (then_spec Pivotal.cat Pivotal_laws _ _ Hf Hg) as (_ & Hex & Hall).
  destruct (Hex eq_refl) as [h Hh]. exists h. split; [exact Hh|].
  exact (Hall h Hh).
Defined.

(** ** Identity laws (C3) *)

Section pushout_ids.
Implicit Types (pairs : list (nat * nat)) (x y a b : nat).

(** Identified points get the same id. *)
Lemma ids_pair N pairs a b :
  (a, b) ∈ pairs → a < N → b < N →
  canonical_ids (unions (seq 0 N) pairs) !! a
  = canonical_ids (unions (seq 0 N) pairs) !! b.
Proof.
  intros Hab Ha Hb. rewrite !canonical_ids_lookup.
  by rewrite (unions_pair _ _ a b) // length_seq.
Qed.

(** Points with the same id agree on every function that the
    identifications respect. *)
Lemma ids_class {A} (c : nat → A) N pairs x y :
  (∀ a b, (a, b) ∈ pairs → c a = c b) → x < N → y < N →
  canonical_ids (unions (seq 0 N) pairs) !! x
  = canonical_ids (unions (seq 0 N) pairs) !! y →
  c x = c y.
Proof.
  intros Hc Hx Hy Hxy.
  destruct (lookup_lt_is_Some_2 (unions (seq 0 N) pairs) x) as [rx Hrx].
  { by rewrite length_unions length_seq. }
  destruct (lookup_lt_is_Some_2 (unions (seq 0 N) pairs) y) as [ry Hry].
  { by rewrite length_unions length_seq. }
  assert (∀ z r, unions (seq 0 N) pairs !! z = Some r → c r = c z) as Hinv.
  { apply unions_invariant; [|done]. by intros z r [-> _]%lookup_seq. }
  rewrite -(Hinv x rx) // -(Hinv y ry) //. f_equal.
  by eapply canonical_ids_eq.
Qed.

(** Points that no identification mentions keep their order. *)
Lemma ids_mono N pairs x y :
  (∀ a b, (a, b) ∈ pairs → a ≠ x ∧ b ≠ x ∧ a ≠ y ∧ b ≠ y) →
  x < y → y < N →
  default 0 (canonical_ids (unions (seq 0 N) pairs) !! x)
  < default 0 (canonical_ids (unions (seq 0 N) pairs) !! y).
Proof.
  intros Hp Hxy Hy.
  assert (∀ z, z < N → (∀ a b, (a, b) ∈ pairs → a ≠ z ∧ b ≠ z) →
            unions (seq 0 N) pairs !! z = Some z
            ∧ index z (unions (seq 0 N) pairs) = Some z) as Hz.
  { intros z Hz Hpz.
    destruct (unions_untouched (seq 0 N) pairs z) as [Hl Hu]; [| |done|].
    - by apply lookup_seq.
    - by intros w [-> _]%lookup_seq.
    - split; [done|]. apply index_Some. split; [done|].
      intros j Hj Hjz%Hu. lia. }
  destruct (Hz x) as [Hlx Hix]; [lia|naive_solver|].
  destruct (Hz y) as [Hly Hiy]; [lia|naive_solver|].
  rewrite !canonical_ids_lookup Hlx Hly /=.
  by eapply ren_first_occ_mono.
Qed.

End pushout_ids.

Section identity.
Context `{C : Category} `{!CategoryLaws C}.
Implicit Types (f g h : Hypergraph) (t : list Ob) (x y k : nat).

Lemma elem_of_zip_seq t k (o : Ob) :
  (k, o) ∈ zip (seq 0 (length t)) t ↔ t !! k = Some o.
Proof.
  rewrite list_elem_of_lookup. split.
  - intros [i Hi].
    apply lookup_zip_with_Some in Hi as (? & ? & [= <- <-] & Hs & Ht).
    by apply lookup_seq in Hs as [-> _].
  - intros Hk. exists k. apply lookup_zip_with_Some. exists k, o.
    split_and!; [done| |done]. apply lookup_seq. split; [done|].
    by eapply lookup_lt_Some.
Qed.

(** The dictionary that the constructor derives for [id(t)]. *)
Lemma id_dict t :
  dict_of (zip (seq 0 (length t) ++ seq 0 (length t)) (t ++ t))
  = dict_enumerate t.
Proof.
  rewrite zip_with_app ?length_seq //. apply map_eq. intros k.
  rewrite /dict_enumerate lookup_map_seq_0.
  destruct (t !! k) as [o|] eqn:Hk.
  - apply dict_update_elem.
    + apply elem_of_app. left. by apply elem_of_zip_seq.
    + intros o' [Ho'|Ho']%elem_of_app; apply elem_of_zip_seq in Ho'; congruence.
  - destruct (dict_of _ !! k) as [o|] eqn:Hd; [|done].
    apply dict_update_Some in Hd as [[Ho|Ho]%elem_of_app|Hd].
    + apply elem_of_zip_seq in Ho. congruence.
    + apply elem_of_zip_seq in Ho. congruence.
    + by rewrite lookup_empty in Hd.
Qed.

Lemma first_occ_seq_seq n : first_occ (seq 0 n ++ seq 0 n) = seq 0 n.
Proof.
  rewrite first_occ_app first_occ_NoDup; [|apply NoDup_seq].
  rewrite filter_none; [by rewrite app_nil_r|]. by intros x Hx Hn.
Qed.

(** [id(t)]: no boxes, wires [(0, .., k-1, 0, .., k-1)]. *)
Lemma id_spec t :
  id t = Ok (mkHypergraph t t [] (seq 0 (length t) ++ seq 0 (length t))
               (normal_type <$> t) []).
Proof.
  rewrite /id.
  destruct (init_typed t t [] (seq 0 (length t) ++ seq 0 (length t))
              NoTypes None) as (types & Ht & ->).
  { rewrite /= ports_objs /port_objs /= id_dict.
    apply typed_app; apply typed_lookup; (split; [by rewrite length_seq|]).
    all: intros p w o [-> _]%lookup_seq Ho; exists o.
    all: rewrite /= /dict_enumerate lookup_map_seq_0; split; [done|].
    all: rewrite /fits; by left. }
  rewrite /= ports_objs /port_objs /= id_dict in Ht |- *.
  rewrite (relabeling_canonical _ _ (length t)) // in Ht |- *;
    try apply first_occ_seq_seq.
  rewrite /dict_enumerate in Ht.
  assert (types = t) as ->.
  { erewrite mapM_ext in Ht; [|intros; apply lookup_map_seq_0].
    rewrite mapM_lookup_seq in Ht. by simplify_eq. }
  do 2 f_equal. apply ren_seq_id. intros w [Hw|Hw]%elem_of_app.
  all: apply elem_of_seq in Hw; lia.
Qed.


(** The value of [id(t)]. *)
Definition id_hyp t : Hypergraph :=
  mkHypergraph t t [] (seq 0 (length t) ++ seq 0 (length t))
    (normal_type <$> t) [].

Lemma id_wf t : wf (id_hyp t).
Proof. apply constructed_wf, (id_constructed t), id_spec. Qed.

Lemma n_spiders_id t : n_spiders (id_hyp t) = length t.
Proof. by rewrite /n_spiders /= length_fmap. Qed.

Lemma then_ids_default f g x y :
  x < n_spiders f + n_spiders g → y < n_spiders f + n_spiders g →
  default 0 (then_ids f g !! x) = default 0 (then_ids f g !! y) →
  then_ids f g !! x = then_ids f g !! y.
Proof.
  intros Hx Hy Heq. by rewrite (then_ids_total f g x) // (then_ids_total f g y) // Heq.
Qed.

(** Scalar spiders come last. *)
Lemma wf_scalar_above f i j :
  wf f → i ∉ wires f → i < j → j ∉ wires f.
Proof.
  intros Hwf Hi Hij Hj. destruct (wf_canonical _ Hwf) as (k & Hk & _).
  apply Hi, elem_of_first_occ. rewrite Hk. apply elem_of_seq.
  pose proof (canonical_elem _ _ _ Hk Hj). lia.
Qed.

Lemma wf_dom_wire f i :
  wf f → i < length (dom f) → ∃ w, wires f !! i = Some w ∧ w < n_spiders f.
Proof.
  intros Hwf Hi. pose proof (wf_length_objs f Hwf) as Hlen.
  destruct (lookup_lt_is_Some_2 (wires f) i) as [w Hw]; [lia|].
  exists w. split; [done|]. apply wf_wires_lt; [done|].
  by eapply list_elem_of_lookup_2.
Qed.

Lemma then_pairs_id_l f a b :
  wf f →
  (a, b) ∈ then_pairs (id_hyp (dom f)) f ↔
  a < length (dom f) ∧ ∃ w, wires f !! a = Some w ∧ b = length (dom f) + w.
Proof.
  intros Hwf. rewrite then_pairs_lookup n_spiders_id /= !length_app !length_seq.
  split.
  - intros (i & w & -> & Ha & Hi & Hw).
    rewrite lookup_app_r length_seq in Ha; [|lia].
    apply lookup_seq in Ha as [-> _].
    replace (0 + (length (dom f) + length (dom f) - length (dom f) + i
                  - length (dom f))) with i by lia. eauto.
  - intros (Ha & w & Hw & ->). exists a, w. split_and!; [done| |done..].
    rewrite lookup_app_r length_seq; [|lia]. apply lookup_seq. lia.
Qed.

(** Left identity: [id(f.dom) >> f] is built as [f] itself. *)
Lemma then_id_l f : wf f → then_ (id_hyp (dom f)) f = Ok f.
Proof.
  intros Hwf. pose proof (id_wf (dom f)) as Hid.
  set (I := id_hyp (dom f)) in *.
  pose proof (wf_length_objs f Hwf) as Hlen.
  pose proof (n_spiders_id (dom f)) as HnI. rewrite -/I in HnI.
  rewrite then_unfold //.
  assert (then_wires I f = then_right I f <$> wires f) as ->.
  { rewrite /then_wires /= !length_app !length_seq.
    replace (length (dom f) + length (dom f) - length (dom f))
      with (length (dom f)) by lia.
    rewrite take_app_length' ?length_seq //.
    rewrite -{2}(take_drop (length (dom f)) (wires f)) fmap_app. f_equal.
    apply list_eq. intros i. rewrite !list_lookup_fmap.
    destruct (decide (i < length (dom f))) as [Hi|Hi].
    - destruct (wf_dom_wire f i Hwf Hi) as (w & Hw & Hwn).
      assert (seq 0 (length (dom f)) !! i = Some i) as ->
        by (apply lookup_seq; lia).
      rewrite lookup_take_lt // Hw /=.
      f_equal. rewrite /then_left /then_right HnI. f_equal.
      apply ids_pair; [|lia..].
      apply then_pairs_id_l; [done|]. eauto.
    - rewrite lookup_take_ge; [|lia]. rewrite lookup_ge_None_2 //.
      rewrite length_seq. lia. }
  change (dom I) with (dom f). change (boxes I ++ boxes f) with (boxes f).
  change (offsets I ++ offsets f) with (offsets f).
  rewrite (init_relabel f (then_right I f)) //.
  - rewrite offsets_or_fix //. by destruct f.
  - intros i j Hi Hj Hij. apply then_ids_default in Hij; [|lia..].
    pose (c := λ x, if decide (x < length (dom f))
                    then default 0 (wires f !! x) else x - length (dom f)).
    assert (c (n_spiders I + i) = c (n_spiders I + j)) as Hc.
    { eapply (ids_class c (n_spiders I + n_spiders f) (then_pairs I f));
        [|lia|lia|exact Hij].
      intros a b (Ha & w & Hw & ->)%then_pairs_id_l; [|done].
      rewrite /c decide_True // decide_False; [|lia]. rewrite Hw /=. lia. }
    rewrite /c HnI !decide_False in Hc; lia.
  - intros i Hi. destruct (lookup_lt_is_Some_2 (spider_types f) i) as [o Ho];
      [done|].
    rewrite Ho. apply then_dict; [done..|lia|].
    rewrite /then_type decide_False; [|lia].
    by replace (n_spiders I + i - n_spiders I) with i by lia.
  - intros key [o Ho]. simpl in Ho.
    apply dict_update_Some in Ho as [Ho|Ho]; [|by rewrite lookup_empty in Ho].
    apply elem_of_then_types in Ho as (x & Hx & Ho).
    rewrite /then_type in Ho. destruct (decide (x < n_spiders I)) as [Hlt|Hge].
    + rewrite HnI in Hlt.
      destruct (wf_dom_wire f x Hwf Hlt) as (w & Hw & Hwn).
      exists w. split; [done|]. rewrite /then_right.
      rewrite -(ids_pair _ _ x); [|apply then_pairs_id_l; eauto|lia..].
      by rewrite -/(then_classes I f) -/(then_ids I f) Hx.
    + exists (x - n_spiders I). split; [by eapply lookup_lt_Some|].
      rewrite /then_right.
      replace (n_spiders I + (x - n_spiders I)) with x by lia.
      by rewrite Hx.
  - intros i j Hi Hij Hj.
    pose proof (wf_scalar_above f i j Hwf Hi Hij) as Hj'.
    apply ids_mono; [|lia..].
    intros a b (Ha & w & Hw%list_elem_of_lookup_2 & ->)%then_pairs_id_l; [|done].
    rewrite HnI.
    split_and!; [lia| |lia|]; intros Heq.
    + apply Hi. by replace i with w by lia.
    + apply Hj'. by replace j with w by lia.
Qed.


Lemma wf_cod_wire f i :
  wf f → i < length (cod f) →
  ∃ w, wires f !! (length (wires f) - length (cod f) + i) = Some w
     ∧ w < n_spiders f.
Proof.
  intros Hwf Hi. pose proof (wf_length_objs f Hwf) as Hlen.
  destruct (lookup_lt_is_Some_2 (wires f)
              (length (wires f) - length (cod f) + i)) as [w Hw]; [lia|].
  exists w. split; [done|]. apply wf_wires_lt; [done|].
  by eapply list_elem_of_lookup_2.
Qed.

Lemma then_pairs_id_r f a b :
  wf f →
  (a, b) ∈ then_pairs f (id_hyp (cod f)) ↔
  ∃ i, i < length (cod f)
     ∧ wires f !! (length (wires f) - length (cod f) + i) = Some a
     ∧ b = n_spiders f + i.
Proof.
  intros Hwf. rewrite then_pairs_lookup /=. split.
  - intros (i & w & -> & Ha & Hi & Hw).
    rewrite lookup_app_l ?length_seq // in Hw.
    apply lookup_seq in Hw as [-> _]. eauto.
  - intros (i & Hi & Ha & ->). exists i, i. split_and!; [done..|].
    rewrite lookup_app_l ?length_seq //. by apply lookup_seq.
Qed.

(** Right identity: [f >> id(f.cod)] is built as [f] itself. *)
Lemma then_id_r f : wf f → then_ f (id_hyp (cod f)) = Ok f.
Proof.
  intros Hwf. pose proof (id_wf (cod f)) as Hid.
  set (I := id_hyp (cod f)) in *.
  pose proof (wf_length_objs f Hwf) as Hlen.
  pose proof (n_spiders_id (cod f)) as HnI. rewrite -/I in HnI.
  set (k := length (wires f) - length (cod f)).
  rewrite then_unfold //.
  assert (then_wires f I = then_left f I <$> wires f) as ->.
  { rewrite /then_wires /= drop_app_length' ?length_seq // -/k.
    rewrite -{2}(take_drop k (wires f)) fmap_app. f_equal.
    apply list_eq. intros i. rewrite !list_lookup_fmap lookup_drop.
    destruct (decide (i < length (cod f))) as [Hi|Hi].
    - destruct (wf_cod_wire f i Hwf Hi) as (w & Hw & Hwn).
      assert (seq 0 (length (cod f)) !! i = Some i) as ->
        by (apply lookup_seq; lia).
      rewrite -/k in Hw. rewrite Hw /=.
      f_equal. rewrite /then_left /then_right. f_equal. symmetry.
      apply ids_pair; [|lia..].
      apply then_pairs_id_r; [done|]. eauto.
    - rewrite (lookup_ge_None_2 (wires f)); [|subst k; lia].
      rewrite lookup_ge_None_2 // length_seq. lia. }
  change (cod I) with (cod f). change (boxes f ++ boxes I) with (boxes f ++ []).
  change (offsets f ++ offsets I) with (offsets f ++ []). rewrite !app_nil_r.
  rewrite (init_relabel f (then_left f I)) //.
  - rewrite offsets_or_fix //. by destruct f.
  - intros i j Hi Hj Hij. apply then_ids_default in Hij; [|lia..].
    pose (c := λ x, if decide (x < n_spiders f) then x
                    else default 0 (wires f !! (k + (x - n_spiders f)))).
    assert (c i = c j) as Hc.
    { eapply (ids_class c (n_spiders f + n_spiders I) (then_pairs f I));
        [|lia|lia|exact Hij].
      intros a b (p & Hp & Hw & ->)%then_pairs_id_r; [|done].
      pose proof (wf_wires_lt f a Hwf (list_elem_of_lookup_2 _ _ _ Hw)).
      rewrite /c decide_True // decide_False; [|lia].
      replace (n_spiders f + p - n_spiders f) with p by lia.
      by rewrite -/k in Hw; rewrite Hw. }
    by rewrite /c !decide_True in Hc.
  - intros i Hi. destruct (lookup_lt_is_Some_2 (spider_types f) i) as [o Ho];
      [done|].
    rewrite Ho. apply then_dict; [done..|lia|].
    by rewrite /then_type decide_True.
  - intros key [o Ho]. simpl in Ho.
    apply dict_update_Some in Ho as [Ho|Ho]; [|by rewrite lookup_empty in Ho].
    apply elem_of_then_types in Ho as (x & Hx & Ho).
    rewrite /then_type in Ho. destruct (decide (x < n_spiders f)) as [Hlt|Hge].
    + exists x. split; [done|]. by rewrite /then_left Hx.
    + apply lookup_lt_Some in Ho. rewrite -/(n_spiders I) HnI in Ho.
      destruct (wf_cod_wire f (x - n_spiders f) Hwf Ho) as (w & Hw & Hwn).
      exists w. split; [done|]. rewrite /then_left.
      rewrite (ids_pair _ _ w x); [|apply then_pairs_id_r; [done|]|lia..].
      * by rewrite -/(then_classes f I) -/(then_ids f I) Hx.
      * exists (x - n_spiders f). split_and!; [done..|lia].
  - intros i j Hi Hij Hj.
    pose proof (wf_scalar_above f i j Hwf Hi Hij) as Hj'.
    apply ids_mono; [|lia..].
    intros a b (p & Hp & Hw%list_elem_of_lookup_2 & ->)%then_pairs_id_r; [|done].
    split_and!; [|lia| |lia]; by intros ->.
Qed.

(** C3: for every type-sequence [t], [id(t) >> f] is defined and equal
    under [==] to [f] for every hypergraph [f] with dom [t], and [f >> id(t)]
    is defined and equal under [==] to [f] for every hypergraph [f] with
    cod [t]. *)
Theorem identity_laws (t : list Ob) f :
  constructed f →
  (dom f = t → ∃ i h, id t = Ok i ∧ then_ i f = Ok h ∧ eq_ h f) ∧
  (cod f = t → ∃ i h, id t = Ok i ∧ then_ f i = Ok h ∧ eq_ h f).
Proof.
  intros Hwf%constructed_wf. split; intros <-.
  - exists (id_hyp (dom f)), f. split_and!; [apply id_spec|by apply then_id_l|].
    apply eq_refl_. by apply wf_canonical.
  - exists (id_hyp (cod f)), f. split_and!; [apply id_spec|by apply then_id_r|].
    apply eq_refl_. by apply wf_canonical.
Qed.

End identity.

Lemma identity_laws_witness :
  (∃ i h, id [Pivotal.x] = Ok i ∧
     then_ i (mkHypergraph [Pivotal.x] [Pivotal.x]
                [Pivotal.Gen "f" [Pivotal.x] [Pivotal.x] false]
                [0; 0; 1; 1] [Pivotal.x; Pivotal.x] [None]) = Ok h ∧
     eq_ h (mkHypergraph [Pivotal.x] [Pivotal.x]
              [Pivotal.Gen "f" [Pivotal.x] [Pivotal.x] false]
              [0; 0; 1; 1] [Pivotal.x; Pivotal.x] [None])) ∧
  (∃ i h, id [Pivotal.x] = Ok i ∧
     then_ (mkHypergraph [Pivotal.x] [Pivotal.x]
              [Pivotal.Gen "f" [Pivotal.x] [Pivotal.x] false]
              [0; 0; 1; 1] [Pivotal.x; Pivotal.x] [None]) i = Ok h ∧
     eq_ h (mkHypergraph [Pivotal.x] [Pivotal.x]
              [Pivotal.Gen "f" [Pivotal.x] [Pivotal.x] false]
              [0; 0; 1; 1] [Pivotal.x; Pivotal.x] [None])).
Proof.
  assert (constructed (mkHypergraph [Pivotal.x] [Pivotal.x]
              [Pivotal.Gen "f" [Pivotal.x] [Pivotal.x] false]
              [0; 0; 1; 1] [Pivotal.x; Pivotal.x] [None])) as Hf.
  { exists [Pivotal.x], [Pivotal.x],
      [Pivotal.Gen "f" [Pivotal.x] [Pivotal.x] false], [0; 0; 1; 1],
      NoTypes, None.
    vm_compute. reflexivity. }
  split.
  - apply (proj1 (identity_laws (C := Pivotal.cat) [Pivotal.x] _ Hf)).
    reflexivity.
  - apply (proj2 (identity_laws (C := Pivotal.cat) [Pivotal.x] _ Hf)).
    reflexivity.
Defined.

(** ** Termination and result of [make_bijective] (C2) *)

Section assign.
Implicit Types (l ws ps : list nat) (x y p n j : nat).

Lemma max_of_elem l : l ≠ [] → max_of l ∈ l.
Proof.
  induction l as [|x l IH]; [done|]. intros _. simpl.
  destruct l as [|y l]; [rewrite /= Nat.max_0_r; by left|].
  destruct (Nat.max_spec x (max_of (y :: l))) as [[_ ->]|[_ ->]].
  - right. by apply IH.
  - by left.
Qed.

Lemma foldr_min_elem x l : foldr Nat.min x l ∈ x :: l.
Proof.
  induction l as [|y l IH]; [by left|]. simpl.
  destruct (Nat.min_spec y (foldr Nat.min x l)) as [[_ ->]|[_ ->]].
  - right. by left.
  - apply elem_of_cons in IH as [->|?]; [by left|]. right. by right.
Qed.

Lemma min_of_elem l : l ≠ [] → min_of l ∈ l.
Proof. destruct l as [|x l]; [done|]. intros _. apply foldr_min_elem. Qed.

(** Lists with [x] at the same positions hold it equally often. *)
Lemma count_ext x l1 l2 :
  length l1 = length l2 →
  (∀ p, l1 !! p = Some x ↔ l2 !! p = Some x) →
  count x l1 = count x l2.
Proof.
  intros Hlen Hp. rewrite -!length_occurrences /occurrences Hlen. f_equal.
  apply list_filter_iff. intros p. apply Hp.
Qed.

Lemma count_one x l p :
  l !! p = Some x → (∀ q, l !! q = Some x → q = p) → count x l = 1.
Proof.
  intros Hp Hq. rewrite -length_occurrences.
  assert (occurrences x l ≡ₚ [p]) as ->; [|done].
  apply NoDup_Permutation.
  - apply NoDup_filter, NoDup_seq.
  - apply NoDup_singleton.
  - intros q. rewrite /occurrences list_elem_of_filter elem_of_seq.
    rewrite list_elem_of_singleton. split; [naive_solver|].
    intros ->. split; [done|]. apply lookup_lt_Some in Hp. lia.
Qed.

Lemma count_seq x j n :
  count x (seq j n) = if decide (j ≤ x < j + n) then 1 else 0.
Proof.
  case_decide as Hx.
  - apply (count_one _ _ (x - j)).
    + apply lookup_seq. lia.
    + intros q [? ?]%lookup_seq. lia.
  - apply count_0. rewrite elem_of_seq. lia.
Qed.

(** The wires after [wires[port] = n + j] for the ports of [ps]. *)
Lemma assign_legs_spec n j ps ws :
  NoDup ps → (∀ p, p ∈ ps → p < length ws) →
  ∃ ws', assign_legs n j ps ws = Ok ws' ∧ length ws' = length ws ∧
    ∀ p, ws' !! p = match index p ps with
                    | Some k => Some (n + (j + k))
                    | None => ws !! p
                    end.
Proof.
  revert j ws. induction ps as [|q ps IH]; intros j ws Hnd Hlt.
  { exists ws. done. }
  apply NoDup_cons in Hnd as [Hq Hnd].
  rewrite /= /set_item decide_True; [|apply Hlt; by left]. simpl.
  destruct (IH (S j) (<[q := n + j]> ws) Hnd) as (ws' & -> & Hlen & Hws').
  { intros p Hp. rewrite length_insert. apply Hlt. by right. }
  exists ws'. split; [done|]. rewrite Hlen length_insert. split; [done|].
  intros p. rewrite Hws'. case_decide as Hpq.
  - subst p. apply index_None in Hq as ->.
    rewrite list_lookup_insert_eq; [|apply Hlt; by left].
    by rewrite Nat.add_0_r.
  - destruct (index p ps) as [k|]; simpl; [f_equal; lia|].
    by rewrite list_lookup_insert_ne.
Qed.

End assign.

Section legs.
Context `{C : Category}.
Implicit Types (h : Hypergraph) (s p : nat) (io : list nat * list nat).

(** The ports of the boxes know the position of their box. *)
Lemma box_port_depth dom cod boxes (nd : Node) :
  nd ∈ ports_of dom cod boxes → kind nd ∈ [dom_port; cod_port] →
  ∃ d, depth nd = Some d ∧ d < length boxes.
Proof.
  rewrite /ports_of !elem_of_app. intros [Hnd|[Hnd|Hnd]] Hk.
  - apply elem_of_lookup_imap in Hnd as (i & o & -> & _). simpl in Hk.
    set_solver.
  - apply list_elem_of_join in Hnd as (l & Hnd & Hl).
    apply elem_of_lookup_imap in Hl as (d & b & -> & Hb).
    exists d. split; [|by eapply lookup_lt_Some].
    rewrite /box_ports elem_of_app in Hnd.
    destruct Hnd as [Hnd|Hnd];
      by apply elem_of_lookup_imap in Hnd as (i & o & -> & _).
  - apply elem_of_lookup_imap in Hnd as (i & o & -> & _). simpl in Hk.
    set_solver.
Qed.

(** The legs of the spiders of a hypergraph. *)
Lemma spider_legs h :
  wf h →
  ∃ sw, spider_wires h = Ok sw ∧ length sw = n_spiders h ∧
    ∀ s io, sw !! s = Some io →
      NoDup (io.1 ++ io.2) ∧
      (∀ p, p ∈ io.1 ++ io.2 ↔ wires h !! p = Some s) ∧
      n_legs io = count s (wires h) ∧
      (∀ p, p ∈ io.1 →
         ∃ nd, ports h !! p = Some nd ∧ is_source (kind nd) = true) ∧
      (∀ p, p ∈ io.2 →
         ∃ nd, ports h !! p = Some nd ∧ is_source (kind nd) = false).
Proof.
  intros Hwf. pose proof (wf_length h Hwf) as Hlen.
  destruct (spider_wires_spec (dom h) (cod h) (boxes h) (wires h)
              (n_spiders h)) as (sw & Hsw & Hn & Hspec); [done| |].
  { intros w Hw. destruct (wf_canonical _ Hwf) as (k & Hk & Hkn).
    eapply Nat.lt_le_trans; [|done]. by eapply canonical_elem. }
  exists sw. split_and!; [done..|]. intros s io Hio.
  assert (s < n_spiders h) as Hs.
  { rewrite -Hn. by eapply lookup_lt_Some. }
  rewrite Hspec // in Hio. injection Hio as <-. simpl.
  set (ev := events 0 (sides_of (dom h) (cod h) (boxes h)) (wires h)).
  assert (NoDup ((λ e, e.1.2) <$> ev)) as Hev.
  { rewrite /ev events_ports; [apply NoDup_seq|].
    by rewrite -ports_sides length_fmap. }
  assert (NoDup (sel true s ev ++ sel false s ev)) as Hnd.
  { apply NoDup_app. split_and!; [by apply NoDup_sel| |by apply NoDup_sel].
    intros p [H1 _]%sel_events_lookup [H2 _]%sel_events_lookup. congruence. }
  assert (∀ p, p ∈ sel true s ev ++ sel false s ev ↔ wires h !! p = Some s)
    as Hin by (intros p; by apply sel_union_lookup).
  split_and!; [done|done| |..].
  - rewrite /n_legs /= -length_app -length_occurrences.
    apply Permutation_length, NoDup_Permutation; [done|..].
    + apply NoDup_filter, NoDup_seq.
    + intros p. rewrite Hin /occurrences list_elem_of_filter elem_of_seq.
      split; [|naive_solver]. intros Hp. split; [done|].
      apply lookup_lt_Some in Hp. lia.
  - intros p [Hp _]%sel_events_lookup. by apply sides_lookup.
  - intros p [Hp _]%sel_events_lookup. by apply sides_lookup.
Qed.

(** The search for a spider to split. *)
Lemma candidates_find (types : list Ob) (sw : list (list nat * list nat)) :
  length sw = length types →
  match list_find (λ c : nat * (Ob * (list nat * list nat)),
                     n_legs c.2.2 ∉ [0; 2])
          (reverse (imap (λ spider x, (spider, x)) (zip types sw))) with
  | None => ∀ s io, sw !! s = Some io → n_legs io ∈ [0; 2]
  | Some (_, (s, (t, io))) =>
      types !! s = Some t ∧ sw !! s = Some io ∧ n_legs io ∉ [0; 2]
  end.
Proof.
  intros Hlen.
  destruct (list_find _ _) as [[idx [s [t io]]]|] eqn:Hfind.
  - apply list_find_Some in Hfind as (Hl%list_elem_of_lookup_2 & HP & _).
    apply elem_of_reverse, elem_of_lookup_imap in Hl as (i & [t' io'] & Heq & Hz).
    injection Heq as -> -> ->.
    apply lookup_zip_with_Some in Hz as (? & ? & [= <- <-] & Ht & Hio).
    done.
  - intros s io Hio. apply list_find_None in Hfind.
    destruct (lookup_lt_is_Some_2 types s) as [t Ht].
    { rewrite -Hlen. by eapply lookup_lt_Some. }
    rewrite Forall_forall in Hfind.
    destruct (decide (n_legs io ∈ [0; 2])) as [|Hn]; [done|].
    exfalso. apply (Hfind (s, (t, io))); [|done].
    apply elem_of_reverse, elem_of_lookup_imap. exists s, (t, io).
    split; [done|]. apply lookup_zip_with_Some. by exists t, io.
Qed.

End legs.

Section bijective.
Context `{C : Category} `{!CategoryLaws C}.
Implicit Types (h : Hypergraph) (s p n d : nat) (ins outs ws : list nat).

(** The depth at which [make_bijective] inserts the spider box. *)
Definition split_depth h ins outs : result nat :=
  if decide (ins ≠ []) then
    node ← expect IndexError (ports h !! max_of ins);
    if decide (kind node = input) then Ok 0
    else d ← expect AssertionError (depth node); Ok (d + 1)
  else
    node ← expect IndexError (ports h !! min_of outs);
    if decide (kind node = output) then Ok (length (boxes h))
    else expect AssertionError (depth node).

(** [w - 1 if w > spider else w]. *)
Definition shift (spider w : nat) : nat :=
  if decide (spider < w) then w - 1 else w.

(** The wires that [make_bijective] hands to the constructor, from the
    wires [w1] with the legs of [spider] reassigned. *)
Definition split_wires h (spider nl d : nat) (w1 : list nat) : list nat :=
  let i := length (dom h)
    + length (mjoin ((λ dc, dc.1 ++ dc.2) <$> take d (box_wires h))) in
  shift spider <$>
    (take i w1 ++ seq (length (spider_types h)) nl ++ drop i w1).

Lemma make_bijective_step_None h sw :
  spider_wires h = Ok sw →
  list_find (λ c : nat * (Ob * (list nat * list nat)), n_legs c.2.2 ∉ [0; 2])
    (reverse (imap (λ spider x, (spider, x)) (zip (spider_types h) sw)))
  = None →
  make_bijective_step h = Ok None.
Proof. intros Hsw Hfind. by rewrite /make_bijective_step Hsw /= Hfind. Qed.

Lemma make_bijective_step_Some h sw idx spider typ ins outs d w1 :
  spider_wires h = Ok sw →
  list_find (λ c : nat * (Ob * (list nat * list nat)), n_legs c.2.2 ∉ [0; 2])
    (reverse (imap (λ spider x, (spider, x)) (zip (spider_types h) sw)))
  = Some (idx, (spider, (typ, (ins, outs)))) →
  split_depth h ins outs = Ok d →
  assign_legs (length (spider_types h)) 0 (set_iter (ins ++ outs)) (wires h)
  = Ok w1 →
  make_bijective_step h
  = (h' ← init (dom h) (cod h)
             (take d (boxes h)
              ++ [spider_factory (length ins) (length outs) typ]
              ++ drop d (boxes h))
             (split_wires h spider (length ins + length outs) d w1)
             (TypeSeq (delete spider
                (spider_types h ++ replicate (length ins + length outs) typ)))
             (Some (take d (offsets h) ++ [None] ++ drop d (offsets h)));
     Ok (Some h')).
Proof.
  intros Hsw Hfind Hd Hw1. rewrite /make_bijective_step Hsw /= Hfind.
  rewrite /split_depth in Hd. rewrite Hd /= Hw1 /=. done.
Qed.

Lemma split_depth_Ok h s io sw :
  wf h → spider_wires h = Ok sw → sw !! s = Some io → n_legs io ∉ [0; 2] →
  ∃ d, split_depth h io.1 io.2 = Ok d ∧ d ≤ length (boxes h).
Proof.
  intros Hwf Hsw Hio Hn.
  destruct (spider_legs h Hwf) as (sw' & Hsw' & _ & Hspec).
  rewrite Hsw in Hsw'. injection Hsw' as <-.
  destruct (Hspec s io Hio) as (_ & _ & _ & Hins & Houts).
  rewrite /split_depth. case_decide as Hne.
  - destruct (Hins _ (max_of_elem _ Hne)) as (nd & Hnd & Hk).
    rewrite Hnd /=.
    apply is_source_true in Hk. case_decide as Hkind.
    { exists 0. split; [done|lia]. }
    destruct (box_port_depth (dom h) (cod h) (boxes h) nd) as (d & -> & Hd).
    + by eapply list_elem_of_lookup_2.
    + set_solver.
    + exists (d + 1). split; [done|lia].
  - assert (io.2 ≠ []) as Hne'.
    { intros Ho. apply Hn. rewrite /n_legs Hne Ho /=. by left. }
    destruct (Houts _ (min_of_elem _ Hne')) as (nd & Hnd & Hk).
    rewrite Hnd /=.
    apply is_source_false in Hk. case_decide as Hkind.
    { exists (length (boxes h)). done. }
    destruct (box_port_depth (dom h) (cod h) (boxes h) nd) as (d & -> & Hd).
    + by eapply list_elem_of_lookup_2.
    + set_solver.
    + exists d. split; [done|lia].
Qed.

Lemma take_box_wires_from d i boxes ws :
  take d (box_wires_from i boxes ws) = box_wires_from i (take d boxes) ws.
Proof.
  revert d i. induction boxes as [|b boxes IH]; intros [|d] i; try done.
  simpl. by rewrite IH.
Qed.

Lemma n_box_ports_take d boxes :
  n_box_ports boxes = n_box_ports (take d boxes) + n_box_ports (drop d boxes).
Proof. by rewrite -n_box_ports_app take_drop. Qed.

(** The wire index at which the ports of the new box are inserted. *)
Lemma split_index h d :
  wf h →
  length (dom h)
  + length (mjoin ((λ dc, dc.1 ++ dc.2) <$> take d (box_wires h)))
  = length (dom h) + n_box_ports (take d (boxes h)).
Proof.
  intros Hwf. f_equal. rewrite /box_wires /box_wires_of take_box_wires_from.
  pose proof (wf_box_ports_le h Hwf) as Hle.
  pose proof (n_box_ports_take d (boxes h)) as Hd.
  rewrite -/cat_wires.
  change (λ dc : list nat * list nat, dc.1 ++ dc.2) with cat_wires.
  rewrite box_wires_from_join; [|lia].
  rewrite length_take length_drop. lia.
Qed.


Lemma shift_inj spider x y :
  x ≠ spider → y ≠ spider → shift spider x = shift spider y → x = y.
Proof. rewrite /shift. repeat case_decide; lia. Qed.

Lemma lookup_delete_shift {A} (l : list A) spider w :
  w ≠ spider → delete spider l !! shift spider w = l !! w.
Proof.
  intros Hw. rewrite list_lookup_delete /shift.
  repeat case_decide; try lia; f_equal; lia.
Qed.

Lemma fmap_shift_seq spider n :
  spider < n →
  shift spider <$> (seq 0 spider ++ seq (S spider) (n - 1 - spider))
  = seq 0 (n - 1).
Proof.
  intros Hs. replace (n - 1) with (spider + (n - 1 - spider)) at 2 by lia.
  rewrite seq_app fmap_app. f_equal.
  - rewrite -{2}(list_fmap_id (seq 0 spider)). apply list_fmap_ext.
    intros i x [-> ?]%lookup_seq. rewrite /shift decide_False //. lia.
  - rewrite -fmap_S_seq -list_fmap_compose /=.
    rewrite -{2}(list_fmap_id (seq spider (n - 1 - spider))).
    apply list_fmap_ext.
    intros i x [-> ?]%lookup_seq. rewrite /= /shift decide_True; lia.
Qed.

(** The number of spiders that [make_bijective] still has to split. *)
Definition bad h : nat :=
  length (filter (λ s, count s (wires h) ∉ [0; 2]) (seq 0 (n_spiders h))).

Lemma length_filter_fmap {A B} (f : A → B) (P : B → Prop)
    `{!∀ x, Decision (P x)} (l : list A) :
  length (filter P (f <$> l)) = length (filter (P ∘ f) l).
Proof.
  induction l as [|a l IH]; [done|].
  rewrite fmap_cons !filter_cons /=. case_decide; simpl; by rewrite IH.
Qed.

(** The relabelling of the constructor keeps the number of legs of each
    spider. *)
Lemma bad_relabel r ws N :
  r ≡ₚ seq 0 N → (∀ w, w ∈ ws → w < N) →
  length (filter (λ s, count s (ren r <$> ws) ∉ [0; 2]) (seq 0 N))
  = length (filter (λ s, count s ws ∉ [0; 2]) (seq 0 N)).
Proof.
  intros Hperm Hlt.
  assert (NoDup r) as Hnd by (rewrite Hperm; apply NoDup_seq).
  assert (length r = N) as Hlen by (by rewrite Hperm length_seq).
  assert (seq 0 N = ren r <$> r) as Heq.
  { pose proof (ren_prefix r []) as Hp. rewrite app_nil_r in Hp.
    by rewrite Hp // Hlen. }
  rewrite {1}Heq length_filter_fmap.
  rewrite (filter_ext_in _ (λ s, count s ws ∉ [0; 2])); last first.
  { intros x Hx. rewrite /= count_fmap //.
    intros y Hy. apply ren_inj; [|done]. rewrite Hperm. apply elem_of_seq.
    apply Hlt in Hy. lia. }
  by rewrite Hperm.
Qed.

Section split.
Variables (h : Hypergraph) (spider d : nat) (typ : Ob) (ins outs w1 : list nat).
Hypothesis Hwf : wf h.
Hypothesis Htyp : spider_types h !! spider = Some typ.
Hypothesis Hnd : NoDup (ins ++ outs).
Hypothesis Hin : ∀ p, p ∈ ins ++ outs ↔ wires h !! p = Some spider.
Hypothesis Hd : d ≤ length (boxes h).
Hypothesis Hlen1 : length w1 = length (wires h).
Hypothesis Hw1 : ∀ p,
  w1 !! p = match index p (set_iter (ins ++ outs)) with
            | Some k => Some (length (spider_types h) + k)
            | None => wires h !! p
            end.

Local Abbreviation L := (set_iter (ins ++ outs)).
Local Abbreviation n := (length (spider_types h)).
Local Abbreviation nl := (length ins + length outs).
Local Abbreviation types0 := (delete spider (spider_types h ++ replicate nl typ)).
Local Abbreviation W0 :=
  (take (length (dom h) + n_box_ports (take d (boxes h))) w1
   ++ seq n nl
   ++ drop (length (dom h) + n_box_ports (take d (boxes h))) w1).

Lemma split_spider_lt : spider < n.
Proof. by eapply lookup_lt_Some. Qed.

Lemma split_L_NoDup : NoDup L.
Proof. by rewrite set_iter_perm. Qed.

Lemma split_L_length : length L = nl.
Proof. by rewrite set_iter_perm length_app. Qed.

Lemma split_L_elem p : p ∈ L ↔ wires h !! p = Some spider.
Proof. by rewrite set_iter_perm. Qed.

Lemma split_index_lt p k : index p L = Some k → k < nl.
Proof. intros ?%index_lt. by rewrite -split_L_length. Qed.

Lemma split_w1_new p k :
  w1 !! p = Some (n + k) ↔ index p L = Some k.
Proof.
  rewrite Hw1. destruct (index p L) as [k'|] eqn:Hi.
  - split; intros [=]; f_equal; lia.
  - split; [|done]. intros Hp%list_elem_of_lookup_2%(wf_wires_lt h); [|done].
    rewrite /n_spiders in Hp. lia.
Qed.

Lemma split_w1_old p w :
  w < n → w ≠ spider → w1 !! p = Some w ↔ wires h !! p = Some w.
Proof.
  intros Hw Hs. rewrite Hw1. destruct (index p L) as [k|] eqn:Hi; [|done].
  assert (wires h !! p = Some spider) as ->.
  { apply split_L_elem, index_is_Some. eauto. }
  split; intros [=]; lia.
Qed.

Lemma split_w1_not_spider : spider ∉ w1.
Proof.
  intros [p Hp]%list_elem_of_lookup. rewrite Hw1 in Hp.
  pose proof split_spider_lt.
  destruct (index p L) as [k|] eqn:Hi; [injection Hp; lia|].
  apply index_None in Hi. by apply Hi, split_L_elem.
Qed.

Lemma split_W0_not_spider : spider ∉ W0.
Proof.
  rewrite !elem_of_app. pose proof split_spider_lt.
  intros [Hs%subseteq_take|[Hs%elem_of_seq|Hs%subseteq_drop]];
    [by apply split_w1_not_spider|lia|by apply split_w1_not_spider].
Qed.

Lemma split_count_W0 x : count x W0 = count x w1 + count x (seq n nl).
Proof.
  rewrite !count_app.
  rewrite -{3}(take_drop (length (dom h) + n_box_ports (take d (boxes h))) w1).
  rewrite count_app. lia.
Qed.

(** The other spiders keep their legs. *)
Lemma split_count_old w :
  w < n → w ≠ spider →
  count (shift spider w) (shift spider <$> W0) = count w (wires h).
Proof.
  intros Hw Hs. rewrite count_fmap; last first.
  { intros y Hy. apply shift_inj; [|done]. intros ->.
    by apply split_W0_not_spider. }
  rewrite split_count_W0 count_seq decide_False; [|lia].
  rewrite Nat.add_0_r. apply count_ext; [done|].
  intros p. by apply split_w1_old.
Qed.

(** The new spiders have two legs: one port of the diagram and one port
    of the new box. *)
Lemma split_count_new k :
  k < nl → count (shift spider (n + k)) (shift spider <$> W0) = 2.
Proof.
  intros Hk. pose proof split_spider_lt. rewrite count_fmap; last first.
  { intros y Hy. apply shift_inj; [|lia]. intros ->.
    by apply split_W0_not_spider. }
  rewrite split_count_W0 count_seq decide_True; [|lia].
  destruct (lookup_lt_is_Some_2 L k) as [p Hp].
  { by rewrite split_L_length. }
  rewrite (count_one _ _ p) //.
  - apply (proj2 (split_w1_new p k)).
    apply index_NoDup; [apply split_L_NoDup|done].
  - intros q Hq. apply (proj1 (split_w1_new q k)) in Hq.
    apply index_lookup in Hq. congruence.
Qed.

Lemma split_types_old w t :
  w ≠ spider → spider_types h !! w = Some t →
  types0 !! shift spider w = Some t.
Proof.
  intros Hw Ht. rewrite lookup_delete_shift //. by apply lookup_app_l_Some.
Qed.

Lemma split_types_new k :
  k < nl → types0 !! shift spider (n + k) = Some typ.
Proof.
  intros Hk. pose proof split_spider_lt.
  rewrite lookup_delete_shift; [|lia].
  rewrite lookup_app_r; [|lia]. apply lookup_replicate_2. lia.
Qed.

Lemma split_typed_w1 :
  typed (λ w, types0 !! w) (shift spider <$> w1)
        (port_objs (dom h) (cod h) (boxes h)).
Proof.
  pose proof (wf_typed h Hwf) as [Hlen Hall]%typed_lookup.
  apply typed_lookup. split; [by rewrite length_fmap Hlen1|].
  intros p w o Hw Ho. rewrite list_lookup_fmap in Hw.
  destruct (lookup_lt_is_Some_2 (wires h) p) as [w0 Hw0].
  { rewrite Hlen. by eapply lookup_lt_Some. }
  destruct (Hall p w0 o Hw0 Ho) as (t & Ht & Hfit).
  rewrite Hw1 in Hw. destruct (index p L) as [k|] eqn:Hi.
  - injection Hw as <-. exists typ. split.
    + apply split_types_new. by eapply split_index_lt.
    + assert (wires h !! p = Some spider) as Hp.
      { apply split_L_elem, index_is_Some. eauto. }
      by simplify_eq.
  - rewrite Hw0 in Hw. injection Hw as <-. exists t. split; [|done].
    apply split_types_old; [|done]. intros ->.
    apply index_None in Hi. by apply Hi, split_L_elem.
Qed.

Lemma split_typed :
  typed (λ w, dict_enumerate types0 !! w) (shift spider <$> W0)
    (port_objs (dom h) (cod h)
       (take d (boxes h)
        ++ [spider_factory (length ins) (length outs) typ]
        ++ drop d (boxes h))).
Proof.
  eapply typed_impl; last first.
  { intros w t o _ Ht Hfit. exists t.
    rewrite /dict_enumerate lookup_map_seq_0. split; [exact Ht|done]. }
  pose proof split_typed_w1 as Hty.
  set (i := length (dom h) + n_box_ports (take d (boxes h))).
  assert (port_objs (dom h) (cod h) (boxes h)
          = (dom h ++ mjoin (box_objs <$> take d (boxes h)))
            ++ mjoin (box_objs <$> drop d (boxes h)) ++ cod h) as HO.
  { rewrite /port_objs -{1}(take_drop d (boxes h)) fmap_app join_app.
    by rewrite -!app_assoc. }
  assert (length (dom h ++ mjoin (box_objs <$> take d (boxes h))) = i) as Hi.
  { by rewrite length_app length_boxes_objs. }
  rewrite HO in Hty.
  pose proof (Forall2_take _ _ _ i Hty) as Htake.
  pose proof (Forall2_drop _ _ _ i Hty) as Hdrop.
  rewrite take_app_length' // -fmap_take in Htake.
  rewrite drop_app_length' // -fmap_drop in Hdrop.
  rewrite /port_objs !fmap_app !join_app /= app_nil_r.
  rewrite -!app_assoc (app_assoc (dom h)) (app_assoc (box_dom _)).
  apply typed_app; [exact Htake|]. apply typed_app; [|exact Hdrop].
  rewrite spider_factory_dom spider_factory_cod -replicate_add.
  apply typed_lookup. split; [by rewrite length_fmap length_seq length_replicate|].
  intros k w o Hw [-> Hk]%lookup_replicate. rewrite list_lookup_fmap in Hw.
  exists typ. split; [|by left].
  destruct (seq n nl !! k) as [x|] eqn:Hx; [|done].
  apply lookup_seq in Hx as [-> _]. injection Hw as <-.
  by apply split_types_new.
Qed.

Hypothesis Hbad : count spider (wires h) ∉ [0; 2].

Lemma split_length_types0 : length types0 = n - 1 + nl.
Proof.
  pose proof split_spider_lt.
  rewrite length_delete; [|apply lookup_lt_is_Some; rewrite length_app; lia].
  rewrite length_app length_replicate. lia.
Qed.

(** Splitting a spider leaves one spider less to split. *)
Lemma split_bad :
  length (filter (λ s, count s (shift spider <$> W0) ∉ [0; 2])
            (seq 0 (length types0))) + 1
  = bad h.
Proof.
  pose proof split_spider_lt as Hs.
  rewrite split_length_types0 (seq_app (n - 1) nl) filter_app length_app.
  rewrite (filter_none _ (seq _ nl)); last first.
  { intros x [Hx1 Hx2]%elem_of_seq.
    replace x with (shift spider (n + (x - (n - 1))))
      by (rewrite /shift decide_True; lia).
    rewrite split_count_new; [|lia]. intros Hn. apply Hn. set_solver. }
  rewrite /= Nat.add_0_r -(fmap_shift_seq spider n) // length_filter_fmap.
  rewrite (filter_ext_in _ (λ s, count s (wires h) ∉ [0; 2])); last first.
  { intros x Hx. rewrite /= split_count_old //.
    - apply elem_of_app in Hx as [Hx|Hx]; apply elem_of_seq in Hx; lia.
    - apply elem_of_app in Hx as [Hx|Hx]; apply elem_of_seq in Hx; lia. }
  rewrite /bad /n_spiders.
  replace (seq 0 n)
    with (seq 0 spider ++ [spider] ++ seq (S spider) (n - 1 - spider)).
  { rewrite !filter_app !length_app filter_cons decide_True //=. lia. }
  transitivity (seq 0 (spider + S (n - 1 - spider))).
  - by rewrite seq_app.
  - f_equal. lia.
Qed.

End split.


Lemma bad_0 h : bad h = 0 ↔ is_bijective h = true.
Proof.
  rewrite is_bijective_true /bad. split.
  - intros Hb%nil_length_inv i Hi.
    destruct (decide (count i (wires h) ∈ [0; 2])) as [|Hn]; [done|].
    exfalso. eapply (filter_nil_not_elem_of _ _ i Hb); [done|].
    apply elem_of_seq. lia.
  - intros Hall. rewrite filter_none //.
    intros i Hi%elem_of_seq Hn. apply Hn, Hall. lia.
Qed.

(** One round of [make_bijective]: either no spider is left to split and
    the hypergraph is bijective, or the round builds a hypergraph with one
    spider less to split. *)
Lemma make_bijective_step_spec h :
  wf h →
  (make_bijective_step h = Ok None ∧ is_bijective h = true) ∨
  (∃ h', make_bijective_step h = Ok (Some h') ∧ bad h' < bad h).
Proof.
  intros Hwf. destruct (spider_legs h Hwf) as (sw & Hsw & Hn & Hspec).
  pose proof (candidates_find (spider_types h) sw Hn) as Hfind.
  destruct (list_find _ _) as [[idx [spider [typ [ins outs]]]]|] eqn:Hf.
  - right. destruct Hfind as (Htyp & Hio & Hlegs).
    destruct (Hspec _ _ Hio) as (Hnd & Hin & Hcount & _). simpl in *.
    destruct (split_depth_Ok h spider (ins, outs) sw) as (d & Hd & Hdle);
      [done..|].
    destruct (assign_legs_spec (length (spider_types h)) 0
                (set_iter (ins ++ outs)) (wires h))
      as (w1 & Hw1 & Hlen1 & Hlook).
    { by rewrite set_iter_perm. }
    { intros p Hp. rewrite set_iter_perm in Hp. apply Hin in Hp.
      by eapply lookup_lt_Some. }
    rewrite (make_bijective_step_Some h sw idx spider typ ins outs d w1) //.
    rewrite /split_wires split_index //.
    set (W := shift spider <$>
           (take (length (dom h) + n_box_ports (take d (boxes h))) w1
            ++ seq (length (spider_types h)) (length ins + length outs)
            ++ drop (length (dom h) + n_box_ports (take d (boxes h))) w1)).
    set (types0 := delete spider
           (spider_types h ++ replicate (length ins + length outs) typ)).
    assert (∀ p, w1 !! p
                 = match index p (set_iter (ins ++ outs)) with
                   | Some k => Some (length (spider_types h) + k)
                   | None => wires h !! p
                   end) as Hlook'.
    { intros p. rewrite Hlook. by destruct (index p _). }
    pose proof (split_typed h spider d typ ins outs w1 Hwf Htyp Hin Hdle
                  Hlen1 Hlook') as Hty.
    rewrite -/W -/types0 in Hty.
    destruct (init_typed (dom h) (cod h)
                (take d (boxes h)
                 ++ [spider_factory (length ins) (length outs) typ]
                 ++ drop d (boxes h)) W (TypeSeq types0)
                (Some (take d (offsets h) ++ [None] ++ drop d (offsets h))))
      as (types & Ht & ->); [exact Hty|].
    eexists. split; [done|].
    simpl in Ht.
    assert (∀ w, w ∈ W → w < length types0) as HW.
    { intros w Hw. eapply typed_lt; [|done].
      eapply typed_impl; [exact Hty|].
      intros w' t o _ Ht' Hfit. exists t.
      by rewrite /dict_enumerate lookup_map_seq_0 in Ht'. }
    pose proof (relabeling_TypeSeq_perm W types0 HW) as Hperm.
    assert (length (relabeling_of W (dict_enumerate types0)) = length types0)
      as Hlenr by (by rewrite Hperm length_seq).
    rewrite /bad /n_spiders /= length_fmap -(length_mapM _ _ _ Ht) Hlenr.
    rewrite bad_relabel //.
    assert (count spider (wires h) ∉ [0; 2]) as Hc
      by (rewrite -Hcount; exact Hlegs).
    pose proof (split_bad h spider d typ ins outs w1 Hwf Htyp Hnd Hin Hdle
                  Hlen1 Hlook') as Hbad.
    rewrite -/W -/types0 /bad /n_spiders in Hbad. rewrite -Hbad; [lia|done].
  - left. split; [by eapply make_bijective_step_None|].
    apply is_bijective_true. intros i Hi.
    destruct (lookup_lt_is_Some_2 sw i) as [io Hio]; [by rewrite Hn|].
    destruct (Hspec _ _ Hio) as (_ & _ & <- & _). by eapply Hfind.
Qed.


(** The recursion ends after at most [bad h] rebuilt hypergraphs. *)
Lemma make_bijective_terminates k h :
  wf h → bad h ≤ k →
  ∃ h', (∀ fuel, k < fuel → make_bijective fuel h = Some (Ok h'))
      ∧ is_bijective h' = true ∧ (h' = h ∨ constructed h').
Proof.
  revert h. induction k as [|k IH]; intros h Hwf Hk.
  - destruct (make_bijective_step_spec h Hwf) as [[Hstep Hb]|(h' & _ & Hlt)];
      [|lia].
    exists h. split_and!; [|done|by left].
    intros [|fuel] Hf; [lia|]. by rewrite /= Hstep.
  - destruct (make_bijective_step_spec h Hwf) as [[Hstep Hb]|(h' & Hstep & Hlt)].
    + exists h. split_and!; [|done|by left].
      intros [|fuel] Hf; [lia|]. by rewrite /= Hstep.
    + pose proof (make_bijective_step_constructed _ _ Hstep) as Hc.
      destruct (IH h' (constructed_wf _ Hc)) as (h'' & Hrun & Hb & Hh'');
        [lia|].
      exists h''. split_and!; [|done|].
      * intros [|fuel] Hf; [lia|]. rewrite /= Hstep. apply Hrun. lia.
      * right. by destruct Hh'' as [->|?].
Qed.

End bijective.

(** C2: [make_bijective] terminates on every hypergraph [h], after at most
    one call per spider of [h] with a number of legs other than 0 and 2,
    and returns a bijective hypergraph; and on [spiders(3, 2, x)] it
    returns a hypergraph with the single box [Spider(3, 2, x)] and the
    wires [(0, 1, 2) + (0, 1, 2) + (3, 4) + (3, 4)]. *)
Theorem make_bijective_spec :
  (∀ (C : Category) (L : CategoryLaws C) (h : Hypergraph),
     constructed h →
     ∃ h', (∀ fuel, bad h < fuel → make_bijective fuel h = Some (Ok h'))
         ∧ constructed h' ∧ is_bijective h' = true) ∧
  (∃ s h',
     spiders 3 2 [Pivotal.x] = Ok s ∧
     (∀ fuel, 1 < fuel → make_bijective fuel s = Some (Ok h')) ∧
     boxes h' = [Pivotal.Spider 3 2 Pivotal.x] ∧
     wires h' = [0; 1; 2] ++ [0; 1; 2] ++ [3; 4] ++ [3; 4]).
Proof.
  split.
  - intros C L h Hc.
    destruct (make_bijective_terminates (bad h) h (constructed_wf _ Hc))
      as (h' & Hrun & Hb & Hh'); [done|].
    exists h'. split_and!; [done| |done]. by destruct Hh' as [->|?].
  - eexists _, _. split; [vm_compute; reflexivity|]. split_and!.
    + intros [|[|fuel]] Hf; [lia..|]. vm_compute. reflexivity.
    + done.
    + done.
Qed.

Lemma make_bijective_spec_witness :
  ∃ h',
    (∀ fuel,
       bad (mkHypergraph [Pivotal.x; Pivotal.x; Pivotal.x]
              [Pivotal.x; Pivotal.x] [] [0; 0; 0; 0; 0] [Pivotal.x] [])
       < fuel →
       make_bijective fuel
         (mkHypergraph [Pivotal.x; Pivotal.x; Pivotal.x]
            [Pivotal.x; Pivotal.x] [] [0; 0; 0; 0; 0] [Pivotal.x] [])
       = Some (Ok h')) ∧
    constructed h' ∧ is_bijective h' = true.
Proof.
  apply (proj1 make_bijective_spec Pivotal.cat Pivotal_laws
           (mkHypergraph [Pivotal.x; Pivotal.x; Pivotal.x]
              [Pivotal.x; Pivotal.x] [] [0; 0; 0; 0; 0] [Pivotal.x] [])).
  exists [Pivotal.x; Pivotal.x; Pivotal.x], [Pivotal.x; Pivotal.x], [],
    [0; 0; 0; 0; 0], (TypeSeq [Pivotal.x]), None.
  vm_compute. reflexivity.
Defined.

(** * Further properties of the code

    ** The outcomes of the constructor *)

Section outcomes.
Context `{C : Category} `{!CategoryLaws C}.
Implicit Types (dom cod : list Ob) (boxes : list Box) (ws : list nat).



End outcomes.



(** ** The legs of a spider *)

Section legs.
Context `{C : Category}.
Implicit Types (h : Hypergraph) (ws : list nat) (sides : list bool).

(** The ports on one side of spider [s], as [spider_wires] collects them. *)
Definition legs (side : bool) (s : nat) h : list nat :=
  sel side s (events 0 (sides_of (dom h) (cod h) (boxes h)) (wires h)).

Lemma spider_wires_legs h :
  wf h →
  ∃ sw, spider_wires h = Ok sw ∧ length sw = n_spiders h ∧
    ∀ s, s < n_spiders h → sw !! s = Some (legs true s h, legs false s h).
Proof.
  intros Hwf. pose proof (wf_length h Hwf) as Hlen.
  destruct (spider_wires_spec (dom h) (cod h) (boxes h) (wires h)
              (n_spiders h)) as (sw & Hsw & Hn & Hspec); [done| |].
  { intros w Hw. destruct (wf_canonical _ Hwf) as (k & Hk & Hkn).
    eapply Nat.lt_le_trans; [|done]. by eapply canonical_elem. }
  by exists sw.
Qed.

Lemma elem_of_legs side s h p :
  p ∈ legs side s h ↔
  sides_of (dom h) (cod h) (boxes h) !! p = Some side ∧ wires h !! p = Some s.
Proof. apply sel_events_lookup. Qed.

Lemma elem_of_legs_kind side s h p :
  p ∈ legs side s h ↔
  wires h !! p = Some s ∧
  ∃ nd, ports h !! p = Some nd ∧ is_source (kind nd) = side.
Proof.
  rewrite elem_of_legs -ports_sides list_lookup_fmap /ports.
  destruct (ports_of _ _ _ !! p) as [nd|]; simpl; naive_solver.
Qed.

Lemma sel_app side s (ev1 ev2 : list (bool * nat * nat)) :
  sel side s (ev1 ++ ev2) = sel side s ev1 ++ sel side s ev2.
Proof. by rewrite /sel omap_app. Qed.

Lemma length_sel_replicate side s base b ws :
  length (sel side s (events base (replicate (length ws) b) ws))
  = if decide (b = side) then count s ws else 0.
Proof.
  revert base. induction ws as [|w ws IH]; intros base.
  { by case_decide. }
  cbn [length replicate events]. rewrite sel_cons length_app IH count_cons /=.
  repeat case_decide; simpl in *; try done; try lia; exfalso; naive_solver.
Qed.

Lemma length_sel_app side s base sides1 sides2 ws1 ws2 :
  length sides1 = length ws1 →
  length (sel side s (events base (sides1 ++ sides2) (ws1 ++ ws2)))
  = length (sel side s (events base sides1 ws1))
    + length (sel side s (events (base + length ws1) sides2 ws2)).
Proof. intros Hlen. by rewrite events_app // sel_app length_app Hlen. Qed.

End legs.

(** ** Polygyny and causality *)

Section predicates.
Context `{C : Category}.
Implicit Types (h : Hypergraph).

Lemma set_add_not_nil p (s : list nat) : set_add p s ≠ [].
Proof.
  rewrite /set_add. case_decide as Hp; [|by destruct s].
  intros ->. by apply elem_of_nil in Hp.
Qed.

Lemma set_union_nil (x y : list nat) : set_union x y = [] ↔ x = [] ∧ y = [].
Proof.
  rewrite /set_union. revert x. induction y as [|p y IH]; intros x; simpl.
  { naive_solver. }
  rewrite IH. split; [|naive_solver]. intros [Hp _].
  by apply set_add_not_nil in Hp.
Qed.

Lemma length_legs h s :
  length (legs true s h) = source_count h s ∧
  length (legs false s h) = sink_count h s.
Proof.
  rewrite /legs -ports_sides !length_sel_ports /source_count /sink_count /ports.
  split; f_equal; apply list_filter_iff; intros [w nd]; simpl.
  - by rewrite is_source_true.
  - by rewrite is_source_false.
Qed.

Lemma legs_count h s :
  wf h → s < n_spiders h →
  length (legs true s h) + length (legs false s h) = count s (wires h).
Proof.
  intros Hwf Hs. destruct (spider_legs h Hwf) as (sw & Hsw & Hn & Hall).
  destruct (spider_wires_legs h Hwf) as (sw' & Hsw' & _ & Hlegs).
  assert (sw' = sw) as -> by congruence.
  destruct (Hall s _ (Hlegs s Hs)) as (_ & _ & Hc & _). done.
Qed.

Lemma forallb_elem_of {A} (f : A → bool) (l : list A) :
  forallb f l = true ↔ ∀ x, x ∈ l → f x = true.
Proof.
  induction l as [|a l IH]; simpl.
  { split; [|done]. by intros _ x ?%elem_of_nil. }
  rewrite andb_true_iff IH. split.
  - intros [Ha Hl] x [->|Hx]%elem_of_cons; [done|by apply Hl].
  - intros Hall. split; [apply Hall; by left|].
    intros x Hx. apply Hall. by right.
Qed.

Lemma is_polygynous_legs h :
  wf h →
  ∃ b, is_polygynous h = Ok b ∧
    (b = true ↔
     ∀ s, s < n_spiders h → count s (wires h) ≠ 0 → length (legs true s h) = 1).
Proof.
  intros Hwf. destruct (spider_wires_legs h Hwf) as (sw & Hsw & Hn & Hlegs).
  rewrite /is_polygynous Hsw /=. eexists. split; [done|].
  rewrite forallb_elem_of. split.
  - intros Hall s Hs Hcount.
    eapply bool_decide_eq_true, (Hall (legs true s h, legs false s h)).
    apply list_elem_of_filter. split.
    + rewrite set_union_nil /=. intros [H1 H2].
      pose proof (legs_count h s Hwf Hs) as Hc. rewrite H1 H2 /= in Hc. lia.
    + eapply list_elem_of_lookup_2. by apply Hlegs.
  - intros Hall io [Hne [s Hio]%list_elem_of_lookup]%list_elem_of_filter.
    assert (s < n_spiders h) as Hs by (rewrite -Hn; by eapply lookup_lt_Some).
    rewrite Hlegs // in Hio. injection Hio as <-. simpl in *.
    apply bool_decide_eq_true, Hall; [done|].
    rewrite -(legs_count h s Hwf Hs). intros Hz. apply Hne, set_union_nil.
    split; apply length_zero_iff_nil; lia.
Qed.

Lemma is_causal_legs h :
  wf h →
  ∃ b, is_causal h = Ok b ∧
    (b = true ↔
     ∀ s, s < n_spiders h →
       length (legs true s h) = 1 ∧
       ∀ u v, u ∈ legs true s h → v ∈ legs false s h → u < v).
Proof.
  intros Hwf. destruct (spider_wires_legs h Hwf) as (sw & Hsw & Hn & Hlegs).
  rewrite /is_causal Hsw /=. eexists. split; [done|].
  rewrite forallb_elem_of. split.
  - intros Hall s Hs.
    specialize (Hall _ (list_elem_of_lookup_2 _ _ _ (Hlegs s Hs))).
    apply andb_true_iff in Hall as [H1%bool_decide_eq_true H2]. simpl in *.
    split; [done|]. intros u v Hu Hv.
    rewrite forallb_elem_of in H2. specialize (H2 u Hu).
    rewrite forallb_elem_of in H2. by apply (bool_decide_eq_true_1 (u < v)), H2.
  - intros Hall io [s Hio]%list_elem_of_lookup.
    assert (s < n_spiders h) as Hs by (rewrite -Hn; by eapply lookup_lt_Some).
    rewrite Hlegs // in Hio. injection Hio as <-. simpl.
    destruct (Hall s Hs) as [H1 H2].
    apply andb_true_iff. split; [by apply bool_decide_eq_true|].
    apply forallb_elem_of. intros u Hu.
    apply forallb_elem_of. intros v Hv.
    apply bool_decide_eq_true. by apply H2.
Qed.

Lemma is_monogamous_legs h :
  wf h →
  ∃ b, is_monogamous h = Ok b ∧
    (b = true ↔
     ∀ s, s < n_spiders h →
       length (legs true s h) = length (legs false s h) ∧
       length (legs true s h) + length (legs false s h) ∈ [0; 2]).
Proof.
  intros Hwf. destruct (spider_wires_legs h Hwf) as (sw & Hsw & Hn & Hlegs).
  rewrite /is_monogamous Hsw /=. eexists. split; [done|].
  rewrite monogamous_loop_true. split.
  - intros Hall s Hs.
    apply (Hall (legs true s h, legs false s h)).
    eapply list_elem_of_lookup_2. by apply Hlegs.
  - intros Hall io [s Hio]%list_elem_of_lookup.
    assert (s < n_spiders h) as Hs by (rewrite -Hn; by eapply lookup_lt_Some).
    rewrite Hlegs // in Hio. injection Hio as <-. by apply Hall.
Qed.

End predicates.

(** X2: [is_polygynous] never raises on a hypergraph, and holds exactly
    when every spider that occurs in the wires has exactly one port that
    feeds it (a diagram input or a box output). *)
Theorem is_polygynous_spec (C : Category) (L : CategoryLaws C) (h : Hypergraph) :
  constructed h →
  ∃ b, is_polygynous h = Ok b ∧
    (b = true ↔
     ∀ s, s < n_spiders h → count s (wires h) ≠ 0 → source_count h s = 1).
Proof.
  intros Hwf%constructed_wf.
  destruct (is_polygynous_legs h Hwf) as (b & Hb & Hiff).
  exists b. split; [done|]. rewrite Hiff.
  split; intros Hall s Hs Hc; specialize (Hall s Hs Hc);
    by destruct (length_legs h s) as [<- _] || destruct (length_legs h s) as [-> _].
Qed.

Lemma is_polygynous_spec_witness :
  ∃ b, is_polygynous
         (mkHypergraph [Pivotal.x] [Pivotal.x; Pivotal.x] [] [0; 0; 0]
            [Pivotal.x] []) = Ok b ∧
    (b = true ↔
     ∀ s, s < n_spiders (mkHypergraph [Pivotal.x] [Pivotal.x; Pivotal.x] []
                           [0; 0; 0] [Pivotal.x] []) →
       count s (wires (mkHypergraph [Pivotal.x] [Pivotal.x; Pivotal.x] []
                           [0; 0; 0] [Pivotal.x] [])) ≠ 0 →
       source_count (mkHypergraph [Pivotal.x] [Pivotal.x; Pivotal.x] []
                       [0; 0; 0] [Pivotal.x] []) s = 1).
Proof.
  apply (is_polygynous_spec Pivotal.cat Pivotal_laws).
  exists [Pivotal.x], [Pivotal.x; Pivotal.x], [], [0; 0; 0], NoTypes, None.
  vm_compute. reflexivity.
Defined.

(** X3: [is_causal] never raises on a hypergraph, and holds exactly when
    every spider, scalar spiders included, has exactly one port that feeds
    it, and that port comes before every port the spider feeds. *)
Theorem is_causal_spec (C : Category) (L : CategoryLaws C) (h : Hypergraph) :
  constructed h →
  ∃ b, is_causal h = Ok b ∧
    (b = true ↔
     ∀ s, s < n_spiders h →
       source_count h s = 1 ∧
       ∀ p q np nq,
         wires h !! p = Some s → ports h !! p = Some np →
         kind np ∈ [input; cod_port] →
         wires h !! q = Some s → ports h !! q = Some nq →
         kind nq ∈ [dom_port; output] → p < q).
Proof.
  intros Hwf%constructed_wf.
  destruct (is_causal_legs h Hwf) as (b & Hb & Hiff).
  exists b. split; [done|]. rewrite Hiff.
  split; intros Hall s Hs; destruct (Hall s Hs) as [H1 H2];
    destruct (length_legs h s) as [Hl _].
  - split; [congruence|]. intros p q np nq Hp Hnp Hkp Hq Hnq Hkq.
    apply H2; apply elem_of_legs_kind; (split; [done|]).
    + exists np. split; [done|]. by apply is_source_true.
    + exists nq. split; [done|]. by apply is_source_false.
  - split; [congruence|].
    intros u v (Hu & nu & Hnu & Hku)%elem_of_legs_kind
               (Hv & nv & Hnv & Hkv)%elem_of_legs_kind.
    eapply (H2 u v nu nv);
      [done|done|by apply is_source_true|done|done|by apply is_source_false].
Qed.

Lemma is_causal_spec_witness :
  ∃ b, is_causal
         (mkHypergraph [Pivotal.x] [Pivotal.x; Pivotal.x] [] [0; 0; 0]
            [Pivotal.x] []) = Ok b ∧
    (b = true ↔
     ∀ s, s < n_spiders (mkHypergraph [Pivotal.x] [Pivotal.x; Pivotal.x] []
                           [0; 0; 0] [Pivotal.x] []) →
       source_count (mkHypergraph [Pivotal.x] [Pivotal.x; Pivotal.x] []
                       [0; 0; 0] [Pivotal.x] []) s = 1 ∧
       ∀ p q np nq,
         wires (mkHypergraph [Pivotal.x] [Pivotal.x; Pivotal.x] []
                  [0; 0; 0] [Pivotal.x] []) !! p = Some s →
         ports (mkHypergraph [Pivotal.x] [Pivotal.x; Pivotal.x] []
                  [0; 0; 0] [Pivotal.x] []) !! p = Some np →
         kind np ∈ [input; cod_port] →
         wires (mkHypergraph [Pivotal.x] [Pivotal.x; Pivotal.x] []
                  [0; 0; 0] [Pivotal.x] []) !! q = Some s →
         ports (mkHypergraph [Pivotal.x] [Pivotal.x; Pivotal.x] []
                  [0; 0; 0] [Pivotal.x] []) !! q = Some nq →
         kind nq ∈ [dom_port; output] → p < q).
Proof.
  apply (is_causal_spec Pivotal.cat Pivotal_laws).
  exists [Pivotal.x], [Pivotal.x; Pivotal.x], [], [0; 0; 0], NoTypes, None.
  vm_compute. reflexivity.
Defined.

(** X4: the classification predicates are nested: a causal hypergraph is
    polygynous and has no scalar spider, and a monogamous hypergraph is
    bijective. *)
Theorem predicates_nested (C : Category) (L : CategoryLaws C) (h : Hypergraph) :
  constructed h →
  (is_causal h = Ok true →
   is_polygynous h = Ok true ∧ scalar_spiders h = []) ∧
  (is_monogamous h = Ok true → is_bijective h = true).
Proof.
  intros Hwf%constructed_wf. split.
  - intros Hc. destruct (is_causal_legs h Hwf) as (b & Hb & Hiff).
    assert (b = true) as -> by congruence.
    pose proof (proj1 Hiff eq_refl) as Hall. split.
    + destruct (is_polygynous_legs h Hwf) as (b & -> & Hiff'). f_equal.
      apply Hiff'. intros s Hs _. by apply Hall.
    + rewrite /scalar_spiders. apply filter_none. intros s Hs%elem_of_seq Hz.
      destruct (Hall s) as [H1 _]; [lia|].
      pose proof (legs_count h s Hwf) as Hcount. lia.
  - intros Hm. destruct (is_monogamous_legs h Hwf) as (b & Hb & Hiff).
    assert (b = true) as -> by congruence.
    pose proof (proj1 Hiff eq_refl) as Hall.
    apply is_bijective_true. intros s Hs.
    rewrite -(legs_count h s Hwf Hs). by apply Hall.
Qed.

Lemma predicates_nested_witness :
  (is_polygynous (id_hyp [Pivotal.x]) = Ok true
   ∧ scalar_spiders (id_hyp [Pivotal.x]) = []) ∧
  is_bijective (id_hyp [Pivotal.x]) = true.
Proof.
  assert (constructed (id_hyp [Pivotal.x])) as Hc.
  { exists [Pivotal.x], [Pivotal.x], [], [0; 0], NoTypes, None.
    vm_compute. reflexivity. }
  destruct (predicates_nested Pivotal.cat Pivotal_laws _ Hc) as [H1 H2].
  split; [apply H1|apply H2]; vm_compute; reflexivity.
Defined.

(** ** The elementary hypergraphs *)

Section elementary.
Context `{C : Category} `{!CategoryLaws C}.
Implicit Types (h : Hypergraph) (t l r : list Ob) (ws : list nat).

(** The constructor on wires that are already canonical. *)
Lemma init_canonical_typed dom cod boxes ws (types : list Ob) off :
  canonical_wires ws (length types) →
  typed (λ w, types !! w) ws (port_objs dom cod boxes) →
  init dom cod boxes ws (TypeSeq types) off
  = Ok (mkHypergraph dom cod boxes ws (normal_type <$> types)
          (offsets_or off boxes)).
Proof.
  intros Hcan Hty.
  destruct (init_typed dom cod boxes ws (TypeSeq types) off)
    as (ty & Ht & Hinit).
  { eapply typed_impl; [done|]. intros w t o _ Hw Hfit. exists t.
    by rewrite /= /dict_enumerate lookup_map_seq_0. }
  destruct (init_canonical_input _ _ _ _ _ _ _ Hcan Hinit) as [Hw Hs].
  simpl in *. by rewrite Hinit Hw Hs.
Qed.

Lemma elem_of_sel_segment side s base b n ws p :
  p ∈ sel side s (events base (replicate n b) ws) →
  b = side ∧ s ∈ ws ∧ base ≤ p < base + length ws.
Proof.
  intros (i & [-> _]%lookup_replicate & Hw & ->)%elem_of_sel%elem_of_events.
  split_and!; [done|by eapply list_elem_of_lookup_2|lia|].
  apply lookup_lt_Some in Hw. lia.
Qed.

Lemma length_sel_segment side s base b n ws :
  length ws = n →
  length (sel side s (events base (replicate n b) ws))
  = if decide (b = side) then count s ws else 0.
Proof. intros <-. apply length_sel_replicate. Qed.

Lemma typed_seq (T : list Ob) j t :
  (∀ i o, t !! i = Some o → ∃ u, T !! (j + i) = Some u ∧ fits u o) →
  typed (λ w, T !! w) (seq j (length t)) t.
Proof.
  intros Hall. apply typed_lookup. split; [by rewrite length_seq|].
  intros p w o [-> _]%lookup_seq Ho. by apply Hall.
Qed.

Lemma fits_refl (o : Ob) : fits o o.
Proof. rewrite /fits. by left. Qed.

(** *** [id] *)

Lemma id_legs t s :
  s < length t →
  length (legs true s (id_hyp t)) = 1 ∧ length (legs false s (id_hyp t)) = 1 ∧
  ∀ u v, u ∈ legs true s (id_hyp t) → v ∈ legs false s (id_hyp t) → u < v.
Proof.
  intros Hs. rewrite /legs /sides_of /=.
  rewrite !events_app ?length_replicate ?length_seq // !sel_app.
  split_and!.
  - rewrite length_app !length_sel_segment ?length_seq // !count_seq /=.
    repeat case_decide; try done; lia.
  - rewrite length_app !length_sel_segment ?length_seq // !count_seq /=.
    repeat case_decide; try done; lia.
  - intros u v [Hu|Hu]%elem_of_app [Hv|Hv]%elem_of_app.
    all: apply elem_of_sel_segment in Hu as (? & ? & ?).
    all: apply elem_of_sel_segment in Hv as (? & ? & ?).
    all: rewrite ?length_seq in H1 H4; try done; lia.
Qed.

Lemma symmetric_intro h :
  wf h →
  (∀ s, s < n_spiders h →
     length (legs true s h) = 1 ∧ length (legs false s h) = 1 ∧
     ∀ u v, u ∈ legs true s h → v ∈ legs false s h → u < v) →
  is_monogamous h = Ok true ∧ is_causal h = Ok true.
Proof.
  intros Hwf Hall. split.
  - destruct (is_monogamous_legs h Hwf) as (b & -> & Hiff). f_equal.
    apply Hiff. intros s Hs. destruct (Hall s Hs) as (-> & -> & _).
    set_solver.
  - destruct (is_causal_legs h Hwf) as (b & -> & Hiff). f_equal.
    apply Hiff. intros s Hs. destruct (Hall s Hs) as (? & _ & ?). done.
Qed.

Lemma first_occ_app_subseteq (l1 l2 : list nat) :
  (∀ x, x ∈ l2 → x ∈ l1) → first_occ (l1 ++ l2) = first_occ l1.
Proof.
  intros Hsub. rewrite first_occ_app filter_none; [by rewrite app_nil_r|].
  intros x Hx Hn. apply (proj1 (elem_of_first_occ _ _)) in Hx.
  by apply Hn, Hsub.
Qed.

Lemma first_occ_app_disjoint (l1 l2 : list nat) :
  (∀ x, x ∈ l2 → x ∉ l1) →
  first_occ (l1 ++ l2) = first_occ l1 ++ first_occ l2.
Proof.
  intros Hdis. rewrite first_occ_app. f_equal. apply filter_all.
  intros x Hx. apply (proj1 (elem_of_first_occ _ _)) in Hx. by apply Hdis.
Qed.

Lemma first_occ_seq_twice j n : first_occ (seq j n ++ seq j n) = seq j n.
Proof.
  rewrite first_occ_app_subseteq; [apply first_occ_NoDup, NoDup_seq|done].
Qed.

Lemma dict_of_enumerate (kvs : list (nat * Ob)) (T : list Ob) :
  (∀ k o, (k, o) ∈ kvs → T !! k = Some o) →
  (∀ k o, T !! k = Some o → (k, o) ∈ kvs) →
  dict_of kvs = dict_enumerate T.
Proof.
  intros H1 H2. apply map_eq. intros k.
  rewrite /dict_enumerate lookup_map_seq_0.
  destruct (T !! k) as [o|] eqn:Hk.
  - apply dict_update_elem; [by apply H2|].
    intros o' Ho'%H1. congruence.
  - destruct (dict_of _ !! k) as [o|] eqn:Hd; [|done].
    apply dict_update_Some in Hd as [Ho%H1|Hd]; [congruence|].
    by rewrite lookup_empty in Hd.
Qed.

Lemma init_NoTypes dom cod boxes ws (T : list Ob) off :
  dict_of (zip ws (port_objs dom cod boxes)) = dict_enumerate T →
  init dom cod boxes ws NoTypes off = init dom cod boxes ws (TypeSeq T) off.
Proof. intros Hd. by rewrite /init /= ports_objs Hd. Qed.

Lemma elem_of_zip_seq_from j t k (o : Ob) :
  (k, o) ∈ zip (seq j (length t)) t ↔ j ≤ k ∧ t !! (k - j) = Some o.
Proof.
  rewrite list_elem_of_lookup. split.
  - intros [i Hi].
    apply lookup_zip_with_Some in Hi as (? & ? & [= <- <-] & Hs & Ht).
    apply lookup_seq in Hs as [-> _]. split; [lia|].
    by replace (j + i - j) with i by lia.
  - intros [Hj Hk]. exists (k - j). apply lookup_zip_with_Some.
    exists k, o. split_and!; [done| |done]. apply lookup_seq.
    apply lookup_lt_Some in Hk. lia.
Qed.

(** *** [swap] *)

Definition swap_hyp l r : Hypergraph :=
  mkHypergraph (l ++ r) (r ++ l) []
    (seq 0 (length (l ++ r))
     ++ seq (length l) (length (l ++ r) - length l) ++ seq 0 (length l))
    (normal_type <$> l ++ r) [].

Lemma swap_spec l r : swap l r = Ok (swap_hyp l r).
Proof.
  rewrite /swap (init_NoTypes _ _ _ _ (l ++ r)); last first.
  - rewrite /port_objs /=.
    replace (length (l ++ r) - length l) with (length r)
      by (rewrite length_app; lia).
    rewrite !zip_with_app ?length_seq //.
    apply dict_of_enumerate.
    + intros k o [Hk|[Hk|Hk]%elem_of_app]%elem_of_app.
      * apply elem_of_zip_seq_from in Hk as [_ Hk].
        by replace (k - 0) with k in Hk by lia.
      * apply elem_of_zip_seq_from in Hk as [Hl Hk].
        by rewrite lookup_app_r.
      * apply elem_of_zip_seq_from in Hk as [_ Hk].
        replace (k - 0) with k in Hk by lia. by apply lookup_app_l_Some.
    + intros k o Hk. apply elem_of_app. left.
      apply elem_of_zip_seq_from. replace (k - 0) with k by lia.
      split; [lia|done].
  - rewrite init_canonical_typed //.
    + exists (length (l ++ r)). split; [|done].
      rewrite first_occ_app_subseteq; [apply first_occ_NoDup, NoDup_seq|].
      intros x [Hx|Hx]%elem_of_app; apply elem_of_seq in Hx;
        apply elem_of_seq; rewrite length_app in Hx |- *; lia.
    + rewrite /port_objs /=.
      replace (length (l ++ r) - length l) with (length r)
        by (rewrite length_app; lia).
      repeat apply typed_app; apply typed_seq; intros i o Ho;
        exists o; (split; [|apply fits_refl]).
      * done.
      * by rewrite lookup_app_r; [|lia]; replace (length l + i - length l) with i by lia.
      * by apply lookup_app_l_Some.
Qed.

Lemma swap_legs l r s :
  s < length (l ++ r) →
  length (legs true s (swap_hyp l r)) = 1 ∧
  length (legs false s (swap_hyp l r)) = 1 ∧
  ∀ u v, u ∈ legs true s (swap_hyp l r) → v ∈ legs false s (swap_hyp l r) →
         u < v.
Proof.
  intros Hs. rewrite /legs /sides_of /=.
  assert (length (seq (length l) (length (l ++ r) - length l)
                  ++ seq 0 (length l)) = length (r ++ l)) as Hlen.
  { rewrite !length_app !length_seq. lia. }
  rewrite !events_app ?length_replicate ?length_seq // !sel_app.
  rewrite length_app in Hs.
  split_and!.
  - rewrite length_app !length_sel_segment ?length_seq //.
    rewrite !count_seq /= ?length_app. repeat case_decide; try done; lia.
  - rewrite length_app !length_sel_segment ?length_seq //.
    rewrite count_app !count_seq /= !length_app.
    repeat case_decide; try done; lia.
  - intros u v [Hu|Hu]%elem_of_app [Hv|Hv]%elem_of_app.
    all: apply elem_of_sel_segment in Hu as (? & ? & ?).
    all: apply elem_of_sel_segment in Hv as (? & ? & ?).
    all: rewrite ?length_seq in H1 H4; try done; lia.
Qed.

(** *** [from_box] *)

Definition from_box_hyp (b : Box) : Hypergraph :=
  mkHypergraph (box_dom b) (box_cod b) [b]
    (seq 0 (length (box_dom b)) ++ seq 0 (length (box_dom b))
     ++ seq (length (box_dom b))
            (length (box_dom b ++ box_cod b) - length (box_dom b))
     ++ seq (length (box_dom b))
            (length (box_dom b ++ box_cod b) - length (box_dom b)))
    (normal_type <$> box_dom b ++ box_cod b) [None].

Lemma from_box_spec b : from_box b = Ok (from_box_hyp b).
Proof.
  rewrite /from_box init_canonical_typed //.
  - exists (length (box_dom b ++ box_cod b)). split; [|done].
    replace (length (box_dom b ++ box_cod b) - length (box_dom b))
      with (length (box_cod b)) by (rewrite length_app; lia).
    rewrite app_assoc first_occ_app_disjoint.
    + by rewrite !first_occ_seq_twice length_app seq_app.
    + intros x [Hx|Hx]%elem_of_app [Hy|Hy]%elem_of_app;
        apply elem_of_seq in Hx; apply elem_of_seq in Hy; lia.
  - rewrite /port_objs /= /box_objs app_nil_r.
    replace (length (box_dom b ++ box_cod b) - length (box_dom b))
      with (length (box_cod b)) by (rewrite length_app; lia).
    rewrite -!app_assoc.
    repeat apply typed_app; apply typed_seq; intros i o Ho;
      exists o; (split; [|apply fits_refl]).
    + by apply lookup_app_l_Some.
    + by apply lookup_app_l_Some.
    + rewrite lookup_app_r; [|lia].
      by replace (length (box_dom b) + i - length (box_dom b)) with i by lia.
    + rewrite lookup_app_r; [|lia].
      by replace (length (box_dom b) + i - length (box_dom b)) with i by lia.
Qed.

Lemma from_box_legs b s :
  s < length (box_dom b ++ box_cod b) →
  length (legs true s (from_box_hyp b)) = 1 ∧
  length (legs false s (from_box_hyp b)) = 1 ∧
  ∀ u v, u ∈ legs true s (from_box_hyp b) →
         v ∈ legs false s (from_box_hyp b) → u < v.
Proof.
  intros Hs. rewrite /legs /sides_of /= /box_sides app_nil_r.
  rewrite length_app in Hs.
  replace (length (box_dom b ++ box_cod b) - length (box_dom b))
    with (length (box_cod b)) by (rewrite length_app; lia).
  rewrite -!app_assoc.
  rewrite !events_app ?length_replicate ?length_seq // !sel_app.
  split_and!.
  - rewrite !length_app !length_sel_segment ?length_seq //.
    rewrite !count_seq /=. repeat case_decide; try done; lia.
  - rewrite !length_app !length_sel_segment ?length_seq //.
    rewrite !count_seq /=. repeat case_decide; try done; lia.
  - intros u v Hu Hv. rewrite !elem_of_app in Hu Hv.
    destruct Hu as [Hu|[Hu|[Hu|Hu]]], Hv as [Hv|[Hv|[Hv|Hv]]].
    all: apply elem_of_sel_segment in Hu as (? & Hu%elem_of_seq & ?).
    all: apply elem_of_sel_segment in Hv as (? & Hv%elem_of_seq & ?).
    all: rewrite ?length_seq in H0 H2; try done; lia.
Qed.

(** *** [spiders] *)

Definition spiders_hyp (n m : nat) t : Hypergraph :=
  mkHypergraph (power t n) (power t m) []
    (mjoin (replicate (n + m) (seq 0 (length t)))) (normal_type <$> t) [].

Lemma length_power {A} (x : list A) n :
  length (mjoin (replicate n x)) = n * length x.
Proof. induction n as [|n IH]; [done|]. rewrite /= length_app IH. lia. Qed.

Lemma elem_of_join_replicate {A} (x : list A) n a :
  a ∈ mjoin (replicate n x) → a ∈ x.
Proof.
  induction n as [|n IH]; simpl; [by intros ?%elem_of_nil|].
  intros [?|?]%elem_of_app; auto.
Qed.

Lemma count_join_replicate s n k :
  count s (mjoin (replicate n (seq 0 k))) = if decide (s < k) then n else 0.
Proof.
  induction n as [|n IH]; simpl; [by case_decide|].
  rewrite count_app IH count_seq. repeat case_decide; lia.
Qed.

Lemma spiders_spec n m t : spiders n m t = Ok (spiders_hyp n m t).
Proof.
  rewrite /spiders init_canonical_typed //.
  - destruct (n + m) as [|a]; simpl.
    { exists 0. split; [done|lia]. }
    exists (length t). split; [|done].
    rewrite first_occ_app_subseteq; [apply first_occ_NoDup, NoDup_seq|].
    apply elem_of_join_replicate.
  - rewrite /port_objs /power /= replicate_add join_app.
    apply typed_app.
    all: match goal with |- typed _ (mjoin (replicate ?a _)) _ =>
           induction a as [|a IH]; simpl; [by apply Forall2_nil|] end.
    all: apply typed_app; [|done].
    all: apply typed_seq; intros i o Ho; exists o; split; [done|apply fits_refl].
Qed.

Lemma spiders_legs n m t s :
  s < length t →
  length (legs true s (spiders_hyp n m t)) = n ∧
  length (legs false s (spiders_hyp n m t)) = m ∧
  ∀ u v, u ∈ legs true s (spiders_hyp n m t) →
         v ∈ legs false s (spiders_hyp n m t) → u < v.
Proof.
  intros Hs. rewrite /legs /sides_of /= /power replicate_add join_app.
  rewrite !events_app ?length_replicate ?length_power ?length_seq // !sel_app.
  split_and!.
  - rewrite length_app !length_sel_segment ?length_power ?length_seq //.
    rewrite !count_join_replicate /=. repeat case_decide; try done; lia.
  - rewrite length_app !length_sel_segment ?length_power ?length_seq //.
    rewrite !count_join_replicate /=. repeat case_decide; try done; lia.
  - intros u v [Hu|Hu]%elem_of_app [Hv|Hv]%elem_of_app.
    all: apply elem_of_sel_segment in Hu as (? & ? & ?).
    all: apply elem_of_sel_segment in Hv as (? & ? & ?).
    all: rewrite ?length_power ?length_seq in H1 H4; try done; lia.
Qed.

End elementary.

(** X5: [id(t)] never raises; it has no boxes, one spider per object of
    [t], wires [(0, .., k-1, 0, .., k-1)], and it is monogamous and
    causal, so that [to_diagram] needs no normalisation for it. *)
Theorem id_symmetric (C : Category) (L : CategoryLaws C) (t : list Ob) :
  ∃ h, id t = Ok h ∧
    dom h = t ∧ cod h = t ∧ boxes h = [] ∧
    wires h = seq 0 (length t) ++ seq 0 (length t) ∧
    n_spiders h = length t ∧
    is_monogamous h = Ok true ∧ is_causal h = Ok true.
Proof.
  exists (id_hyp t). split; [apply id_spec|]. split_and!; try done.
  - apply n_spiders_id.
  - apply symmetric_intro; [apply id_wf|].
    intros s Hs. rewrite n_spiders_id in Hs. by apply id_legs.
  - apply symmetric_intro; [apply id_wf|].
    intros s Hs. rewrite n_spiders_id in Hs. by apply id_legs.
Qed.

Lemma id_symmetric_witness :
  ∃ h, id [Pivotal.x; Pivotal.y] = Ok h ∧
    dom h = [Pivotal.x; Pivotal.y] ∧ cod h = [Pivotal.x; Pivotal.y] ∧
    boxes h = [] ∧ wires h = [0; 1; 0; 1] ∧ n_spiders h = 2 ∧
    is_monogamous h = Ok true ∧ is_causal h = Ok true.
Proof. exact (id_symmetric Pivotal.cat Pivotal_laws [Pivotal.x; Pivotal.y]). Defined.

(** X6: [swap(left, right)] never raises; it goes from [left @ right] to
    [right @ left] without boxes, with one spider per object, the wires of
    the codomain being those of [right] followed by those of [left], and
    it is monogamous and causal. *)
Theorem swap_symmetric (C : Category) (L : CategoryLaws C) (l r : list Ob) :
  ∃ h, swap l r = Ok h ∧
    dom h = l ++ r ∧ cod h = r ++ l ∧ boxes h = [] ∧
    wires h = seq 0 (length l + length r)
              ++ seq (length l) (length r) ++ seq 0 (length l) ∧
    n_spiders h = length l + length r ∧
    is_monogamous h = Ok true ∧ is_causal h = Ok true.
Proof.
  assert (wf (swap_hyp l r)) as Hwf.
  { apply constructed_wf. rewrite /constructed. eexists _, _, _, _, _, _.
    apply swap_spec. }
  assert (n_spiders (swap_hyp l r) = length (l ++ r)) as Hn.
  { by rewrite /n_spiders /= length_fmap. }
  exists (swap_hyp l r). split; [apply swap_spec|]. split_and!; try done.
  - rewrite /= length_app.
    by replace (length l + length r - length l) with (length r) by lia.
  - by rewrite Hn length_app.
  - apply symmetric_intro; [done|].
    intros s Hs. rewrite Hn in Hs. by apply swap_legs.
  - apply symmetric_intro; [done|].
    intros s Hs. rewrite Hn in Hs. by apply swap_legs.
Qed.

Lemma swap_symmetric_witness :
  ∃ h, swap [Pivotal.x] [Pivotal.y] = Ok h ∧
    dom h = [Pivotal.x; Pivotal.y] ∧ cod h = [Pivotal.y; Pivotal.x] ∧
    boxes h = [] ∧ wires h = [0; 1; 1; 0] ∧ n_spiders h = 2 ∧
    is_monogamous h = Ok true ∧ is_causal h = Ok true.
Proof.
  exact (swap_symmetric Pivotal.cat Pivotal_laws [Pivotal.x] [Pivotal.y]).
Defined.

(** X7: [from_box(box)] never raises, whatever the box; the result has
    the domain and codomain of the box, the box as its only box, one
    spider per port of the box, and it is monogamous and causal. *)
Theorem from_box_symmetric (C : Category) (L : CategoryLaws C) (b : Box) :
  ∃ h, from_box b = Ok h ∧
    dom h = box_dom b ∧ cod h = box_cod b ∧ boxes h = [b] ∧
    box_wires h = [(seq 0 (length (box_dom b)),
                    seq (length (box_dom b)) (length (box_cod b)))] ∧
    n_spiders h = length (box_dom b) + length (box_cod b) ∧
    is_monogamous h = Ok true ∧ is_causal h = Ok true.
Proof.
  assert (wf (from_box_hyp b)) as Hwf.
  { apply constructed_wf. rewrite /constructed. eexists _, _, _, _, _, _.
    apply from_box_spec. }
  assert (n_spiders (from_box_hyp b) = length (box_dom b ++ box_cod b)) as Hn.
  { by rewrite /n_spiders /= length_fmap. }
  exists (from_box_hyp b). split; [apply from_box_spec|].
  split_and!; try done.
  - rewrite /box_wires /box_wires_of /=.
    replace (length (box_dom b ++ box_cod b) - length (box_dom b))
      with (length (box_cod b)) by (rewrite length_app; lia).
    rewrite drop_app_length' ?length_seq // take_app_length' ?length_seq //.
    rewrite app_assoc drop_app_length'; [|by rewrite length_app !length_seq].
    by rewrite take_app_length' ?length_seq.
  - by rewrite Hn length_app.
  - apply symmetric_intro; [done|].
    intros s Hs. rewrite Hn in Hs. by apply from_box_legs.
  - apply symmetric_intro; [done|].
    intros s Hs. rewrite Hn in Hs. by apply from_box_legs.
Qed.

Lemma from_box_symmetric_witness :
  ∃ h, from_box (Pivotal.Gen "f" [Pivotal.x] [Pivotal.y; Pivotal.y] false)
       = Ok h ∧
    dom h = [Pivotal.x] ∧ cod h = [Pivotal.y; Pivotal.y] ∧
    boxes h = [Pivotal.Gen "f" [Pivotal.x] [Pivotal.y; Pivotal.y] false] ∧
    box_wires h = [([0], [1; 2])] ∧ n_spiders h = 3 ∧
    is_monogamous h = Ok true ∧ is_causal h = Ok true.
Proof.
  exact (from_box_symmetric Pivotal.cat Pivotal_laws
           (Pivotal.Gen "f" [Pivotal.x] [Pivotal.y; Pivotal.y] false)).
Defined.

(** X8: [spiders(n_legs_in, n_legs_out, typ)] never raises; it has one
    spider per object of [typ], each with [n_legs_in] ports that feed it
    and [n_legs_out] ports that it feeds.  Hence, unless [typ] is empty, it
    is bijective exactly when it has 0 or 2 legs, monogamous exactly when
    it has no legs or one on each side, and causal exactly when it has one
    leg in. *)
Theorem spiders_classification (C : Category) (L : CategoryLaws C)
    (n m : nat) (t : list Ob) :
  ∃ h, spiders n m t = Ok h ∧
    dom h = power t n ∧ cod h = power t m ∧ boxes h = [] ∧
    wires h = mjoin (replicate (n + m) (seq 0 (length t))) ∧
    n_spiders h = length t ∧
    (∀ s, s < length t → source_count h s = n ∧ sink_count h s = m) ∧
    (is_bijective h = true ↔ t = [] ∨ n + m = 0 ∨ n + m = 2) ∧
    (is_monogamous h = Ok true ↔ t = [] ∨ n = m ∧ n ≤ 1) ∧
    (is_causal h = Ok true ↔ t = [] ∨ n = 1).
Proof.
  assert (wf (spiders_hyp n m t)) as Hwf.
  { apply constructed_wf. rewrite /constructed. eexists _, _, _, _, _, _.
    apply spiders_spec. }
  assert (n_spiders (spiders_hyp n m t) = length t) as Hn.
  { by rewrite /n_spiders /= length_fmap. }
  exists (spiders_hyp n m t). split; [apply spiders_spec|].
  split_and!; try done.
  - intros s Hs. destruct (length_legs (spiders_hyp n m t) s) as [<- <-].
    destruct (spiders_legs n m t s Hs) as (? & ? & _). done.
  - assert (∀ s, s < length t →
              count s (wires (spiders_hyp n m t)) = n + m) as Hcount.
    { intros s Hs. by rewrite /= count_join_replicate decide_True. }
    rewrite is_bijective_true Hn. split.
    + intros Hall. destruct (decide (t = [])) as [|Ht]; [by left|right].
      assert (0 < length t) as H0 by (destruct t; [done|simpl; lia]).
      specialize (Hall 0 H0). rewrite Hcount // in Hall. set_solver.
    + intros Hor s Hs. rewrite Hcount //.
      destruct Hor as [->|[->| ->]]; [simpl in Hs; lia|set_solver..].
  - destruct (is_monogamous_legs _ Hwf) as (b & -> & Hiff).
    rewrite Hn in Hiff. split.
    + intros [= ->]. destruct (decide (t = [])) as [|Ht]; [by left|right].
      assert (0 < length t) as H0 by (destruct t; [done|simpl; lia]).
      destruct (proj1 Hiff eq_refl 0 H0) as [H1 H2].
      destruct (spiders_legs n m t 0 H0) as (Ha & Hb & _).
      rewrite Ha Hb in H1 H2. set_solver by lia.
    + intros Hor. f_equal. apply Hiff. intros s Hs.
      destruct (spiders_legs n m t s Hs) as (-> & -> & _).
      destruct Hor as [->|[-> ?]]; [simpl in Hs; lia|].
      split; [done|]. destruct m as [|[|]]; set_solver by lia.
  - destruct (is_causal_legs _ Hwf) as (b & -> & Hiff).
    rewrite Hn in Hiff. split.
    + intros [= ->]. destruct (decide (t = [])) as [|Ht]; [by left|right].
      assert (0 < length t) as H0 by (destruct t; [done|simpl; lia]).
      destruct (proj1 Hiff eq_refl 0 H0) as [H1 _].
      destruct (spiders_legs n m t 0 H0) as (Ha & _).
      congruence.
    + intros Hor. f_equal. apply Hiff. intros s Hs.
      destruct (spiders_legs n m t s Hs) as (Ha & _ & Hlt).
      destruct Hor as [->| ->]; [simpl in Hs; lia|]. done.
Qed.

Lemma spiders_classification_witness :
  ∃ h, spiders 1 2 [Pivotal.x; Pivotal.y] = Ok h ∧
    wires h = [0; 1; 0; 1; 0; 1] ∧ n_spiders h = 2 ∧
    is_bijective h = false ∧ is_causal h = Ok true.
Proof.
  destruct (spiders_classification Pivotal.cat Pivotal_laws 1 2
              [Pivotal.x; Pivotal.y])
    as (h & Hh & _ & _ & _ & Hw & Hn & _ & Hb & _ & Hc).
  exists h. split; [exact Hh|]. split; [exact Hw|]. split; [exact Hn|].
  split.
  - destruct (is_bijective h); [|reflexivity].
    destruct (proj1 Hb eq_refl) as [?|[?|?]]; discriminate.
  - apply Hc. right. reflexivity.
Defined.

(** ** Addressing the ports of a hypergraph *)

(** X9: [box_wires] gives one pair per box, with as many input wires as
    the box has inputs and as many output wires as it has outputs, and the
    wires of a hypergraph are those of its domain, then those of its boxes
    in order, then those of its codomain. *)
Theorem box_wires_spec (C : Category) (L : CategoryLaws C) (h : Hypergraph) :
  constructed h →
  Forall2 (λ b dc, length dc.1 = length (box_dom b)
                   ∧ length dc.2 = length (box_cod b))
          (boxes h) (box_wires h) ∧
  wires h = take (length (dom h)) (wires h)
            ++ mjoin ((λ dc, dc.1 ++ dc.2) <$> box_wires h)
            ++ drop (length (wires h) - length (cod h)) (wires h) ∧
  length (take (length (dom h)) (wires h)) = length (dom h) ∧
  length (drop (length (wires h) - length (cod h)) (wires h))
  = length (cod h).
Proof.
  intros Hwf%constructed_wf. split_and!.
  - by apply wf_box_shaped.
  - by apply wf_wires_decompose.
  - pose proof (wf_length _ Hwf) as Hlen.
    rewrite /ports length_ports_of in Hlen. rewrite length_take. lia.
  - pose proof (wf_length _ Hwf) as Hlen.
    rewrite /ports length_ports_of in Hlen. rewrite length_drop. lia.
Qed.

Lemma box_wires_spec_witness :
  Forall2 (λ b dc, length dc.1 = length (box_dom b)
                   ∧ length dc.2 = length (box_cod b))
    [Pivotal.Gen "f" [Pivotal.x] [Pivotal.y; Pivotal.y] false]
    [([0], [1; 2])].
Proof.
  apply (box_wires_spec Pivotal.cat Pivotal_laws
           (mkHypergraph [Pivotal.x] [Pivotal.y; Pivotal.y]
              [Pivotal.Gen "f" [Pivotal.x] [Pivotal.y; Pivotal.y] false]
              [0; 0; 1; 2; 1; 2] [Pivotal.x; Pivotal.y; Pivotal.y] [None])).
  exists [Pivotal.x], [Pivotal.y; Pivotal.y],
    [Pivotal.Gen "f" [Pivotal.x] [Pivotal.y; Pivotal.y] false],
    [0; 0; 1; 2; 1; 2], NoTypes, None.
  vm_compute. reflexivity.
Defined.

(** X10: [spider_wires] never raises on a hypergraph; it has one pair of
    sets per spider, and a port lies in the first set of a spider exactly
    when it is wired to the spider and is a diagram input or a box output,
    in the second exactly when it is wired to the spider and is a box input
    or a diagram output.  The two sets have no port twice. *)
Theorem spider_wires_partition (C : Category) (L : CategoryLaws C)
    (h : Hypergraph) :
  constructed h →
  ∃ sw, spider_wires h = Ok sw ∧ length sw = n_spiders h ∧
    ∀ s io, sw !! s = Some io →
      NoDup (io.1 ++ io.2) ∧
      (∀ p, p ∈ io.1 ↔
         wires h !! p = Some s ∧
         ∃ nd, ports h !! p = Some nd ∧ kind nd ∈ [input; cod_port]) ∧
      (∀ p, p ∈ io.2 ↔
         wires h !! p = Some s ∧
         ∃ nd, ports h !! p = Some nd ∧ kind nd ∈ [dom_port; output]).
Proof.
  intros Hwf%constructed_wf.
  destruct (spider_legs h Hwf) as (sw & Hsw & Hn & Hall).
  destruct (spider_wires_legs h Hwf) as (sw' & Hsw' & _ & Hlegs).
  assert (sw' = sw) as -> by congruence.
  exists sw. split_and!; [done..|]. intros s io Hio.
  assert (s < n_spiders h) as Hs by (rewrite -Hn; by eapply lookup_lt_Some).
  destruct (Hall s io Hio) as (Hnd & _). split; [done|].
  rewrite Hlegs // in Hio. injection Hio as <-. simpl.
  split; intros p; rewrite elem_of_legs_kind.
  - split; intros (? & nd & ? & ?); (split; [done|]); exists nd;
      (split; [done|]); by apply is_source_true.
  - split; intros (? & nd & ? & ?); (split; [done|]); exists nd;
      (split; [done|]); by apply is_source_false.
Qed.

Lemma spider_wires_partition_witness :
  ∃ sw, spider_wires
          (mkHypergraph [Pivotal.x] [Pivotal.x; Pivotal.x] [] [0; 0; 0]
             [Pivotal.x] []) = Ok sw ∧ length sw = 1.
Proof.
  destruct (spider_wires_partition Pivotal.cat Pivotal_laws
              (mkHypergraph [Pivotal.x] [Pivotal.x; Pivotal.x] [] [0; 0; 0]
                 [Pivotal.x] [])) as (sw & Hsw & Hn & _).
  { exists [Pivotal.x], [Pivotal.x; Pivotal.x], [], [0; 0; 0], NoTypes, None.
    vm_compute. reflexivity. }
  exists sw. split; [exact Hsw|exact Hn].
Defined.

(** ** Rebuilding a hypergraph from its fields *)

Section rebuild.
Context `{C : Category} `{!CategoryLaws C}.
Implicit Types (f g h : Hypergraph).

Lemma normal_type_fix_list (types : list Ob) :
  (∀ t, t ∈ types → normal_type t = t) → normal_type <$> types = types.
Proof.
  intros Hall. rewrite -{2}(list_fmap_id types). apply list_fmap_ext.
  intros i t Ht. apply Hall. by eapply list_elem_of_lookup_2.
Qed.

Lemma wf_types_normal f : wf f → normal_type <$> spider_types f = spider_types f.
Proof. intros Hwf. apply normal_type_fix_list. intros t. by apply wf_normal_fix. Qed.

Lemma init_rebuild f :
  wf f →
  init (dom f) (cod f) (boxes f) (wires f) (TypeSeq (spider_types f))
       (Some (offsets f)) = Ok f.
Proof.
  intros Hwf. rewrite init_canonical_typed.
  - rewrite wf_types_normal // offsets_or_fix //. by destruct f.
  - apply (wf_canonical _ Hwf).
  - by apply wf_typed.
Qed.

End rebuild.

(** X11: the constructor applied to the fields of a hypergraph returns
    that hypergraph: canonical wires are not relabelled, normalised spider
    types are not changed, and the offsets are kept. *)
Theorem constructor_round_trip (C : Category) (L : CategoryLaws C)
    (h : Hypergraph) :
  constructed h →
  init (dom h) (cod h) (boxes h) (wires h) (TypeSeq (spider_types h))
       (Some (offsets h)) = Ok h.
Proof. intros Hwf%constructed_wf. by apply init_rebuild. Qed.

Lemma constructor_round_trip_witness :
  init [Pivotal.x] [Pivotal.y; Pivotal.y]
    [Pivotal.Gen "f" [Pivotal.x] [Pivotal.y; Pivotal.y] false]
    [0; 0; 1; 2; 1; 2] (TypeSeq [Pivotal.x; Pivotal.y; Pivotal.y])
    (Some [None])
  = Ok (mkHypergraph [Pivotal.x] [Pivotal.y; Pivotal.y]
          [Pivotal.Gen "f" [Pivotal.x] [Pivotal.y; Pivotal.y] false]
          [0; 0; 1; 2; 1; 2] [Pivotal.x; Pivotal.y; Pivotal.y] [None]).
Proof.
  apply (constructor_round_trip Pivotal.cat Pivotal_laws
           (mkHypergraph [Pivotal.x] [Pivotal.y; Pivotal.y]
              [Pivotal.Gen "f" [Pivotal.x] [Pivotal.y; Pivotal.y] false]
              [0; 0; 1; 2; 1; 2] [Pivotal.x; Pivotal.y; Pivotal.y] [None])).
  exists [Pivotal.x], [Pivotal.y; Pivotal.y],
    [Pivotal.Gen "f" [Pivotal.x] [Pivotal.y; Pivotal.y] false],
    [0; 0; 1; 2; 1; 2], NoTypes, None.
  vm_compute. reflexivity.
Defined.

(** ** Dagger and tensor *)

Section algebra.
Context `{C : Category} `{!CategoryLaws C}.
Implicit Types (f g h : Hypergraph) (s t : list Ob).

Lemma wf_segments f :
  wf f →
  take (length (dom f)) (wires f)
  ++ slice (length (dom f)) (length (wires f) - length (cod f)) (wires f)
  ++ drop (length (wires f) - length (cod f)) (wires f) = wires f.
Proof.
  intros Hwf. pose proof (wf_length _ Hwf) as Hlen.
  rewrite /ports length_ports_of in Hlen. rewrite /slice.
  transitivity (take (length (dom f)) (wires f)
                ++ drop (length (dom f)) (wires f)); [|apply take_drop].
  f_equal.
  transitivity
    (take (length (wires f) - length (cod f) - length (dom f))
          (drop (length (dom f)) (wires f))
     ++ drop (length (wires f) - length (cod f) - length (dom f))
             (drop (length (dom f)) (wires f))); [|apply take_drop].
  f_equal. rewrite drop_drop. f_equal. lia.
Qed.

Lemma tensor_unit_r f : wf f → tensor f (id_hyp []) = Ok f.
Proof.
  intros Hwf. rewrite /tensor /= ?app_nil_r.
  rewrite (wf_segments f Hwf). by apply init_rebuild.
Qed.

Lemma tensor_unit_l f : wf f → tensor (id_hyp []) f = Ok f.
Proof.
  intros Hwf. rewrite /tensor /= /slice /=.
  rewrite !list_fmap_id (wf_segments f Hwf). by apply init_rebuild.
Qed.

Lemma tensor_id_id s t : tensor (id_hyp s) (id_hyp t) = Ok (id_hyp (s ++ t)).
Proof.
  rewrite /tensor /= /slice /= /n_spiders /= !length_app !length_seq !length_fmap.
  rewrite !take_app_length' ?length_seq //.
  replace (length s + length s - length s) with (length s) by lia.
  replace (length t + length t - length t) with (length t) by lia.
  rewrite !drop_app_length' ?length_seq // !Nat.sub_diag /=.
  rewrite !fmap_add_seq !Nat.add_0_r -!seq_app.
  rewrite init_canonical_typed.
  - rewrite /id_hyp !fmap_app -!list_fmap_compose length_app.
    do 2 f_equal. f_equal; apply list_fmap_ext; intros i o _; apply normal_type_idemp.
  - exists (length s + length t). rewrite first_occ_seq_seq.
    split; [done|]. by rewrite length_app !length_fmap.
  - rewrite /port_objs /=. apply typed_app; rewrite -length_app -fmap_app.
    all: apply typed_seq; intros i o Ho; exists (normal_type o).
    all: rewrite /= list_lookup_fmap Ho /=; split; [done|].
    all: by apply fits_normal, fits_refl.
Qed.

Lemma dagger_id t : dagger (id_hyp t) = Ok (id_hyp t).
Proof.
  rewrite /dagger /box_wires /box_wires_of /= length_app !length_seq.
  replace (length t + length t - length t) with (length t) by lia.
  rewrite drop_app_length' ?length_seq // take_app_length' ?length_seq //.
  rewrite init_canonical_typed.
  - rewrite /id_hyp -list_fmap_compose. do 2 f_equal.
    apply list_fmap_ext. intros i o _. apply normal_type_idemp.
  - exists (length t). rewrite first_occ_seq_seq length_fmap. done.
  - rewrite /port_objs /=. apply typed_app.
    all: apply typed_seq; intros i o Ho; exists (normal_type o).
    all: rewrite /= list_lookup_fmap Ho /=; split; [done|].
    all: by apply fits_normal, fits_refl.
Qed.

(** The relabelling that exchanges a block of [a] spiders with the block
    of [b] spiders that follows it. *)
Definition rot (a b i : nat) : nat := if decide (i < a) then b + i else i - a.

Lemma rot_seq_l a b : rot a b <$> seq 0 a = seq b a.
Proof.
  replace (seq b a) with (Nat.add b <$> seq 0 a)
    by (rewrite fmap_add_seq; f_equal; lia).
  apply list_fmap_ext. intros i x [-> ?]%lookup_seq.
  rewrite /rot decide_True //.
Qed.

Lemma rot_seq_r a b : rot a b <$> seq a b = seq 0 b.
Proof.
  replace (seq a b) with (Nat.add a <$> seq 0 b)
    by (rewrite fmap_add_seq; f_equal; lia).
  rewrite -list_fmap_compose -{2}(list_fmap_id (seq 0 b)).
  apply list_fmap_ext. intros i x [-> ?]%lookup_seq.
  rewrite /= /rot decide_False; lia.
Qed.

Lemma rot_lookup {A} a b (l1 l2 : list A) i :
  length l1 = a → length l2 = b → i < a + b →
  (l2 ++ l1) !! rot a b i = (l1 ++ l2) !! i.
Proof.
  intros <- <- Hi. rewrite /rot. case_decide.
  - rewrite lookup_app_r; [|lia]. rewrite lookup_app_l //. f_equal. lia.
  - rewrite lookup_app_l; [|lia]. rewrite lookup_app_r; [|lia]. done.
Qed.

Lemma init_rot f a b (types : list Ob) off :
  wf f → n_spiders f = a + b →
  (∀ i, i < a + b → i ∈ wires f) →
  (∀ i, i < a + b → types !! rot a b i = spider_types f !! i) →
  length types = a + b →
  init (dom f) (cod f) (boxes f) (rot a b <$> wires f) (TypeSeq types) off
  = Ok (mkHypergraph (dom f) (cod f) (boxes f) (wires f) (spider_types f)
          (offsets_or off (boxes f))).
Proof.
  intros Hwf Hn Hin Hty Hlen.
  apply init_relabel; [done|..].
  - intros i j Hi Hj. rewrite /rot. repeat case_decide; lia.
  - intros i Hi. rewrite /= /dict_enumerate lookup_map_seq_0. apply Hty. lia.
  - intros key. rewrite /= /dict_enumerate lookup_map_seq_0.
    rewrite lookup_lt_is_Some Hlen Hn. intros Hkey.
    exists (if decide (key < b) then a + key else key - b).
    rewrite /rot. repeat case_decide; lia.
  - intros i j Hi Hij Hj. exfalso. apply Hi, Hin. lia.
Qed.

Lemma swap_wf l r : wf (swap_hyp l r).
Proof.
  apply constructed_wf. rewrite /constructed. eexists _, _, _, _, _, _.
  apply swap_spec.
Qed.

Lemma from_box_wf b : wf (from_box_hyp b).
Proof.
  apply constructed_wf. rewrite /constructed. eexists _, _, _, _, _, _.
  apply from_box_spec.
Qed.

Lemma dagger_swap (l r : list Ob) : dagger (swap_hyp l r) = Ok (swap_hyp r l).
Proof.
  rewrite /dagger /box_wires /box_wires_of /=.
  rewrite !length_app !length_seq ?length_app.
  replace (length l + length r - length l) with (length r) by lia.
  replace (length r + length l - length r) with (length l) by lia.
  replace (length l + length r + (length r + length l)
           - (length r + length l)) with (length l + length r) by lia.
  rewrite drop_app_length' ?length_seq // take_app_length' ?length_seq //.
  etrans; [|etrans; [apply (init_rot (swap_hyp r l) (length r) (length l)
                              (normal_type <$> l ++ r) (Some []))|]].
  - simpl. rewrite !length_app.
    replace (length r + length l - length r) with (length l) by lia.
    rewrite (seq_app (length r) (length l)) (seq_app (length l) (length r)).
    by rewrite !fmap_app !rot_seq_l /= !rot_seq_r -!app_assoc.
  - apply swap_wf.
  - by rewrite /n_spiders /= length_fmap length_app.
  - intros i Hi. rewrite /= !length_app. apply elem_of_app. left.
    apply elem_of_seq. lia.
  - intros i Hi. rewrite /= !fmap_app. apply rot_lookup; rewrite ?length_fmap; done.
  - rewrite length_fmap length_app. lia.
  - done.
Qed.

Lemma from_box_dagger_hyp b :
  from_box_hyp (box_dagger b)
  = mkHypergraph (box_cod b) (box_dom b) [box_dagger b]
      (seq 0 (length (box_cod b)) ++ seq 0 (length (box_cod b))
       ++ seq (length (box_cod b)) (length (box_dom b))
       ++ seq (length (box_cod b)) (length (box_dom b)))
      (normal_type <$> box_cod b ++ box_dom b) [None].
Proof.
  rewrite /from_box_hyp box_dagger_dom box_dagger_cod length_app.
  by replace (length (box_cod b) + length (box_dom b) - length (box_cod b))
    with (length (box_dom b)) by lia.
Qed.

Lemma four_segments {X} (A1 A2 B1 B2 : list X) d c :
  length A1 = d → length A2 = d → length B1 = c → length B2 = c →
  take d (A1 ++ A2 ++ B1 ++ B2) = A1 ∧
  take d (drop d (A1 ++ A2 ++ B1 ++ B2)) = A2 ∧
  take c (drop (d + d) (A1 ++ A2 ++ B1 ++ B2)) = B1 ∧
  drop (d + (d + (c + c)) - c) (A1 ++ A2 ++ B1 ++ B2) = B2.
Proof.
  intros H1 H2 H3 H4. split_and!.
  - by rewrite take_app_length'.
  - by rewrite drop_app_length' // take_app_length'.
  - rewrite (app_assoc A1) drop_app_length'; [|by rewrite length_app H1 H2].
    by rewrite take_app_length'.
  - replace (d + (d + (c + c)) - c) with (d + d + c) by lia.
    rewrite (app_assoc A1) (app_assoc (A1 ++ A2)) drop_app_length' //.
    rewrite !length_app. lia.
Qed.

Lemma dagger_from_box b :
  dagger (from_box_hyp b) = Ok (from_box_hyp (box_dagger b)).
Proof.
  pose proof (from_box_wf (box_dagger b)) as Hwf.
  rewrite from_box_dagger_hyp in Hwf |- *.
  rewrite /dagger /box_wires /box_wires_of /=.
  rewrite !length_app !length_seq ?length_app.
  replace (length (box_dom b) + length (box_cod b) - length (box_dom b))
    with (length (box_cod b)) by lia.
  destruct (four_segments (seq 0 (length (box_dom b)))
              (seq 0 (length (box_dom b)))
              (seq (length (box_dom b)) (length (box_cod b)))
              (seq (length (box_dom b)) (length (box_cod b)))
              (length (box_dom b)) (length (box_cod b)))
    as (-> & -> & -> & ->); try apply length_seq.
  rewrite /= reverse_singleton /= app_nil_r.
  etrans; [|etrans; [apply (init_rot _ (length (box_cod b))
                              (length (box_dom b))
                              (normal_type <$> box_dom b ++ box_cod b)
                              (Some [None]) Hwf)|]].
  - simpl. rewrite !fmap_app !rot_seq_l !rot_seq_r.
    by rewrite -!app_assoc.
  - by rewrite /n_spiders /= length_fmap length_app.
  - intros i Hi. rewrite /= !elem_of_app !elem_of_seq. lia.
  - intros i Hi. rewrite /= !fmap_app. apply rot_lookup; rewrite ?length_fmap; done.
  - rewrite length_fmap length_app. lia.
  - done.
Qed.

Lemma dagger_spiders n m (t : list Ob) :
  dagger (spiders_hyp n m t) = Ok (spiders_hyp m n t).
Proof.
  rewrite /dagger /box_wires /box_wires_of /= /power.
  rewrite replicate_add join_app length_app !length_power length_seq.
  replace (n * length t + m * length t - m * length t)
    with (n * length t) by lia.
  rewrite drop_app_length' ?length_power ?length_seq //.
  rewrite take_app_length' ?length_power ?length_seq //.
  rewrite -join_app -replicate_add.
  rewrite init_canonical_typed.
  - rewrite /spiders_hyp -list_fmap_compose. do 2 f_equal.
    apply list_fmap_ext. intros i o _. apply normal_type_idemp.
  - rewrite length_fmap. destruct (m + n) as [|a]; simpl.
    { exists 0. split; [done|lia]. }
    exists (length t). split; [|done].
    rewrite first_occ_app_subseteq; [apply first_occ_NoDup, NoDup_seq|].
    apply elem_of_join_replicate.
  - rewrite /port_objs /= replicate_add join_app.
    apply typed_app.
    all: match goal with |- typed _ (mjoin (replicate ?a _)) _ =>
           induction a as [|a IH]; simpl; [by apply Forall2_nil|] end.
    all: apply typed_app; [|done].
    all: apply typed_seq; intros i o Ho; exists (normal_type o).
    all: rewrite /= list_lookup_fmap Ho /=; split; [done|].
    all: by apply fits_normal, fits_refl.
Qed.

End algebra.

(** X12: the empty identity is a unit of the tensor: [f @ id()] and
    [id() @ f] are [f] itself, with the same wires, spider types and
    offsets; and the tensor of two identities is the identity of the
    concatenated type. *)
Theorem tensor_identity_laws (C : Category) (L : CategoryLaws C) :
  (∀ f, constructed f →
     ∃ u, id [] = Ok u ∧ tensor f u = Ok f ∧ tensor u f = Ok f) ∧
  (∀ s t, ∃ a b c,
     id s = Ok a ∧ id t = Ok b ∧ id (s ++ t) = Ok c ∧ tensor a b = Ok c).
Proof.
  split.
  - intros f Hwf%constructed_wf. exists (id_hyp []).
    split_and!; [apply id_spec|by apply tensor_unit_r|by apply tensor_unit_l].
  - intros s t. exists (id_hyp s), (id_hyp t), (id_hyp (s ++ t)).
    split_and!; try apply id_spec. apply tensor_id_id.
Qed.

Lemma tensor_identity_laws_witness :
  ∃ a b c, id [Pivotal.x] = Ok a ∧ id [Pivotal.y] = Ok b ∧
    id [Pivotal.x; Pivotal.y] = Ok c ∧ tensor a b = Ok c.
Proof.
  exact (proj2 (tensor_identity_laws Pivotal.cat Pivotal_laws)
           [Pivotal.x] [Pivotal.y]).
Defined.

(** X13: [dagger] never raises on a hypergraph; it swaps domain and
    codomain, reverses the boxes and takes the dagger of each, keeps the
    number of spiders, and applied to its own result it gives back the
    hypergraph it started from, field by field. *)
Theorem dagger_spec (C : Category) (L : CategoryLaws C) (f : Hypergraph) :
  constructed f →
  ∃ h, dagger f = Ok h ∧
    dom h = cod f ∧ cod h = dom f ∧
    boxes h = box_dagger <$> reverse (boxes f) ∧
    n_spiders h = n_spiders f ∧
    dagger h = Ok f.
Proof.
  intros Hwf%constructed_wf.
  destruct (dagger_Ok f Hwf) as (types & Ht & Hd).
  destruct (dagger_dagger f Hwf) as (h & Hh & Hhh).
  exists h. split; [done|]. rewrite Hh in Hd. injection Hd as ->.
  split_and!; try done.
  rewrite /n_spiders /= length_fmap -(length_mapM _ _ _ Ht).
  by rewrite dagger_r_perm // length_seq.
Qed.

Lemma dagger_spec_witness :
  ∃ h, dagger (mkHypergraph [Pivotal.x] [Pivotal.y; Pivotal.y]
                 [Pivotal.Gen "f" [Pivotal.x] [Pivotal.y; Pivotal.y] false]
                 [0; 0; 1; 2; 1; 2] [Pivotal.x; Pivotal.y; Pivotal.y] [None])
       = Ok h ∧
    dom h = [Pivotal.y; Pivotal.y] ∧ cod h = [Pivotal.x] ∧
    n_spiders h = 3 ∧
    dagger h = Ok (mkHypergraph [Pivotal.x] [Pivotal.y; Pivotal.y]
                     [Pivotal.Gen "f" [Pivotal.x] [Pivotal.y; Pivotal.y] false]
                     [0; 0; 1; 2; 1; 2] [Pivotal.x; Pivotal.y; Pivotal.y]
                     [None]).
Proof.
  destruct (dagger_spec Pivotal.cat Pivotal_laws
              (mkHypergraph [Pivotal.x] [Pivotal.y; Pivotal.y]
                 [Pivotal.Gen "f" [Pivotal.x] [Pivotal.y; Pivotal.y] false]
                 [0; 0; 1; 2; 1; 2] [Pivotal.x; Pivotal.y; Pivotal.y] [None]))
    as (h & Hh & Hd & Hc & _ & Hn & Hhh).
  { exists [Pivotal.x], [Pivotal.y; Pivotal.y],
      [Pivotal.Gen "f" [Pivotal.x] [Pivotal.y; Pivotal.y] false],
      [0; 0; 1; 2; 1; 2], NoTypes, None.
    vm_compute. reflexivity. }
  exists h. split_and!; [exact Hh|exact Hd|exact Hc|exact Hn|exact Hhh].
Defined.

(** X14: the dagger of an identity is the identity, the dagger of
    [swap(left, right)] is [swap(right, left)], the dagger of
    [from_box(box)] is [from_box(box.dagger())], and the dagger of
    [spiders(n, m, typ)] is [spiders(m, n, typ)]. *)
Theorem dagger_elementary (C : Category) (L : CategoryLaws C) :
  (∀ t, ∃ i, id t = Ok i ∧ dagger i = Ok i) ∧
  (∀ l r, ∃ s s', swap l r = Ok s ∧ swap r l = Ok s' ∧ dagger s = Ok s') ∧
  (∀ b, ∃ f f', from_box b = Ok f ∧ from_box (box_dagger b) = Ok f'
                ∧ dagger f = Ok f') ∧
  (∀ n m t, ∃ s s', spiders n m t = Ok s ∧ spiders m n t = Ok s'
                    ∧ dagger s = Ok s').
Proof.
  split_and!.
  - intros t. exists (id_hyp t). split; [apply id_spec|apply dagger_id].
  - intros l r. exists (swap_hyp l r), (swap_hyp r l).
    split_and!; [apply swap_spec..|apply dagger_swap].
  - intros b. exists (from_box_hyp b), (from_box_hyp (box_dagger b)).
    split_and!; [apply from_box_spec..|apply dagger_from_box].
  - intros n m t. exists (spiders_hyp n m t), (spiders_hyp m n t).
    split_and!; [apply spiders_spec..|apply dagger_spiders].
Qed.

Lemma dagger_elementary_witness :
  ∃ s s', swap [Pivotal.x] [Pivotal.y] = Ok s ∧
    swap [Pivotal.y] [Pivotal.x] = Ok s' ∧ dagger s = Ok s'.
Proof.
  exact (proj1 (proj2 (dagger_elementary Pivotal.cat Pivotal_laws))
           [Pivotal.x] [Pivotal.y]).
Defined.

(** ** What [make_bijective] keeps *)

Section make_bijective_keeps.
Context `{C : Category} `{!CategoryLaws C}.
Implicit Types (f g h : Hypergraph).

(** The boxes that [make_bijective] may add. *)
Definition spider_box (b : Box) : Prop := ∃ n m t, b = spider_factory n m t.

Lemma make_bijective_step_shape f h :
  make_bijective_step f = Ok (Some h) →
  dom h = dom f ∧ cod h = cod f ∧
  ∃ d b, spider_box b ∧
    boxes h = take d (boxes f) ++ [b] ++ drop d (boxes f).
Proof.
  rewrite /make_bijective_step.
  destruct (spider_wires f) as [sw|]; simpl; [|done].
  destruct (list_find _ _) as [[? [spider [typ [ins outs]]]]|]; [|done].
  match goal with
  | |- context [mbind _ ?d] => destruct d as [depth|]; simpl; [|done]
  end.
  destruct (assign_legs _ _ _ _) as [ws|]; simpl; [|done].
  destruct (init _ _ _ _ _ _) as [h'|] eqn:Hinit; simpl; [|done].
  intros [= <-]. apply init_Ok in Hinit as (types & sw' & _ & _ & _ & _ & ->).
  simpl. split_and!; [done..|]. eexists depth, _. split; [|done].
  by eexists _, _, _.
Qed.

Lemma make_bijective_fixed h fuel :
  wf h → is_bijective h = true → make_bijective (S fuel) h = Some (Ok h).
Proof.
  intros Hwf Hb. apply bad_0 in Hb.
  destruct (make_bijective_step_spec h Hwf) as [[Hstep _]|(h' & _ & Hlt)];
    [|lia].
  by rewrite /= Hstep.
Qed.

Lemma make_bijective_keeps fuel h h' :
  wf h → make_bijective fuel h = Some (Ok h') →
  dom h' = dom h ∧ cod h' = cod h ∧ sublist (boxes h) (boxes h') ∧
  Forall (λ b, b ∈ boxes h ∨ spider_box b) (boxes h') ∧
  wf h' ∧ is_bijective h' = true.
Proof.
  revert h. induction fuel as [|fuel IH]; intros h Hwf; [done|].
  destruct (make_bijective_step_spec h Hwf) as [[Hstep Hb]|(h1 & Hstep & _)];
    rewrite /= Hstep.
  - intros [= <-]. split_and!; try done.
    apply Forall_forall. intros b Hb'. by left.
  - intros Hrun.
    pose proof (make_bijective_step_constructed _ _ Hstep) as Hc.
    destruct (make_bijective_step_shape _ _ Hstep)
      as (Hd & Hcd & d & b & Hsb & Hbx).
    destruct (IH h1 (constructed_wf _ Hc) Hrun)
      as (Hd' & Hcd' & Hsub & Hall & Hwf' & Hb').
    assert (sublist (boxes h) (boxes h1)) as Hsub1.
    { rewrite Hbx -{1}(take_drop d (boxes h)).
      apply sublist_app; [done|]. by apply sublist_cons. }
    split_and!; [congruence|congruence|by etrans| |done|done].
    eapply Forall_impl; [exact Hall|]. intros b' [Hb1|?]; [|by right].
    rewrite Hbx in Hb1. apply elem_of_app in Hb1 as [Hb1|Hb1].
    { left. by eapply subseteq_take. }
    apply elem_of_cons in Hb1 as [->|Hb1]; [by right|].
    left. by eapply subseteq_drop.
Qed.

End make_bijective_keeps.

(** X15: [make_bijective] returns a bijective hypergraph unchanged, and
    whenever it returns, its result has the same domain and codomain, keeps
    the boxes of its argument in their order, adds only spider boxes, is
    bijective, and is returned unchanged by a further call. *)
Theorem make_bijective_stable (C : Category) (L : CategoryLaws C)
    (h : Hypergraph) :
  constructed h →
  (is_bijective h = true → ∀ fuel, make_bijective (S fuel) h = Some (Ok h)) ∧
  (∀ fuel h', make_bijective fuel h = Some (Ok h') →
     dom h' = dom h ∧ cod h' = cod h ∧
     sublist (boxes h) (boxes h') ∧
     Forall (λ b, b ∈ boxes h ∨ ∃ n m t, b = spider_factory n m t)
            (boxes h') ∧
     is_bijective h' = true ∧
     ∀ fuel', make_bijective (S fuel') h' = Some (Ok h')).
Proof.
  intros Hwf%constructed_wf. split.
  - intros Hb fuel. by apply make_bijective_fixed.
  - intros fuel h' Hrun.
    destruct (make_bijective_keeps fuel h h' Hwf Hrun)
      as (? & ? & ? & ? & Hwf' & Hb').
    split_and!; try done. intros fuel'. by apply make_bijective_fixed.
Qed.

Lemma make_bijective_stable_witness :
  make_bijective 3 (id_hyp [Pivotal.x]) = Some (Ok (id_hyp [Pivotal.x])).
Proof.
  assert (constructed (id_hyp [Pivotal.x])) as Hc.
  { exists [Pivotal.x], [Pivotal.x], [], [0; 0], NoTypes, None.
    vm_compute. reflexivity. }
  apply (proj1 (make_bijective_stable Pivotal.cat Pivotal_laws _ Hc)).
  vm_compute. reflexivity.
Defined.

(** ** Structural equality is an equivalence *)

Section iso.
Context `{C : Category}.
Implicit Types (g : Graph) (f h k : Hypergraph).

Lemma is_isomorphic_sym g1 g2 : is_isomorphic g1 g2 → is_isomorphic g2 g1.
Proof.
  intros (φ & H1 & H2 & H3 & H4).
  set (ψ := λ m, match list_find (λ na : GNode * Attrs, φ na.1 = m) (nodes g1)
                 with Some (_, na) => na.1 | None => m end).
  assert (∀ n, n ∈ (nodes g1).*1 → ψ (φ n) = n) as Hψφ.
  { intros n Hn. rewrite /ψ.
    apply list_elem_of_fmap in Hn as ([n0 a] & -> & Hna). simpl.
    destruct (list_find _ _) as [[i [n' a']]|] eqn:Hf.
    - apply list_find_Some in Hf as (Hi & Heq & _). simpl in *.
      apply H3; [|by apply list_elem_of_fmap; exists (n0, a)|done].
      apply list_elem_of_fmap. exists (n', a'). split; [done|].
      by eapply list_elem_of_lookup_2.
    - eapply list_find_None, Forall_forall in Hf; [|exact Hna]. done. }
  assert (∀ m b, (m, b) ∈ nodes g2 →
            (ψ m, b) ∈ nodes g1 ∧ φ (ψ m) = m) as Hback.
  { intros m b (n & Hn & <-)%H2. rewrite Hψφ; [done|].
    apply list_elem_of_fmap. by exists (n, b). }
  assert (∀ m, m ∈ (nodes g2).*1 → ψ m ∈ (nodes g1).*1 ∧ φ (ψ m) = m) as Hback'.
  { intros m ([m0 b] & -> & Hmb)%list_elem_of_fmap. simpl.
    destruct (Hback _ _ Hmb) as [Hin Heq]. split; [|done].
    apply list_elem_of_fmap. by exists (ψ m0, b). }
  exists ψ. split_and!.
  - intros m b Hm. by apply Hback.
  - intros n a Hn. exists (φ n). split; [by apply H1|].
    apply Hψφ, list_elem_of_fmap. by exists (n, a).
  - intros m m' Hm Hm' Heq.
    destruct (Hback' m Hm) as [_ <-]. destruct (Hback' m' Hm') as [_ <-].
    by rewrite Heq.
  - intros u v Hu Hv.
    destruct (Hback' u Hu) as [Hu' Hφu]. destruct (Hback' v Hv) as [Hv' Hφv].
    rewrite (H4 _ _ Hu' Hv') Hφu Hφv. done.
Qed.

Lemma is_isomorphic_trans g1 g2 g3 :
  is_isomorphic g1 g2 → is_isomorphic g2 g3 → is_isomorphic g1 g3.
Proof.
  intros (φ & H1 & H2 & H3 & H4) (χ & K1 & K2 & K3 & K4).
  assert (∀ n, n ∈ (nodes g1).*1 → φ n ∈ (nodes g2).*1) as Hφ.
  { intros n ([n0 a] & -> & Hna)%list_elem_of_fmap.
    apply list_elem_of_fmap. exists (φ n0, a). split; [done|]. by apply H1. }
  exists (χ ∘ φ). split_and!.
  - intros n a Hn. by apply K1, H1.
  - intros m b (m' & Hm' & <-)%K2. apply H2 in Hm' as (n & Hn & <-).
    by exists n.
  - intros n n' Hn Hn' Heq. apply H3; [done..|]. apply K3; auto.
  - intros u v Hu Hv. rewrite (H4 _ _ Hu Hv). apply K4; auto.
Qed.

Lemma eq_sym_ f h : eq_ f h → eq_ h f.
Proof.
  intros ([Hd Hc] & g1 & g2 & Hg1 & Hg2 & Hiso). split; [by split|].
  exists g2, g1. split_and!; [done..|]. by apply is_isomorphic_sym.
Qed.

Lemma eq_trans_ f k h : eq_ f k → eq_ k h → eq_ f h.
Proof.
  intros ([Hd Hc] & g1 & g2 & Hg1 & Hg2 & Hiso)
         ([Hd' Hc'] & g2' & g3 & Hg2' & Hg3 & Hiso').
  assert (g2' = g2) as -> by congruence.
  split; [split; congruence|].
  exists g1, g3. split_and!; [done..|]. by eapply is_isomorphic_trans.
Qed.

End iso.

(** X16: [==] is an equivalence relation on hypergraphs: it holds between
    a hypergraph and itself ([to_graph] never raises on it), it is
    symmetric, and it is transitive. *)
Theorem eq_equivalence (C : Category) (L : CategoryLaws C) :
  (∀ h, constructed h → eq_ h h) ∧
  (∀ f h, eq_ f h → eq_ h f) ∧
  (∀ f g h, eq_ f g → eq_ g h → eq_ f h).
Proof.
  split_and!.
  - intros h Hwf%constructed_wf. apply eq_refl_, (wf_canonical _ Hwf).
  - apply @eq_sym_.
  - apply @eq_trans_.
Qed.

Lemma eq_equivalence_witness : eq_ (id_hyp [Pivotal.x]) (id_hyp [Pivotal.x]).
Proof.
  apply (proj1 (eq_equivalence Pivotal.cat Pivotal_laws)).
  exists [Pivotal.x], [Pivotal.x], [], [0; 0], NoTypes, None.
  vm_compute. reflexivity.
Defined.

(** ** Interchanging two boxes *)

Section exchange.
Context {A : Type}.
Implicit Types (l : list A).

(** The list [swap_items] returns for indices in range. *)
Definition exchange (i j : nat) l : list A :=
  match l !! i, l !! j with
  | Some x, Some y => <[j := x]> (<[i := y]> l)
  | _, _ => l
  end.

(** The transposition of [i] and [j]. *)
Definition transp (i j k : nat) : nat :=
  if decide (k = i) then j else if decide (k = j) then i else k.

Lemma transp_transp i j k : transp i j (transp i j k) = k.
Proof. rewrite /transp. repeat case_decide; congruence. Qed.

Lemma transp_lt i j k n : i < n → j < n → k < n → transp i j k < n.
Proof. rewrite /transp. repeat case_decide; lia. Qed.

Lemma length_exchange i j l : length (exchange i j l) = length l.
Proof.
  rewrite /exchange. destruct (l !! i), (l !! j); try done.
  by rewrite !length_insert.
Qed.

Lemma exchange_lookup i j l k :
  i < length l → j < length l →
  exchange i j l !! k = l !! transp i j k.
Proof.
  intros Hi Hj. rewrite /exchange /transp.
  destruct (lookup_lt_is_Some_2 l i Hi) as [x Hx].
  destruct (lookup_lt_is_Some_2 l j Hj) as [y Hy]. rewrite Hx Hy.
  destruct (decide (k = j)) as [->|Hkj].
  - rewrite list_lookup_insert_eq; [|by rewrite length_insert].
    case_decide; congruence.
  - rewrite list_lookup_insert_ne //.
    destruct (decide (k = i)) as [->|Hki].
    + by rewrite list_lookup_insert_eq.
    + by rewrite list_lookup_insert_ne.
Qed.

Lemma exchange_out i j l :
  ¬ (i < length l ∧ j < length l) → exchange i j l = l.
Proof.
  intros Hn. rewrite /exchange.
  destruct (l !! i) eqn:Hi; [|done]. destruct (l !! j) eqn:Hj; [|done].
  apply lookup_lt_Some in Hi, Hj. lia.
Qed.

Lemma exchange_exchange i j l : exchange i j (exchange i j l) = l.
Proof.
  destruct (decide (i < length l ∧ j < length l)) as [[Hi Hj]|Hn].
  - apply list_eq. intros k.
    rewrite !exchange_lookup ?length_exchange // transp_transp //.
  - by rewrite !exchange_out.
Qed.

Lemma exchange_perm i j l : exchange i j l ≡ₚ l.
Proof.
  destruct (decide (i < length l ∧ j < length l)) as [[Hi Hj]|Hn];
    [|by rewrite exchange_out].
  apply Permutation_inj. split; [apply length_exchange|].
  exists (transp i j). split.
  - intros a b Hab. by rewrite -(transp_transp i j a) Hab transp_transp.
  - intros k. by apply exchange_lookup.
Qed.

Lemma swap_items_nat (i j : nat) l :
  i < length l → j < length l →
  swap_items (Z.of_nat i) (Z.of_nat j) l = Ok (exchange i j l).
Proof.
  intros Hi Hj. rewrite /swap_items /py_index /exchange.
  rewrite !decide_True; [|lia..]. rewrite !Nat2Z.id /=.
  destruct (lookup_lt_is_Some_2 l i Hi) as [x Hx].
  destruct (lookup_lt_is_Some_2 l j Hj) as [y Hy].
  by rewrite Hx Hy /=.
Qed.

Lemma py_index_out n (i : Z) :
  ¬ (- Z.of_nat n ≤ i < Z.of_nat n)%Z → py_index n i = Raise IndexError.
Proof. intros Hn. rewrite /py_index !decide_False //; lia. Qed.

Lemma py_index_lt n (i : Z) k : py_index n i = Ok k → k < n.
Proof. rewrite /py_index. repeat case_decide; intros [= <-]; lia. Qed.

Lemma swap_items_out (i j : Z) l :
  ¬ (- Z.of_nat (length l) ≤ i < Z.of_nat (length l))%Z
  ∨ ¬ (- Z.of_nat (length l) ≤ j < Z.of_nat (length l))%Z →
  swap_items i j l = Raise IndexError.
Proof.
  intros Hout. rewrite /swap_items.
  destruct (py_index (length l) j) as [j'|e] eqn:Hj; simpl.
  - destruct (l !! j') as [y|]; simpl; [|done].
    destruct Hout as [Hi|Hj'].
    + by rewrite py_index_out.
    + rewrite py_index_out // in Hj.
  - destruct (decide (- Z.of_nat (length l) ≤ j < Z.of_nat (length l))%Z)
      as [Hin|Hn].
    + rewrite /py_index in Hj. repeat case_decide; try done; lia.
    + rewrite py_index_out // in Hj. by injection Hj as <-.
Qed.

End exchange.

Lemma exchange_fmap {A B} (f : A → B) i j (l : list A) :
  f <$> exchange i j l = exchange i j (f <$> l).
Proof.
  rewrite /exchange !list_lookup_fmap.
  destruct (l !! i), (l !! j); simpl; try done.
  by rewrite !list_fmap_insert.
Qed.

Lemma Forall2_exchange {A B} (P : A → B → Prop) i j (l : list A) (k : list B) :
  Forall2 P l k → Forall2 P (exchange i j l) (exchange i j k).
Proof.
  intros HP. pose proof (Forall2_length _ _ _ HP) as Hlen.
  destruct (decide (i < length l ∧ j < length l)) as [[Hi Hj]|Hn].
  - apply Forall2_same_length_lookup. split.
    { by rewrite !length_exchange. }
    intros n x y. rewrite !exchange_lookup //; try lia.
    intros Hx Hy. by eapply Forall2_lookup_lr.
  - rewrite !exchange_out //. by rewrite -Hlen.
Qed.

Section rewire.
Context `{C : Category} `{!CategoryLaws C}.
Implicit Types (f h : Hypergraph) (W : list nat).

(** The relabelling the constructor applies to a rearrangement [W] of the
    wires of [f]. *)
Definition rewiring f W : list nat :=
  relabeling_of W (dict_enumerate (spider_types f)).

Lemma rewire_lt f W w : wf f → W ≡ₚ wires f → w ∈ W → w < n_spiders f.
Proof.
  intros Hwf HW Hw. rewrite HW in Hw.
  destruct (wf_canonical _ Hwf) as (k & Hk & Hkn).
  eapply Nat.lt_le_trans; [|done]. by eapply canonical_elem.
Qed.

Lemma rewiring_perm f W :
  wf f → W ≡ₚ wires f → rewiring f W ≡ₚ seq 0 (n_spiders f).
Proof.
  intros Hwf HW. apply relabeling_TypeSeq_perm. intros w.
  by apply rewire_lt.
Qed.

Lemma rewiring_scalar f W i :
  wf f → W ≡ₚ wires f → i ∉ wires f → i < n_spiders f →
  rewiring f W !! i = Some i.
Proof.
  intros Hwf HW Hi Hin. destruct (wf_canonical _ Hwf) as (k & Hk & Hkn).
  assert (∀ x, x ∈ first_occ W ↔ x ∈ seq 0 k) as Helem.
  { intros x. by rewrite elem_of_first_occ HW -Hk elem_of_first_occ. }
  assert (length (first_occ W) = k) as Hlen.
  { rewrite -(length_seq k 0). apply Permutation_length, NoDup_Permutation;
      [apply NoDup_first_occ|apply NoDup_seq|done]. }
  assert (k ≤ i) as Hki.
  { destruct (decide (k ≤ i)) as [|Hn]; [done|]. exfalso. apply Hi.
    apply elem_of_first_occ. rewrite Hk. apply elem_of_seq. lia. }
  rewrite /rewiring /relabeling_of (sorted_rest_ext _ _ (seq 0 k)) //.
  rewrite sorted_rest_seq // lookup_app_r Hlen //.
  rewrite lookup_seq_lt; [|rewrite /n_spiders in Hin; lia]. f_equal. lia.
Qed.

Lemma rewire_back f W types off :
  wf f → W ≡ₚ wires f →
  mapM (λ s, spider_types f !! s) (rewiring f W) = Some types →
  init (dom f) (cod f) (boxes f) (ren (rewiring f W) <$> wires f)
       (TypeSeq (normal_type <$> types)) off
  = Ok (mkHypergraph (dom f) (cod f) (boxes f) (wires f) (spider_types f)
          (offsets_or off (boxes f))).
Proof.
  intros Hwf HW Ht.
  pose proof (rewiring_perm f W Hwf HW) as Hperm.
  assert (∀ i, i < n_spiders f → i ∈ rewiring f W) as Hin.
  { intros i Hi. rewrite Hperm. apply elem_of_seq. lia. }
  assert (NoDup (rewiring f W)) as Hnd by apply NoDup_relabeling.
  pose proof (length_mapM _ _ _ Ht) as Hlt.
  rewrite Hperm length_seq in Hlt.
  apply init_relabel; [done|..].
  - intros i j Hi Hj. apply ren_inj; by apply Hin.
  - intros i Hi. rewrite /= /dict_enumerate lookup_map_seq_0.
    apply mapM_Some in Ht.
    destruct (Forall2_lookup_l _ _ _ (ren (rewiring f W) i) i Ht)
      as (t & Hti & Hfi).
    { by apply lookup_ren, Hin. }
    rewrite list_lookup_fmap Hti /= Hfi. f_equal.
    eapply wf_normal_fix; [done|]. by eapply list_elem_of_lookup_2.
  - intros key. rewrite /= /dict_enumerate lookup_map_seq_0.
    rewrite lookup_lt_is_Some length_fmap -Hlt. intros Hkey.
    assert (key < length (rewiring f W)) as Hkey'.
    { by rewrite Hperm length_seq. }
    destruct (lookup_lt_is_Some_2 _ _ Hkey') as [i Hi].
    exists i. split.
    + apply list_elem_of_lookup_2 in Hi. rewrite Hperm in Hi.
      apply elem_of_seq in Hi. lia.
    + symmetry. by apply ren_lookup.
  - intros i j Hi Hij Hj.
    assert (j ∉ wires f) as Hj'.
    { destruct (wf_canonical _ Hwf) as (k & Hk & Hkn). intros Hjw.
      apply Hi, elem_of_first_occ. rewrite Hk. apply elem_of_seq.
      pose proof (canonical_elem _ _ _ Hk Hjw). lia. }
    rewrite (ren_lookup _ i i) // ?(ren_lookup _ j j) //;
      apply rewiring_scalar; try done; lia.
Qed.

End rewire.

Section interchange.
Context `{C : Category} `{!CategoryLaws C}.
Implicit Types (f h : Hypergraph) (i j : nat).
Implicit Types (bw : list (list nat * list nat)).

(** The wires [interchange] hands to the constructor. *)
Definition interchange_wires h i j : list nat :=
  take (length (dom h)) (wires h)
  ++ mjoin (cat_wires <$> exchange i j (box_wires h))
  ++ drop (length (wires h) - length (cod h)) (wires h).

Lemma length_box_wires_from k (boxes : list Box) (ws : list nat) :
  length (box_wires_from k boxes ws) = length boxes.
Proof.
  revert k. induction boxes as [|b boxes IH]; intros k; [done|].
  by rewrite /= IH.
Qed.

Lemma length_box_wires h : length (box_wires h) = length (boxes h).
Proof. apply length_box_wires_from. Qed.

Lemma interchange_unfold h i j :
  i < length (boxes h) → j < length (boxes h) →
  length (offsets h) = length (boxes h) →
  interchange h (Z.of_nat i) (Z.of_nat j)
  = init (dom h) (cod h) (exchange i j (boxes h)) (interchange_wires h i j)
         (TypeSeq (spider_types h)) (Some (exchange i j (offsets h))).
Proof.
  intros Hi Hj Hoff. rewrite /interchange.
  rewrite !swap_items_nat ?length_box_wires ?Hoff //.
Qed.

Lemma typed_boxes_join (T : nat → option Ob) (boxes : list Box) bw :
  Forall2 (λ b dc, typed T dc.1 (box_dom b) ∧ typed T dc.2 (box_cod b))
          boxes bw →
  typed T (mjoin (cat_wires <$> bw)) (mjoin (box_objs <$> boxes)).
Proof.
  induction 1 as [|b [dw cw] boxes bw [Hd Hc] _ IH]; [constructor|].
  rewrite !fmap_cons /= /cat_wires /box_objs /=.
  rewrite -!app_assoc. by repeat apply typed_app.
Qed.

Lemma wf_boxes_typed h :
  wf h →
  Forall2 (λ b dc, typed (λ w, spider_types h !! w) dc.1 (box_dom b)
                   ∧ typed (λ w, spider_types h !! w) dc.2 (box_cod b))
          (boxes h) (box_wires h).
Proof.
  intros Hwf. destruct (wf_typed_parts h Hwf) as (_ & Hb & _).
  apply typed_boxes_split; [by apply wf_box_shaped|].
  rewrite /box_wires /box_wires_of box_wires_from_join;
    [|by apply wf_box_ports_le].
  move: Hb. rewrite /slice. pose proof (wf_length _ Hwf) as Hlen.
  rewrite /ports length_ports_of in Hlen.
  by replace (length (wires h) - length (cod h) - length (dom h))
    with (n_box_ports (boxes h)) by lia.
Qed.

Lemma interchange_wires_typed h i j :
  wf h →
  typed (λ w, spider_types h !! w) (interchange_wires h i j)
        (port_objs (dom h) (cod h) (exchange i j (boxes h))).
Proof.
  intros Hwf. destruct (wf_typed_parts h Hwf) as (Hd & _ & Hc).
  rewrite /interchange_wires /port_objs. repeat apply typed_app; [done| |done].
  by apply typed_boxes_join, Forall2_exchange, wf_boxes_typed.
Qed.

Lemma interchange_wires_perm h i j : wf h → interchange_wires h i j ≡ₚ wires h.
Proof.
  intros Hwf.
  trans (take (length (dom h)) (wires h)
         ++ mjoin (cat_wires <$> box_wires h)
         ++ drop (length (wires h) - length (cod h)) (wires h));
    [|by rewrite -wf_wires_decompose].
  by rewrite /interchange_wires exchange_perm.
Qed.

Lemma interchange_Ok h i j :
  wf h → i < length (boxes h) → j < length (boxes h) →
  length (offsets h) = length (boxes h) →
  ∃ types,
    mapM (λ s, spider_types h !! s) (rewiring h (interchange_wires h i j))
    = Some types ∧
    interchange h (Z.of_nat i) (Z.of_nat j)
    = Ok (mkHypergraph (dom h) (cod h) (exchange i j (boxes h))
            (ren (rewiring h (interchange_wires h i j))
               <$> interchange_wires h i j)
            (normal_type <$> types) (exchange i j (offsets h))).
Proof.
  intros Hwf Hi Hj Hoff. rewrite interchange_unfold //.
  destruct (init_typed (dom h) (cod h) (exchange i j (boxes h))
              (interchange_wires h i j) (TypeSeq (spider_types h))
              (Some (exchange i j (offsets h)))) as (types & Ht & Hinit).
  { eapply typed_impl; [by apply interchange_wires_typed|].
    intros w t o _ Hw Hfit. exists t.
    by rewrite /= /dict_enumerate lookup_map_seq_0. }
  exists types. split.
  { rewrite -Ht. apply mapM_ext. intros s.
    by rewrite /= /dict_enumerate lookup_map_seq_0. }
  rewrite Hinit /rewiring /=. do 2 f_equal.
  destruct (exchange i j (offsets h)) as [|o os] eqn:Hex; [|done].
  apply (f_equal length) in Hex. rewrite length_exchange /= in Hex. lia.
Qed.

Lemma interchange_interchange h i j :
  wf h → i < length (boxes h) → j < length (boxes h) →
  length (offsets h) = length (boxes h) →
  ∃ h1, interchange h (Z.of_nat i) (Z.of_nat j) = Ok h1 ∧
        interchange h1 (Z.of_nat i) (Z.of_nat j) = Ok h.
Proof.
  intros Hwf Hi Hj Hoff.
  destruct (interchange_Ok h i j Hwf Hi Hj Hoff) as (types & Ht & Hh1).
  eexists. split; [exact Hh1|].
  set (ρ := ren (rewiring h (interchange_wires h i j))).
  set (ρρ := λ dc : list nat * list nat, (ρ <$> dc.1, ρ <$> dc.2)).
  set (bw' := ρρ <$> exchange i j (box_wires h)).
  pose proof (wf_length _ Hwf) as Hlen.
  rewrite /ports length_ports_of in Hlen.
  assert (length (take (length (dom h)) (wires h)) = length (dom h)) as Hwd.
  { rewrite length_take. lia. }
  assert (length (drop (length (wires h) - length (cod h)) (wires h))
          = length (cod h)) as Hwc.
  { rewrite length_drop. lia. }
  assert (ρ <$> interchange_wires h i j
          = (ρ <$> take (length (dom h)) (wires h))
            ++ mjoin (cat_wires <$> bw')
            ++ (ρ <$> drop (length (wires h) - length (cod h)) (wires h)))
    as Hw1.
  { by rewrite /interchange_wires !fmap_app join_fmap_cat. }
  assert (box_shaped (exchange i j (boxes h)) bw') as Hsh.
  { rewrite /bw'. apply Forall2_fmap_r, Forall2_exchange.
    eapply Forall2_impl; [by apply wf_box_shaped|].
    intros b [dw cw] [? ?]. simpl in *. by rewrite !length_fmap. }
  assert (length (mjoin (cat_wires <$> bw')) = n_box_ports (boxes h)) as Hmid.
  { rewrite /bw' -join_fmap_cat length_fmap exchange_perm.
    rewrite /box_wires /box_wires_of box_wires_from_join;
      [|by apply wf_box_ports_le].
    rewrite length_take length_drop. lia. }
  rewrite interchange_unfold /= ?length_exchange //.
  rewrite !exchange_exchange.
  rewrite /interchange_wires /box_wires /box_wires_of /= -/ρ Hw1.
  rewrite length_app length_app !length_fmap Hwc Hwd Hmid.
  replace (length (dom h) + (n_box_ports (boxes h) + length (cod h))
           - length (cod h))
    with (length (dom h) + n_box_ports (boxes h)) by lia.
  rewrite box_wires_from_rebuild; [|done|by rewrite length_fmap].
  rewrite take_app_length'; [|by rewrite length_fmap].
  rewrite (app_assoc (ρ <$> take _ _) (mjoin (cat_wires <$> bw'))).
  rewrite drop_app_length'; [|by rewrite length_app length_fmap Hwd Hmid].
  rewrite /bw' (exchange_fmap ρρ) exchange_exchange -join_fmap_cat.
  rewrite -!fmap_app -(wf_wires_decompose h Hwf).
  rewrite (rewire_back h (interchange_wires h i j) types) //;
    [|by apply interchange_wires_perm].
  rewrite offsets_or_fix //. by destruct h.
Qed.

End interchange.

(** X17: [interchange(i, j)] with both indices in range never raises,
    whether or not the two boxes are independent: it keeps the domain, the
    codomain and the number of spiders, exchanges the boxes at [i] and [j],
    and applied again with the same indices it gives back the hypergraph
    it started from.  With an index out of range it raises
    [IndexError]. *)
Theorem interchange_involution (C : Category) (L : CategoryLaws C)
    (h : Hypergraph) :
  constructed h → length (offsets h) = length (boxes h) →
  (∀ i j, i < length (boxes h) → j < length (boxes h) →
     ∃ h', interchange h (Z.of_nat i) (Z.of_nat j) = Ok h' ∧
       dom h' = dom h ∧ cod h' = cod h ∧
       length (boxes h') = length (boxes h) ∧
       boxes h' !! i = boxes h !! j ∧ boxes h' !! j = boxes h !! i ∧
       (∀ k, k ≠ i → k ≠ j → boxes h' !! k = boxes h !! k) ∧
       n_spiders h' = n_spiders h ∧
       interchange h' (Z.of_nat i) (Z.of_nat j) = Ok h) ∧
  (∀ i j : Z,
     ¬ (- Z.of_nat (length (boxes h)) ≤ i < Z.of_nat (length (boxes h)))%Z
     ∨ ¬ (- Z.of_nat (length (boxes h)) ≤ j < Z.of_nat (length (boxes h)))%Z →
     interchange h i j = Raise IndexError).
Proof.
  intros Hwf%constructed_wf Hoff. split.
  - intros i j Hi Hj.
    destruct (interchange_Ok h i j Hwf Hi Hj Hoff) as (types & Ht & Hh1).
    destruct (interchange_interchange h i j Hwf Hi Hj Hoff)
      as (h' & Hh' & Hback).
    exists h'. split; [done|]. rewrite Hh' in Hh1. injection Hh1 as ->.
    simpl. split_and!; try done.
    + apply length_exchange.
    + rewrite exchange_lookup // /transp decide_True //.
    + rewrite exchange_lookup // /transp. repeat case_decide; congruence.
    + intros k Hki Hkj. rewrite exchange_lookup // /transp.
      by rewrite !decide_False.
    + rewrite /n_spiders /= length_fmap -(length_mapM _ _ _ Ht).
      rewrite rewiring_perm ?length_seq //. by apply interchange_wires_perm.
  - intros i j Hout. rewrite /interchange (swap_items_out i j (boxes h)) //.
Qed.

Lemma interchange_involution_witness :
  ∃ h', interchange
          (mkHypergraph [Pivotal.x] [Pivotal.z]
             [Pivotal.Gen "f" [Pivotal.x] [Pivotal.y] false;
              Pivotal.Gen "g" [Pivotal.y] [Pivotal.z] false]
             [0; 0; 1; 1; 2; 2] [Pivotal.x; Pivotal.y; Pivotal.z]
             [None; None]) 0 1 = Ok h' ∧
    boxes h' = [Pivotal.Gen "g" [Pivotal.y] [Pivotal.z] false;
                Pivotal.Gen "f" [Pivotal.x] [Pivotal.y] false] ∧
    interchange h' 0 1
    = Ok (mkHypergraph [Pivotal.x] [Pivotal.z]
            [Pivotal.Gen "f" [Pivotal.x] [Pivotal.y] false;
             Pivotal.Gen "g" [Pivotal.y] [Pivotal.z] false]
            [0; 0; 1; 1; 2; 2] [Pivotal.x; Pivotal.y; Pivotal.z]
            [None; None]).
Proof.
  destruct (interchange_involution Pivotal.cat Pivotal_laws
              (mkHypergraph [Pivotal.x] [Pivotal.z]
                 [Pivotal.Gen "f" [Pivotal.x] [Pivotal.y] false;
                  Pivotal.Gen "g" [Pivotal.y] [Pivotal.z] false]
                 [0; 0; 1; 1; 2; 2] [Pivotal.x; Pivotal.y; Pivotal.z]
                 [None; None])) as [Hin _].
  { exists [Pivotal.x], [Pivotal.z],
      [Pivotal.Gen "f" [Pivotal.x] [Pivotal.y] false;
       Pivotal.Gen "g" [Pivotal.y] [Pivotal.z] false],
      [0; 0; 1; 1; 2; 2], NoTypes, None.
    vm_compute. reflexivity. }
  { reflexivity. }
  destruct (Hin 0 1) as (h' & Hh' & _ & _ & _ & _ & _ & _ & _ & Hback);
    [simpl; lia..|].
  exists h'. split; [exact Hh'|]. split; [|exact Hback].
  vm_compute in Hh'. injection Hh' as <-. reflexivity.
Defined.

(** ** Swapping twice *)

Section swap_swap.
Context `{C : Category} `{!CategoryLaws C}.
Implicit Types (l r : list Ob).

Lemma rot_rot a b i : i < a + b → rot b a (rot a b i) = i.
Proof. intros Hi. rewrite /rot. repeat case_decide; lia. Qed.

Lemma rot_lt a b i : i < a + b → rot a b i < a + b.
Proof. intros Hi. rewrite /rot. case_decide; lia. Qed.

Lemma lookup_rot_seq a b i :
  i < a + b → (seq b a ++ seq 0 b) !! i = Some (rot a b i).
Proof.
  intros Hi. rewrite -(rot_seq_l a b) -(rot_seq_r a b) -fmap_app -seq_app.
  rewrite list_lookup_fmap lookup_seq_lt //.
Qed.

Lemma n_spiders_swap l r : n_spiders (swap_hyp l r) = length l + length r.
Proof. by rewrite /n_spiders /= length_fmap length_app. Qed.

Lemma swap_cod_wire l r i :
  i < length l + length r →
  wires (swap_hyp l r) !! (length (wires (swap_hyp l r))
                           - length (cod (swap_hyp l r)) + i)
  = Some (rot (length r) (length l) i).
Proof.
  intros Hi. rewrite /= !length_app !length_seq ?length_app.
  replace (length l + length r - length l) with (length r) by lia.
  rewrite lookup_app_r length_seq; [|lia].
  replace (length l + length r + (length r + length l)
           - (length r + length l) + i - (length l + length r))
    with i by lia.
  apply lookup_rot_seq. lia.
Qed.

Lemma swap_dom_wire l r i :
  i < length l + length r → wires (swap_hyp l r) !! i = Some i.
Proof.
  intros Hi. rewrite /= length_app lookup_app_l ?length_seq //.
  by rewrite lookup_seq_lt.
Qed.

Lemma then_pairs_swap l r a b :
  (a, b) ∈ then_pairs (swap_hyp l r) (swap_hyp r l) ↔
  ∃ p, p < length l + length r ∧
       a = rot (length r) (length l) p ∧ b = length l + length r + p.
Proof.
  rewrite then_pairs_lookup n_spiders_swap /=. split.
  - intros (i & b' & -> & Ha & Hi & Hb). rewrite length_app in Hi.
    rewrite (swap_cod_wire l r i) in Ha; [|lia]. injection Ha as <-.
    rewrite (swap_dom_wire r l i) in Hb; [|lia]. injection Hb as <-.
    exists i. split; [lia|done].
  - intros (p & Hp & -> & ->). exists p, p. split_and!; [done| | |].
    + by apply (swap_cod_wire l r p).
    + rewrite length_app. lia.
    + apply (swap_dom_wire r l p). lia.
Qed.

Lemma then_swap_swap l r :
  then_ (swap_hyp l r) (swap_hyp r l) = Ok (id_hyp (l ++ r)).
Proof.
  set (S := swap_hyp l r). set (S' := swap_hyp r l).
  set (n := length l + length r).
  pose proof (swap_wf l r) as HS. pose proof (swap_wf r l) as HS'.
  pose proof (n_spiders_swap l r) as HnS.
  pose proof (n_spiders_swap r l) as HnS'.
  rewrite -/S -/n in HnS. rewrite -/S' in HnS'.
  assert (n_spiders S + n_spiders S' = n + n) as Hnn by (rewrite /n; lia).
  rewrite then_unfold //.
  assert (∀ p, p < n →
            then_right S S' p = then_left S S' (rot (length r) (length l) p))
    as Hpair.
  { intros p Hp. rewrite /then_left /then_right. f_equal. symmetry.
    apply ids_pair.
    - apply then_pairs_swap. exists p. rewrite HnS. done.
    - pose proof (rot_lt (length r) (length l) p). lia.
    - lia. }
  assert (then_wires S S' = then_left S S' <$> wires (id_hyp (l ++ r))) as ->.
  { rewrite /then_wires /= !length_app !length_seq ?length_app.
    replace (length l + length r - length l) with (length r) by lia.
    replace (length r + length l - length r) with (length l) by lia.
    replace (length l + length r + (length r + length l)
             - (length r + length l)) with (length l + length r) by lia.
    rewrite take_app_length' ?length_seq // drop_app_length' ?length_seq //.
    rewrite (fmap_app (then_left S S')).
    f_equal.
    apply list_eq. intros i. rewrite !list_lookup_fmap.
    destruct (decide (i < n)) as [Hi|Hi].
    - rewrite (lookup_rot_seq (length l) (length r)); [|rewrite /n in Hi; lia].
      rewrite lookup_seq_lt //=. f_equal.
      rewrite Hpair; [|apply rot_lt; rewrite /n in Hi; lia].
      rewrite rot_rot //; rewrite /n in Hi; lia.
    - rewrite !lookup_ge_None_2 // ?length_app ?length_seq; rewrite /n in Hi; lia. }
  change (dom S) with (dom (id_hyp (l ++ r))).
  change (cod S') with (cod (id_hyp (l ++ r))).
  change (boxes S ++ boxes S') with (boxes (id_hyp (l ++ r))).
  pose (c := λ x, if decide (x < n) then x
                  else rot (length r) (length l) (x - n)).
  assert (∀ a b, (a, b) ∈ then_pairs S S' → c a = c b) as Hc.
  { intros a b (p & Hp & -> & ->)%then_pairs_swap.
    pose proof (rot_lt (length r) (length l) p).
    rewrite /c decide_True; [|rewrite /n; lia].
    rewrite decide_False; [|rewrite /n; lia]. f_equal. rewrite /n. lia. }
  rewrite (init_relabel (id_hyp (l ++ r)) (then_left S S')) //.
  - apply id_wf.
  - rewrite n_spiders_id length_app -/n. intros i j Hi Hj Hij.
    apply then_ids_default in Hij; [|lia..].
    assert (c i = c j) as Hcij.
    { eapply (ids_class c (n_spiders S + n_spiders S') (then_pairs S S'));
        [done|lia|lia|exact Hij]. }
    by rewrite /c !decide_True in Hcij.
  - rewrite n_spiders_id length_app -/n. intros i Hi.
    destruct (lookup_lt_is_Some_2 (spider_types (id_hyp (l ++ r))) i)
      as [o Ho].
    { by rewrite /= length_fmap length_app. }
    rewrite Ho. apply then_dict; [done..|lia|].
    by rewrite /then_type decide_True // HnS.
  - rewrite n_spiders_id length_app -/n.
    intros key [o Ho]. simpl in Ho.
    apply dict_update_Some in Ho as [Ho|Ho]; [|by rewrite lookup_empty in Ho].
    apply elem_of_then_types in Ho as (x & Hx & Ho).
    assert (x < n + n) as Hxn.
    { rewrite -Hnn -length_then_ids. by eapply lookup_lt_Some. }
    destruct (decide (x < n)) as [Hlt|Hge].
    + exists x. split; [done|]. by rewrite /then_left Hx.
    + exists (rot (length r) (length l) (x - n)). split.
      { pose proof (rot_lt (length r) (length l) (x - n)) as Hrot.
        rewrite /n in Hxn Hge Hrot |- *. lia. }
      rewrite -Hpair; [|lia]. rewrite /then_right HnS.
      replace (n + (x - n)) with x by lia. by rewrite Hx.
  - rewrite n_spiders_id length_app -/n. intros i j Hi Hij Hj. exfalso.
    apply Hi. rewrite /= length_app. apply elem_of_app. left.
    apply elem_of_seq. rewrite /n in Hj. lia.
Qed.

End swap_swap.

(** X18: [swap(left, right) >> swap(right, left)] is the identity of
    [left @ right], field by field. *)
Theorem swap_involution (C : Category) (L : CategoryLaws C) (l r : list Ob) :
  ∃ s s' i, swap l r = Ok s ∧ swap r l = Ok s' ∧ id (l ++ r) = Ok i ∧
            then_ s s' = Ok i.
Proof.
  exists (swap_hyp l r), (swap_hyp r l), (id_hyp (l ++ r)).
  split_and!; [apply swap_spec..|apply id_spec|apply then_swap_swap].
Qed.

Lemma swap_involution_witness :
  ∃ s s' i, swap [Pivotal.x] [Pivotal.y] = Ok s ∧
    swap [Pivotal.y] [Pivotal.x] = Ok s' ∧
    id [Pivotal.x; Pivotal.y] = Ok i ∧ then_ s s' = Ok i.
Proof.
  exact (swap_involution Pivotal.cat Pivotal_laws [Pivotal.x] [Pivotal.y]).
Defined.

(** ** Planarisation: moving a wire along the scan *)

Section moves.
Context {A : Type}.
Implicit Types (l c : list A).

(** The element at [j] moved left to position [i], and the element at [j]
    moved right to position [i - 1]. *)
Definition move_left (i j : nat) l : list A :=
  take i l ++ slice j (j + 1) l ++ slice i j l ++ drop (j + 1) l.

Definition move_right (j i : nat) l : list A :=
  take j l ++ slice (j + 1) i l ++ slice j (j + 1) l ++ drop i l.

Lemma clip_of_nat n (a : nat) : clip n (Z.of_nat a) = a `min` n.
Proof. rewrite /clip decide_False; lia. Qed.

Lemma slice_min (a b : nat) l :
  slice (a `min` length l) (b `min` length l) l = slice a b l.
Proof.
  rewrite /slice. destruct (decide (length l ≤ a)) as [Ha|Ha].
  - rewrite !drop_ge; [by rewrite !take_nil|lia..].
  - replace (a `min` length l) with a by lia.
    destruct (decide (b ≤ length l)) as [Hb|Hb].
    + by replace (b `min` length l) with b by lia.
    + rewrite !take_ge ?length_drop //; lia.
Qed.

Lemma zslice_of_nat (a b : nat) l :
  zslice (Z.of_nat a) (Z.of_nat b) l = slice a b l.
Proof. by rewrite /zslice !clip_of_nat slice_min. Qed.

Lemma zslice_to_of_nat (b : nat) l : zslice_to (Z.of_nat b) l = take b l.
Proof.
  rewrite /zslice_to (zslice_of_nat 0 b) /slice drop_0. f_equal. lia.
Qed.

Lemma zslice_from_of_nat (a : nat) l : zslice_from (Z.of_nat a) l = drop a l.
Proof.
  rewrite /zslice_from zslice_of_nat /slice take_ge // length_drop. lia.
Qed.

Lemma slice_one j l x : l !! j = Some x → slice j (j + 1) l = [x].
Proof.
  intros Hx. rewrite /slice. replace (j + 1 - j) with 1 by lia.
  rewrite (drop_S _ _ _ Hx) /=. by rewrite take_0.
Qed.

Lemma slice_split i j l x :
  i ≤ j → l !! j = Some x →
  l = take i l ++ slice i j l ++ [x] ++ drop (j + 1) l.
Proof.
  intros Hij Hx. rewrite /slice.
  rewrite -{1}(take_drop i l). f_equal.
  rewrite -{1}(take_drop (j - i) (drop i l)). f_equal.
  rewrite drop_drop. replace (i + (j - i)) with j by lia.
  rewrite (drop_S _ _ _ Hx). by replace (j + 1) with (S j) by lia.
Qed.

Lemma move_left_eq i j l x :
  l !! j = Some x →
  move_left i j l = take i l ++ [x] ++ slice i j l ++ drop (j + 1) l.
Proof. intros Hx. by rewrite /move_left (slice_one j l x). Qed.

Lemma move_left_perm i j l : i ≤ j → j < length l → move_left i j l ≡ₚ l.
Proof.
  intros Hij Hj. destruct (lookup_lt_is_Some_2 l j Hj) as [x Hx].
  rewrite (move_left_eq i j l x) //.
  trans (take i l ++ slice i j l ++ [x] ++ drop (j + 1) l);
    [|by rewrite -slice_split].
  apply Permutation_app; [done|]. rewrite !app_assoc.
  apply Permutation_app; [|done]. apply Permutation_app_comm.
Qed.

Lemma length_slice i j l : j ≤ length l → length (slice i j l) = j - i.
Proof. intros Hj. rewrite /slice length_take length_drop. lia. Qed.

Lemma move_left_lookup_lt i j l k :
  k < i → i ≤ j → j < length l → move_left i j l !! k = l !! k.
Proof.
  intros Hk Hij Hj. rewrite /move_left lookup_app_l ?length_take; [|lia].
  by rewrite lookup_take_lt.
Qed.

Lemma move_left_lookup_eq i j l :
  i ≤ j → j < length l → move_left i j l !! i = l !! j.
Proof.
  intros Hij Hj. destruct (lookup_lt_is_Some_2 l j Hj) as [x Hx].
  rewrite (move_left_eq i j l x) // lookup_app_r length_take; [|lia].
  replace (i - i `min` length l) with 0 by lia. by rewrite Hx.
Qed.

Lemma move_right_eq j i l x :
  l !! j = Some x →
  move_right j i l = take j l ++ slice (j + 1) i l ++ [x] ++ drop i l.
Proof. intros Hx. by rewrite /move_right (slice_one j l x). Qed.

Lemma slice_split_r j i l x :
  j < i → l !! j = Some x →
  l = take j l ++ [x] ++ slice (j + 1) i l ++ drop i l.
Proof.
  intros Hji Hx. rewrite /slice.
  rewrite -{1}(take_drop j l). f_equal.
  rewrite (drop_S _ _ _ Hx) /=. f_equal.
  replace (j + 1) with (S j) by lia.
  rewrite -{1}(take_drop (i - S j) (drop (S j) l)). f_equal.
  rewrite drop_drop. f_equal. lia.
Qed.

Lemma move_right_perm j i l : j < i → i ≤ length l → move_right j i l ≡ₚ l.
Proof.
  intros Hji Hi. destruct (lookup_lt_is_Some_2 l j) as [x Hx]; [lia|].
  rewrite (move_right_eq j i l x) //.
  trans (take j l ++ [x] ++ slice (j + 1) i l ++ drop i l);
    [|by rewrite -slice_split_r].
  apply Permutation_app; [done|]. rewrite !app_assoc.
  apply Permutation_app; [|done]. apply Permutation_app_comm.
Qed.

Lemma move_right_lookup_mid j i l k :
  j ≤ k → k + 1 < i → i ≤ length l → move_right j i l !! k = l !! (k + 1).
Proof.
  intros Hjk Hki Hi. rewrite /move_right.
  rewrite lookup_app_r length_take; [|lia].
  rewrite lookup_app_l ?length_slice; [|lia..].
  rewrite /slice lookup_take_lt; [|lia]. rewrite lookup_drop. f_equal. lia.
Qed.

Lemma move_right_lookup_last j i l :
  j < i → i ≤ length l → move_right j i l !! (i - 1) = l !! j.
Proof.
  intros Hji Hi. destruct (lookup_lt_is_Some_2 l j) as [x Hx]; [lia|].
  rewrite (move_right_eq j i l x) //.
  rewrite lookup_app_r length_take; [|lia].
  rewrite lookup_app_r ?length_slice; [|lia..].
  replace (i - 1 - j `min` length l - (i - (j + 1))) with 0 by lia.
  by rewrite Hx.
Qed.

End moves.

Lemma Forall2_slice {A B} (P : A → B → Prop) i j l c :
  Forall2 P l c → Forall2 P (slice i j l) (slice i j c).
Proof. intros HP. by apply Forall2_take, Forall2_drop. Qed.

Lemma Forall2_move_left {A B} (P : A → B → Prop) i j l c :
  Forall2 P l c → Forall2 P (move_left i j l) (move_left i j c).
Proof.
  intros HP. rewrite /move_left.
  repeat apply Forall2_app; try by apply Forall2_slice.
  - by apply Forall2_take.
  - by apply Forall2_drop.
Qed.

Lemma Forall2_move_right {A B} (P : A → B → Prop) j i l c :
  Forall2 P l c → Forall2 P (move_right j i l) (move_right j i c).
Proof.
  intros HP. rewrite /move_right.
  repeat apply Forall2_app; try by apply Forall2_slice.
  - by apply Forall2_take.
  - by apply Forall2_drop.
Qed.

Lemma NoDup_app_middle {A} (l1 l2 l3 : list A) x :
  NoDup (l1 ++ l2 ++ l3) → (x ∈ l1 ++ l3 ↔ x ∈ l1 ++ l2 ++ l3 ∧ x ∉ l2).
Proof.
  rewrite !NoDup_app !elem_of_app. intros (H1 & H12 & H2 & H23 & H3).
  split.
  - intros [Hx|Hx]; (split; [tauto|]); intros Hx2.
    + apply (H12 x Hx). apply elem_of_app. by left.
    + by apply (H23 x Hx2).
  - intros [[Hx|[Hx|Hx]] Hn]; tauto.
Qed.

Lemma take_slice_drop {A} (l : list A) o a :
  l = take o l ++ slice o (o + a) l ++ drop (o + a) l.
Proof.
  rewrite /slice. replace (o + a - o) with a by lia.
  by rewrite -drop_drop take_drop take_drop.
Qed.

Lemma lookup_slice {A} (l : list A) i j k :
  k < j - i → slice i j l !! k = l !! (i + k).
Proof. intros Hk. by rewrite /slice lookup_take_lt // lookup_drop. Qed.

Lemma NoDup_replace_middle {A} (l1 l2 l2' l3 : list A) :
  NoDup (l1 ++ l2 ++ l3) → NoDup l2' →
  (∀ x, x ∈ l2' → x ∉ l1 ++ l2 ++ l3) →
  NoDup (l1 ++ l2' ++ l3).
Proof.
  rewrite !NoDup_app. intros (H1 & H12 & H2 & H23 & H3) H2' Hnew.
  split_and!; try done.
  - intros x Hx [Hx'|Hx']%elem_of_app.
    + apply (Hnew x Hx'). apply elem_of_app. by left.
    + apply (H12 x Hx). apply elem_of_app. by right.
  - intros x Hx Hx'. apply (Hnew x Hx). rewrite !elem_of_app. tauto.
Qed.

Lemma lookup_app_3 {A} (l1 l2 l3 l4 : list A) n1 n2 k :
  length l1 = n1 → length l2 = n2 → k < length l3 →
  (l1 ++ l2 ++ l3 ++ l4) !! (n1 + n2 + k) = l3 !! k.
Proof.
  intros <- <- Hk. rewrite lookup_app_r; [|lia]. rewrite lookup_app_r; [|lia].
  rewrite lookup_app_l; [|lia]. f_equal. lia.
Qed.

Lemma lookup_app_4 {A} (l1 l2 l3 l4 l5 : list A) n1 n2 n3 k :
  length l1 = n1 → length l2 = n2 → length l3 = n3 → k < length l4 →
  (l1 ++ l2 ++ l3 ++ l4 ++ l5) !! (n1 + n2 + n3 + k) = l4 !! k.
Proof.
  intros <- <- <- Hk. rewrite lookup_app_r; [|lia].
  rewrite lookup_app_r; [|lia]. rewrite lookup_app_r; [|lia].
  rewrite lookup_app_l; [|lia]. f_equal. lia.
Qed.

Section layout.
Context `{C : Category}.
Implicit Types (dom cod : list Ob) (boxes pre rest : list Box) (b : Box).

Lemma length_join_box_sides boxes :
  length (mjoin (box_sides <$> boxes)) = n_box_ports boxes.
Proof. done. Qed.

(** The ports of the domain. *)
Lemma layout_dom dom cod boxes i :
  i < length dom →
  sides_of dom cod boxes !! i = Some true ∧
  port_objs dom cod boxes !! i = dom !! i.
Proof.
  intros Hi. rewrite /sides_of /port_objs. split.
  - rewrite lookup_app_l ?length_replicate //. by apply lookup_replicate_2.
  - by rewrite lookup_app_l.
Qed.

(** The ports of a box. *)
Lemma layout_box dom cod pre b rest :
  let q := length dom + n_box_ports pre in
  (∀ k, k < length (box_dom b) →
     sides_of dom cod (pre ++ b :: rest) !! (q + k) = Some false ∧
     port_objs dom cod (pre ++ b :: rest) !! (q + k) = box_dom b !! k) ∧
  (∀ k, k < length (box_cod b) →
     sides_of dom cod (pre ++ b :: rest) !! (q + length (box_dom b) + k)
     = Some true ∧
     port_objs dom cod (pre ++ b :: rest) !! (q + length (box_dom b) + k)
     = box_cod b !! k).
Proof.
  intros q. rewrite /sides_of /port_objs !fmap_app !fmap_cons !join_app /=.
  rewrite /box_sides /box_objs -!app_assoc /q.
  split; intros k Hk; split.
  - rewrite lookup_app_3 ?length_replicate //.
    by apply lookup_replicate_2.
  - rewrite lookup_app_3 //. apply length_boxes_objs.
  - rewrite lookup_app_4 ?length_replicate //.
    by apply lookup_replicate_2.
  - rewrite lookup_app_4 //. apply length_boxes_objs.
Qed.

(** The ports of the codomain. *)
Lemma layout_cod dom cod boxes i :
  i < length cod →
  sides_of dom cod boxes !! (length dom + n_box_ports boxes + i) = Some false ∧
  port_objs dom cod boxes !! (length dom + n_box_ports boxes + i) = cod !! i.
Proof.
  intros Hi. rewrite /sides_of /port_objs. split.
  - rewrite -(app_nil_r (replicate (length cod) false)).
    rewrite lookup_app_3 ?length_replicate //. by apply lookup_replicate_2.
  - rewrite -{1}(app_nil_r cod) lookup_app_3 //. apply length_boxes_objs.
Qed.

Lemma zip_replicate_None {A B} (l : list A) (y : B) :
  zip l (replicate (length l) y) = (λ x, (x, y)) <$> l.
Proof. induction l as [|x l IH]; [done|]. by rewrite /= IH. Qed.

End layout.

(** ** Planarisation of a causal and monogamous hypergraph *)

Section planarise.
Context `{C : Category} `{D : !Diagrams C} `{!DiagramLaws C D}.
Variable h : Hypergraph.

Local Abbreviation sides := (sides_of (dom h) (cod h) (boxes h)).
Local Abbreviation objs := (port_objs (dom h) (cod h) (boxes h)).
Local Abbreviation ws := (wires h).

(** Every spider has one port that feeds it and one port it feeds, the
    former before the latter, and both of the same type. *)
Hypothesis one_port : ∀ σ p p' s,
  sides !! p = Some σ → sides !! p' = Some σ →
  ws !! p = Some s → ws !! p' = Some s → p = p'.
Hypothesis forward : ∀ p p' s,
  sides !! p = Some true → sides !! p' = Some false →
  ws !! p = Some s → ws !! p' = Some s → p < p'.
Hypothesis both_ports : ∀ p s,
  ws !! p = Some s →
  ∃ p1 p2, sides !! p1 = Some true ∧ ws !! p1 = Some s ∧
           sides !! p2 = Some false ∧ ws !! p2 = Some s.
Hypothesis same_type : ∀ p p' s,
  ws !! p = Some s → ws !! p' = Some s → objs !! p = objs !! p'.
Hypothesis wires_length : length ws = length sides.

(** The spiders that cross the boundary before port [q]: fed by a port
    before it, feeding a port after it. *)
Definition live (q s : nat) : Prop :=
  ∃ p p', p < q ∧ q ≤ p' ∧ sides !! p = Some true ∧ ws !! p = Some s ∧
          sides !! p' = Some false ∧ ws !! p' = Some s.

Definition scan_ok (q : nat) (scan : list nat) : Prop :=
  NoDup scan ∧ ∀ s, s ∈ scan ↔ live q s.

(** The type of a spider: that of any of its ports. *)
Definition wire_type (s : nat) (o : Ob) : Prop :=
  ∃ p, ws !! p = Some s ∧ objs !! p = Some o.

Definition aligned (d : Diagram) (scan : list nat) : Prop :=
  diag_dom d = dom h ∧ Forall2 wire_type scan (diag_cod d).

Lemma whisker_dom l d r :
  diag_dom (whisker l d r) = l ++ diag_dom d ++ r.
Proof.
  by rewrite /whisker !diag_tensor_dom !diag_id_dom -app_assoc.
Qed.

Lemma whisker_cod l d r :
  diag_cod (whisker l d r) = l ++ diag_cod d ++ r.
Proof.
  by rewrite /whisker !diag_tensor_cod !diag_id_cod -app_assoc.
Qed.

Lemma then_whisker d l e r :
  diag_cod d = l ++ diag_dom e ++ r →
  ∃ d', diag_then d (whisker l e r) = Ok d' ∧
    diag_dom d' = diag_dom d ∧ diag_cod d' = l ++ diag_cod e ++ r.
Proof.
  intros Hcod. destruct (diag_then_Ok d (whisker l e r)) as (d' & ? & ? & Hc).
  { by rewrite whisker_dom. }
  exists d'. by rewrite Hc whisker_cod.
Qed.

Lemma sink_live q p s :
  q ≤ p → sides !! p = Some false → ws !! p = Some s →
  (∀ p', q ≤ p' → p' < p → sides !! p' = Some false) →
  live q s.
Proof.
  intros Hqp Hside Hs Hbetween.
  destruct (both_ports p s Hs) as (p1 & p2 & Hs1 & Hw1 & _).
  exists p1, p. split_and!; try done.
  pose proof (forward p1 p s Hs1 Hside Hw1 Hs) as Hlt.
  destruct (decide (p1 < q)) as [|Hge]; [done|].
  rewrite Hbetween in Hs1; [done|lia..].
Qed.

(** The first input of a box fixes the offset. *)
Lemma place_dom_first q d scan w :
  aligned d scan → w ∈ scan → ws !! q = Some w →
  ∃ j, index w scan = Some j ∧
    place_dom h q 0 (d, scan, None) = Ok (d, scan, Some (Z.of_nat j)).
Proof.
  intros [_ Hal] Hin Hw. apply index_is_Some in Hin as [j Hj].
  exists j. split; [done|].
  rewrite /place_dom Nat.add_0_r Hw /= Hj /= decide_True //=.
  by eapply Forall2_length.
Qed.

(** A further input is moved next to the inputs already placed. *)
Lemma place_dom_next q i o d scan w :
  0 < i → aligned d scan → NoDup scan → w ∈ scan →
  ws !! (q + i) = Some w →
  (∀ k, k < i → ∃ wk, scan !! (o + k) = Some wk ∧ ws !! (q + k) = Some wk
                      ∧ wk ≠ w) →
  ∃ d' scan' o',
    place_dom h q i (d, scan, Some (Z.of_nat o))
    = Ok (d', scan', Some (Z.of_nat o')) ∧
    aligned d' scan' ∧ scan' ≡ₚ scan ∧
    ∀ k, k < i + 1 → scan' !! (o' + k) = ws !! (q + k).
Proof.
  intros Hi [Hdom Hal] Hnd Hin Hw Hplaced.
  pose proof (Forall2_length _ _ _ Hal) as Hlen.
  apply index_is_Some in Hin as [j Hj].
  pose proof (index_lookup _ _ _ Hj) as Hsj.
  pose proof (index_lt _ _ _ Hj) as Hjlt.
  assert (∀ k, k < i → j ≠ o + k) as Hjne.
  { intros k Hk ->. destruct (Hplaced k Hk) as (wk & Hwk & _ & Hne).
    congruence. }
  assert (o + i ≤ length scan) as Hoi.
  { destruct (Hplaced (i - 1)) as (wk & Hwk%lookup_lt_Some & _); lia. }
  destruct (lookup_lt_is_Some_2 (diag_cod d) j) as [cj Hcj]; [lia|].
  rewrite /place_dom Hw /= Hj /=.
  rewrite decide_False; [|intros [_ [=]]]. simpl.
  replace (Z.of_nat o + Z.of_nat i)%Z with (Z.of_nat (o + i)) by lia.
  replace (Z.of_nat j + 1)%Z with (Z.of_nat (j + 1)) by lia.
  destruct (decide (o + i < j)) as [Hlt|Hge].
  - (* the wire is to the right: it moves left to [o + i] *)
    rewrite decide_True; [|lia]. rewrite Hcj /=.
    rewrite !zslice_to_of_nat !zslice_of_nat !zslice_from_of_nat.
    destruct (then_whisker d (take (o + i) (diag_cod d))
                (diag_swap (slice (o + i) j (diag_cod d)) [cj])
                (drop (j + 1) (diag_cod d))) as (d' & -> & Hd' & Hc').
    { rewrite diag_swap_dom -app_assoc.
      apply slice_split; [lia|done]. }
    rewrite diag_swap_cod in Hc'. simpl.
    assert ((take (o + i) scan ++ slice j (j + 1) scan)
            ++ slice (o + i) j scan ++ drop (j + 1) scan
            = move_left (o + i) j scan) as ->.
    { by rewrite /move_left -!app_assoc. }
    assert (diag_cod d' = move_left (o + i) j (diag_cod d)) as Hcod'.
    { by rewrite Hc' (move_left_eq _ _ _ cj). }
    rewrite decide_True.
    2:{ rewrite Hcod' (Permutation_length (move_left_perm _ _ _ _ _));
          [rewrite (Permutation_length (move_left_perm _ _ _ _ _))|..];
          lia. }
    eexists d', _, o. split; [done|]. split_and!.
    + split; [congruence|]. rewrite Hcod'. by apply Forall2_move_left.
    + apply move_left_perm; lia.
    + intros k Hk. destruct (decide (k = i)) as [->|Hki].
      * rewrite move_left_lookup_eq; [|lia..]. by rewrite Hsj Hw.
      * rewrite move_left_lookup_lt; [|lia..].
        destruct (Hplaced k) as (wk & -> & -> & _); [lia|done].
  - destruct (decide (j < o + i)) as [Hlt|Hge'].
    + (* the wire is to the left: it moves right, the offset decreases *)
      assert (j < o) as Hjo.
      { destruct (decide (j < o)) as [|Hn]; [done|].
        destruct (Hjne (j - o)); lia. }
      rewrite decide_False; [|lia]. rewrite decide_True; [|lia].
      rewrite Hcj /=.
      rewrite !zslice_to_of_nat !zslice_of_nat !zslice_from_of_nat.
      destruct (then_whisker d (take j (diag_cod d))
                  (diag_swap [cj] (slice (j + 1) (o + i) (diag_cod d)))
                  (drop (o + i) (diag_cod d))) as (d' & -> & Hd' & Hc').
      { rewrite diag_swap_dom -app_assoc.
        apply slice_split_r; [lia|done]. }
      rewrite diag_swap_cod in Hc'. simpl.
      assert ((take j scan ++ slice (j + 1) (o + i) scan)
              ++ slice j (j + 1) scan ++ drop (o + i) scan
              = move_right j (o + i) scan) as ->.
      { by rewrite /move_right -!app_assoc. }
      assert (diag_cod d' = move_right j (o + i) (diag_cod d)) as Hcod'.
      { by rewrite Hc' (move_right_eq _ _ _ cj) // -!app_assoc. }
      rewrite decide_True.
      2:{ rewrite Hcod' (Permutation_length (move_right_perm _ _ _ _ _));
            [rewrite (Permutation_length (move_right_perm _ _ _ _ _))|..];
            lia. }
      replace (Z.of_nat o - 1)%Z with (Z.of_nat (o - 1)) by lia.
      eexists d', _, (o - 1). split; [done|]. split_and!.
      * split; [congruence|]. rewrite Hcod'. by apply Forall2_move_right.
      * apply move_right_perm; lia.
      * intros k Hk. destruct (decide (k = i)) as [->|Hki].
        -- replace (o - 1 + i) with (o + i - 1) by lia.
           rewrite move_right_lookup_last; [|lia..]. by rewrite Hsj Hw.
        -- rewrite move_right_lookup_mid; [|lia..].
           replace (o - 1 + k + 1) with (o + k) by lia.
           destruct (Hplaced k) as (wk & -> & -> & _); [lia|done].
    + (* the wire is in place *)
      assert (j = o + i) as -> by lia.
      rewrite decide_False; [|lia]. rewrite decide_False; [|lia]. simpl.
      rewrite decide_True //.
      eexists d, scan, o. split; [done|]. split_and!; [done|done|].
      intros k Hk. destruct (decide (k = i)) as [->|Hki].
      * by rewrite Hsj Hw.
      * destruct (Hplaced k) as (wk & -> & -> & _); [lia|done].
Qed.

Lemma place_doms_spec q a :
  (∀ k, k < a → sides !! (q + k) = Some false) →
  (∀ k, k < a → is_Some (ws !! (q + k))) →
  ∀ n i o d scan,
    i + n = a → 0 < i → aligned d scan → NoDup scan →
    (∀ k w, k < a → ws !! (q + k) = Some w → w ∈ scan) →
    (∀ k, k < i → scan !! (o + k) = ws !! (q + k)) →
    ∃ d' scan' o',
      place_doms h q (seq i n) (d, scan, Some (Z.of_nat o))
      = Ok (d', scan', Some (Z.of_nat o')) ∧
      aligned d' scan' ∧ scan' ≡ₚ scan ∧
      ∀ k, k < a → scan' !! (o' + k) = ws !! (q + k).
Proof.
  intros Hsides Hws n. induction n as [|n IH]; intros i o d scan Hin Hi Hal Hnd Hmem Hplaced.
  { exists d, scan, o. split_and!; [done..|].
    intros k Hk. apply Hplaced. lia. }
  destruct (Hws i) as [w Hw]; [lia|].
  destruct (place_dom_next q i o d scan w) as (d1 & scan1 & o1 & Hstep & Hal1 & Hperm1 & Hpl1);
    [done|done|done|by eapply (Hmem i); [lia|]|done| |].
  { intros k Hk. destruct (Hws k) as [wk Hwk]; [lia|].
    exists wk. split_and!; [by rewrite Hplaced|done|].
    intros ->.
    assert (q + k = q + i); [|lia].
    eapply (one_port false); [apply Hsides; lia|apply Hsides; lia|done..]. }
  destruct (IH (S i) o1 d1 scan1) as (d' & scan' & o' & Hrun & Hal' & Hperm' & Hpl');
    [lia|lia|done|by rewrite Hperm1| | |].
  { intros k w' Hk Hw'. rewrite Hperm1. by eapply Hmem. }
  { intros k Hk. apply Hpl1. lia. }
  exists d', scan', o'. split_and!; [|done|by etrans|done].
  cbn [seq place_doms]. rewrite Hstep. exact Hrun.
Qed.

(** The inputs of a box end up side by side. *)
Lemma place_doms_box q a d scan :
  aligned d scan → scan_ok q scan →
  (∀ k, k < a → sides !! (q + k) = Some false) →
  (∀ k, k < a → is_Some (ws !! (q + k))) →
  ∃ d' scan' off o,
    place_doms h q (seq 0 a) (d, scan, None) = Ok (d', scan', off) ∧
    default 0%Z off = Z.of_nat o ∧ o + a ≤ length scan' ∧
    aligned d' scan' ∧ scan' ≡ₚ scan ∧
    ∀ k, k < a → scan' !! (o + k) = ws !! (q + k).
Proof.
  intros Hal [Hnd Hscan] Hsides Hws.
  assert (∀ k w, k < a → ws !! (q + k) = Some w → w ∈ scan) as Hmem.
  { intros k w Hk Hw. apply Hscan.
    eapply (sink_live q (q + k)); [lia|by apply Hsides|done|].
    intros p' Hq Hp'. replace p' with (q + (p' - q)) by lia.
    apply Hsides. lia. }
  destruct a as [|a].
  { exists d, scan, None, 0. split_and!; [done|done|simpl; lia|done|done|].
    intros k Hk. lia. }
  destruct (Hws 0) as [w Hw]; [lia|]. rewrite Nat.add_0_r in Hw.
  destruct (place_dom_first q d scan w) as (j & Hj & Hfirst);
    [done|by eapply (Hmem 0); [lia|rewrite Nat.add_0_r]|done|].
  destruct (place_doms_spec q (S a) Hsides Hws a 1 j d scan)
    as (d' & scan' & o' & Hrun & Hal' & Hperm' & Hpl');
    [done|lia|done|done|done| |].
  { intros k Hk. replace k with 0 by lia.
    rewrite !Nat.add_0_r Hw. by apply index_lookup. }
  exists d', scan', (Some (Z.of_nat o')), o'.
  split_and!; [|done| |done|done|done].
  - cbn [seq place_doms]. rewrite Hfirst. exact Hrun.
  - destruct (Hws a) as [wa Hwa]; [lia|].
    specialize (Hpl' a ltac:(lia)). rewrite Hwa in Hpl'.
    apply lookup_lt_Some in Hpl'. lia.
Qed.

Lemma aligned_slice d scan q o a (ts : list Ob) :
  aligned d scan → o + a ≤ length scan → length ts = a →
  (∀ k, k < a → is_Some (ws !! (q + k))) →
  (∀ k, k < a → scan !! (o + k) = ws !! (q + k)) →
  (∀ k, k < a → objs !! (q + k) = ts !! k) →
  slice o (o + a) (diag_cod d) = ts.
Proof.
  intros [_ Hal] Hoa Hts Hws Hscan Hobjs.
  pose proof (Forall2_length _ _ _ Hal) as Hlen.
  apply list_eq_same_length with a; [done| |].
  { rewrite length_slice; lia. }
  intros k x y Hk Hx Hy. rewrite lookup_slice in Hx; [|lia].
  destruct (Hws k Hk) as [w Hw].
  assert (scan !! (o + k) = Some w) as Hs by by rewrite Hscan.
  destruct (Forall2_lookup_lr _ _ _ _ _ _ Hal Hs Hx) as (p & Hp & Hpx).
  rewrite (same_type p (q + k) w) // Hobjs // in Hpx. congruence.
Qed.

Lemma elem_of_slice_ws q a s :
  q + a ≤ length ws →
  s ∈ slice q (q + a) ws ↔ ∃ k, k < a ∧ ws !! (q + k) = Some s.
Proof.
  intros Hlen. rewrite list_elem_of_lookup. split.
  - intros [k Hk]. assert (k < a) as Hka.
    { apply lookup_lt_Some in Hk. rewrite length_slice in Hk; lia. }
    rewrite lookup_slice in Hk; [|lia]. by exists k.
  - intros (k & Hk & Hs). exists k. rewrite lookup_slice; [done|lia].
Qed.

(** One box: its inputs leave the scan, its outputs enter it. *)
Lemma place_box_spec q b d scan :
  aligned d scan → scan_ok q scan →
  q + length (box_dom b) + length (box_cod b) ≤ length ws →
  (∀ k, k < length (box_dom b) →
     sides !! (q + k) = Some false ∧ objs !! (q + k) = box_dom b !! k) →
  (∀ k, k < length (box_cod b) →
     sides !! (q + length (box_dom b) + k) = Some true ∧
     objs !! (q + length (box_dom b) + k) = box_cod b !! k) →
  ∃ d' scan',
    place_box h q b None (d, scan) = Ok (d', scan') ∧
    aligned d' scan' ∧
    scan_ok (q + length (box_dom b) + length (box_cod b)) scan'.
Proof.
  set (a := length (box_dom b)). set (c := length (box_cod b)).
  intros Hal Hok Hlen Hdom Hcod.
  assert (∀ k, k < a → is_Some (ws !! (q + k))) as Hws.
  { intros k Hk. apply lookup_lt_is_Some. lia. }
  destruct (place_doms_box q a d scan)
    as (d1 & scan1 & off & o & Hrun & Hoff & Hoa & Hal1 & Hperm & Hpl);
    [done|done|by intros k Hk; apply Hdom|done|].
  destruct Hok as [Hnd Hscan].
  assert (NoDup scan1) as Hnd1 by by rewrite Hperm.
  assert (∀ s, s ∈ scan1 ↔ live q s) as Hscan1.
  { intros s. by rewrite Hperm. }
  pose proof Hal1 as [Hdom1 Hall1].
  pose proof (Forall2_length _ _ _ Hall1) as Hlen1.
  (* the inputs of the box in the scan *)
  assert (slice o (o + a) scan1 = slice q (q + a) ws) as Hdw.
  { apply list_eq_same_length with a; [rewrite length_slice; lia..|].
    intros k x y Hk. rewrite !lookup_slice; [|lia..].
    rewrite Hpl //. congruence. }
  assert (slice o (o + a) (diag_cod d1) = box_dom b) as Hcd.
  { apply (aligned_slice d1 scan1 q); try done.
    intros k Hk. by apply Hdom. }
  rewrite /place_box /= Hrun /= Hoff.
  replace (Z.of_nat o + Z.of_nat (length (box_dom b)))%Z
    with (Z.of_nat (o + a)) by lia.
  rewrite !zslice_to_of_nat !zslice_from_of_nat.
  destruct (then_whisker d1 (take o (diag_cod d1)) (diag_box b)
              (drop (o + a) (diag_cod d1))) as (d' & -> & Hd' & Hc').
  { rewrite diag_box_dom -Hcd. apply take_slice_drop. }
  rewrite diag_box_cod in Hc'. simpl.
  rewrite length_app -/a -/c Nat.add_assoc.
  set (cw := slice (q + a) (q + a + c) ws).
  eexists d', _. split; [done|].
  assert (∀ s, s ∈ cw ↔ ∃ k, k < c ∧ ws !! (q + a + k) = Some s) as Hcw.
  { intros s. rewrite /cw. apply elem_of_slice_ws. lia. }
  assert (∀ s, s ∈ slice q (q + a) ws ↔ ∃ k, k < a ∧ ws !! (q + k) = Some s)
    as Hdwe.
  { intros s. apply elem_of_slice_ws. lia. }
  assert (∀ s, s ∈ cw → ¬ live q s) as Hnew.
  { intros s (k & Hk & Hs)%Hcw (p & p' & Hp & _ & Hsp & Hwp & _).
    destruct (Hcod k Hk) as [Hside _].
    pose proof (one_port true p (q + a + k) s Hsp Hside Hwp Hs). lia. }
  split; [|split].
  - (* typing *)
    split; [congruence|]. rewrite Hc'.
    apply Forall2_app; [by apply Forall2_take|].
    apply Forall2_app; [|by apply Forall2_drop].
    apply Forall2_same_length_lookup. split.
    { rewrite /cw length_slice; lia. }
    intros k s o' Hs Ho'.
    assert (k < c) as Hk by by eapply lookup_lt_Some.
    rewrite /cw lookup_slice in Hs; [|lia].
    exists (q + a + k). split; [done|].
    destruct (Hcod k Hk) as [_ ->]. done.
  - (* no spider twice *)
    apply (NoDup_replace_middle _ (slice o (o + a) scan1)).
    + by rewrite -take_slice_drop.
    + apply NoDup_alt. intros i j s Hi Hj.
      assert (i < c) as Hic.
      { apply lookup_lt_Some in Hi. rewrite /cw length_slice in Hi; lia. }
      assert (j < c) as Hjc.
      { apply lookup_lt_Some in Hj. rewrite /cw length_slice in Hj; lia. }
      rewrite /cw !lookup_slice in Hi Hj; [|lia..].
      assert (q + a + i = q + a + j); [|lia].
      eapply (one_port true); [by apply Hcod|by apply Hcod|done..].
    + intros s Hs. rewrite -take_slice_drop. intros Hin%Hscan1.
      by apply (Hnew s).
  - (* the spiders that cross the next boundary *)
    intros s.
    trans (s ∈ cw ∨ s ∈ take o scan1 ++ drop (o + a) scan1).
    { rewrite !elem_of_app. tauto. }
    rewrite (NoDup_app_middle _ (slice o (o + a) scan1));
      [|by rewrite -take_slice_drop].
    rewrite -take_slice_drop Hscan1 Hdw Hdwe Hcw. split.
    + intros [(k & Hk & Hs)|[(p & p' & Hp & Hp' & Hsp & Hwp & Hsp' & Hwp') Hnot]].
      * destruct (Hcod k Hk) as [Hside _].
        destruct (both_ports _ _ Hs) as (_ & p2 & _ & _ & Hs2 & Hw2).
        exists (q + a + k), p2. split_and!; try done; [lia|].
        pose proof (forward _ _ _ Hside Hs2 Hs Hw2) as Hlt.
        destruct (decide (q + a + c ≤ p2)) as [|Hn]; [done|].
        destruct (Hcod (p2 - (q + a))) as [Hside2 _]; [lia|].
        replace (q + a + (p2 - (q + a))) with p2 in Hside2 by lia.
        congruence.
      * exists p, p'. split_and!; try done; [lia|].
        destruct (decide (q + a + c ≤ p')) as [|Hn]; [done|].
        destruct (decide (p' < q + a)) as [Hlt|Hge].
        -- exfalso. apply Hnot. exists (p' - q).
           replace (q + (p' - q)) with p' by lia. split; [lia|done].
        -- destruct (Hcod (p' - (q + a))) as [Hside2 _]; [lia|].
           replace (q + a + (p' - (q + a))) with p' in Hside2 by lia.
           congruence.
    + intros (p & p' & Hp & Hp' & Hsp & Hwp & Hsp' & Hwp').
      destruct (decide (p < q)) as [Hlt|Hge].
      * right. split.
        -- exists p, p'. split_and!; try done. lia.
        -- intros (k & Hk & Hs). destruct (Hdom k Hk) as [Hside _].
           pose proof (one_port false _ _ _ Hside Hsp' Hs Hwp'). lia.
      * left. destruct (decide (p < q + a)) as [Hlt|Hge'].
        -- destruct (Hdom (p - q)) as [Hside _]; [lia|].
           replace (q + (p - q)) with p in Hside by lia. congruence.
        -- exists (p - (q + a)). split; [lia|].
           by replace (q + a + (p - (q + a))) with p by lia.
Qed.

(** All the boxes, in order. *)
Lemma place_boxes_spec bs :
  ∀ pre d scan,
    boxes h = pre ++ bs →
    aligned d scan → scan_ok (length (dom h) + n_box_ports pre) scan →
    ∃ d' scan',
      place_boxes h (length (dom h) + n_box_ports pre)
        ((λ b, (b, None)) <$> bs) (d, scan)
      = Ok (d', scan', length (dom h) + n_box_ports (boxes h)) ∧
      aligned d' scan' ∧
      scan_ok (length (dom h) + n_box_ports (boxes h)) scan'.
Proof.
  induction bs as [|b bs IH]; intros pre d scan Hbs Hal Hok.
  { rewrite app_nil_r in Hbs. subst pre. by exists d, scan. }
  destruct (layout_box (dom h) (cod h) pre b bs) as [Hdom Hcod].
  rewrite -Hbs in Hdom Hcod.
  destruct (place_box_spec (length (dom h) + n_box_ports pre) b d scan)
    as (d1 & scan1 & Hstep & Hal1 & Hok1); [done|done| |done|done|].
  { rewrite wires_length length_sides_of Hbs n_box_ports_app n_box_ports_cons.
    lia. }
  destruct (IH (pre ++ [b]) d1 scan1) as (d' & scan' & Hrun & Hal' & Hok').
  { by rewrite -app_assoc. }
  { done. }
  { rewrite n_box_ports_app n_box_ports_cons /n_box_ports /= Nat.add_0_r.
    by rewrite !Nat.add_assoc. }
  exists d', scan'. split; [|done].
  rewrite fmap_cons. cbn [place_boxes]. rewrite Hstep /= length_app.
  rewrite n_box_ports_app n_box_ports_cons /n_box_ports /= Nat.add_0_r in Hrun.
  by rewrite !Nat.add_assoc in Hrun |- *.
Qed.

Local Abbreviation q_end := (length (dom h) + n_box_ports (boxes h)).

(** One output: its wire is moved to its place. *)
Lemma place_cod_spec i d scan w :
  aligned d scan → NoDup scan → w ∈ scan →
  ws !! (q_end + i) = Some w →
  (∀ k, k < i → ∃ wk, scan !! k = Some wk ∧ ws !! (q_end + k) = Some wk
                      ∧ wk ≠ w) →
  ∃ d' scan',
    place_cod h q_end i (d, scan) = Ok (d', scan') ∧
    aligned d' scan' ∧ scan' ≡ₚ scan ∧
    ∀ k, k < i + 1 → scan' !! k = ws !! (q_end + k).
Proof.
  intros [Hdom Hal] Hnd Hin Hw Hplaced.
  pose proof (Forall2_length _ _ _ Hal) as Hlen.
  apply index_is_Some in Hin as [j Hj].
  pose proof (index_lookup _ _ _ Hj) as Hsj.
  pose proof (index_lt _ _ _ Hj) as Hjlt.
  assert (i ≤ j) as Hij.
  { destruct (decide (i ≤ j)) as [|Hn]; [done|].
    destruct (Hplaced j) as (wk & Hwk & _ & Hne); [lia|]. congruence. }
  rewrite /place_cod Hw /= Hj /=.
  destruct (decide (i < j)) as [Hlt|Hge].
  - destruct (lookup_lt_is_Some_2 (diag_cod d) j) as [cj Hcj]; [lia|].
    destruct (then_whisker d (take i (diag_cod d))
                (diag_swap (slice i j (diag_cod d))
                           (slice j (j + 1) (diag_cod d)))
                (drop (j + 1) (diag_cod d))) as (d' & -> & Hd' & Hc').
    { rewrite diag_swap_dom (slice_one j _ cj) // -app_assoc.
      apply slice_split; [lia|done]. }
    rewrite diag_swap_cod -app_assoc in Hc'. simpl.
    eexists d', _. split; [done|]. split_and!.
    + split; [congruence|]. rewrite Hc'.
      by apply (Forall2_move_left _ i j).
    + apply (move_left_perm i j); lia.
    + intros k Hk. destruct (decide (k = i)) as [->|Hki].
      * rewrite (move_left_lookup_eq i j); [|lia..]. by rewrite Hsj Hw.
      * rewrite (move_left_lookup_lt i j); [|lia..].
        destruct (Hplaced k) as (wk & -> & -> & _); [lia|done].
  - assert (j = i) as -> by lia.
    exists d, scan. split_and!; [done|done|done|].
    intros k Hk. destruct (decide (k = i)) as [->|Hki].
    + by rewrite Hsj Hw.
    + destruct (Hplaced k) as (wk & -> & -> & _); [lia|done].
Qed.

Lemma place_cods_spec :
  ∀ n i d scan,
    i + n = length (cod h) → aligned d scan → NoDup scan →
    (∀ k w, k < length (cod h) → ws !! (q_end + k) = Some w → w ∈ scan) →
    (∀ k, k < i → scan !! k = ws !! (q_end + k)) →
    ∃ d' scan',
      place_cods h q_end (seq i n) (d, scan) = Ok (d', scan') ∧
      aligned d' scan' ∧ scan' ≡ₚ scan ∧
      ∀ k, k < length (cod h) → scan' !! k = ws !! (q_end + k).
Proof.
  assert (∀ k, k < length (cod h) → is_Some (ws !! (q_end + k))) as Hws.
  { intros k Hk. apply lookup_lt_is_Some.
    rewrite wires_length length_sides_of. lia. }
  induction n as [|n IH]; intros i d scan Hin Hal Hnd Hmem Hplaced.
  { exists d, scan. split_and!; [done..|].
    intros k Hk. apply Hplaced. lia. }
  destruct (Hws i) as [w Hw]; [lia|].
  destruct (place_cod_spec i d scan w)
    as (d1 & scan1 & Hstep & Hal1 & Hperm1 & Hpl1);
    [done|done|by eapply (Hmem i); [lia|]|done| |].
  { intros k Hk. destruct (Hws k) as [wk Hwk]; [lia|].
    exists wk. split_and!; [by rewrite Hplaced|done|].
    intros ->.
    assert (q_end + k = q_end + i); [|lia].
    eapply (one_port false); [|  |done..].
    - apply layout_cod. lia.
    - apply layout_cod. lia. }
  destruct (IH (S i) d1 scan1) as (d' & scan' & Hrun & Hal' & Hperm' & Hpl');
    [lia|done|by rewrite Hperm1| | |].
  { intros k w' Hk Hw'. rewrite Hperm1. by eapply Hmem. }
  { intros k Hk. apply Hpl1. lia. }
  exists d', scan'. split_and!; [|done|by etrans|done].
  cbn [seq place_cods]. rewrite Hstep. exact Hrun.
Qed.

Lemma scan_ok_dom : scan_ok (length (dom h)) (take (length (dom h)) ws).
Proof.
  split.
  - apply NoDup_alt. intros i j s [Hi Hil]%lookup_take_Some [Hj Hjl]%lookup_take_Some.
    eapply (one_port true); [by apply layout_dom|by apply layout_dom|done..].
  - intros s. split.
    + intros [k [Hk Hkl]%lookup_take_Some]%list_elem_of_lookup.
      destruct (both_ports _ _ Hk) as (_ & p2 & _ & _ & Hs2 & Hw2).
      exists k, p2. split_and!; try done; [|by apply layout_dom].
      destruct (decide (length (dom h) ≤ p2)) as [|Hn]; [done|].
      destruct (layout_dom (dom h) (cod h) (boxes h) p2) as [Hside _]; [lia|].
      congruence.
    + intros (p & p' & Hp & _ & _ & Hwp & _).
      apply list_elem_of_lookup. exists p. by rewrite lookup_take_lt.
Qed.

Lemma aligned_dom : aligned (diag_id (dom h)) (take (length (dom h)) ws).
Proof.
  split; [apply diag_id_dom|]. rewrite diag_id_cod.
  apply Forall2_same_length_lookup. split.
  { rewrite length_take wires_length length_sides_of. lia. }
  intros k s o [Hs Hk]%lookup_take_Some Ho.
  exists k. split; [done|].
  destruct (layout_dom (dom h) (cod h) (boxes h) k Hk) as [_ ->]. done.
Qed.

(** The planar diagram of the hypergraph has its domain and codomain. *)
Lemma planar_diagram_spec :
  offsets h = replicate (length (boxes h)) None →
  ∃ d, planar_diagram h = Ok d ∧ diag_dom d = dom h ∧ diag_cod d = cod h.
Proof.
  intros Hoff.
  destruct (place_boxes_spec (boxes h) [] (diag_id (dom h))
              (take (length (dom h)) ws))
    as (d1 & scan1 & Hboxes & Hal1 & [Hnd1 Hscan1]).
  { done. }
  { apply aligned_dom. }
  { rewrite /n_box_ports /= Nat.add_0_r. apply scan_ok_dom. }
  rewrite /n_box_ports /= Nat.add_0_r -/(n_box_ports (boxes h)) in Hboxes.
  assert (∀ k, k < length (cod h) → is_Some (ws !! (q_end + k))) as Hws.
  { intros k Hk. apply lookup_lt_is_Some.
    rewrite wires_length length_sides_of. lia. }
  destruct (place_cods_spec (length (cod h)) 0 d1 scan1)
    as (d' & scan' & Hcods & [Hdom' Hal'] & Hperm & Hpl);
    [done|done|done| |intros k Hk; lia|].
  { intros k w Hk Hw. apply Hscan1.
    eapply (sink_live _ (q_end + k)); [lia| |done|].
    - by apply layout_cod.
    - intros p' Hq Hp'. replace p' with (q_end + (p' - q_end)) by lia.
      apply layout_cod. lia. }
  exists d'. split_and!; [|done|].
  { rewrite /planar_diagram Hoff zip_replicate_None Hboxes /= Hcods //. }
  pose proof (Forall2_length _ _ _ Hal') as Hlen.
  assert (NoDup scan') as Hnd' by by rewrite Hperm.
  assert (length scan' = length (cod h)) as Hlen'.
  { destruct (decide (length (cod h) < length scan')) as [Hgt|Hle].
    - exfalso.
      destruct (lookup_lt_is_Some_2 scan' (length (cod h)) Hgt) as [s Hs].
      assert (live q_end s) as (p & p' & _ & Hp' & _ & _ & Hsp' & Hwp').
      { apply Hscan1. rewrite -Hperm. by eapply list_elem_of_lookup_2. }
      assert (p' < q_end + length (cod h)) as Hp'lt.
      { apply lookup_lt_Some in Hwp'.
        rewrite wires_length length_sides_of in Hwp'. lia. }
      assert (scan' !! (p' - q_end) = Some s) as Hs'.
      { rewrite Hpl; [|lia]. by replace (q_end + (p' - q_end)) with p' by lia. }
      pose proof (NoDup_lookup _ _ _ _ Hnd' Hs Hs'). lia.
    - destruct (decide (length (cod h) = 0)) as [H0|Hn0]; [lia|].
      destruct (Hws (length (cod h) - 1)) as [w Hw]; [lia|].
      rewrite -Hpl in Hw; [|lia]. apply lookup_lt_Some in Hw. lia. }
  apply list_eq_same_length with (length (cod h)); [done|lia|].
  intros k x y Hk Hx Hy. destruct (Hws k Hk) as [w Hw].
  assert (scan' !! k = Some w) as Hs by by rewrite Hpl.
  destruct (Forall2_lookup_lr _ _ _ _ _ _ Hal' Hs Hx) as (p & Hp & Hpx).
  rewrite (same_type p (q_end + k) w) // in Hpx.
  destruct (layout_cod (dom h) (cod h) (boxes h) k Hk) as [_ Hobj].
  congruence.
Qed.

End planarise.

#[global] Instance Pivotal_diagram_laws :
  DiagramLaws Pivotal.cat Pivotal.diagrams.
Proof.
  split; try done.
  - intros d d' Heq. exists (Pivotal.Then d d'). simpl in *.
    by rewrite decide_True.
  - intros d d' Hne. simpl in *. by rewrite decide_False.
Qed.

Section to_diagram.
Context `{C : Category} `{!CategoryLaws C} `{D : !Diagrams C}
        `{!DiagramLaws C D}.
Implicit Types (h : Hypergraph).

(** Every port of a spider has the same type (none is the adjoint of
    another). *)
Definition port_consistent h : Prop :=
  ∀ p p' s np np',
    wires h !! p = Some s → wires h !! p' = Some s →
    ports h !! p = Some np → ports h !! p' = Some np' → obj np = obj np'.

Lemma length_one_eq {A} (l : list A) x y :
  length l = 1 → x ∈ l → y ∈ l → x = y.
Proof.
  destruct l as [|a [|b l]]; try done. intros _ Hx Hy.
  apply list_elem_of_singleton in Hx, Hy. congruence.
Qed.

Lemma length_one_elem {A} (l : list A) : length l = 1 → ∃ x, x ∈ l.
Proof. destruct l as [|a l]; [done|]. intros _. exists a. by left. Qed.

Lemma planar_diagram_Ok h :
  wf h → is_causal h = Ok true → is_monogamous h = Ok true →
  offsets h = replicate (length (boxes h)) None → port_consistent h →
  ∃ d, planar_diagram h = Ok d ∧ diag_dom d = dom h ∧ diag_cod d = cod h.
Proof.
  intros Hwf Hc Hm Hoff Hty.
  destruct (is_causal_legs h Hwf) as (b & Hb & Hcausal).
  assert (b = true) as -> by congruence.
  pose proof (proj1 Hcausal eq_refl) as Hcl. clear Hcausal Hb.
  destruct (is_monogamous_legs h Hwf) as (b & Hb & Hmono).
  assert (b = true) as -> by congruence.
  pose proof (proj1 Hmono eq_refl) as Hml. clear Hmono Hb.
  assert (∀ p s, wires h !! p = Some s → s < n_spiders h) as Hlt.
  { intros p s Hs. eapply (rewire_lt h (wires h)); [done|done|].
    by eapply list_elem_of_lookup_2. }
  assert (∀ σ s, s < n_spiders h → length (legs σ s h) = 1) as Hone.
  { intros σ s Hs. destruct (Hcl s Hs) as [H1 _].
    destruct (Hml s Hs) as [H2 _]. destruct σ; congruence. }
  apply planar_diagram_spec; [..|done].
  - intros σ p p' s Hp Hp' Hs Hs'.
    apply (length_one_eq (legs σ s h)); [by eapply Hone, Hlt|..];
      by apply elem_of_legs.
  - intros p p' s Hp Hp' Hs Hs'. destruct (Hcl s) as [_ Hfw]; [by eapply Hlt|].
    apply Hfw; by apply elem_of_legs.
  - intros p s Hs. pose proof (Hlt _ _ Hs) as Hsn.
    destruct (length_one_elem _ (Hone true s Hsn)) as [p1 H1].
    destruct (length_one_elem _ (Hone false s Hsn)) as [p2 H2].
    apply (proj1 (elem_of_legs _ _ _ _)) in H1 as [? ?].
    apply (proj1 (elem_of_legs _ _ _ _)) in H2 as [? ?].
    exists p1, p2. split_and!; assumption.
  - intros p p' s Hs Hs'. rewrite -ports_objs !list_lookup_fmap.
    pose proof (wf_length _ Hwf) as Hlen.
    destruct (lookup_lt_is_Some_2 (ports h) p) as [np Hnp].
    { rewrite -Hlen. by eapply lookup_lt_Some. }
    destruct (lookup_lt_is_Some_2 (ports h) p') as [np' Hnp'].
    { rewrite -Hlen. by eapply lookup_lt_Some. }
    rewrite /ports in Hnp Hnp'. rewrite Hnp Hnp' /=. f_equal.
    by apply (Hty p p' s np np').
  - by rewrite (wf_length _ Hwf) /ports length_ports_of length_sides_of.
Qed.

End to_diagram.

(** X19: on a causal and monogamous hypergraph with the default offsets
    whose spiders connect ports of one and the same type, [to_diagram]
    returns without normalising and without raising, in one call, and the
    diagram has the domain and the codomain of the hypergraph: every swap
    and every box it composes is well typed. *)
Theorem to_diagram_planar (C : Category) (L : CategoryLaws C)
    (D : Diagrams C) (DL : DiagramLaws C D)
    (make_monogamous make_causal : Hypergraph → result Hypergraph)
    (h : Hypergraph) (fuel : nat) (make_causal_first : bool) :
  constructed h →
  is_causal h = Ok true → is_monogamous h = Ok true →
  offsets h = replicate (length (boxes h)) None →
  (∀ p p' s np np',
     wires h !! p = Some s → wires h !! p' = Some s →
     ports h !! p = Some np → ports h !! p' = Some np' → obj np = obj np') →
  ∃ d, to_diagram make_monogamous make_causal (S fuel) h make_causal_first
       = Some (Ok d) ∧
    diag_dom d = dom h ∧ diag_cod d = cod h.
Proof.
  intros Hwf%constructed_wf Hc Hm Hoff Hty.
  destruct (planar_diagram_Ok h Hwf Hc Hm Hoff Hty) as (d & Hd & Hdom & Hcod).
  exists d. split; [|done]. by rewrite /= Hc /= Hm Hd.
Qed.

Lemma to_diagram_planar_witness :
  ∃ d, to_diagram (λ h, Ok h) (λ h, Ok h) 1
         (mkHypergraph [Pivotal.x] [Pivotal.z]
            [Pivotal.Gen "f" [Pivotal.x] [Pivotal.y] false;
             Pivotal.Gen "g" [Pivotal.y] [Pivotal.z] false]
            [0; 0; 1; 1; 2; 2] [Pivotal.x; Pivotal.y; Pivotal.z]
            [None; None]) false = Some (Ok d) ∧
    diag_dom d = [Pivotal.x] ∧ diag_cod d = [Pivotal.z].
Proof.
  apply (to_diagram_planar Pivotal.cat Pivotal_laws Pivotal.diagrams
           Pivotal_diagram_laws).
  - exists [Pivotal.x], [Pivotal.z],
      [Pivotal.Gen "f" [Pivotal.x] [Pivotal.y] false;
       Pivotal.Gen "g" [Pivotal.y] [Pivotal.z] false],
      [0; 0; 1; 1; 2; 2], NoTypes, None.
    vm_compute. reflexivity.
  - vm_compute. reflexivity.
  - vm_compute. reflexivity.
  - reflexivity.
  - intros p p' s np np' Hp Hp' Hn Hn'.
    repeat (destruct p as [|p]; simpl in Hp; try discriminate Hp).
    all: repeat (destruct p' as [|p']; simpl in Hp'; try discriminate Hp').
    all: try congruence.
    all: vm_compute in Hn, Hn'; injection Hn as <-; injection Hn' as <-.
    all: reflexivity.
Defined.

(** ** Associativity of the tensor *)

Lemma StronglySorted_lookup {A} (R : relation A) (l : list A) i j a b :
  StronglySorted R l → l !! i = Some a → l !! j = Some b → i < j → R a b.
Proof.
  intros Hs. revert i j. induction Hs as [|x l Hs IH Hall]; intros i j; [done|].
  destruct i as [|i], j as [|j]; simpl; try lia.
  - intros [= <-] Hb _. rewrite Forall_forall in Hall. apply Hall.
    by eapply list_elem_of_lookup_2.
  - intros Ha Hb Hij. apply (IH i j); auto with lia.
Qed.

Section relabel_seq.
Context `{C : Category} `{!CategoryLaws C}.
Implicit Types (W : list nat) (T : list Ob) (d : gmap nat Ob).

(** The spiders outside the wires come last in the relabelling, in
    increasing order. *)
Lemma relabeling_rest W d i j x y :
  relabeling_of W d !! i = Some x → relabeling_of W d !! j = Some y →
  length (first_occ W) ≤ i → i < j → (x ∉ W) ∧ (y ∉ W) ∧ x < y.
Proof.
  rewrite /relabeling_of. intros Hx Hy Hi Hij.
  rewrite lookup_app_r // in Hx. rewrite lookup_app_r in Hy; [|lia].
  assert (x ∈ sorted_rest d (first_occ W)) as Hxr
    by by eapply list_elem_of_lookup_2.
  assert (y ∈ sorted_rest d (first_occ W)) as Hyr
    by by eapply list_elem_of_lookup_2.
  apply elem_of_sorted_rest in Hxr as [Hxr _].
  apply elem_of_sorted_rest in Hyr as [Hyr _].
  rewrite elem_of_first_occ in Hxr. rewrite elem_of_first_occ in Hyr.
  split_and!; [done..|].
  assert (x ≤ y) as Hle.
  { eapply (StronglySorted_lookup (≤)); [|exact Hx|exact Hy|lia].
    apply StronglySorted_merge_sort; apply _. }
  assert (x ≠ y); [|lia]. intros ->.
  pose proof (NoDup_lookup _ _ _ _ (NoDup_sorted_rest d (first_occ W)) Hx Hy).
  lia.
Qed.

Lemma ren_rest_mono W d x y :
  x ∉ W → y ∉ W → is_Some (d !! x) → is_Some (d !! y) → x < y →
  ren (relabeling_of W d) x < ren (relabeling_of W d) y.
Proof.
  intros Hx Hy Hdx Hdy Hxy.
  assert (x ∈ relabeling_of W d) as [i Hi]%list_elem_of_lookup
    by (apply elem_of_relabeling; by right).
  assert (y ∈ relabeling_of W d) as [j Hj]%list_elem_of_lookup
    by (apply elem_of_relabeling; by right).
  pose proof (NoDup_relabeling W d) as Hnd.
  rewrite (ren_lookup _ i x) // (ren_lookup _ j y) //.
  assert (∀ k z, relabeling_of W d !! k = Some z → z ∉ W →
            length (first_occ W) ≤ k) as Hge.
  { intros k z Hk Hz. destruct (decide (length (first_occ W) ≤ k)); [done|].
    exfalso. apply Hz. rewrite /relabeling_of lookup_app_l in Hk; [|lia].
    apply list_elem_of_lookup_2 in Hk. by rewrite elem_of_first_occ in Hk. }
  destruct (decide (i < j)) as [|Hn]; [done|]. exfalso.
  assert (i ≠ j) by (intros ->; rewrite Hi in Hj; injection Hj; lia).
  destruct (relabeling_rest W d j i y x) as (_ & _ & ?); eauto with lia.
Qed.

(** The constructor does not see a renaming of the spiders that is a
    bijection, carries the types along and keeps the spiders outside the
    wires in order. *)
Lemma init_relabel_seq D Cd B W T T' (σ : nat → nat) off :
  typed (λ w, T !! w) W (port_objs D Cd B) →
  (∀ t, t ∈ T → normal_type t = t) →
  (∀ i j, i < length T → j < length T → σ i = σ j → i = j) →
  (∀ i, i < length T → T' !! σ i = T !! i) →
  (∀ k, k < length T' → ∃ i, i < length T ∧ k = σ i) →
  (∀ i j, i ∉ W → j ∉ W → i < j → j < length T → σ i < σ j) →
  init D Cd B (σ <$> W) (TypeSeq T') off = init D Cd B W (TypeSeq T) off.
Proof.
  intros Hty Hnorm Hinj HT Hsurj Hmono.
  destruct (init_typed D Cd B W (TypeSeq T) off) as (types & Ht & Hinit).
  { eapply typed_impl; [done|]. intros w t o _ Hw Hfit. exists t.
    by rewrite /= /dict_enumerate lookup_map_seq_0. }
  rewrite Hinit. pose proof (init_wf _ _ _ _ _ _ _ Hinit) as Hwf.
  simpl in Ht, Hwf.
  set (r := relabeling_of W (dict_enumerate T)) in *.
  assert (r ≡ₚ seq 0 (length T)) as Hperm.
  { apply relabeling_TypeSeq_perm. intros w Hw. by eapply typed_lt. }
  assert (NoDup r) as Hnd by apply NoDup_relabeling.
  assert (length r = length T) as Hlr by by rewrite Hperm length_seq.
  pose proof (length_mapM _ _ _ Ht) as Hlt.
  assert (∀ i, i < length T → i ∈ r) as Hin.
  { intros i Hi. rewrite Hperm. apply elem_of_seq. lia. }
  assert (∀ i x, r !! i = Some x → x < length T) as Hrlt.
  { intros i x Hi%list_elem_of_lookup_2. rewrite Hperm in Hi.
    apply elem_of_seq in Hi. lia. }
  set (R := mkHypergraph _ _ _ _ _ _) in *.
  assert (n_spiders R = length T) as HnR.
  { by rewrite /n_spiders /= length_fmap -Hlt. }
  assert (∀ i x, r !! i = Some x →
            spider_types R !! i = T !! x) as HtyR.
  { intros i x Hi. rewrite /= list_lookup_fmap.
    apply mapM_Some in Ht.
    destruct (Forall2_lookup_l _ _ _ i x Ht Hi) as (t & Hti & Hfi).
    rewrite /dict_enumerate lookup_map_seq_0 in Hfi.
    rewrite Hti /= Hfi. f_equal. apply Hnorm.
    by eapply list_elem_of_lookup_2. }
  pose (τ := λ i, σ (default 0 (r !! i))).
  pose proof (init_relabel R τ (TypeSeq T') off Hwf) as Hrel.
  simpl in Hrel.
  assert (τ <$> (ren r <$> W) = σ <$> W) as HW.
  { rewrite -list_fmap_compose. apply list_fmap_ext. intros p w Hw.
    rewrite /τ /=. f_equal.
    assert (w ∈ r) as Hwr.
    { apply Hin. eapply typed_lt; [done|]. by eapply list_elem_of_lookup_2. }
    apply index_is_Some in Hwr as [i Hi].
    by rewrite (ren_index _ _ _ Hi) (index_lookup _ _ _ Hi). }
  rewrite HW in Hrel. apply Hrel.
  - intros i j Hi Hj. rewrite HnR -Hlr in Hi. rewrite HnR -Hlr in Hj.
    destruct (lookup_lt_is_Some_2 _ _ Hi) as [x Hx].
    destruct (lookup_lt_is_Some_2 _ _ Hj) as [y Hy].
    rewrite /τ Hx Hy /=. intros Hxy%Hinj; [|by eauto..]. subst y.
    by eapply NoDup_lookup.
  - intros i Hi. rewrite HnR -Hlr in Hi.
    destruct (lookup_lt_is_Some_2 _ _ Hi) as [x Hx].
    rewrite /τ Hx /= /dict_enumerate lookup_map_seq_0 (HtyR i x) //.
    apply HT. by eauto.
  - intros key. rewrite /dict_enumerate lookup_map_seq_0 lookup_lt_is_Some.
    intros (x & Hx & ->)%Hsurj.
    destruct (proj1 (list_elem_of_lookup _ _) (Hin x Hx)) as [i Hi].
    exists i. split.
    + rewrite HnR -Hlr. by eapply lookup_lt_Some.
    + by rewrite /τ Hi.
  - intros i j Hi Hij Hj. rewrite HnR -Hlr in Hj.
    destruct (lookup_lt_is_Some_2 _ _ Hj) as [y Hy].
    assert (i < length r) as Hi' by lia.
    destruct (lookup_lt_is_Some_2 _ _ Hi') as [x Hx].
    rewrite /τ Hx Hy /=.
    assert (length (first_occ W) ≤ i) as Hge.
    { destruct (decide (length (first_occ W) ≤ i)); [done|]. exfalso.
      apply Hi. rewrite /R /=. apply list_elem_of_fmap.
      exists x. pose proof Hx as Hx0. rewrite /r /relabeling_of lookup_app_l in Hx; [|lia].
      pose proof (list_elem_of_lookup_2 _ _ _ Hx) as Hxw.
      rewrite elem_of_first_occ in Hxw. split; [|done].
      symmetry. by apply ren_lookup. }
    destruct (relabeling_rest _ _ _ _ _ _ Hx Hy Hge Hij) as (? & ? & ?).
    apply Hmono; eauto.
Qed.

End relabel_seq.

(** Renaming one block [a .. a + m) of the spiders by [ρ]. *)
Definition block (a m : nat) (ρ : nat → nat) (x : nat) : nat :=
  if decide (a ≤ x < a + m) then a + ρ (x - a) else x.

Lemma three_segments {X} (A B Z : list X) d c :
  length A = d → length Z = c →
  take d (A ++ B ++ Z) = A ∧
  slice d (length (A ++ B ++ Z) - c) (A ++ B ++ Z) = B ∧
  drop (length (A ++ B ++ Z) - c) (A ++ B ++ Z) = Z.
Proof.
  intros HA HZ. split_and!.
  - by rewrite take_app_length'.
  - rewrite /slice drop_app_length' // !length_app HA HZ.
    rewrite take_app_length' //. lia.
  - rewrite app_assoc drop_app_length' // !length_app. lia.
Qed.

Section tensor_assoc.
Context `{C : Category} `{!CategoryLaws C}.
Implicit Types (f g h : Hypergraph) (W l : list nat) (T : list Ob).

Local Abbreviation sh n := (fmap (λ i : nat, n + i)).

(** The three segments of the wires: domain, boxes, codomain. *)
Definition wires_dom f : list nat := take (length (dom f)) (wires f).
Definition wires_mid f : list nat :=
  slice (length (dom f)) (length (wires f) - length (cod f)) (wires f).
Definition wires_cod f : list nat :=
  drop (length (wires f) - length (cod f)) (wires f).

(** The wires [tensor] hands to the constructor, and those of the three-fold
    tensor. *)
Definition tensor_wires f g : list nat :=
  (wires_dom f ++ sh (n_spiders f) (wires_dom g))
  ++ (wires_mid f ++ sh (n_spiders f) (wires_mid g))
  ++ (wires_cod f ++ sh (n_spiders f) (wires_cod g)).

Definition tensor_r f g : list nat :=
  relabeling_of (tensor_wires f g)
    (dict_enumerate (spider_types f ++ spider_types g)).

Definition tensor3_wires f g h : list nat :=
  (wires_dom f ++ sh (n_spiders f) (wires_dom g)
     ++ sh (n_spiders f) (sh (n_spiders g) (wires_dom h)))
  ++ (wires_mid f ++ sh (n_spiders f) (wires_mid g)
     ++ sh (n_spiders f) (sh (n_spiders g) (wires_mid h)))
  ++ (wires_cod f ++ sh (n_spiders f) (wires_cod g)
     ++ sh (n_spiders f) (sh (n_spiders g) (wires_cod h))).

Lemma wires_parts_lt f w :
  wf f → w ∈ wires_dom f ∨ w ∈ wires_mid f ∨ w ∈ wires_cod f →
  w < n_spiders f.
Proof.
  intros Hwf Hw. apply wf_wires_lt; [done|].
  destruct Hw as [Hw|[Hw|Hw]].
  - by eapply subseteq_take.
  - eapply subseteq_drop, subseteq_take. exact Hw.
  - by eapply subseteq_drop.
Qed.

Lemma wires_parts_length f :
  wf f →
  length (wires_dom f) = length (dom f) ∧
  length (wires_cod f) = length (cod f).
Proof.
  intros Hwf. pose proof (wf_length_objs f Hwf) as Hlen.
  rewrite /wires_dom /wires_cod length_take length_drop. lia.
Qed.

Lemma tensor_wires_typed f g :
  wf f → wf g →
  typed (λ w, (spider_types f ++ spider_types g) !! w) (tensor_wires f g)
    (port_objs (dom f ++ dom g) (cod f ++ cod g) (boxes f ++ boxes g)).
Proof.
  intros Hf Hg.
  destruct (wf_typed_parts f Hf) as (Hfd & Hfb & Hfc).
  destruct (wf_typed_parts g Hg) as (Hgd & Hgb & Hgc).
  rewrite /port_objs fmap_app join_app /tensor_wires /n_spiders.
  repeat apply typed_app.
  all: try by apply typed_weaken_l.
  all: by apply typed_shift.
Qed.

Lemma tensor3_wires_typed f g h :
  wf f → wf g → wf h →
  typed (λ w, (spider_types f ++ spider_types g ++ spider_types h) !! w)
    (tensor3_wires f g h)
    (port_objs (dom f ++ dom g ++ dom h) (cod f ++ cod g ++ cod h)
       (boxes f ++ boxes g ++ boxes h)).
Proof.
  intros Hf Hg Hh.
  destruct (wf_typed_parts f Hf) as (Hfd & Hfb & Hfc).
  destruct (wf_typed_parts g Hg) as (Hgd & Hgb & Hgc).
  destruct (wf_typed_parts h Hh) as (Hhd & Hhb & Hhc).
  rewrite /port_objs !fmap_app !join_app /tensor3_wires /n_spiders.
  repeat apply typed_app.
  all: try by apply typed_weaken_l.
  all: try by apply typed_shift, typed_weaken_l.
  all: by apply typed_shift, typed_shift.
Qed.

Lemma tensor_r_perm f g :
  wf f → wf g → tensor_r f g ≡ₚ seq 0 (n_spiders f + n_spiders g).
Proof.
  intros Hf Hg. rewrite /n_spiders -length_app.
  apply relabeling_TypeSeq_perm. intros w Hw.
  eapply typed_lt; [|done]. by apply tensor_wires_typed.
Qed.

Lemma tensor_Ok f g :
  wf f → wf g →
  ∃ types,
    mapM (λ s, (spider_types f ++ spider_types g) !! s) (tensor_r f g)
      = Some types ∧
    tensor f g
    = Ok (mkHypergraph (dom f ++ dom g) (cod f ++ cod g) (boxes f ++ boxes g)
            (ren (tensor_r f g) <$> tensor_wires f g)
            (normal_type <$> types) (offsets f ++ offsets g)).
Proof.
  intros Hf Hg.
  destruct (init_typed (dom f ++ dom g) (cod f ++ cod g) (boxes f ++ boxes g)
              (tensor_wires f g)
              (TypeSeq (spider_types f ++ spider_types g))
              (Some (offsets f ++ offsets g))) as (types & Ht & Hinit).
  { eapply typed_impl; [by apply tensor_wires_typed|].
    intros w t o _ Hw Hfit. exists t.
    by rewrite /= /dict_enumerate lookup_map_seq_0. }
  exists types. split.
  { rewrite -Ht. apply mapM_ext. intros s.
    by rewrite /= /dict_enumerate lookup_map_seq_0. }
  rewrite /tensor -/(wires_dom f) -/(wires_dom g) -/(wires_mid f)
    -/(wires_mid g) -/(wires_cod f) -/(wires_cod g) -/(tensor_wires f g).
  rewrite Hinit. do 2 f_equal.
  destruct (offsets f ++ offsets g) as [|o l] eqn:Ho; [|done].
  apply app_eq_nil in Ho as [Ho1 Ho2].
  by rewrite /= (wf_offsets _ Hf Ho1) (wf_offsets _ Hg Ho2).
Qed.


Lemma block_lt a m ρ x :
  (∀ y, y < m → ρ y < m) → a ≤ x < a + m → a ≤ block a m ρ x < a + m.
Proof.
  intros Hρ Hx. rewrite /block decide_True //.
  pose proof (Hρ (x - a)). lia.
Qed.

Lemma block_out a m ρ x : ¬ (a ≤ x < a + m) → block a m ρ x = x.
Proof. intros Hx. by rewrite /block decide_False. Qed.

Lemma block_low a m ρ l : (∀ w, w ∈ l → w < a) → block a m ρ <$> l = l.
Proof.
  intros Hl. rewrite -{2}(list_fmap_id l). apply list_fmap_ext.
  intros i w Hw%list_elem_of_lookup_2%Hl. rewrite block_out //. lia.
Qed.

Lemma block_in a m ρ l :
  (∀ w, w ∈ l → w < m) → block a m ρ <$> sh a l = sh a (ρ <$> l).
Proof.
  intros Hl. rewrite -!list_fmap_compose. apply list_fmap_ext.
  intros i w Hw%list_elem_of_lookup_2%Hl.
  rewrite /= /block decide_True; [|lia]. do 2 f_equal. lia.
Qed.

Lemma block_high a m ρ l : block a m ρ <$> sh a (sh m l) = sh a (sh m l).
Proof.
  rewrite -!list_fmap_compose. apply list_fmap_ext.
  intros i w _. rewrite /= block_out //. lia.
Qed.

Lemma sh_0 l : sh 0 l = l.
Proof. apply list_fmap_id. Qed.

Lemma sh_sh a b l : sh a (sh b l) = sh (a + b) l.
Proof.
  rewrite -list_fmap_compose. apply list_fmap_ext. intros i w _. simpl. lia.
Qed.

(** The constructor does not see the renaming of one block of spiders by
    the relabelling of an inner call. *)
Lemma init_block D Cd B W Ta Tm Tm' Tb (r : list nat) off :
  typed (λ w, (Ta ++ Tm ++ Tb) !! w) W (port_objs D Cd B) →
  (∀ t, t ∈ Ta ++ Tm ++ Tb → normal_type t = t) →
  r ≡ₚ seq 0 (length Tm) → length Tm' = length Tm →
  (∀ i x, r !! i = Some x → Tm' !! i = Tm !! x) →
  (∀ x y, length Ta + x ∉ W → length Ta + y ∉ W → x < y → y < length Tm →
     ren r x < ren r y) →
  init D Cd B (block (length Ta) (length Tm) (ren r) <$> W)
       (TypeSeq (Ta ++ Tm' ++ Tb)) off
  = init D Cd B W (TypeSeq (Ta ++ Tm ++ Tb)) off.
Proof.
  intros Hty Hnorm Hperm Hlen HT Hmono.
  set (a := length Ta). set (m := length Tm).
  assert (∀ x, x < m → x ∈ r) as Hin.
  { intros x Hx. rewrite Hperm. apply elem_of_seq. lia. }
  assert (length r = m) as Hlr by by rewrite Hperm length_seq.
  assert (∀ x, x < m → ren r x < m) as Hρ.
  { intros x Hx. rewrite -Hlr. by apply ren_lt, Hin. }
  assert (NoDup r) as Hnd by (rewrite Hperm; apply NoDup_seq).
  apply init_relabel_seq; [done|done|..].
  - intros i j _ _.
    destruct (decide (a ≤ i < a + m)) as [Hi|Hi],
             (decide (a ≤ j < a + m)) as [Hj|Hj].
    + rewrite /block !decide_True //. intros Hij.
      assert (ren r (i - a) = ren r (j - a)) as Heq by lia.
      apply ren_inj in Heq; [lia|apply Hin; lia..].
    + pose proof (block_lt a m (ren r) i Hρ Hi). rewrite (block_out _ _ _ j) //.
      lia.
    + pose proof (block_lt a m (ren r) j Hρ Hj). rewrite (block_out _ _ _ i) //.
      lia.
    + by rewrite !block_out.
  - intros i _. destruct (decide (a ≤ i < a + m)) as [Hi|Hi].
    + rewrite /block decide_True //.
      rewrite lookup_app_r; [|fold a; lia].
      rewrite (lookup_app_r Ta); [|fold a; lia]. fold a.
      replace (a + ren r (i - a) - a) with (ren r (i - a)) by lia.
      rewrite lookup_app_l; [|rewrite Hlen; apply Hρ; lia].
      rewrite lookup_app_l; [|fold m; lia].
      apply HT, lookup_ren, Hin. lia.
    + rewrite block_out //. destruct (decide (i < a)) as [Hia|Hia].
      * by rewrite !lookup_app_l.
      * rewrite !(lookup_app_r Ta); [|fold a; lia..].
        rewrite !lookup_app_r; [|fold a m; lia..]. by rewrite Hlen.
  - intros k Hk. rewrite !length_app Hlen in Hk. fold a m in Hk.
    destruct (decide (a ≤ k < a + m)) as [Hka|Hka].
    + assert (k - a < length r) as Hkr by lia.
      destruct (lookup_lt_is_Some_2 _ _ Hkr) as [x Hx].
      assert (x < m) as Hxm.
      { apply list_elem_of_lookup_2 in Hx. rewrite Hperm in Hx.
        apply elem_of_seq in Hx. lia. }
      exists (a + x). split; [rewrite !length_app; fold a m; lia|].
      rewrite /block decide_True; [|lia].
      replace (a + x - a) with x by lia.
      rewrite (ren_lookup _ _ _ Hnd Hx). lia.
    + exists k. split; [rewrite !length_app; fold a m; lia|].
      by rewrite block_out.
  - intros i j Hi Hj Hij Hjl. rewrite !length_app in Hjl. fold a m in Hjl.
    destruct (decide (a ≤ i < a + m)) as [Hia|Hia],
             (decide (a ≤ j < a + m)) as [Hja|Hja].
    + rewrite /block !decide_True //.
      assert (ren r (i - a) < ren r (j - a)); [|lia].
      apply Hmono; [| |lia..].
      * by replace (length Ta + (i - a)) with i by (fold a; lia).
      * by replace (length Ta + (j - a)) with j by (fold a; lia).
    + pose proof (block_lt a m (ren r) i Hρ Hia). rewrite (block_out _ _ _ j) //.
      lia.
    + pose proof (block_lt a m (ren r) j Hρ Hja). rewrite (block_out _ _ _ i) //.
      lia.
    + rewrite !block_out //.
Qed.

End tensor_assoc.

Section tensor_assoc_proof.
Context `{C : Category} `{!CategoryLaws C}.
Implicit Types (f g h : Hypergraph) (W l : list nat) (T : list Ob).

Local Abbreviation sh n := (fmap (λ i : nat, n + i)).

Lemma segment_l (ρ : nat → nat) a b X Y Z :
  (∀ w, w ∈ X → w < a) → (∀ w, w ∈ Y → w < b) →
  block 0 (a + b) ρ <$> (X ++ sh a Y ++ sh a (sh b Z))
  = (ρ <$> (X ++ sh a Y)) ++ sh (a + b) Z.
Proof.
  intros HX HY. rewrite app_assoc fmap_app. f_equal.
  - apply list_fmap_ext. intros i w Hw%list_elem_of_lookup_2.
    assert (w < a + b) as Hlt.
    { apply elem_of_app in Hw as [Hw%HX|(v & -> & Hv%HY)%list_elem_of_fmap];
        lia. }
    rewrite /block decide_True; [|lia]. by rewrite /= Nat.sub_0_r.
  - rewrite sh_sh. rewrite -{2}(list_fmap_id (sh (a + b) Z)).
    rewrite -!list_fmap_compose. apply list_fmap_ext. intros i w _.
    rewrite /= block_out //. lia.
Qed.

Lemma segment_r (ρ : nat → nat) a b c X Y Z :
  (∀ w, w ∈ X → w < a) → (∀ w, w ∈ Y → w < b) → (∀ w, w ∈ Z → w < c) →
  block a (b + c) ρ <$> (X ++ sh a Y ++ sh a (sh b Z))
  = X ++ sh a (ρ <$> (Y ++ sh b Z)).
Proof.
  intros HX HY HZ. rewrite fmap_app block_low //. f_equal.
  rewrite -fmap_app. apply block_in. intros w.
  intros [Hw%HY|(v & -> & Hv%HZ)%list_elem_of_fmap]%elem_of_app; lia.
Qed.

Lemma tensor_wires_sub_l f g h w :
  w ∈ tensor_wires f g → w ∈ tensor3_wires f g h.
Proof. rewrite /tensor_wires /tensor3_wires !elem_of_app. tauto. Qed.

Lemma tensor_wires_sub_r f g h w :
  w ∈ tensor_wires g h → n_spiders f + w ∈ tensor3_wires f g h.
Proof.
  intros Hw. apply (list_elem_of_fmap_2 (λ i, n_spiders f + i)) in Hw.
  revert Hw. rewrite /tensor_wires /tensor3_wires !fmap_app !elem_of_app.
  tauto.
Qed.

Lemma tensor_types f g types :
  wf f → wf g →
  mapM (λ s, (spider_types f ++ spider_types g) !! s) (tensor_r f g)
    = Some types →
  length (normal_type <$> types) = length (spider_types f ++ spider_types g) ∧
  ∀ i x, tensor_r f g !! i = Some x →
    (normal_type <$> types) !! i = (spider_types f ++ spider_types g) !! x.
Proof.
  intros Hf Hg Ht. split.
  { rewrite length_fmap -(length_mapM _ _ _ Ht) (tensor_r_perm f g) //.
    by rewrite length_seq length_app. }
  intros i x Hi. apply mapM_Some in Ht.
  destruct (Forall2_lookup_l _ _ _ i x Ht Hi) as (t & Hti & Hfi).
  rewrite list_lookup_fmap Hti /= Hfi. f_equal.
  apply list_elem_of_lookup_2, elem_of_app in Hfi as [Hfi|Hfi].
  - by apply (wf_normal_fix f).
  - by apply (wf_normal_fix g).
Qed.

Lemma tensor_assoc_l f g h fg :
  wf f → wf g → wf h → tensor f g = Ok fg →
  tensor fg h
  = init (dom f ++ dom g ++ dom h) (cod f ++ cod g ++ cod h)
         (boxes f ++ boxes g ++ boxes h) (tensor3_wires f g h)
         (TypeSeq (spider_types f ++ spider_types g ++ spider_types h))
         (Some (offsets f ++ offsets g ++ offsets h)).
Proof.
  intros Hf Hg Hh Hfg.
  destruct (tensor_Ok f g Hf Hg) as (types & Ht & Hok).
  rewrite Hok in Hfg. injection Hfg as <-.
  destruct (tensor_types f g types Hf Hg Ht) as [Hlen Hty].
  destruct (wires_parts_length f Hf) as [Hfd Hfc].
  destruct (wires_parts_length g Hg) as [Hgd Hgc].
  set (ρ := ren (tensor_r f g)).
  destruct (three_segments
    (ρ <$> (wires_dom f ++ sh (n_spiders f) (wires_dom g)))
    (ρ <$> (wires_mid f ++ sh (n_spiders f) (wires_mid g)))
    (ρ <$> (wires_cod f ++ sh (n_spiders f) (wires_cod g)))
    (length (dom f ++ dom g)) (length (cod f ++ cod g))) as (H1 & H2 & H3).
  { by rewrite length_fmap !length_app length_fmap Hfd Hgd. }
  { by rewrite length_fmap !length_app length_fmap Hfc Hgc. }
  rewrite -(fmap_app ρ (wires_mid f ++ _)) -(fmap_app ρ (wires_dom f ++ _))
    -/(tensor_wires f g) in H1 H2 H3.
  rewrite /tensor /n_spiders. cbn [dom cod boxes wires spider_types offsets].
  rewrite H1 H2 H3 Hlen.
  rewrite -(app_assoc (dom f)) -(app_assoc (cod f)) -(app_assoc (boxes f))
    -(app_assoc (offsets f)).
  rewrite -/(wires_dom h) -/(wires_mid h) -/(wires_cod h).
  rewrite length_app -/(n_spiders f) -/(n_spiders g).
  rewrite -(segment_l ρ _ _ (wires_dom f) (wires_dom g) (wires_dom h));
    [|intros w Hw; apply wires_parts_lt; auto..].
  rewrite -(segment_l ρ _ _ (wires_mid f) (wires_mid g) (wires_mid h));
    [|intros w Hw; apply wires_parts_lt; auto..].
  rewrite -(segment_l ρ _ _ (wires_cod f) (wires_cod g) (wires_cod h));
    [|intros w Hw; apply wires_parts_lt; auto..].
  rewrite -(fmap_app (block _ _ _)) -(fmap_app (block _ _ _)).
  rewrite -/(tensor3_wires f g h) (app_assoc (spider_types f)).
  rewrite /n_spiders -length_app.
  apply (init_block _ _ _ _ [] (spider_types f ++ spider_types g)
           (normal_type <$> types) (spider_types h) (tensor_r f g)).
  - rewrite /= -app_assoc. by apply tensor3_wires_typed.
  - intros t. rewrite /= !elem_of_app. intros [[Ht'|Ht']|Ht'].
    + by apply (wf_normal_fix f).
    + by apply (wf_normal_fix g).
    + by apply (wf_normal_fix h).
  - rewrite length_app. by apply tensor_r_perm.
  - done.
  - done.
  - intros x y Hx Hy Hxy Hyl. simpl in Hx, Hy.
    apply ren_rest_mono; try done.
    + intros Hw. by apply Hx, tensor_wires_sub_l.
    + intros Hw. by apply Hy, tensor_wires_sub_l.
    + rewrite /dict_enumerate lookup_map_seq_0. apply lookup_lt_is_Some. lia.
    + rewrite /dict_enumerate lookup_map_seq_0. by apply lookup_lt_is_Some.
Qed.

Lemma tensor_assoc_r f g h gh :
  wf f → wf g → wf h → tensor g h = Ok gh →
  tensor f gh
  = init (dom f ++ dom g ++ dom h) (cod f ++ cod g ++ cod h)
         (boxes f ++ boxes g ++ boxes h) (tensor3_wires f g h)
         (TypeSeq (spider_types f ++ spider_types g ++ spider_types h))
         (Some (offsets f ++ offsets g ++ offsets h)).
Proof.
  intros Hf Hg Hh Hgh.
  destruct (tensor_Ok g h Hg Hh) as (types & Ht & Hok).
  rewrite Hok in Hgh. injection Hgh as <-.
  destruct (tensor_types g h types Hg Hh Ht) as [Hlen Hty].
  destruct (wires_parts_length g Hg) as [Hgd Hgc].
  destruct (wires_parts_length h Hh) as [Hhd Hhc].
  set (ρ := ren (tensor_r g h)).
  destruct (three_segments
    (ρ <$> (wires_dom g ++ sh (n_spiders g) (wires_dom h)))
    (ρ <$> (wires_mid g ++ sh (n_spiders g) (wires_mid h)))
    (ρ <$> (wires_cod g ++ sh (n_spiders g) (wires_cod h)))
    (length (dom g ++ dom h)) (length (cod g ++ cod h))) as (H1 & H2 & H3).
  { by rewrite length_fmap !length_app length_fmap Hgd Hhd. }
  { by rewrite length_fmap !length_app length_fmap Hgc Hhc. }
  rewrite -(fmap_app ρ (wires_mid g ++ _)) -(fmap_app ρ (wires_dom g ++ _))
    -/(tensor_wires g h) in H1 H2 H3.
  rewrite /tensor. cbn [dom cod boxes wires spider_types offsets].
  rewrite H1 H2 H3.
  rewrite -/(wires_dom f) -/(wires_mid f) -/(wires_cod f).
  rewrite -(segment_r ρ _ (n_spiders g) (n_spiders h)
              (wires_dom f) (wires_dom g) (wires_dom h));
    [|intros w Hw; apply wires_parts_lt; auto..].
  rewrite -(segment_r ρ _ (n_spiders g) (n_spiders h)
              (wires_mid f) (wires_mid g) (wires_mid h));
    [|intros w Hw; apply wires_parts_lt; auto..].
  rewrite -(segment_r ρ _ (n_spiders g) (n_spiders h)
              (wires_cod f) (wires_cod g) (wires_cod h));
    [|intros w Hw; apply wires_parts_lt; auto..].
  rewrite -(fmap_app (block _ _ _)) -(fmap_app (block _ _ _)).
  rewrite -/(tensor3_wires f g h).
  rewrite /n_spiders -length_app.
  rewrite -(app_nil_r (normal_type <$> types)).
  rewrite -{2}(app_nil_r (spider_types h)) (app_assoc (spider_types g)).
  apply (init_block _ _ _ _ (spider_types f) (spider_types g ++ spider_types h)
           (normal_type <$> types) [] (tensor_r g h)).
  - rewrite app_nil_r. by apply tensor3_wires_typed.
  - intros t. rewrite app_nil_r !elem_of_app. intros [Ht'|[Ht'|Ht']].
    + by apply (wf_normal_fix f).
    + by apply (wf_normal_fix g).
    + by apply (wf_normal_fix h).
  - rewrite length_app. by apply tensor_r_perm.
  - done.
  - done.
  - intros x y Hx Hy Hxy Hyl.
    apply ren_rest_mono; try done.
    + intros Hw. by apply Hx, tensor_wires_sub_r.
    + intros Hw. by apply Hy, tensor_wires_sub_r.
    + rewrite /dict_enumerate lookup_map_seq_0. apply lookup_lt_is_Some. lia.
    + rewrite /dict_enumerate lookup_map_seq_0. by apply lookup_lt_is_Some.
Qed.

End tensor_assoc_proof.

(** X20.  The tensor is associative on the nose: for hypergraph values
    [f], [g] and [h] all the tensors involved succeed, and
    [(f @ g) @ h] and [f @ (g @ h)] are the same hypergraph, with the same
    labels of spiders and the same wires. *)
Theorem tensor_associative (C : Category) (L : CategoryLaws C)
    (f g h : Hypergraph) :
  constructed f → constructed g → constructed h →
  ∃ fg gh k,
    tensor f g = Ok fg ∧ tensor g h = Ok gh ∧
    tensor fg h = Ok k ∧ tensor f gh = Ok k ∧
    dom k = dom f ++ dom g ++ dom h ∧ cod k = cod f ++ cod g ++ cod h ∧
    boxes k = boxes f ++ boxes g ++ boxes h.
Proof.
  intros Hf%constructed_wf Hg%constructed_wf Hh%constructed_wf.
  destruct (tensor_Ok f g Hf Hg) as (t1 & _ & H1).
  destruct (tensor_Ok g h Hg Hh) as (t2 & _ & H2).
  destruct (init_typed (dom f ++ dom g ++ dom h) (cod f ++ cod g ++ cod h)
              (boxes f ++ boxes g ++ boxes h) (tensor3_wires f g h)
              (TypeSeq (spider_types f ++ spider_types g ++ spider_types h))
              (Some (offsets f ++ offsets g ++ offsets h)))
    as (types & _ & Hk).
  { eapply typed_impl; [by apply tensor3_wires_typed|].
    intros w t o _ Hw Hfit. exists t.
    by rewrite /= /dict_enumerate lookup_map_seq_0. }
  eexists _, _, _. split; [exact H1|]. split; [exact H2|].
  rewrite (tensor_assoc_l f g h _ Hf Hg Hh H1).
  rewrite (tensor_assoc_r f g h _ Hf Hg Hh H2).
  by rewrite Hk.
Qed.

Lemma tensor_associative_witness :
  ∃ fg gh k,
    tensor (mkHypergraph [Pivotal.x] [Pivotal.y]
              [Pivotal.Gen "f" [Pivotal.x] [Pivotal.y] false]
              [0; 0; 1; 1] [Pivotal.x; Pivotal.y] [None])
           (mkHypergraph [Pivotal.y] [Pivotal.z]
              [Pivotal.Gen "g" [Pivotal.y] [Pivotal.z] false]
              [0; 0; 1; 1] [Pivotal.y; Pivotal.z] [None]) = Ok fg ∧
    tensor (mkHypergraph [Pivotal.y] [Pivotal.z]
              [Pivotal.Gen "g" [Pivotal.y] [Pivotal.z] false]
              [0; 0; 1; 1] [Pivotal.y; Pivotal.z] [None])
           (mkHypergraph [Pivotal.z] [Pivotal.z] [] [0; 0] [Pivotal.z] [])
      = Ok gh ∧
    tensor fg (mkHypergraph [Pivotal.z] [Pivotal.z] [] [0; 0] [Pivotal.z] [])
      = Ok k ∧
    tensor (mkHypergraph [Pivotal.x] [Pivotal.y]
              [Pivotal.Gen "f" [Pivotal.x] [Pivotal.y] false]
              [0; 0; 1; 1] [Pivotal.x; Pivotal.y] [None]) gh = Ok k.
Proof.
  destruct (tensor_associative Pivotal.cat Pivotal_laws
              (mkHypergraph [Pivotal.x] [Pivotal.y]
                 [Pivotal.Gen "f" [Pivotal.x] [Pivotal.y] false]
                 [0; 0; 1; 1] [Pivotal.x; Pivotal.y] [None])
              (mkHypergraph [Pivotal.y] [Pivotal.z]
                 [Pivotal.Gen "g" [Pivotal.y] [Pivotal.z] false]
                 [0; 0; 1; 1] [Pivotal.y; Pivotal.z] [None])
              (mkHypergraph [Pivotal.z] [Pivotal.z] [] [0; 0] [Pivotal.z] []))
    as (fg & gh & k & H1 & H2 & H3 & H4 & _).
  { exists [Pivotal.x], [Pivotal.y],
      [Pivotal.Gen "f" [Pivotal.x] [Pivotal.y] false],
      [0; 0; 1; 1], NoTypes, None.
    vm_compute. reflexivity. }
  { exists [Pivotal.y], [Pivotal.z],
      [Pivotal.Gen "g" [Pivotal.y] [Pivotal.z] false],
      [0; 0; 1; 1], NoTypes, None.
    vm_compute. reflexivity. }
  { exists [Pivotal.z], [Pivotal.z], [], [0; 0], NoTypes, None.
    vm_compute. reflexivity. }
  exists fg, gh, k. split_and!; [exact H1|exact H2|exact H3|exact H4].
Defined.

(** ** Fusion of spiders *)

Section fusion.
Context `{C : Category} `{!CategoryLaws C}.
Implicit Types (t : list Ob).

(** Two points that come first in their classes get their ids in order. *)
Lemma ids_first {A} (c : nat → A) N pairs x y :
  (∀ a b, (a, b) ∈ pairs → c a = c b) →
  (∀ p, p < x → c p ≠ c x) → (∀ p, p < y → c p ≠ c y) →
  x < y → y < N →
  default 0 (canonical_ids (unions (seq 0 N) pairs) !! x)
  < default 0 (canonical_ids (unions (seq 0 N) pairs) !! y).
Proof.
  intros Hc Hx Hy Hxy HyN. set (uf := unions (seq 0 N) pairs).
  destruct (lookup_lt_is_Some_2 uf x) as [rx Hrx].
  { rewrite length_unions length_seq. lia. }
  destruct (lookup_lt_is_Some_2 uf y) as [ry Hry].
  { by rewrite length_unions length_seq. }
  assert (∀ z r, uf !! z = Some r → c r = c z) as Hinv.
  { apply unions_invariant; [|done]. by intros z r [-> _]%lookup_seq. }
  rewrite !canonical_ids_lookup Hrx Hry /=.
  apply (ren_first_occ_mono uf rx ry x y); [..|done].
  - apply index_Some. split; [done|]. intros p Hp Hpr.
    apply (Hx p Hp). by rewrite -(Hinv _ _ Hpr) -(Hinv _ _ Hrx).
  - apply index_Some. split; [done|]. intros p Hp Hpr.
    apply (Hy p Hp). by rewrite -(Hinv _ _ Hpr) -(Hinv _ _ Hry).
Qed.

Lemma spiders_wf n m t : wf (spiders_hyp n m t).
Proof.
  apply constructed_wf. rewrite /constructed. eexists _, _, _, _, _, _.
  apply spiders_spec.
Qed.

Lemma n_spiders_spiders n m t : n_spiders (spiders_hyp n m t) = length t.
Proof. by rewrite /n_spiders /= length_fmap. Qed.

Lemma lookup_join_replicate n k i :
  i < n * k → mjoin (replicate n (seq 0 k)) !! i = Some (i `mod` k).
Proof.
  revert i. induction n as [|n IH]; intros i Hi; [lia|].
  cbn [replicate mjoin list_join].
  destruct (decide (i < k)) as [Hlt|Hge].
  - rewrite lookup_app_l ?length_seq // lookup_seq_lt //=.
    by rewrite Nat.mod_small.
  - rewrite lookup_app_r length_seq; [|lia]. rewrite IH; [|lia]. f_equal.
    replace i with (i - k + 1 * k) at 2 by lia.
    rewrite Nat.Div0.mod_add //.
Qed.

Lemma then_pairs_spiders a b c t x y :
  0 < b →
  (x, y) ∈ then_pairs (spiders_hyp a b t) (spiders_hyp b c t) ↔
  x < length t ∧ y = length t + x.
Proof.
  intros Hb. rewrite then_pairs_lookup n_spiders_spiders /=.
  rewrite !length_power length_seq.
  replace ((a + b) * length t - b * length t) with (a * length t) by lia.
  split.
  - intros (i & w & -> & Hx & Hi & Hw).
    rewrite lookup_join_replicate in Hx; [|lia].
    rewrite lookup_join_replicate in Hw; [|lia].
    injection Hx as <-. injection Hw as <-.
    assert (length t ≠ 0) by lia.
    rewrite Nat.add_comm Nat.Div0.mod_add.
    split; [by apply Nat.mod_upper_bound|done].
  - intros [Hx ->]. exists x, x. split_and!; [done|..].
    + rewrite lookup_join_replicate; [|nia]. f_equal.
      rewrite Nat.add_comm Nat.Div0.mod_add. by apply Nat.mod_small.
    + nia.
    + rewrite lookup_join_replicate; [|nia]. f_equal. by apply Nat.mod_small.
Qed.

Lemma then_spiders a b c t :
  0 < b →
  then_ (spiders_hyp a b t) (spiders_hyp b c t) = Ok (spiders_hyp a c t).
Proof.
  intros Hb.
  set (S := spiders_hyp a b t). set (S' := spiders_hyp b c t).
  set (k := length t).
  pose proof (spiders_wf a b t) as HS. pose proof (spiders_wf b c t) as HS'.
  pose proof (n_spiders_spiders a b t) as HnS.
  pose proof (n_spiders_spiders b c t) as HnS'.
  rewrite -/S -/k in HnS. rewrite -/S' -/k in HnS'.
  rewrite then_unfold //.
  assert (∀ p, p < k → then_right S S' p = then_left S S' p) as Hpair.
  { intros p Hp. rewrite /then_left /then_right. f_equal. symmetry.
    apply ids_pair; [|lia..].
    apply then_pairs_spiders; [done|]. by rewrite HnS. }
  assert (then_wires S S' = then_left S S' <$> wires (spiders_hyp a c t))
    as ->.
  { rewrite /then_wires /= !length_power length_seq.
    replace ((a + b) * length t - b * length t) with (a * length t) by lia.
    rewrite !replicate_add !join_app.
    rewrite take_app_length' ?length_power ?length_seq //.
    rewrite drop_app_length' ?length_power ?length_seq //.
    rewrite (fmap_app (then_left S S')). f_equal.
    apply list_fmap_ext. intros i w Hw%list_elem_of_lookup_2.
    apply Hpair. apply elem_of_join_replicate, elem_of_seq in Hw.
    rewrite /k. lia. }
  change (dom S) with (dom (spiders_hyp a c t)).
  change (cod S') with (cod (spiders_hyp a c t)).
  change (boxes S ++ boxes S') with (boxes (spiders_hyp a c t)).
  pose (cl := λ x, if decide (x < k) then x else x - k).
  assert (∀ x y, (x, y) ∈ then_pairs S S' → cl x = cl y) as Hc.
  { intros x y [Hx ->]%then_pairs_spiders; [|done].
    rewrite /cl decide_True // decide_False; rewrite /k; lia. }
  rewrite (init_relabel (spiders_hyp a c t) (then_left S S')) //.
  - apply spiders_wf.
  - rewrite n_spiders_spiders -/k. intros i j Hi Hj Hij.
    apply then_ids_default in Hij; [|lia..].
    assert (cl i = cl j) as Hcij.
    { eapply (ids_class cl (n_spiders S + n_spiders S') (then_pairs S S'));
        [done|lia|lia|exact Hij]. }
    by rewrite /cl !decide_True in Hcij.
  - rewrite n_spiders_spiders -/k. intros i Hi.
    destruct (lookup_lt_is_Some_2 (spider_types (spiders_hyp a c t)) i)
      as [o Ho].
    { by rewrite /= length_fmap. }
    rewrite Ho. apply then_dict; [done..|lia|].
    by rewrite /then_type decide_True // HnS.
  - rewrite n_spiders_spiders -/k.
    intros key [o Ho]. simpl in Ho.
    apply dict_update_Some in Ho as [Ho|Ho]; [|by rewrite lookup_empty in Ho].
    apply elem_of_then_types in Ho as (x & Hx & Ho).
    assert (x < k + k) as Hxn.
    { rewrite -{1}HnS -HnS' -length_then_ids. by eapply lookup_lt_Some. }
    destruct (decide (x < k)) as [Hlt|Hge].
    + exists x. split; [done|]. by rewrite /then_left Hx.
    + exists (x - k). split; [lia|].
      rewrite -Hpair; [|lia]. rewrite /then_right HnS.
      replace (k + (x - k)) with x by lia. by rewrite Hx.
  - rewrite n_spiders_spiders -/k. intros i j Hi Hij Hj.
    rewrite /then_left /then_ids /then_classes.
    apply (ids_first cl); [done| | |done|lia].
    + intros p Hp. rewrite /cl !decide_True; lia.
    + intros p Hp. rewrite /cl !decide_True; lia.
Qed.

End fusion.

(** X21.  Spider fusion: for [b > 0] the composite
    [spiders(a, b, typ) >> spiders(b, c, typ)] is [spiders(a, c, typ)],
    field by field. *)
Theorem spider_fusion (C : Category) (L : CategoryLaws C)
    (a b c : nat) (typ : list Ob) :
  0 < b →
  ∃ s s' r, spiders a b typ = Ok s ∧ spiders b c typ = Ok s' ∧
            spiders a c typ = Ok r ∧ then_ s s' = Ok r.
Proof.
  intros Hb.
  exists (spiders_hyp a b typ), (spiders_hyp b c typ), (spiders_hyp a c typ).
  split_and!; [apply spiders_spec..|by apply then_spiders].
Qed.

Lemma spider_fusion_witness :
  0 < 2 ∧
  ∃ s s' r, spiders 1 2 [Pivotal.x; Pivotal.y] = Ok s ∧
    spiders 2 3 [Pivotal.x; Pivotal.y] = Ok s' ∧
    spiders 1 3 [Pivotal.x; Pivotal.y] = Ok r ∧ then_ s s' = Ok r.
Proof.
  split; [lia|].
  apply (spider_fusion Pivotal.cat Pivotal_laws 1 2 3 [Pivotal.x; Pivotal.y]).
  lia.
Defined.

(** ** The predicates on a tensor *)

(** Where the ports of the two factors go in a tensor: the three segments
    (domain, boxes, codomain) of the factors are interleaved. *)
Definition embed_l (a1 b1 a2 b2 p : nat) : nat :=
  if decide (p < a1) then p
  else if decide (p < a1 + b1) then a2 + p else a2 + b2 + p.

Definition embed_r (a1 b1 c1 a2 b2 p : nat) : nat :=
  if decide (p < a2) then a1 + p
  else if decide (p < a2 + b2) then a1 + b1 + p else a1 + b1 + c1 + p.

Ltac solve_lookup_app :=
  repeat first
    [ rewrite lookup_app_l; [|rewrite ?length_app; lia]
    | rewrite lookup_app_r; [|rewrite ?length_app; lia] ];
  rewrite ?length_app; try (f_equal; lia).

Lemma lookup_embed_l {X} (A1 B1 C1 A2 B2 C2 : list X) p :
  p < length A1 + length B1 + length C1 →
  ((A1 ++ A2) ++ (B1 ++ B2) ++ (C1 ++ C2))
    !! embed_l (length A1) (length B1) (length A2) (length B2) p
  = (A1 ++ B1 ++ C1) !! p.
Proof.
  intros Hp. rewrite /embed_l. repeat case_decide; solve_lookup_app.
Qed.

Lemma lookup_embed_r {X} (A1 B1 C1 A2 B2 C2 : list X) p :
  ((A1 ++ A2) ++ (B1 ++ B2) ++ (C1 ++ C2))
    !! embed_r (length A1) (length B1) (length C1) (length A2) (length B2) p
  = (A2 ++ B2 ++ C2) !! p.
Proof.
  rewrite /embed_r. repeat case_decide; solve_lookup_app.
Qed.

Lemma embed_cover a1 b1 c1 a2 b2 c2 q :
  q < (a1 + a2) + (b1 + b2) + (c1 + c2) →
  (∃ p, p < a1 + b1 + c1 ∧ q = embed_l a1 b1 a2 b2 p) ∨
  (∃ p, p < a2 + b2 + c2 ∧ q = embed_r a1 b1 c1 a2 b2 p).
Proof.
  intros Hq. rewrite /embed_l /embed_r.
  destruct (decide (q < a1)); [left; exists q; repeat case_decide; lia|].
  destruct (decide (q < a1 + a2));
    [right; exists (q - a1); repeat case_decide; lia|].
  destruct (decide (q < a1 + a2 + b1));
    [left; exists (q - a2); repeat case_decide; lia|].
  destruct (decide (q < a1 + a2 + b1 + b2));
    [right; exists (q - a1 - b1); repeat case_decide; lia|].
  destruct (decide (q < a1 + a2 + b1 + b2 + c1));
    [left; exists (q - a2 - b2); repeat case_decide; lia|].
  right. exists (q - a1 - b1 - c1). repeat case_decide; lia.
Qed.

Lemma embed_l_mono a1 b1 a2 b2 p q :
  p < q ↔ embed_l a1 b1 a2 b2 p < embed_l a1 b1 a2 b2 q.
Proof. rewrite /embed_l. repeat case_decide; lia. Qed.

Lemma embed_r_mono a1 b1 c1 a2 b2 p q :
  p < q ↔ embed_r a1 b1 c1 a2 b2 p < embed_r a1 b1 c1 a2 b2 q.
Proof. rewrite /embed_r. repeat case_decide; lia. Qed.

Lemma lookup_embed_l' {X} (A1 B1 C1 A2 B2 C2 : list X) a1 b1 a2 b2 p :
  length A1 = a1 → length B1 = b1 → length A2 = a2 → length B2 = b2 →
  p < a1 + b1 + length C1 →
  ((A1 ++ A2) ++ (B1 ++ B2) ++ (C1 ++ C2)) !! embed_l a1 b1 a2 b2 p
  = (A1 ++ B1 ++ C1) !! p.
Proof. intros <- <- <- <-. apply lookup_embed_l. Qed.

Lemma lookup_embed_r' {X} (A1 B1 C1 A2 B2 C2 : list X) a1 b1 c1 a2 b2 p :
  length A1 = a1 → length B1 = b1 → length C1 = c1 →
  length A2 = a2 → length B2 = b2 →
  ((A1 ++ A2) ++ (B1 ++ B2) ++ (C1 ++ C2)) !! embed_r a1 b1 c1 a2 b2 p
  = (A2 ++ B2 ++ C2) !! p.
Proof. intros <- <- <- <- <-. apply lookup_embed_r. Qed.

Section tensor_legs.
Context `{C : Category} `{!CategoryLaws C}.
Implicit Types (f g h : Hypergraph) (s p q : nat) (side : bool).

Local Abbreviation φl f g :=
  (embed_l (length (dom f)) (n_box_ports (boxes f))
           (length (dom g)) (n_box_ports (boxes g))).
Local Abbreviation φr f g :=
  (embed_r (length (dom f)) (n_box_ports (boxes f)) (length (cod f))
           (length (dom g)) (n_box_ports (boxes g))).
Local Abbreviation ρ f g := (ren (tensor_r f g)).

Lemma wires_parts f :
  wf f →
  wires f = wires_dom f ++ wires_mid f ++ wires_cod f ∧
  length (wires_dom f) = length (dom f) ∧
  length (wires_mid f) = n_box_ports (boxes f) ∧
  length (wires_cod f) = length (cod f).
Proof.
  intros Hwf. pose proof (wf_length _ Hwf) as Hlen.
  rewrite /ports length_ports_of in Hlen.
  split; [symmetry; by apply wf_segments|].
  rewrite /wires_dom /wires_mid /wires_cod /slice.
  rewrite !length_take !length_drop. lia.
Qed.

Lemma sides_parts f :
  sides_of (dom f) (cod f) (boxes f)
  = replicate (length (dom f)) true ++ mjoin (box_sides <$> boxes f)
    ++ replicate (length (cod f)) false.
Proof. done. Qed.

Lemma sides_tensor f g :
  sides_of (dom f ++ dom g) (cod f ++ cod g) (boxes f ++ boxes g)
  = (replicate (length (dom f)) true ++ replicate (length (dom g)) true)
    ++ (mjoin (box_sides <$> boxes f) ++ mjoin (box_sides <$> boxes g))
    ++ (replicate (length (cod f)) false ++ replicate (length (cod g)) false).
Proof. by rewrite /sides_of !length_app !replicate_add fmap_app join_app. Qed.

Lemma tensor_port_l f g p :
  wf f → wf g → p < length (wires f) →
  sides_of (dom f ++ dom g) (cod f ++ cod g) (boxes f ++ boxes g)
    !! φl f g p = sides_of (dom f) (cod f) (boxes f) !! p ∧
  tensor_wires f g !! φl f g p = wires f !! p.
Proof.
  intros Hf Hg Hp.
  destruct (wires_parts f Hf) as (Hw & Hd & Hm & Hc).
  destruct (wires_parts g Hg) as (Hw' & Hd' & Hm' & Hc').
  rewrite Hw !length_app Hd Hm Hc in Hp. split.
  - rewrite sides_tensor sides_parts.
    apply lookup_embed_l'; rewrite ?length_replicate //. lia.
  - rewrite Hw /tensor_wires.
    apply lookup_embed_l'; rewrite ?length_fmap //. lia.
Qed.

Lemma tensor_port_r f g p :
  wf f → wf g →
  sides_of (dom f ++ dom g) (cod f ++ cod g) (boxes f ++ boxes g)
    !! φr f g p = sides_of (dom g) (cod g) (boxes g) !! p ∧
  tensor_wires f g !! φr f g p = (λ i, n_spiders f + i) <$> wires g !! p.
Proof.
  intros Hf Hg.
  destruct (wires_parts f Hf) as (Hw & Hd & Hm & Hc).
  destruct (wires_parts g Hg) as (Hw' & Hd' & Hm' & Hc'). split.
  - rewrite sides_tensor (sides_parts g).
    apply lookup_embed_r'; by rewrite ?length_replicate.
  - rewrite -list_lookup_fmap Hw' !fmap_app /tensor_wires.
    apply lookup_embed_r'; by rewrite ?length_fmap.
Qed.

Lemma tensor_port_cover f g q :
  wf f → wf g → q < length (tensor_wires f g) →
  (∃ p, p < length (wires f) ∧ q = φl f g p) ∨
  (∃ p, p < length (wires g) ∧ q = φr f g p).
Proof.
  intros Hf Hg.
  destruct (wires_parts f Hf) as (Hw & Hd & Hm & Hc).
  destruct (wires_parts g Hg) as (Hw' & Hd' & Hm' & Hc').
  rewrite /tensor_wires Hw Hw' !length_app !length_fmap.
  rewrite Hd Hm Hc Hd' Hm' Hc' !Nat.add_assoc. intros Hq.
  apply (embed_cover _ _ (length (cod f)) _ _ (length (cod g))). lia.
Qed.

Lemma tensor_ren_inj f g x y :
  wf f → wf g → x < n_spiders f + n_spiders g →
  y < n_spiders f + n_spiders g → ρ f g x = ρ f g y → x = y.
Proof.
  intros Hf Hg Hx Hy. pose proof (tensor_r_perm f g Hf Hg) as Hperm.
  apply ren_inj; rewrite Hperm; apply elem_of_seq; lia.
Qed.

Lemma NoDup_legs h side s : wf h → s < n_spiders h → NoDup (legs side s h).
Proof.
  intros Hwf Hs. destruct (spider_legs h Hwf) as (sw & Hsw & Hn & Hall).
  destruct (spider_wires_legs h Hwf) as (sw' & Hsw' & _ & Hlegs).
  assert (sw' = sw) as -> by congruence.
  destruct (Hall s _ (Hlegs s Hs)) as (Hnd & _). simpl in Hnd.
  apply NoDup_app in Hnd as (H1 & _ & H2). by destruct side.
Qed.

(** The legs of a spider of the tensor are the legs of the spider of the
    factor it comes from, at the places the ports of that factor go to. *)
Lemma tensor_legs_l f g h side s q :
  wf f → wf g → tensor f g = Ok h → s < n_spiders f →
  q ∈ legs side (ρ f g s) h ↔ ∃ p, q = φl f g p ∧ p ∈ legs side s f.
Proof.
  intros Hf Hg Hh Hs.
  destruct (tensor_Ok f g Hf Hg) as (types & Ht & Hok).
  rewrite Hok in Hh. injection Hh as <-.
  rewrite elem_of_legs /=. split.
  - intros [Hside Hw]. rewrite list_lookup_fmap in Hw.
    destruct (tensor_port_cover f g q Hf Hg) as [(p & Hp & ->)|(p & Hp & ->)].
    { apply fmap_Some in Hw as (w & Hw%lookup_lt_Some & _). done. }
    + exists p. split; [done|]. apply elem_of_legs.
      destruct (tensor_port_l f g p Hf Hg Hp) as [H1 H2].
      rewrite H1 in Hside. rewrite H2 in Hw. split; [done|].
      apply fmap_Some in Hw as (w & Hw & Heq). rewrite Hw. f_equal.
      pose proof (wf_wires_lt f w Hf (list_elem_of_lookup_2 _ _ _ Hw)).
      apply (tensor_ren_inj f g); [done..|lia|lia|done].
    + exfalso. destruct (tensor_port_r f g p Hf Hg) as [H1 H2].
      rewrite H2 in Hw.
      apply fmap_Some in Hw as (w & (w' & Hw' & ->)%fmap_Some & Heq).
      pose proof (wf_wires_lt g w' Hg (list_elem_of_lookup_2 _ _ _ Hw')).
      apply (tensor_ren_inj f g) in Heq; [lia|done..|lia|lia].
  - intros (p & -> & [Hside Hw]%elem_of_legs).
    pose proof (lookup_lt_Some _ _ _ Hw) as Hp.
    destruct (tensor_port_l f g p Hf Hg Hp) as [H1 H2].
    by rewrite H1 list_lookup_fmap H2 Hw.
Qed.

Lemma tensor_legs_r f g h side s q :
  wf f → wf g → tensor f g = Ok h → s < n_spiders g →
  q ∈ legs side (ρ f g (n_spiders f + s)) h
  ↔ ∃ p, q = φr f g p ∧ p ∈ legs side s g.
Proof.
  intros Hf Hg Hh Hs.
  destruct (tensor_Ok f g Hf Hg) as (types & Ht & Hok).
  rewrite Hok in Hh. injection Hh as <-.
  rewrite elem_of_legs /=. split.
  - intros [Hside Hw]. rewrite list_lookup_fmap in Hw.
    destruct (tensor_port_cover f g q Hf Hg) as [(p & Hp & ->)|(p & Hp & ->)].
    { apply fmap_Some in Hw as (w & Hw%lookup_lt_Some & _). done. }
    + exfalso. destruct (tensor_port_l f g p Hf Hg Hp) as [H1 H2].
      rewrite H2 in Hw. apply fmap_Some in Hw as (w & Hw & Heq).
      pose proof (wf_wires_lt f w Hf (list_elem_of_lookup_2 _ _ _ Hw)).
      apply (tensor_ren_inj f g) in Heq; [lia|done..|lia|lia].
    + exists p. split; [done|]. apply elem_of_legs.
      destruct (tensor_port_r f g p Hf Hg) as [H1 H2].
      rewrite H1 in Hside. rewrite H2 in Hw. split; [done|].
      apply fmap_Some in Hw as (w & (w' & Hw' & ->)%fmap_Some & Heq).
      rewrite Hw'. f_equal.
      pose proof (wf_wires_lt g w' Hg (list_elem_of_lookup_2 _ _ _ Hw')).
      apply (tensor_ren_inj f g) in Heq; [lia|done..|lia|lia].
  - intros (p & -> & [Hside Hw]%elem_of_legs).
    destruct (tensor_port_r f g p Hf Hg) as [H1 H2].
    by rewrite H1 list_lookup_fmap H2 Hw.
Qed.

End tensor_legs.

(** A property of the two sets of legs of a spider that only depends on
    the numbers of legs and on their order. *)
Definition leg_invariant (Q : list nat → list nat → Prop) : Prop :=
  ∀ (φ : nat → nat) l1 l2 l1' l2',
    (∀ p q, p < q ↔ φ p < φ q) →
    NoDup l1 → NoDup l2 → NoDup l1' → NoDup l2' →
    (∀ q, q ∈ l1' ↔ ∃ p, q = φ p ∧ p ∈ l1) →
    (∀ q, q ∈ l2' ↔ ∃ p, q = φ p ∧ p ∈ l2) →
    (Q l1' l2' ↔ Q l1 l2).

Lemma embedded_length (φ : nat → nat) (l l' : list nat) :
  (∀ p q, p < q ↔ φ p < φ q) → NoDup l → NoDup l' →
  (∀ q, q ∈ l' ↔ ∃ p, q = φ p ∧ p ∈ l) → length l' = length l.
Proof.
  intros Hφ Hl Hl' Hiff. rewrite -(length_fmap φ l).
  apply Permutation_length, NoDup_Permutation; [done| |].
  - apply NoDup_fmap_2_strong; [|done]. intros p q _ _ Hpq.
    destruct (Nat.lt_trichotomy p q) as [H|[H|H]]; [|done|];
      apply Hφ in H; lia.
  - intros q. rewrite Hiff list_elem_of_fmap. naive_solver.
Qed.

Lemma leg_invariant_monogamous :
  leg_invariant (λ l1 l2,
    length l1 = length l2 ∧ length l1 + length l2 ∈ [0; 2]).
Proof.
  intros φ l1 l2 l1' l2' Hφ H1 H2 H1' H2' Hi1 Hi2.
  by rewrite (embedded_length φ l1 l1') // (embedded_length φ l2 l2').
Qed.

Lemma leg_invariant_bijective :
  leg_invariant (λ l1 l2, length l1 + length l2 ∈ [0; 2]).
Proof.
  intros φ l1 l2 l1' l2' Hφ H1 H2 H1' H2' Hi1 Hi2.
  by rewrite (embedded_length φ l1 l1') // (embedded_length φ l2 l2').
Qed.

Lemma leg_invariant_polygynous :
  leg_invariant (λ l1 l2, length l1 + length l2 ≠ 0 → length l1 = 1).
Proof.
  intros φ l1 l2 l1' l2' Hφ H1 H2 H1' H2' Hi1 Hi2.
  by rewrite (embedded_length φ l1 l1') // (embedded_length φ l2 l2').
Qed.

Lemma leg_invariant_causal :
  leg_invariant (λ l1 l2,
    length l1 = 1 ∧ ∀ u v, u ∈ l1 → v ∈ l2 → u < v).
Proof.
  intros φ l1 l2 l1' l2' Hφ H1 H2 H1' H2' Hi1 Hi2.
  rewrite (embedded_length φ l1 l1') //. split; intros [Hlen Hord].
  - split; [done|]. intros u v Hu Hv. apply (proj2 (Hφ u v)), Hord.
    + apply Hi1. by exists u.
    + apply Hi2. by exists v.
  - split; [done|]. intros u' v' (u & -> & Hu)%Hi1 (v & -> & Hv)%Hi2.
    by apply (proj1 (Hφ u v)), Hord.
Qed.

Section tensor_predicates.
Context `{C : Category} `{!CategoryLaws C}.
Implicit Types (f g h : Hypergraph) (s p q : nat).

Lemma tensor_forall_legs f g h (Q : list nat → list nat → Prop) :
  wf f → wf g → tensor f g = Ok h → leg_invariant Q →
  (∀ s, s < n_spiders h → Q (legs true s h) (legs false s h)) ↔
  (∀ s, s < n_spiders f → Q (legs true s f) (legs false s f)) ∧
  (∀ s, s < n_spiders g → Q (legs true s g) (legs false s g)).
Proof.
  intros Hf Hg Hh HQ.
  assert (wf h) as Hwf by by eapply constructed_wf, tensor_constructed.
  destruct (tensor_success f g Hf Hg) as (h' & Hh' & _ & _ & _ & Hn).
  assert (h' = h) as -> by congruence.
  pose proof (tensor_r_perm f g Hf Hg) as Hperm.
  assert (∀ x, x < n_spiders f + n_spiders g →
            ren (tensor_r f g) x < n_spiders h) as Hlt.
  { intros x Hx. rewrite Hn -(length_seq (n_spiders f + n_spiders g) 0) -Hperm.
    apply ren_lt. rewrite Hperm. apply elem_of_seq. lia. }
  assert (∀ s, s < n_spiders f →
            Q (legs true (ren (tensor_r f g) s) h)
              (legs false (ren (tensor_r f g) s) h)
            ↔ Q (legs true s f) (legs false s f)) as Hl.
  { intros s Hs.
    apply (HQ (embed_l (length (dom f)) (n_box_ports (boxes f))
                       (length (dom g)) (n_box_ports (boxes g)))).
    - apply embed_l_mono.
    - by apply NoDup_legs.
    - by apply NoDup_legs.
    - apply NoDup_legs; [done|]. apply Hlt. lia.
    - apply NoDup_legs; [done|]. apply Hlt. lia.
    - intros q. by apply tensor_legs_l.
    - intros q. by apply tensor_legs_l. }
  assert (∀ s, s < n_spiders g →
            Q (legs true (ren (tensor_r f g) (n_spiders f + s)) h)
              (legs false (ren (tensor_r f g) (n_spiders f + s)) h)
            ↔ Q (legs true s g) (legs false s g)) as Hr.
  { intros s Hs.
    apply (HQ (embed_r (length (dom f)) (n_box_ports (boxes f))
                       (length (cod f))
                       (length (dom g)) (n_box_ports (boxes g)))).
    - apply embed_r_mono.
    - by apply NoDup_legs.
    - by apply NoDup_legs.
    - apply NoDup_legs; [done|]. apply Hlt. lia.
    - apply NoDup_legs; [done|]. apply Hlt. lia.
    - intros q. by apply tensor_legs_r.
    - intros q. by apply tensor_legs_r. }
  split.
  - intros Hall. split; intros s Hs.
    + apply Hl; [done|]. apply Hall, Hlt. lia.
    + apply Hr; [done|]. apply Hall, Hlt. lia.
  - intros [Hallf Hallg] s Hs.
    assert (s < length (tensor_r f g)) as Hs'.
    { by rewrite Hperm length_seq -Hn. }
    destruct (lookup_lt_is_Some_2 _ _ Hs') as [x Hx].
    assert (x < n_spiders f + n_spiders g) as Hxn.
    { apply list_elem_of_lookup_2 in Hx. rewrite Hperm in Hx.
      apply elem_of_seq in Hx. lia. }
    assert (ren (tensor_r f g) x = s) as <-.
    { apply ren_lookup; [|done]. rewrite Hperm. apply NoDup_seq. }
    destruct (decide (x < n_spiders f)) as [Hxf|Hxf].
    + apply Hl; [done|]. by apply Hallf.
    + replace x with (n_spiders f + (x - n_spiders f)) by lia.
      apply Hr; [lia|]. apply Hallg. lia.
Qed.

Lemma andb_intro (b c d : bool) (P Pf Pg : Prop) :
  (b = true ↔ P) → (c = true ↔ Pf) → (d = true ↔ Pg) → (P ↔ Pf ∧ Pg) →
  b = c && d.
Proof.
  intros Hb Hc Hd HP. apply eq_true_iff_eq.
  rewrite andb_true_iff. tauto.
Qed.

Lemma is_bijective_legs h :
  wf h →
  is_bijective h = true ↔
  ∀ s, s < n_spiders h →
    length (legs true s h) + length (legs false s h) ∈ [0; 2].
Proof.
  intros Hwf. rewrite is_bijective_true.
  split; intros Hall s Hs; specialize (Hall s Hs).
  - by rewrite legs_count.
  - by rewrite legs_count in Hall.
Qed.

Lemma is_polygynous_legs' h :
  wf h →
  ∃ b, is_polygynous h = Ok b ∧
    (b = true ↔
     ∀ s, s < n_spiders h →
       length (legs true s h) + length (legs false s h) ≠ 0 →
       length (legs true s h) = 1).
Proof.
  intros Hwf. destruct (is_polygynous_legs h Hwf) as (b & Hb & Hiff).
  exists b. split; [done|]. rewrite Hiff.
  split; intros Hall s Hs; specialize (Hall s Hs).
  - by rewrite legs_count.
  - by rewrite legs_count in Hall.
Qed.

End tensor_predicates.

(** X22.  The tensor of two hypergraphs has one of the properties
    bijective, monogamous, polygynous, causal exactly when both factors
    have it. *)
Theorem tensor_predicates (C : Category) (L : CategoryLaws C)
    (f g h : Hypergraph) :
  constructed f → constructed g → tensor f g = Ok h →
  is_bijective h = is_bijective f && is_bijective g ∧
  (∃ a b, is_monogamous f = Ok a ∧ is_monogamous g = Ok b ∧
          is_monogamous h = Ok (a && b)) ∧
  (∃ a b, is_polygynous f = Ok a ∧ is_polygynous g = Ok b ∧
          is_polygynous h = Ok (a && b)) ∧
  (∃ a b, is_causal f = Ok a ∧ is_causal g = Ok b ∧
          is_causal h = Ok (a && b)).
Proof.
  intros Hf%constructed_wf Hg%constructed_wf Hh.
  assert (wf h) as Hwf by by eapply constructed_wf, tensor_constructed.
  split_and!.
  - eapply andb_intro; [by apply is_bijective_legs..|].
    apply (tensor_forall_legs f g h _ Hf Hg Hh leg_invariant_bijective).
  - destruct (is_monogamous_legs f Hf) as (a & Ha & Hia).
    destruct (is_monogamous_legs g Hg) as (b & Hb & Hib).
    destruct (is_monogamous_legs h Hwf) as (c & Hc & Hic).
    exists a, b. split_and!; [done..|]. rewrite Hc. f_equal.
    eapply andb_intro; [done..|].
    apply (tensor_forall_legs f g h _ Hf Hg Hh leg_invariant_monogamous).
  - destruct (is_polygynous_legs' f Hf) as (a & Ha & Hia).
    destruct (is_polygynous_legs' g Hg) as (b & Hb & Hib).
    destruct (is_polygynous_legs' h Hwf) as (c & Hc & Hic).
    exists a, b. split_and!; [done..|]. rewrite Hc. f_equal.
    eapply andb_intro; [done..|].
    apply (tensor_forall_legs f g h _ Hf Hg Hh leg_invariant_polygynous).
  - destruct (is_causal_legs f Hf) as (a & Ha & Hia).
    destruct (is_causal_legs g Hg) as (b & Hb & Hib).
    destruct (is_causal_legs h Hwf) as (c & Hc & Hic).
    exists a, b. split_and!; [done..|]. rewrite Hc. f_equal.
    eapply andb_intro; [done..|].
    apply (tensor_forall_legs f g h _ Hf Hg Hh leg_invariant_causal).
Qed.

Lemma tensor_predicates_witness :
  ∃ h,
    tensor (mkHypergraph [Pivotal.x] [Pivotal.y]
              [Pivotal.Gen "f" [Pivotal.x] [Pivotal.y] false]
              [0; 0; 1; 1] [Pivotal.x; Pivotal.y] [None])
           (mkHypergraph [Pivotal.y] [Pivotal.z]
              [Pivotal.Gen "g" [Pivotal.y] [Pivotal.z] false]
              [0; 0; 1; 1] [Pivotal.y; Pivotal.z] [None]) = Ok h ∧
    wires h = [0; 1; 0; 2; 1; 3; 2; 3] ∧
    is_bijective h = true ∧ is_monogamous h = Ok true ∧
    is_polygynous h = Ok true ∧ is_causal h = Ok true.
Proof.
  eexists. split; [vm_compute; reflexivity|]. split; [reflexivity|].
  destruct (tensor_predicates Pivotal.cat Pivotal_laws
              (mkHypergraph [Pivotal.x] [Pivotal.y]
                 [Pivotal.Gen "f" [Pivotal.x] [Pivotal.y] false]
                 [0; 0; 1; 1] [Pivotal.x; Pivotal.y] [None])
              (mkHypergraph [Pivotal.y] [Pivotal.z]
                 [Pivotal.Gen "g" [Pivotal.y] [Pivotal.z] false]
                 [0; 0; 1; 1] [Pivotal.y; Pivotal.z] [None])
              (mkHypergraph [Pivotal.x; Pivotal.y] [Pivotal.y; Pivotal.z]
                 [Pivotal.Gen "f" [Pivotal.x] [Pivotal.y] false;
                  Pivotal.Gen "g" [Pivotal.y] [Pivotal.z] false]
                 [0; 1; 0; 2; 1; 3; 2; 3]
                 [Pivotal.x; Pivotal.y; Pivotal.y; Pivotal.z] [None; None]))
    as (Hb & (a1 & b1 & Ha1 & Hb1 & Hm) & (a2 & b2 & Ha2 & Hb2 & Hp)
        & (a3 & b3 & Ha3 & Hb3 & Hc)).
  { exists [Pivotal.x], [Pivotal.y],
      [Pivotal.Gen "f" [Pivotal.x] [Pivotal.y] false],
      [0; 0; 1; 1], NoTypes, None.
    vm_compute. reflexivity. }
  { exists [Pivotal.y], [Pivotal.z],
      [Pivotal.Gen "g" [Pivotal.y] [Pivotal.z] false],
      [0; 0; 1; 1], NoTypes, None.
    vm_compute. reflexivity. }
  { vm_compute. reflexivity. }
  vm_compute in Ha1, Hb1, Ha2, Hb2, Ha3, Hb3.
  injection Ha1 as <-. injection Hb1 as <-. injection Ha2 as <-.
  injection Hb2 as <-. injection Ha3 as <-. injection Hb3 as <-.
  split_and!; [exact Hb|exact Hm|exact Hp|exact Hc].
Defined.
